(** * Content-optimizer pipeline: shallow embedding of the orchestration core

    The development follows [src/index.tsx]: the response cache, the
    word-count gate, the retrying invoker, [extractJson] and the four
    functions of the link-integrity subsystem; then the helpers around
    them: [sanitizeHtmlResponse], the YouTube identifiers and embeds, the
    reducer of the item list, the worker pool and the default slug.  The
    last part follows the four link functions through documents that
    hold malformed tokens.

    Conventions.
    - A JavaScript string is a [list ascii]: the sequence of its code units,
      for strings whose code units are below 256 (Latin-1).  [txt] turns a
      literal into such a list.
    - A regular expression of the source is embedded as a matcher that is
      tried at one position of the subject and returns what the regular
      expression engine would return there (the capture groups and the
      length of the match); [replace_all] is [String.prototype.replace]
      with a global pattern, built on such a matcher.
    - Exceptions are values: a function that may throw returns a sum.
    - [Date.now()], [console.*] and the wrapped asynchronous call are made
      explicit: the clock is an argument, the console a list of events, the
      call an oracle indexed by the attempt number. *)

From Stdlib Require Import Ascii String List ZArith Lia Bool Floats Uint63
DecimalString.
From stdpp Require Import gmap strings.
Import ListNotations.

Set Warnings "-register-all".

Local Open Scope list_scope.
Local Open Scope nat_scope.

(** ** JavaScript strings *)

Module Js.

Definition str := list ascii.

Definition txt (s : string) : str := list_ascii_of_string s.

Definition code (c : ascii) : nat := nat_of_ascii c.

Definition ch_eqb (a b : ascii) : bool := Ascii.eqb a b.
Arguments ch_eqb : simpl never.

Fixpoint str_eqb (a b : str) : bool :=
  match a, b with
  | [], [] => true
  | x :: a', y :: b' => ch_eqb x y && str_eqb a' b'
  | _, _ => false
  end.

(** [\s] of a regular expression, which is also what [trim] strips:
    TAB, LF, VT, FF, CR, SPACE and NBSP are the members below 256. *)
Definition is_space (c : ascii) : bool :=
  let n := code c in
  ((9 <=? n) && (n <=? 13)) || (n =? 32) || (n =? 160).
Arguments is_space : simpl never.

(** [\d] *)
Definition is_digit (c : ascii) : bool :=
  let n := code c in (48 <=? n) && (n <=? 57).

(** [String.prototype.toLowerCase] on one code unit: A-Z, and the
    Latin-1 capitals U+00C0..U+00DE but the multiplication sign. *)
Definition lower_ch (c : ascii) : ascii :=
  let n := code c in
  if ((65 <=? n) && (n <=? 90))
     || ((192 <=? n) && (n <=? 222) && negb (n =? 215))
  then ascii_of_nat (n + 32) else c.

Definition toLowerCase (s : str) : str := map lower_ch s.

(** [s.startsWith(p)], returning the rest of [s] after [p]. *)
Fixpoint strip_prefix (p s : str) : option str :=
  match p, s with
  | [], _ => Some s
  | a :: p', b :: s' => if ch_eqb a b then strip_prefix p' s' else None
  | _ :: _, [] => None
  end.

Definition starts_with (p s : str) : bool :=
  match strip_prefix p s with Some _ => true | None => false end.

(** [s.indexOf(p)]; [None] stands for -1. *)
Fixpoint indexOf (p s : str) : option nat :=
  if starts_with p s then Some 0
  else match s with
       | [] => None
       | _ :: s' => option_map S (indexOf p s')
       end.

(** [s.includes(p)] *)
Definition includes (p s : str) : bool :=
  match indexOf p s with Some _ => true | None => false end.

Fixpoint trim_start (s : str) : str :=
  match s with
  | c :: s' => if is_space c then trim_start s' else s
  | [] => []
  end.

Definition trim_end (s : str) : str := rev (trim_start (rev s)).

(** [s.trim()] *)
Definition trim (s : str) : str := trim_end (trim_start s).

(** The longest run of characters satisfying [p] at the head of [s],
    and what follows it: a greedy [[...]*]. *)
Fixpoint span (p : ascii -> bool) (s : str) : str * str :=
  match s with
  | c :: s' =>
      if p c then let '(a, b) := span p s' in (c :: a, b) else ([], s)
  | [] => ([], [])
  end.

(** [s.split(/\s+/)]: the pieces between maximal runs of white space.
    An empty piece appears at either end when the string starts or ends
    with white space, and the empty string gives one empty piece. *)
Fixpoint split_ws_from (cur : str) (in_ws : bool) (s : str) : list str :=
  match s with
  | [] => [rev cur]
  | c :: s' =>
      if is_space c
      then if in_ws then split_ws_from [] true s'
           else rev cur :: split_ws_from [] true s'
      else split_ws_from (c :: cur) false s'
  end.

Definition split_ws (s : str) : list str := split_ws_from [] false s.

(** [s.split(' ')]: the pieces between single spaces. *)
Fixpoint split_space_from (cur : str) (s : str) : list str :=
  match s with
  | [] => [rev cur]
  | c :: s' =>
      if ch_eqb c " "%char then rev cur :: split_space_from [] s'
      else split_space_from (c :: cur) s'
  end.

Definition split_space (s : str) : list str := split_space_from [] s.

(** [a.join(' ')] *)
Fixpoint join_space (l : list str) : str :=
  match l with
  | [] => []
  | [x] => x
  | x :: l' => x ++ " "%char :: join_space l'
  end.

(** [s.repeat(n)] *)
Fixpoint repeat_str (s : str) (n : nat) : str :=
  match n with O => [] | S k => s ++ repeat_str s k end.

(** A matcher is a regular expression tried at one position: it sees the
    code unit before the position (for look-behind) and the subject from
    the position on, and returns the captured data and the length of the
    match.  None of the patterns of this program matches the empty
    string, so a match has a positive length. *)
Definition matcher (R : Type) := option ascii -> str -> option (R * nat).

(** What a global pattern cuts a subject into: the code units outside
    the matches, and the matches (the matched text and its captures). *)
Inductive token (R : Type) :=
| Lit (c : ascii)
| Hit (whole : str) (r : R).
Arguments Lit {R} c.
Arguments Hit {R} whole r.

(** The scan of a global pattern: matches are looked for from left to
    right and the search resumes after each match.  [skip] counts the
    code units of the current match that are still to be passed. *)
Fixpoint tokens_from {R} (m : matcher R)
    (skip : nat) (prev : option ascii) (s : str) : list (token R) :=
  match s with
  | [] => []
  | c :: s' =>
      match skip with
      | S k => tokens_from m k (Some c) s'
      | O =>
          match m prev s with
          | Some (r, n) => Hit (firstn n s) r :: tokens_from m (pred n) (Some c) s'
          | None => Lit c :: tokens_from m 0 (Some c) s'
          end
      end
  end.

Definition tokens {R} (m : matcher R) (s : str) : list (token R) :=
  tokens_from m 0 None s.

(** [s.replace(/re/g, (match, ...groups) => f match groups)] *)
Definition replace_all {R} (m : matcher R) (f : str -> R -> str) (s : str)
  : str :=
  flat_map (fun t => match t with Lit c => [c] | Hit w r => f w r end)
           (tokens m s).

(** The same when the replacer may throw: [None] is the exception. *)
Fixpoint concat_try {R} (f : str -> R -> option str) (l : list (token R))
  : option str :=
  match l with
  | [] => Some []
  | Lit c :: l' => option_map (cons c) (concat_try f l')
  | Hit w r :: l' =>
      match f w r with
      | Some x => option_map (app x) (concat_try f l')
      | None => None
      end
  end.

Definition replace_all_try {R} (m : matcher R) (f : str -> R -> option str)
    (s : str) : option str :=
  concat_try f (tokens m s).

(** [[...s.matchAll(/re/g)]]: every match, in order. *)
Fixpoint hits {R} (l : list (token R)) : list (str * R) :=
  match l with
  | [] => []
  | Lit _ :: l' => hits l'
  | Hit w r :: l' => (w, r) :: hits l'
  end.

Definition matchAll {R} (m : matcher R) (s : str) : list (str * R) :=
  hits (tokens m s).

(** [s.match(/re/)] without the global flag: the leftmost match. *)
Fixpoint search {R} (m : matcher R) (prev : option ascii) (s : str)
  : option R :=
  match m prev s with
  | Some (r, _) => Some r
  | None =>
      match s with
      | [] => None
      | c :: s' => search m (Some c) s'
      end
  end.

(** [s.replace(/re/, f)] without the global flag: the leftmost match is
    replaced; [None] when the pattern matches nowhere (the source then
    keeps [s]). *)
Fixpoint replace_first_from {R} (m : matcher R) (f : str -> R -> str)
    (prev : option ascii) (s : str) : option str :=
  match m prev s with
  | Some (r, n) => Some (f (firstn n s) r ++ skipn n s)
  | None =>
      match s with
      | [] => None
      | c :: s' => option_map (cons c) (replace_first_from m f (Some c) s')
      end
  end.

Definition replace_first {R} (m : matcher R) (f : str -> R -> str) (s : str)
  : str :=
  match replace_first_from m f None s with
  | Some s' => s'
  | None => s
  end.

(** Steps of a matcher: a literal, and one or more characters of a
    class followed by something outside the class. *)
Definition consumed (s rest : str) : nat := length s - length rest.

Definition dq : ascii := "034"%char.

(** A literal in which the apostrophe stands for the double quote. *)
Definition jq (s : string) : str :=
  map (fun c => if ch_eqb c "'"%char then dq else c) (txt s).

Definition not_ch (x : ascii) : ascii -> bool := fun c => negb (ch_eqb c x).

(** The number of (possibly overlapping) places where [p] occurs. *)
Fixpoint count_occ_str (p s : str) : nat :=
  (if starts_with p s then 1 else 0) +
  match s with
  | [] => 0
  | _ :: s' => count_occ_str p s'
  end.

End Js.

Import Js.

(** ** The response cache ([ContentCache], index.tsx 185-202) *)

Module ContentCache.

Section Cache.
(** The payload is [any] in the source. *)
Context {A : Type}.

Record entry := Entry { data : A; timestamp : Z }.

(** [private TTL = 3600000] *)
Definition TTL : Z := 3600000.

(** [set(key, data)], with [Date.now()] as [now]. *)
Definition set (now : Z) (key : string) (d : A)
    (cache : gmap string entry) : gmap string entry :=
  <[ key := Entry d now ]> cache.

(** [get(key)], with [Date.now()] as [now]: the returned value
    ([None] is [null]) and the store after the call. *)
Definition get (now : Z) (key : string) (cache : gmap string entry)
  : option A * gmap string entry :=
  match cache !! key with
  | Some item =>
      if (now - timestamp item <? TTL)%Z
      then (Some (data item), cache)
      else (None, cache)
  | None => (None, cache)
  end.
End Cache.

End ContentCache.

(** ** The word-count gate ([enforceWordCount], index.tsx 36-52, and the
       finalize stage, index.tsx 4491-4512) *)

Module WordCount.

(** The values the untyped parameter [content] can hold, as far as the
    gate distinguishes them: the primitives.  (Objects are left out.) *)
Inductive js_value :=
| JUndefined
| JNull
| JBoolean (b : bool)
| JNumber (n : Z)
| JString (s : str).

(** [!v] negated: JavaScript truthiness. *)
Definition truthy (v : js_value) : bool :=
  match v with
  | JUndefined | JNull => false
  | JBoolean b => b
  | JNumber n => negb (n =? 0)%Z
  | JString s => match s with [] => false | _ => true end
  end.

(** [typeof v === 'string'] *)
Definition is_string (v : js_value) : bool :=
  match v with JString _ => true | _ => false end.

(** What the gate and the stage can throw. *)
Inductive js_error :=
| TypeError
| ContentTooShortError (message : str) (content : str) (wordCount : nat).

(** What they write on the console. *)
Inductive console_event :=
| LogWordCount (wordCount minWords maxWords : nat)
| WarnOverTarget (over : nat).

(** [/<[^>]*>/]: from a [<] to the next [>]. *)
Definition tag_re : matcher unit := fun _ s =>
  match s with
  | c :: s' =>
      if ch_eqb c "<"%char
      then let '(body, rest) := span (fun x => negb (ch_eqb x ">"%char)) s' in
           match rest with
           | _ :: _ => Some (tt, S (S (length body)))
           | [] => None
           end
      else None
  | [] => None
  end.

(** [/\s+/]: a maximal run of white space. *)
Definition ws_re : matcher unit := fun _ s =>
  match fst (span is_space s) with
  | [] => None
  | w => Some (tt, length w)
  end.

(** [content.replace(/<[^>]*>/g, ' ').replace(/\s+/g, ' ').trim()] *)
Definition text_only (s : str) : str :=
  trim (replace_all ws_re (fun _ _ => txt " ")
          (replace_all tag_re (fun _ _ => txt " ") s)).

(** [textOnly.split(/\s+/).filter(w => w.length > 0).length] *)
Definition count_words (s : str) : nat :=
  length (List.filter (fun w => 0 <? length w) (split_ws (text_only s))).

Definition TARGET_MIN_WORDS : nat := 2200.
Definition TARGET_MAX_WORDS : nat := 2800.
Definition TARGET_MIN_WORDS_PILLAR : nat := 3500.
Definition TARGET_MAX_WORDS_PILLAR : nat := 4500.

(** The error of the guard on the content. *)
Definition guard_error : js_error :=
  ContentTooShortError (txt "Content is undefined or not a string") [] 0.

(** [enforceWordCount(content, minWords, maxWords)]: the console output
    and either the exception or the returned count.  The first statement
    calls [content.replace], which exists on strings only. *)
Definition enforceWordCount (content : js_value) (minWords maxWords : nat)
  : list console_event * (js_error + nat) :=
  match content with
  | JString s =>
      let wordCount := count_words s in
      let out := [LogWordCount wordCount minWords maxWords] in
      if negb (truthy content) || negb (is_string content)
      then (out, inl guard_error)
      else if maxWords <? wordCount
           then (out ++ [WarnOverTarget (wordCount - maxWords)], inr wordCount)
           else (out, inr wordCount)
  | _ => ([], inl TypeError)
  end.

(** Decimal text of a number, as a template literal prints it. *)
Definition show_nat (n : nat) : str :=
  txt (NilEmpty.string_of_uint (Nat.to_uint n)).

Section Finalize.
(** The [content] field of
    [normalizeGeneratedContent({..., content: finalProcessedContent}, title)]
    and the markup [generateSchemaMarkup(generateFullSchema(...))] that the
    stage appends: both depend on data outside the gate. *)
Variable normalizedContent : str -> str.
Variable schemaMarkup : str -> str.

(** The gate of the finalize stage: [enforceWordCount], the assembly of
    [processedContent], then the throw when the count is below the
    minimum.  On success the result is [processedContent.content]. *)
Definition finalize_gate (isPillar : bool) (finalProcessedContent : str)
  : list console_event * (js_error + str) :=
  let minWords :=
    if isPillar then TARGET_MIN_WORDS_PILLAR else TARGET_MIN_WORDS in
  let maxWords :=
    if isPillar then TARGET_MAX_WORDS_PILLAR else TARGET_MAX_WORDS in
  match enforceWordCount (JString finalProcessedContent) minWords maxWords with
  | (out, inl e) => (out, inl e)
  | (out, inr wordCount) =>
      let content :=
        normalizedContent finalProcessedContent
        ++ schemaMarkup finalProcessedContent in
      if wordCount <? minWords
      then (out, inl (ContentTooShortError
                        (txt "Content is too short (" ++ show_nat wordCount
                         ++ txt " words). Target: " ++ show_nat minWords
                         ++ txt "-" ++ show_nat maxWords ++ txt ".")
                        content wordCount))
      else (out, inr content)
  end.
End Finalize.

End WordCount.

(** ** The retrying invoker ([callAiWithRetry], index.tsx 426-493) *)

Module Retry.

(** The fields of a thrown error that the invoker reads: [error.status],
    [error.message] and the [retry-after] header. *)
Record ai_error := AiError {
  status : option nat;
  message : str;
  retry_after : option str
}.

(** [/\[(\d{3})[^\]]*\]/]: a bracket, three digits (captured), anything
    but a closing bracket, a closing bracket. *)
Definition status_re : matcher str := fun _ s =>
  match s with
  | c :: d1 :: d2 :: d3 :: s' =>
      if ch_eqb c "["%char && is_digit d1 && is_digit d2 && is_digit d3
      then let '(body, rest) := span (fun x => negb (ch_eqb x "]"%char)) s' in
           match rest with
           | _ :: _ => Some ([d1; d2; d3], 5 + length body)
           | [] => None
           end
      else None
  | _ => None
  end.

Definition digit_val (c : ascii) : nat := code c - 48.

(** [parseInt(s, 10)] on a string of digits. *)
Definition parse_digits (s : str) : nat :=
  fold_left (fun acc c => 10 * acc + digit_val c) s 0.

(** [parseInt(h, 10)] on a header: leading white space, an optional sign,
    then the longest run of digits; [None] is [NaN].  The value is kept
    as an exact integer, where the source has a double. *)
Definition parseInt (h : str) : option Z :=
  let s := trim_start h in
  let '(neg, s1) :=
    match s with
    | c :: s' => if ch_eqb c "-"%char then (true, s')
                 else if ch_eqb c "+"%char then (false, s') else (false, s)
    | [] => (false, s)
    end in
  match fst (span is_digit s1) with
  | [] => None
  | ds => let n := Z.of_nat (parse_digits ds) in
          Some (if neg then (- n)%Z else n)
  end.

(** [(error.message || '').toLowerCase()] *)
Definition errorMessage (e : ai_error) : str := toLowerCase (message e).

(** [error.status || (statusMatch ? parseInt(statusMatch[1], 10) : null)];
    a status of 0 is falsy. *)
Definition statusCode (e : ai_error) : option nat :=
  match status e with
  | Some (S n) => Some (S n)
  | _ => match search status_re None (errorMessage e) with
         | Some ds => Some (parse_digits ds)
         | None => None
         end
  end.

Definition isNonRetriableClientError (e : ai_error) : bool :=
  match statusCode e with
  | Some (S n) => (400 <=? S n) && (S n <? 500) && negb (S n =? 429)
  | _ => false
  end.

Definition isContextLengthError (e : ai_error) : bool :=
  includes (txt "context length") (errorMessage e)
  || includes (txt "token limit") (errorMessage e).

Definition isInvalidApiKeyError (e : ai_error) : bool :=
  includes (txt "api key not valid") (errorMessage e).

(** How long the invoker sleeps before the next attempt.  The amounts
    involve [Math.random()] and the clock, so a delay is recorded by the
    rule that produced it. *)
Inductive delay :=
| ProviderSeconds (retryAfterSeconds : Z)   (* seconds * 1000 + 500 *)
| ProviderDate (retryAfterHeader : str)     (* date - now + 500 *)
| Backoff (attempt : nat).                  (* initialDelay * 2^attempt + jitter *)

Inductive event :=
| Call (attempt : nat)
| Sleep (d : delay).

Inductive outcome (V : Type) :=
| Returned (v : V)
| Threw (e : ai_error)
| ThrewExhausted.   (* Error("AI call failed after all retries.") *)
Arguments Returned {V} v.
Arguments Threw {V} e.
Arguments ThrewExhausted {V}.

Section Invoker.
Context {V : Type}.
(** The wrapped call: what its [n]-th invocation does. *)
Variable apiCall : nat -> ai_error + V.
(** [!isNaN(new Date(header).getTime())] *)
Variable is_http_date : str -> bool.
Variable maxRetries : nat.

Definition is_429 (e : ai_error) : bool :=
  match status e with Some 429 => true | _ => false end
  || match statusCode e with Some 429 => true | _ => false end.

Definition next_delay (e : ai_error) (attempt : nat) : delay :=
  if is_429 e then
    match retry_after e with
    | Some (c :: h) =>
        match parseInt (c :: h) with
        | Some secs => ProviderSeconds secs
        | None => if is_http_date (c :: h) then ProviderDate (c :: h)
                  else Backoff attempt
        end
    | _ => Backoff attempt
    end
  else Backoff attempt.

(** The loop [for (attempt = 0; attempt < maxRetries; attempt++)], with
    [remaining = maxRetries - attempt] iterations to go. *)
Fixpoint attempts (remaining attempt : nat) : list event * outcome V :=
  match remaining with
  | O => ([], ThrewExhausted)
  | S k =>
      match apiCall attempt with
      | inr v => ([Call attempt], Returned v)
      | inl error =>
          if isNonRetriableClientError error || isContextLengthError error
             || isInvalidApiKeyError error
          then ([Call attempt], Threw error)
          else if attempt =? maxRetries - 1
               then ([Call attempt], Threw error)
               else let '(tr, r) := attempts k (S attempt) in
                    (Call attempt :: Sleep (next_delay error attempt) :: tr, r)
      end
  end.

Definition callAiWithRetry : list event * outcome V :=
  attempts maxRetries 0.

Definition calls (tr : list event) : nat :=
  length (List.filter
            (fun ev => match ev with Call _ => true | _ => false end) tr).
End Invoker.

(** A failure after which the invoker tries again, unless it was the
    last attempt. *)
Definition retriable (e : ai_error) : bool :=
  negb (isNonRetriableClientError e || isContextLengthError e
        || isInvalidApiKeyError e).

(** The three conditions under which the invoker gives up at once, as a
    proposition on the error. *)
Definition fails_fast (e : ai_error) : Prop :=
  (exists s, statusCode e = Some s /\ 400 <= s < 500 /\ s <> 429)
  \/ isContextLengthError e = true
  \/ isInvalidApiKeyError e = true.

End Retry.

(** ** [JSON.parse] and [extractJson] (index.tsx 230-339) *)

Module Json.

(** *** The JSON grammar (ECMA-404), as [JSON.parse] reads it

    The result is the tree of the text; strings and numbers are kept as
    they are written (escape sequences are checked, not decoded). *)
Inductive json :=
| JNull
| JBool (b : bool)
| JNumber (lexeme : str)
| JString (body : str)
| JArray (items : list json)
| JObject (members : list (str * json)).

(** JSON white space: space, TAB, LF, CR. *)
Definition is_json_ws (c : ascii) : bool :=
  let n := code c in (n =? 32) || (n =? 9) || (n =? 10) || (n =? 13).

Definition skip_ws (s : str) : str := snd (span is_json_ws s).

Definition is_hex (c : ascii) : bool :=
  let n := code c in
  is_digit c || ((65 <=? n) && (n <=? 70)) || ((97 <=? n) && (n <=? 102)).

Definition is_simple_escape (c : ascii) : bool :=
  let n := code c in
  (n =? 34) || (n =? 92) || (n =? 47) || (n =? 98) || (n =? 102)
  || (n =? 110) || (n =? 114) || (n =? 116).

(** The characters of a string after its opening quote, up to the
    closing quote: the body as written, and the rest of the text. *)
Fixpoint string_body (s : str) : option (str * str) :=
  match s with
  | [] => None
  | c :: r =>
      if ch_eqb c dq then Some ([], r)
      else if ch_eqb c "\"%char then
        match r with
        | e :: r' =>
            if is_simple_escape e then
              match string_body r' with
              | Some (b, t) => Some (c :: e :: b, t)
              | None => None
              end
            else if ch_eqb e "u"%char then
              match r' with
              | h1 :: h2 :: h3 :: h4 :: r'' =>
                  if is_hex h1 && is_hex h2 && is_hex h3 && is_hex h4 then
                    match string_body r'' with
                    | Some (b, t) => Some (c :: e :: h1 :: h2 :: h3 :: h4 :: b, t)
                    | None => None
                    end
                  else None
              | _ => None
              end
            else None
        | [] => None
        end
      else if code c <? 32 then None
      else match string_body r with
           | Some (b, t) => Some (c :: b, t)
           | None => None
           end
  end.

(** One or more digits. *)
Definition digits1 (s : str) : option (str * str) :=
  match span is_digit s with
  | ([], _) => None
  | (d, r) => Some (d, r)
  end.

(** A number: an optional minus, an integer part without a leading zero,
    an optional fraction, an optional exponent. *)
Definition number (s : str) : option (str * str) :=
  let '(sign, s1) :=
    match s with
    | c :: r => if ch_eqb c "-"%char then ([c], r) else ([], s)
    | [] => ([], s)
    end in
  let int_part :=
    match s1 with
    | c :: r =>
        if ch_eqb c "0"%char then Some ([c], r)
        else if is_digit c then digits1 s1 else None
    | [] => None
    end in
  match int_part with
  | None => None
  | Some (i, s2) =>
      let frac :=
        match s2 with
        | c :: r =>
            if ch_eqb c "."%char then
              match digits1 r with
              | Some (d, t) => Some (c :: d, t)
              | None => None
              end
            else Some ([], s2)
        | [] => Some ([], s2)
        end in
      match frac with
      | None => None
      | Some (f, s3) =>
          let expo :=
            match s3 with
            | c :: r =>
                if ch_eqb c "e"%char || ch_eqb c "E"%char then
                  let '(sg, r1) :=
                    match r with
                    | x :: r' =>
                        if ch_eqb x "+"%char || ch_eqb x "-"%char
                        then ([x], r') else ([], r)
                    | [] => ([], r)
                    end in
                  match digits1 r1 with
                  | Some (d, t) => Some (c :: sg ++ d, t)
                  | None => None
                  end
                else Some ([], s3)
            | [] => Some ([], s3)
            end in
          match expo with
          | None => None
          | Some (e, s4) => Some (sign ++ i ++ f ++ e, s4)
          end
      end
  end.

(** A value, the elements of an array after its opening bracket, and the
    members of an object after its opening brace.  Every call that goes
    one level down has consumed a character, so a fuel of twice the
    length of the text is never exhausted. *)
Fixpoint value (fuel : nat) (s : str) : option (json * str) :=
  match fuel with
  | O => None
  | S k =>
      match skip_ws s with
      | [] => None
      | c :: r =>
          if ch_eqb c "{"%char then
            match skip_ws r with
            | x :: r' =>
                if ch_eqb x "}"%char then Some (JObject [], r')
                else match members k r with
                     | Some (ms, t) => Some (JObject ms, t)
                     | None => None
                     end
            | [] => None
            end
          else if ch_eqb c "["%char then
            match skip_ws r with
            | x :: r' =>
                if ch_eqb x "]"%char then Some (JArray [], r')
                else match elements k r with
                     | Some (vs, t) => Some (JArray vs, t)
                     | None => None
                     end
            | [] => None
            end
          else if ch_eqb c dq then
            match string_body r with
            | Some (b, t) => Some (JString b, t)
            | None => None
            end
          else
            match strip_prefix (txt "true") (c :: r) with
            | Some t => Some (JBool true, t)
            | None =>
            match strip_prefix (txt "false") (c :: r) with
            | Some t => Some (JBool false, t)
            | None =>
            match strip_prefix (txt "null") (c :: r) with
            | Some t => Some (JNull, t)
            | None =>
            match number (c :: r) with
            | Some (n, t) => Some (JNumber n, t)
            | None => None
            end end end end
      end
  end
with elements (fuel : nat) (s : str) : option (list json * str) :=
  match fuel with
  | O => None
  | S k =>
      match value k s with
      | Some (v, r) =>
          match skip_ws r with
          | c :: r' =>
              if ch_eqb c ","%char then
                match elements k r' with
                | Some (vs, t) => Some (v :: vs, t)
                | None => None
                end
              else if ch_eqb c "]"%char then Some ([v], r')
              else None
          | [] => None
          end
      | None => None
      end
  end
with members (fuel : nat) (s : str) : option (list (str * json) * str) :=
  match fuel with
  | O => None
  | S k =>
      match skip_ws s with
      | q :: r0 =>
          if ch_eqb q dq then
            match string_body r0 with
            | Some (key, r1) =>
                match skip_ws r1 with
                | c :: r2 =>
                    if ch_eqb c ":"%char then
                      match value k r2 with
                      | Some (v, r3) =>
                          match skip_ws r3 with
                          | d :: r4 =>
                              if ch_eqb d ","%char then
                                match members k r4 with
                                | Some (ms, t) => Some ((key, v) :: ms, t)
                                | None => None
                                end
                              else if ch_eqb d "}"%char
                                   then Some ([(key, v)], r4)
                                   else None
                          | [] => None
                          end
                      | None => None
                      end
                    else None
                | [] => None
                end
            | None => None
            end
          else None
      | [] => None
      end
  end.

(** [JSON.parse(text)]: one value and nothing but white space around it;
    [None] is the [SyntaxError]. *)
Definition JSON_parse (text : str) : option json :=
  match value (2 * length text + 2) text with
  | Some (v, r) => match skip_ws r with [] => Some v | _ => None end
  | None => None
  end.

(** *** [extractJson] *)

Inductive extract_error :=
| InvalidInput      (* Input text is invalid, empty, or not a string. *)
| NoJsonFound       (* No JSON object/array found. ... *)
| UnableToParse.    (* Unable to parse JSON from AI response after multiple repair attempts. *)

Definition fence : str := txt "```".

(** The pattern that removes an opening fence: at the start of the text,
    three backquotes, an optional [json], white space. *)
Definition strip_open_fence (s : str) : str :=
  match strip_prefix fence s with
  | Some r =>
      trim_start (match strip_prefix (txt "json") r with
                  | Some r' => r'
                  | None => r
                  end)
  | None => s
  end.

(** The pattern that removes a closing fence: white space, three
    backquotes, the end of the text. *)
Definition close_fence_re : matcher unit := fun _ s =>
  let '(_, r) := span is_space s in
  if str_eqb r fence then Some (tt, length s) else None.

(** The global, case-insensitive pattern for a fence with [json] and
    white space after it. *)
Definition fence_json_re : matcher unit := fun _ s =>
  match strip_prefix fence s with
  | Some r =>
      if str_eqb (toLowerCase (firstn 4 r)) (txt "json")
      then Some (tt, consumed s (snd (span is_space (skipn 4 r))))
      else None
  | None => None
  end.

(** The global pattern for a fence and white space after it. *)
Definition fence_re : matcher unit := fun _ s =>
  match strip_prefix fence s with
  | Some r => Some (tt, consumed s (snd (span is_space r)))
  | None => None
  end.

Definition is_closer (c : ascii) : bool :=
  ch_eqb c "}"%char || ch_eqb c "]"%char.

(** The pattern for a trailing comma: a comma, then (captured) white
    space and a closing brace or bracket. *)
Definition trailing_comma_re : matcher str := fun _ s =>
  match s with
  | c :: r =>
      if ch_eqb c ","%char then
        let '(w, t) := span is_space r in
        match t with
        | x :: _ => if is_closer x then Some (w ++ [x], 2 + length w) else None
        | [] => None
        end
      else None
  | [] => None
  end.

(** The repair pattern: a comma that white space and a closing brace or
    bracket follow (a look-ahead: only the comma is matched). *)
Definition comma_before_closer_re : matcher unit := fun _ s =>
  match s with
  | c :: r =>
      if ch_eqb c ","%char then
        match snd (span is_space r) with
        | x :: _ => if is_closer x then Some (tt, 1) else None
        | [] => None
        end
      else None
  | [] => None
  end.

(** The clean-up before the brackets are looked for. *)
Definition clean (text : str) : str :=
  let cleanedText :=
    trim (replace_first close_fence_re (fun _ _ => []) (strip_open_fence text)) in
  let cleanedText :=
    replace_all fence_re (fun _ _ => [])
      (replace_all fence_json_re (fun _ _ => []) cleanedText) in
  replace_all trailing_comma_re (fun _ g1 => g1) cleanedText.

(** The loop that looks for the balanced end, from index [i] on: the
    index where the balance reaches zero, if any, and the final balance. *)
Fixpoint scan (startChar endChar : ascii) (balance : Z)
    (inString escapeNext : bool) (i : nat) (s : str) : option nat * Z :=
  match s with
  | [] => (None, balance)
  | char :: s' =>
      if escapeNext then scan startChar endChar balance inString false (S i) s'
      else if ch_eqb char "\"%char
      then scan startChar endChar balance inString true (S i) s'
      else
        let inString := if ch_eqb char dq then negb inString else inString in
        if inString then scan startChar endChar balance inString false (S i) s'
        else
          let balance :=
            if ch_eqb char startChar then (balance + 1)%Z
            else if ch_eqb char endChar then (balance - 1)%Z
            else balance in
          if (balance =? 0)%Z then (Some i, balance)
          else scan startChar endChar balance inString false (S i) s'
  end.

(** [jsonCandidate], from [potentialJson = startChar :: rest]. *)
Definition candidate (startChar : ascii) (rest : str) : str :=
  let potentialJson := startChar :: rest in
  let endChar := if ch_eqb startChar "{"%char then "}"%char else "]"%char in
  match scan startChar endChar 1 false false 1 rest with
  | (Some endIndex, _) => firstn (endIndex + 1) potentialJson
  | (None, balance) =>
      if (0 <? balance)%Z
      then potentialJson ++ repeat_str [endChar] (Z.to_nat balance)
      else potentialJson
  end.

Definition extractJson (text : str) : extract_error + str :=
  match trim text with
  | [] => inl InvalidInput
  | _ :: _ =>
      match JSON_parse text with
      | Some _ => inr text
      | None =>
          let cleanedText := clean text in
          let firstBracket := indexOf (txt "{") cleanedText in
          let firstSquare := indexOf (txt "[") cleanedText in
          let startIndex :=
            match firstBracket, firstSquare with
            | None, None => None
            | None, Some q => Some q
            | Some b, None => Some b
            | Some b, Some q => Some (Nat.min b q)
            end in
          match startIndex with
          | None => inl NoJsonFound
          | Some i =>
              match skipn i cleanedText with
              | [] => inl NoJsonFound
              | startChar :: rest =>
                  let jsonCandidate := candidate startChar rest in
                  match JSON_parse jsonCandidate with
                  | Some _ => inr jsonCandidate
                  | None =>
                      let repaired :=
                        replace_all comma_before_closer_re (fun _ _ => [])
                          jsonCandidate in
                      match JSON_parse repaired with
                      | Some _ => inr repaired
                      | None => inl UnableToParse
                      end
                  end
              end
          end
      end
  end.

End Json.

(** ** The link-integrity subsystem (index.tsx 832-1066) *)

Module Links.

(** The fields of a [SitemapPage] that the subsystem reads.  A missing
    field and an empty one are both falsy, and are both the empty list. *)
Record page := Page { id : str; title : str; slug : str }.

Definition truthy (s : str) : bool :=
  match s with [] => false | _ => true end.

Definition MIN_INTERNAL_LINKS : nat := 8.

(** One or more characters of a class; the caller checks what follows. *)
Definition many1 (p : ascii -> bool) (s : str) : option (str * str) :=
  match span p s with
  | ([], _) => None
  | (a, r) => Some (a, r)
  end.

(** The placeholder pattern of the repair and resolution functions: the
    token opener, white space, the slug attribute, white space, the text
    attribute, the closing bracket; both attribute values are non-empty
    and free of double quotes, and are captured. *)
Definition placeholder_re : matcher (str * str) := fun _ s =>
  match strip_prefix (txt "[INTERNAL_LINK") s with
  | None => None
  | Some r0 =>
  match many1 is_space r0 with
  | None => None
  | Some (_, r1) =>
  match strip_prefix (jq "slug='") r1 with
  | None => None
  | Some r2 =>
  match many1 (not_ch dq) r2 with
  | None => None
  | Some (slug, r3) =>
  match strip_prefix [dq] r3 with
  | None => None
  | Some r4 =>
  match many1 is_space r4 with
  | None => None
  | Some (_, r5) =>
  match strip_prefix (jq "text='") r5 with
  | None => None
  | Some r6 =>
  match many1 (not_ch dq) r6 with
  | None => None
  | Some (text, r7) =>
  match strip_prefix (jq "']") r7 with
  | None => None
  | Some r8 => Some ((slug, text), consumed s r8)
  end end end end end end end end end.

(** [new Map(pages.map(p => [p.slug, p]))]: a later page replaces an
    earlier one with the same slug. *)
Definition slug_map (pages : list page) : gmap str page :=
  foldl (fun m p => <[ slug p := p ]> m) ∅ pages.

(** Numbers of the scoring are IEEE doubles. *)
Definition num (n : nat) : float :=
  PrimFloat.of_uint63 (Uint63.of_Z (Z.of_nat n)).

(** [new Set(words)], in insertion order. *)
Fixpoint dedupe (l : list str) : list str :=
  match l with
  | [] => []
  | x :: l' => x :: List.filter (fun y => negb (str_eqb x y)) (dedupe l')
  end.

Definition set_has (l : list str) (x : str) : bool :=
  existsb (str_eqb x) l.

(** [lower.split(/\s+/).filter(w => w.length > 2)] *)
Definition meaningful_words (lower : str) : list str :=
  List.filter (fun w => 2 <? length w) (split_ws lower).

(** The score of one page against an anchor text; [None] when the loop
    skips the page ([continue]). *)
Definition score (anchorTextLower : str) (anchorWordSet : list str)
    (p : page) : option float :=
  if negb (truthy (slug p)) || negb (truthy (title p)) then None
  else
    let titleLower := toLowerCase (title p) in
    let s1 := if str_eqb titleLower anchorTextLower then 100%float else 0%float in
    let s2 := if includes anchorTextLower titleLower
              then (s1 + 60)%float else s1 in
    let s3 := if includes titleLower anchorTextLower
              then (s2 + 50)%float else s2 in
    let titleWords := meaningful_words titleLower in
    match titleWords with
    | [] => None
    | _ =>
        let titleWordSet := dedupe titleWords in
        let intersection :=
          List.filter (fun w => set_has titleWordSet w) anchorWordSet in
        match intersection with
        | [] => Some s3
        | _ =>
            let anchorMatchPercentage :=
              (num (length intersection) / num (length anchorWordSet) * 100)%float in
            let titleMatchPercentage :=
              (num (length intersection) / num (length titleWordSet) * 100)%float in
            let overlapScore :=
              ((anchorMatchPercentage + titleMatchPercentage) / 2)%float in
            Some (s3 + overlapScore)%float
        end
    end.

(** The loop over the pages: the best match so far and its score. *)
Definition best_match (text : str) (availablePages : list page)
  : option page * float :=
  let anchorTextLower := toLowerCase text in
  let anchorWordSet := dedupe (meaningful_words anchorTextLower) in
  fold_left
    (fun '(bestMatch, highestScore) p =>
       match score anchorTextLower anchorWordSet p with
       | Some currentScore =>
           if (highestScore <? currentScore)%float
           then (Some p, currentScore)
           else (bestMatch, highestScore)
       | None => (bestMatch, highestScore)
       end)
    availablePages (None, (-1)%float).

(** The replacement of every double quote of [text] by [&quot;]. *)
Definition escape_quotes (text : str) : str :=
  flat_map (fun c => if ch_eqb c dq then txt "&quot;" else [c]) text.

Definition placeholder (slug text : str) : str :=
  jq "[INTERNAL_LINK slug='" ++ slug ++ jq "' text='" ++ text ++ jq "']".

(** The replacer of [validateAndRepairInternalLinks]. *)
Definition repair (availablePages : list page) (whole : str)
    (groups : str * str) : str :=
  let '(slug, text) := groups in
  match slug_map availablePages !! slug with
  | Some _ => whole
  | None =>
      match best_match text availablePages with
      | (Some bestMatch, highestScore) =>
          if (50 <? highestScore)%float
          then placeholder (Links.slug bestMatch) (escape_quotes text)
          else text
      | (None, _) => text
      end
  end.

Definition validateAndRepairInternalLinks (content : str)
    (availablePages : list page) : str :=
  if negb (truthy content) || (length availablePages =? 0) then content
  else replace_all placeholder_re (repair availablePages) content.

(** *** [enforceInternalLinkQuota] *)

(** The pattern of the quota function is the placeholder pattern written
    without capture groups: a match array holds the matched text only. *)
Definition quota_placeholder_re : matcher (list str) := fun prev s =>
  match placeholder_re prev s with
  | Some (_, n) => Some ([], n)
  | None => None
  end.

(** [match[i]]: index 0 is the matched text, the capture groups follow;
    [None] is [undefined]. *)
Definition match_index (m : str * list str) (i : nat) : option str :=
  nth_error (fst m :: snd m) i.

(** The canonical form of a code unit under the [i] flag. *)
Definition canon_ch (c : ascii) : ascii :=
  let n := code c in
  if ((97 <=? n) && (n <=? 122))
     || ((224 <=? n) && (n <=? 254) && negb (n =? 247))
  then ascii_of_nat (n - 32) else c.

(** [term] at the head of [s], case-insensitively: the rest of [s]. *)
Fixpoint strip_prefix_ci (term s : str) : option str :=
  match term, s with
  | [], _ => Some s
  | a :: t', b :: s' =>
      if ch_eqb (canon_ch a) (canon_ch b) then strip_prefix_ci t' s' else None
  | _ :: _, [] => None
  end.

Definition before_class (c : ascii) : bool :=
  ch_eqb c ">"%char || is_space c || ch_eqb c "("%char.

Definition after_class (c : ascii) : bool :=
  ch_eqb c "<"%char || is_space c || ch_eqb c "."%char || ch_eqb c ","%char
  || ch_eqb c "!"%char || ch_eqb c "?"%char || ch_eqb c ")"%char.

(** The search pattern built from a term ([escapeRegExp] makes the term
    a literal): a look-behind for [>], white space or an opening
    parenthesis, the term under the flags [gi], a look-ahead for [<],
    white space, a full stop, comma, exclamation or question mark, or a
    closing parenthesis. *)
Definition search_re (term : str) : matcher unit := fun prev s =>
  match prev with
  | Some b =>
      if before_class b then
        match strip_prefix_ci term s with
        | Some (a :: _) =>
            if after_class a then Some (tt, length term) else None
        | _ => None
        end
      else None
  | None => None
  end.

(** [sort((a, b) => b.length - a.length)]: stable, longest first. *)
Fixpoint insert_by_length (x : str) (l : list str) : list str :=
  match l with
  | [] => [x]
  | y :: l' =>
      if length y <=? length x then x :: y :: l'
      else y :: insert_by_length x l'
  end.

Definition sort_longest_first (l : list str) : list str :=
  fold_right insert_by_length [] l.

(** [a.filter((v, i, a) => a.indexOf(v) === i && v.length > 10)] *)
Fixpoint unique_long_from (seen : list str) (l : list str) : list str :=
  match l with
  | [] => []
  | v :: l' =>
      (if negb (set_has seen v) && (10 <? length v) then [v] else [])
      ++ unique_long_from (seen ++ [v]) l'
  end.

(** [words.slice(0, -1)] *)
Definition drop_last (l : list str) : list str := removelast l.

Definition searchTerms (title : str) : list str :=
  let words := split_space title in
  sort_longest_first
    (unique_long_from []
       ([title]
        ++ (if 4 <? length words then [join_space (drop_last words)] else [])
        ++ (if 3 <? length words then [join_space (tl words)] else []))).

(** The pool of candidate pages, each with its search terms. *)
Definition candidatePages (linkedSlugs : list (option str))
    (availablePages : list page) : list (page * list str) :=
  List.filter (fun c => 0 <? length (snd c))
    (map (fun p => (p, searchTerms (title p)))
       (List.filter
          (fun p =>
             truthy (slug p) && truthy (title p)
             && negb (existsb
                        (fun v => match v with
                                  | Some s => str_eqb s (slug p)
                                  | None => false
                                  end) linkedSlugs)
             && (2 <? length (split_space (title p))))
          availablePages)).

(** The inner loop over the search terms of one page: the replacer
    changes the first match only, so the global replacement is the
    replacement of the leftmost match. *)
Fixpoint place_link (p : page) (terms : list str) (newContent : str)
  : option str :=
  match terms with
  | [] => None
  | term :: terms' =>
      match replace_first_from (search_re term)
              (fun whole _ => placeholder (slug p) whole) None newContent with
      | Some tempContent => Some tempContent
      | None => place_link p terms' newContent
      end
  end.

(** The outer loop over the candidates: the content, the slugs linked in
    this run and the remaining deficit. *)
Fixpoint inject (candidates : list (page * list str)) (newContent : str)
    (newlyLinkedSlugs : list str) (deficit : Z) : str :=
  match candidates with
  | [] => newContent
  | (p, terms) :: rest =>
      if (deficit <=? 0)%Z then newContent
      else if set_has newlyLinkedSlugs (slug p)
      then inject rest newContent newlyLinkedSlugs deficit
      else
        match place_link p terms newContent with
        | Some tempContent =>
            inject rest tempContent (slug p :: newlyLinkedSlugs) (deficit - 1)%Z
        | None => inject rest newContent newlyLinkedSlugs deficit
        end
  end.

Definition enforceInternalLinkQuota (content : str)
    (availablePages : list page) (primaryKeyword : str) (minLinks : nat)
  : str :=
  if length availablePages =? 0 then content
  else
    let existingLinks := matchAll quota_placeholder_re content in
    let linkedSlugs := map (fun m => match_index m 1) existingLinks in
    let deficit := (Z.of_nat minLinks - Z.of_nat (length existingLinks))%Z in
    if (deficit <=? 0)%Z then content
    else inject (candidatePages linkedSlugs availablePages) content [] deficit.

(** *** [processInternalLinks] *)

Section Resolve.
(** [new URL(id)] with the three UTM parameters set, as text; [None]
    when the constructor throws on an invalid URL. *)
Variable utm_url : str -> option str.

(** [new Map(pages.filter(p => p.slug).map(p => [p.slug, p]))] *)
Definition resolve_map (pages : list page) : gmap str page :=
  slug_map (List.filter (fun p => truthy (slug p)) pages).

(** The replacer of [processInternalLinks]; [None] when it throws. *)
Definition resolve (availablePages : list page) (whole : str)
    (groups : str * str) : option str :=
  let '(slug, text) := groups in
  match resolve_map availablePages !! slug with
  | Some p =>
      if truthy (id p) then
        match utm_url (id p) with
        | Some finalUrl =>
            Some (jq "<a href='" ++ finalUrl ++ jq "'>"
                  ++ escape_quotes text ++ txt "</a>")
        | None => None
        end
      else Some text
  | None => Some text
  end.

Definition processInternalLinks (content : str)
    (availablePages : list page) : option str :=
  if negb (truthy content) || (length availablePages =? 0) then Some content
  else replace_all_try placeholder_re (resolve availablePages) content.
End Resolve.

(** *** [sanitizeBrokenPlaceholders] *)

(** The token opener, anything but a closing bracket, a closing bracket. *)
Definition token_re : matcher unit := fun _ s =>
  match strip_prefix (txt "[INTERNAL_LINK") s with
  | Some r0 =>
      match snd (span (not_ch "]"%char) r0) with
      | _ :: r1 => Some (tt, consumed s r1)
      | [] => None
      end
  | None => None
  end.

(** An attribute with a non-empty value free of double quotes; the value
    is captured. *)
Definition attr_re (name : str) : matcher str := fun _ s =>
  match strip_prefix (name ++ jq "='") s with
  | Some r0 =>
      match many1 (not_ch dq) r0 with
      | Some (v, r1) =>
          match strip_prefix [dq] r1 with
          | Some r2 => Some (v, consumed s r2)
          | None => None
          end
      | None => None
      end
  | None => None
  end.

(** The replacer of [sanitizeBrokenPlaceholders]. *)
Definition sanitize_token (whole : str) (_ : unit) : str :=
  let slugMatch := search (attr_re (txt "slug")) None whole in
  let textMatch := search (attr_re (txt "text")) None whole in
  match slugMatch, textMatch with
  | Some (_ :: _), Some (_ :: _) => whole
  | _, Some (c :: t) => c :: t
  | _, _ => []
  end.

Definition sanitizeBrokenPlaceholders (content : str) : str :=
  replace_all token_re sanitize_token content.

(** *** The four steps

    The finalize stage (index.tsx 4482-4485) runs the sanitizer first. *)

Definition finalize_links (utm_url : str -> option str) (content : str)
    (availablePages : list page) (primaryKeyword : str) : option str :=
  let sanitized := sanitizeBrokenPlaceholders content in
  let repaired := validateAndRepairInternalLinks sanitized availablePages in
  let topped := enforceInternalLinkQuota repaired availablePages
                  primaryKeyword MIN_INTERNAL_LINKS in
  processInternalLinks utm_url topped availablePages.

(** The same steps in the order repair, quota, resolve, sanitize. *)

Definition link_pipeline (utm_url : str -> option str) (content : str)
    (availablePages : list page) (primaryKeyword : str) (minLinks : nat)
  : option str :=
  let repaired := validateAndRepairInternalLinks content availablePages in
  let topped := enforceInternalLinkQuota repaired availablePages
                  primaryKeyword minLinks in
  match processInternalLinks utm_url topped availablePages with
  | Some resolved => Some (sanitizeBrokenPlaceholders resolved)
  | None => None
  end.

End Links.

(** ** Fenced HTML ([sanitizeHtmlResponse], index.tsx 347-371) *)

Module HtmlResponse.
Import WordCount.

(** The pattern that removes an opening fence, under the [i] flag: at the
    start of the text, three backquotes, an optional [html], white
    space. *)
Definition strip_open_html_fence (s : str) : str :=
  match strip_prefix Json.fence s with
  | Some r =>
      trim_start (match Links.strip_prefix_ci (txt "html") r with
                  | Some r' => r'
                  | None => r
                  end)
  | None => s
  end.

(** The text after the fences are removed and the result is trimmed. *)
Definition unfenced (rawHtml : str) : str :=
  trim (replace_first Json.close_fence_re (fun _ _ => [])
          (strip_open_html_fence rawHtml)).

(** [sanitizeHtmlResponse(rawHtml)]; the warning on the console is left
    out. *)
Definition sanitizeHtmlResponse (rawHtml : js_value) : str :=
  match rawHtml with
  | JString s =>
      if negb (truthy rawHtml) || negb (is_string rawHtml) then []
      else
        let cleanedHtml := unfenced s in
        match indexOf (txt "<") cleanedHtml with
        | Some (S k) =>
            let firstTagIndex := S k in
            let pretext := trim (firstn firstTagIndex cleanedHtml) in
            if (0 <? length pretext) && (length pretext <? 100)
            then skipn firstTagIndex cleanedHtml
            else cleanedHtml
        | _ => cleanedHtml
        end
  | _ => []
  end.

(** The last character of the text is not white space. *)
Definition ends_in_text (h : str) : bool :=
  match rev h with c :: _ => negb (is_space c) | [] => false end.

(** The language tag of an opening fence: none, or [html] in any case. *)
Definition html_tag (lang : str) : bool :=
  match lang with
  | [] => true
  | _ => match Links.strip_prefix_ci (txt "html") lang with
         | Some [] => true
         | _ => false
         end
  end.

End HtmlResponse.

(** ** YouTube identifiers ([extractYouTubeID], index.tsx 378-385, and
       [getUniqueYoutubeVideos], index.tsx 115-152) *)

Module YouTube.

(** [\w] *)
Definition is_word (c : ascii) : bool :=
  let n := code c in
  ((48 <=? n) && (n <=? 57)) || ((65 <=? n) && (n <=? 90))
  || ((97 <=? n) && (n <=? 122)) || (n =? 95).

(** The characters that the dot of a pattern does not match. *)
Definition is_line_terminator (c : ascii) : bool :=
  let n := code c in (n =? 10) || (n =? 13).

(** A literal, one character of a class and a second literal, at the
    head of the text: the rest of the text. *)
Definition around_one (lit1 : str) (p : ascii -> bool) (lit2 : str)
    (s : str) : option str :=
  match strip_prefix lit1 s with
  | Some (x :: r) => if p x then strip_prefix lit2 r else None
  | _ => None
  end.

(** An alternation: the first alternative that matches. *)
Fixpoint first_of (alts : list (str -> option str)) (s : str) : option str :=
  match alts with
  | [] => None
  | alt :: alts' =>
      match alt s with
      | Some r => Some r
      | None => first_of alts' s
      end
  end.

(** The alternatives of the pattern: [youtu.be/] with any character for
    the dot, [v/], [u/] and a word character and a slash, [embed/],
    [watch?v=] and [&v=]. *)
Definition alternatives : list (str -> option str) :=
  [ around_one (txt "youtu") (fun c => negb (is_line_terminator c)) (txt "be/");
    strip_prefix (txt "v/");
    around_one (txt "u/") is_word (txt "/");
    strip_prefix (txt "embed/");
    strip_prefix (txt "watch?v=");
    strip_prefix (txt "&v=") ].

(** The alternation tried at one place: the text after it. *)
Definition marker (s : str) : option str := first_of alternatives s.

(** The greedy [^.*] before the alternation: of the places that the dot
    can reach on the first line, the last one where the alternation
    matches. *)
Fixpoint last_marker (s : str) : option str :=
  match s with
  | [] => marker []
  | c :: s' =>
      match (if is_line_terminator c then None else last_marker s') with
      | Some r => Some r
      | None => marker s
      end
  end.

(** The class of the second group: anything but [#], [&] and [?]. *)
Definition id_char (c : ascii) : bool :=
  negb (ch_eqb c "#"%char) && negb (ch_eqb c "&"%char)
  && negb (ch_eqb c "?"%char).

(** [extractYouTubeID(url)]; [None] is [null]. *)
Definition extractYouTubeID (url : str) : option str :=
  match last_marker url with
  | Some rest =>
      let group2 := fst (span id_char rest) in
      if length group2 =? 11 then Some group2 else None
  | None => None
  end.

(** The alternation matches nowhere in the text. *)
Fixpoint marker_free (s : str) : bool :=
  match marker s with
  | Some _ => false
  | None => match s with [] => true | _ :: s' => marker_free s' end
  end.

(** The three usual forms of the text before the identifier. *)
Definition usual_marker (m : str) : bool :=
  str_eqb m (txt "watch?v=") || str_eqb m (txt "youtu.be/")
  || str_eqb m (txt "embed/").

(** *** [getUniqueYoutubeVideos] *)

Section Videos.
(** What a video object holds besides the fields that are read. *)
Context {X : Type}.

(** A missing [videoId] and an empty one are both falsy, and are both
    the empty list; [None] is a missing [embedUrl] or [url]. *)
Record video := Video {
  videoId : str;
  embedUrl : option str;
  url : option str;
  other : X
}.

Definition not_query (c : ascii) : bool :=
  negb (ch_eqb c "?"%char) && negb (ch_eqb c "&"%char).

(** A literal, then one or more characters of a class, captured. *)
Definition after_literal (lit : str) (p : ascii -> bool) : matcher str :=
  fun _ s =>
    match strip_prefix lit s with
    | Some r =>
        match span p r with
        | ([], _) => None
        | (v, _) => Some (v, length lit + length v)
        end
    | None => None
    end.

(** [embed/] and the identifier. *)
Definition embed_re : matcher str := after_literal (txt "embed/") not_query.

(** A question mark or an ampersand, [v=] and the identifier. *)
Definition query_v_re : matcher str := fun prev s =>
  match s with
  | c :: r =>
      if ch_eqb c "?"%char || ch_eqb c "&"%char then
        match after_literal (txt "v=") (not_ch "&"%char) (Some c) r with
        | Some (v, n) => Some (v, S n)
        | None => None
        end
      else None
  | [] => None
  end.

(** [youtu.be/] and the identifier. *)
Definition short_re : matcher str := after_literal (txt "youtu.be/") not_query.

(** [text?.match(re)?.[1]] *)
Definition group1 (re : matcher str) (text : option str) : option str :=
  match text with
  | Some s => search re None s
  | None => None
  end.

(** The identifier of a video: the first truthy one of the field and the
    three captures; [None] when all are falsy. *)
Definition video_id (v : video) : option str :=
  match videoId v with
  | _ :: _ => Some (videoId v)
  | [] =>
      match group1 embed_re (embedUrl v) with
      | Some (c :: i) => Some (c :: i)
      | _ =>
          match group1 query_v_re (url v) with
          | Some (c :: i) => Some (c :: i)
          | _ =>
              match group1 short_re (url v) with
              | Some (c :: i) => Some (c :: i)
              | _ => None
              end
          end
      end
  end.

(** The object that is pushed: the video with its identifier and the
    embed address made from it. *)
Definition with_id (v : video) (i : str) : video :=
  Video i (Some (txt "https://www.youtube.com/embed/" ++ i)) (url v) (other v).

(** A selected video: its identifier is not empty and its embed address
    is made from it. *)
Definition selected (v : video) : Prop :=
  videoId v <> []
  /\ embedUrl v = Some (txt "https://www.youtube.com/embed/" ++ videoId v).

(** The loop over the videos. *)
Fixpoint select (count : nat) (videos : list video)
    (uniqueVideos : list video) (usedVideoIds : gset str) : list video :=
  match videos with
  | [] => uniqueVideos
  | v :: rest =>
      if count <=? length uniqueVideos then uniqueVideos
      else
        match video_id v with
        | Some i =>
            if bool_decide (i ∈ usedVideoIds)
            then select count rest uniqueVideos usedVideoIds
            else select count rest (uniqueVideos ++ [with_id v i])
                   ({[ i ]} ∪ usedVideoIds)
        | None => select count rest uniqueVideos usedVideoIds
        end
  end.

(** [getUniqueYoutubeVideos(videos, count)]; [None] is [null], also for
    the argument.  The console output is left out. *)
Definition getUniqueYoutubeVideos (videos : option (list video))
    (count : nat) : option (list video) :=
  match videos with
  | None | Some [] => None
  | Some vs =>
      match select count vs [] ∅ with
      | [] => None
      | uniqueVideos => Some uniqueVideos
      end
  end.

End Videos.
Arguments video X : clear implicits.

End YouTube.

(** ** The reducer of the item list ([itemsReducer], index.tsx 1787-1841) *)

Module Items.

(** [ContentItem['status']] *)
Inductive item_status := Idle | Generating | Done | Error.

Section Reducer.
(** [GeneratedContent], the analysis of a page, and what an item holds
    besides the fields that the reducer reads or writes (its title, its
    type and its original URL). *)
Context {G A X : Type}.

(** [None] is [null] or a missing field. *)
Record ContentItem := Item {
  id : str;
  status : item_status;
  statusText : str;
  generatedContent : option G;
  crawledContent : option str;
  analysis : option A;
  other : X
}.

Inductive ItemsAction :=
| SET_ITEMS (payload : list ContentItem)
| UPDATE_STATUS (id : str) (status : item_status) (statusText : str)
| SET_CONTENT (id : str) (content : G)
| SET_CRAWLED_CONTENT (id : str) (content : str).

(** [v || null] on a string: the empty string is falsy. *)
Definition or_null (v : option str) : option str :=
  match v with
  | Some (c :: s) => Some (c :: s)
  | _ => None
  end.

Definition itemsReducer (state : list ContentItem) (action : ItemsAction)
  : list ContentItem :=
  match action with
  | SET_ITEMS payload =>
      map (fun item =>
             Item (id item) Idle (txt "Not Started") None
                  (or_null (crawledContent item)) (analysis item) (other item))
          payload
  | UPDATE_STATUS i st text =>
      map (fun item =>
             if str_eqb (id item) i
             then Item (id item) st text (generatedContent item)
                       (crawledContent item) (analysis item) (other item)
             else item)
          state
  | SET_CONTENT i content =>
      map (fun item =>
             if str_eqb (id item) i
             then Item (id item) Done (txt "Completed") (Some content)
                       (crawledContent item) (analysis item) (other item)
             else item)
          state
  | SET_CRAWLED_CONTENT i content =>
      map (fun item =>
             if str_eqb (id item) i
             then Item (id item) (status item) (statusText item)
                       (generatedContent item) (Some content) (analysis item)
                       (other item)
             else item)
          state
  end.

(** The item that an action is about. *)
Definition target (action : ItemsAction) : option str :=
  match action with
  | SET_ITEMS _ => None
  | UPDATE_STATUS i _ _ | SET_CONTENT i _ | SET_CRAWLED_CONTENT i _ => Some i
  end.

End Reducer.
Arguments ContentItem G A X : clear implicits.
Arguments ItemsAction G A X : clear implicits.

End Items.

(** ** Duplicate video embeds ([enforceUniqueVideoEmbeds], index.tsx
       1254-1290) *)

Module VideoEmbeds.
Import YouTube.

(** A greedy quantifier that gives back what it took: the lengths from
    [n] down to 1 are tried until what follows matches. *)
Fixpoint longest_first {R} (n : nat) (rest : nat -> option R) : option R :=
  match n with
  | O => None
  | S k =>
      match rest (S k) with
      | Some r => Some r
      | None => longest_first k rest
      end
  end.

(** The attribute that the pattern looks for, up to the identifier. *)
Definition src_literal : str := jq "src='https://www.youtube.com/embed/".

(** The class of the identifier: anything but a double quote, a question
    mark and an ampersand. *)
Definition embed_id_char (c : ascii) : bool :=
  negb (ch_eqb c dq) && negb (ch_eqb c "?"%char) && negb (ch_eqb c "&"%char).

(** The pattern of an embedded video: the opening of an [iframe] tag, one
    or more characters other than [>], the source attribute up to the
    identifier, the identifier (captured, one or more characters), any
    characters other than [>], and [></iframe>].  The two greedy runs
    before and in the identifier are shortened until the rest matches;
    the run after the identifier must end at a [>]. *)
Definition iframe_re : matcher str := fun _ s =>
  match strip_prefix (txt "<iframe") s with
  | None => None
  | Some r =>
      longest_first (length (fst (span (not_ch ">"%char) r)))
        (fun k =>
           match strip_prefix src_literal (skipn k r) with
           | None => None
           | Some r1 =>
               longest_first (length (fst (span embed_id_char r1)))
                 (fun g =>
                    let '(attrs, r3) := span (not_ch ">"%char) (skipn g r1) in
                    match strip_prefix (txt "></iframe>") r3 with
                    | Some _ =>
                        Some (firstn g r1,
                              length (txt "<iframe") + k + length src_literal
                              + g + length attrs + length (txt "></iframe>"))
                    | None => None
                    end)
           end)
  end.

(** The matches of a global pattern with their indices. *)
Fixpoint hits_at {R} (i : nat) (l : list (token R)) : list (nat * str * R) :=
  match l with
  | [] => []
  | Lit _ :: l' => hits_at (S i) l'
  | Hit w r :: l' => (i, w, r) :: hits_at (i + length w) l'
  end.

Definition matchAll_at {R} (m : matcher R) (s : str) : list (nat * str * R) :=
  hits_at 0 (tokens m s).

(** [s.indexOf(p, position)] *)
Definition indexOf_from (p : str) (position : nat) (s : str) : option nat :=
  option_map (Nat.add position) (indexOf p (skipn position s)).

(** The replacement text of [replace] with a string pattern: [$$] is a
    dollar sign, [$&] the matched text, [$] with a backquote the text
    before the match and [$'] the text after it; there is no capture
    group, so any other dollar sign stands for itself. *)
Fixpoint expand (matched before after replacement : str) : str :=
  match replacement with
  | [] => []
  | c :: r =>
      if ch_eqb c "$"%char then
        match r with
        | x :: r' =>
            if ch_eqb x "$"%char then "$"%char :: expand matched before after r'
            else if ch_eqb x "&"%char then matched ++ expand matched before after r'
            else if ch_eqb x "`"%char then before ++ expand matched before after r'
            else if ch_eqb x "'"%char then after ++ expand matched before after r'
            else c :: expand matched before after r
        | [] => [c]
        end
      else c :: expand matched before after r
  end.

(** [s.replace(pattern, replacement)] with two strings: the first
    occurrence is replaced. *)
Definition replace_string (pattern replacement s : str) : str :=
  match indexOf pattern s with
  | Some i =>
      let before := firstn i s in
      let after := skipn (i + length pattern) s in
      before ++ expand pattern before after replacement ++ after
  | None => s
  end.

Section Embeds.
Context {X : Type}.

(** [enforceUniqueVideoEmbeds(content, youtubeVideos)]; [None] is a
    missing list.  The console output is left out. *)
Definition enforceUniqueVideoEmbeds (content : str)
    (youtubeVideos : option (list (video X))) : str :=
  match youtubeVideos with
  | None => content
  | Some videos =>
      if length videos <? 2 then content
      else
        let matches := matchAll_at iframe_re content in
        if length matches <? 2 then content
        else
          let videoIdsInContent := map snd matches in
          match videoIdsInContent with
          | [] => content
          | firstVideoId :: _ =>
              if forallb (fun i => str_eqb i firstVideoId) videoIdsInContent
              then
                let duplicateId := firstVideoId in
                match nth_error videos 1, nth_error matches 1 with
                | Some secondVideo, Some (index, whole, _) =>
                    if Links.truthy (videoId secondVideo)
                       && negb (str_eqb (videoId secondVideo) duplicateId)
                    then
                      match indexOf_from whole index content with
                      | Some secondMatchIndex =>
                          let correctedIframe :=
                            replace_string duplicateId (videoId secondVideo)
                              whole in
                          firstn secondMatchIndex content ++ correctedIframe
                          ++ skipn (secondMatchIndex + length whole) content
                      | None => content
                      end
                    else content
                | _, _ => content
                end
              else content
          end
  end.

End Embeds.

End VideoEmbeds.

(** ** The worker pool ([processConcurrently], index.tsx 793-823)

    A worker runs without interruption from one [await] to the next, so
    a run of the pool is a sequence of such stretches: first each worker
    is started in turn and runs to its first [await], then, in an order
    that the model leaves open, an awaited call of the processor settles
    and the worker that waits for it goes on.  The order is given by a
    schedule: the list of the workers that are resumed. *)

Module Concurrent.

(** Where a worker stands between two stretches: it waits for a call of
    the processor (the calls are numbered as they are made), or its
    loop has ended, or a rejection has ended it. *)
Inductive worker := Awaiting (call : nat) | Finished | Failed.

Section Pool.
Context {T : Type}.
(** [if (item)] *)
Variable truthy : T -> bool.
(** [shouldStop], if it is given: what its [n]-th call returns. *)
Variable shouldStop : option (nat -> bool).
(** Whether the [n]-th call of the processor resolves. *)
Variable resolves : nat -> bool.
(** [items.length] *)
Variable total : nat.

Inductive event :=
| Process (item : T)
| Progress (completed total : nat).

Record pool := Pool {
  queue : list T;
  completed : nat;
  stopCalls : nat;      (* the calls of [shouldStop] so far *)
  processorCalls : nat; (* the calls of the processor so far *)
  log : list event;
  workers : list worker
}.

(** [shouldStop?.()] *)
Definition stop_now (st : pool) : bool :=
  match shouldStop with
  | Some f => f (stopCalls st)
  | None => false
  end.

Definition asked (st : pool) : nat :=
  match shouldStop with
  | Some _ => S (stopCalls st)
  | None => stopCalls st
  end.

(** The loop of a worker from its head to the next [await] or to its
    end: the pool after it, and where the worker stands. *)
Fixpoint loop (q : list T) (st : pool) : pool * worker :=
  match q with
  | [] => (st, Finished)
  | item :: q' =>
      if stop_now st
      then (Pool [] (completed st) (asked st) (processorCalls st) (log st)
                 (workers st), Finished)
      else
        let st' := Pool q' (completed st) (asked st) (processorCalls st)
                        (log st) (workers st) in
        if truthy item
        then (Pool q' (completed st) (asked st) (S (processorCalls st))
                   (log st ++ [Process item]) (workers st),
              Awaiting (processorCalls st))
        else loop q' st'
  end.

Definition run (st : pool) : pool * worker := loop (queue st) st.

Definition with_workers (st : pool) (ws : list worker) : pool :=
  Pool (queue st) (completed st) (stopCalls st) (processorCalls st) (log st) ws.

(** [Array(concurrency).fill(null).map(run)]: the workers are started one
    after the other. *)
Fixpoint start (concurrency : nat) (st : pool) : pool :=
  match concurrency with
  | O => st
  | S c =>
      let '(st', w) := run st in
      start c (with_workers st' (workers st' ++ [w]))
  end.

(** The call that worker [w] waits for settles. *)
Definition resume (w : nat) (st : pool) : pool :=
  match nth_error (workers st) w with
  | Some (Awaiting call) =>
      if resolves call then
        let completed' := S (completed st) in
        let st1 := Pool (queue st) completed' (stopCalls st)
                        (processorCalls st)
                        (log st ++ [Progress completed' total]) (workers st) in
        let '(st2, state) := run st1 in
        with_workers st2 (<[ w := state ]> (workers st2))
      else with_workers st (<[ w := Failed ]> (workers st))
  | _ => st
  end.

End Pool.

(** [processConcurrently(items, processor, concurrency, onProgress,
    shouldStop)] under a schedule: the pool after it. *)
Definition processConcurrently {T} (truthy : T -> bool) (items : list T)
    (resolves : nat -> bool) (concurrency : nat)
    (shouldStop : option (nat -> bool)) (schedule : list nat) : pool :=
  fold_left (fun st w => resume truthy shouldStop resolves (length items) w st)
    schedule
    (start truthy shouldStop concurrency (Pool items 0 0 0 [] [])).

(** The promise of [Promise.all(workers)]: [Some true] when it is
    fulfilled, [Some false] when it is rejected, [None] while it is
    pending. *)
Definition settled {T} (st : @pool T) : option bool :=
  if existsb (fun w => match w with Failed => true | _ => false end)
       (workers st)
  then Some false
  else if forallb (fun w => match w with Finished => true | _ => false end)
            (workers st)
       then Some true
       else None.

(** The items that the processor was called with, in the order of the
    calls. *)
Definition processed {T} (st : @pool T) : list T :=
  flat_map (fun e => match e with Process item => [item] | Progress _ _ => [] end)
    (log st).

(** The workers that wait for the processor. *)
Definition waiting {T} (st : @pool T) : nat :=
  length (List.filter (fun w => match w with Awaiting _ => true | _ => false end)
            (workers st)).

(** The first worker that waits for the processor. *)
Fixpoint first_waiting (ws : list worker) : option nat :=
  match ws with
  | [] => None
  | Awaiting _ :: _ => Some 0
  | _ :: ws' => option_map S (first_waiting ws')
  end.

(** A schedule that lets the pool come to rest: at most [fuel] times, the
    first worker that waits is resumed. *)
Fixpoint rest_schedule {T} (truthy : T -> bool)
    (shouldStop : option (nat -> bool)) (resolves : nat -> bool)
    (total : nat) (fuel : nat) (st : @pool T) : list nat :=
  match fuel with
  | O => []
  | S fuel' =>
      match first_waiting (workers st) with
      | Some w =>
          w :: rest_schedule truthy shouldStop resolves total fuel'
                 (resume truthy shouldStop resolves total w st)
      | None => []
      end
  end.

End Concurrent.

(** ** The default slug (index.tsx 1305 and 1314 in
       [normalizeGeneratedContent], 4497 in the finalize stage) *)

Module Slug.

(** A pattern that is one or more characters of a class. *)
Definition run_re (p : ascii -> bool) : matcher unit := fun _ s =>
  match fst (span p s) with
  | [] => None
  | w => Some (tt, length w)
  end.

(** The class of the second pattern: anything but a word character and a
    hyphen. *)
Definition not_slug_char (c : ascii) : bool :=
  negb (YouTube.is_word c || ch_eqb c "-"%char).

(** [title.toLowerCase().replace(/\s+/g, '-').replace(/[^\w-]+/g, '')] *)
Definition default_slug (title : str) : str :=
  replace_all (run_re not_slug_char) (fun _ _ => [])
    (replace_all (run_re is_space) (fun _ _ => txt "-") (toLowerCase title)).

(** A lower-case letter, a digit, an underscore or a hyphen. *)
Definition slug_char (c : ascii) : bool :=
  let n := code c in
  ((97 <=? n) && (n <=? 122)) || ((48 <=? n) && (n <=? 57))
  || (n =? 95) || (n =? 45).

End Slug.

(** * Documents, patterns and examples of the statements *)

(** ** Properties of matchers *)

Module Patterns.

(** The character after a run is outside the class of the run. *)
Definition stops (p : ascii -> bool) (s : str) : Prop :=
  match s with [] => True | c :: _ => p c = false end.

(** A matcher that does not look behind. *)
Definition blind {R} (m : matcher R) : Prop :=
  forall p q s, m p s = m q s.

(** A matcher that can only match at a given character. *)
Definition starts_at {R} (m : matcher R) (c0 : ascii) : Prop :=
  forall prev c s, c <> c0 -> m prev (c :: s) = None.

(** A match is never longer than what is left of the subject. *)
Definition bounded {R} (m : matcher R) : Prop :=
  forall p s r n, m p s = Some (r, n) -> n <= length s.

(** At every position of [A], the matcher sees the same with and without
    [T] after [A]. *)
Definition local_before {R} (m : matcher R) (A T : str) : Prop :=
  forall A1 A2 p, A = A1 ++ A2 -> A2 <> [] -> m p (A2 ++ T) = m p A2.

End Patterns.

(** ** Well-formed link documents *)

Module LinkDoc.
Import Links.

(** A document is a sequence of plain text and placeholders; a
    placeholder is given by the white space before each attribute, its
    slug and its anchor text. *)
Inductive seg :=
| Plain (s : str)
| Link (w1 slug w2 text : str).

Definition render_seg (g : seg) : str :=
  match g with
  | Plain s => s
  | Link w1 slug w2 text =>
      txt "[INTERNAL_LINK" ++ w1 ++ jq "slug='" ++ slug ++ [dq] ++ w2
      ++ jq "text='" ++ text ++ jq "']"
  end.

Definition render (d : list seg) : str := flat_map render_seg d.

Definition nonempty (s : str) : bool :=
  match s with [] => false | _ => true end.

Definition no_ch (c : ascii) (s : str) : bool := forallb (not_ch c) s.

(** Plain text holds no opening bracket; the white space of a
    placeholder is white space, its slug and anchor text are non-empty
    and free of double quotes, and the anchor text holds no opening
    bracket. *)
Definition wf_seg (g : seg) : bool :=
  match g with
  | Plain s => no_ch "["%char s
  | Link w1 slug w2 text =>
      nonempty w1 && forallb is_space w1
      && nonempty slug && no_ch dq slug
      && nonempty w2 && forallb is_space w2
      && nonempty text && no_ch dq text && no_ch "["%char text
  end.

Definition wf_doc (d : list seg) : bool := forallb wf_seg d.

(** What the placeholder pattern cuts a document into. *)
Definition seg_tokens (g : seg) : list (token (str * str)) :=
  match g with
  | Plain s => map Lit s
  | Link w1 slug w2 text => [Hit (render_seg g) (slug, text)]
  end.

(** What a replacer makes of a document. *)
Definition seg_replace (f : str -> str * str -> str) (g : seg) : str :=
  match g with
  | Plain s => s
  | Link w1 slug w2 text => f (render_seg g) (slug, text)
  end.

End LinkDoc.

(** ** Repair on documents *)

Module RepairDoc.
Import Links LinkDoc.

(** What the repair step makes of one segment. *)
Definition repair_seg (pages : list page) (g : seg) : seg :=
  match g with
  | Plain s => Plain s
  | Link w1 slug w2 text =>
      match slug_map pages !! slug with
      | Some _ => g
      | None =>
          match best_match text pages with
          | (Some bestMatch, highestScore) =>
              if (50 <? highestScore)%float
              then Link (txt " ") (Links.slug bestMatch) (txt " ") text
              else Plain text
          | (None, _) => Plain text
          end
      end
  end.

(** Every slug of the page list is free of double quotes. *)
Definition slugs_quote_free (pages : list page) : bool :=
  forallb (fun p => no_ch dq (slug p)) pages.

(** Every page with an [id] has a URL, in which no opening bracket
    occurs. *)
Definition urls_resolve (utm_url : str -> option str) (pages : list page)
  : Prop :=
  forall p, In p pages -> truthy (id p) = true ->
  exists u, utm_url (id p) = Some u /\ no_ch "["%char u = true.

End RepairDoc.

(** ** The bracket scan *)

Module ScanDoc.
Import Json.

(** The kind of bracket that the scan counts: the one that opens the
    candidate. *)
Inductive bracket := Brace | Square.

Definition opener (k : bracket) : ascii :=
  match k with Brace => "{"%char | Square => "["%char end.

Definition closer (k : bracket) : ascii :=
  match k with Brace => "}"%char | Square => "]"%char end.

(** A character that the scan passes over when it is outside a string. *)
Definition neutral (c : ascii) : bool :=
  negb (ch_eqb c "\"%char) && negb (ch_eqb c dq)
  && negb (ch_eqb c "{"%char) && negb (ch_eqb c "}"%char)
  && negb (ch_eqb c "["%char) && negb (ch_eqb c "]"%char).

(** The scan, outside a string and with a positive balance, goes over
    [a] and is in the same state after it. *)
Definition passes (k : bracket) (a : str) : Prop :=
  forall (bal : Z) (i : nat) (Q : str), (1 <= bal)%Z ->
  scan (opener k) (closer k) bal false false i (a ++ Q)
  = scan (opener k) (closer k) bal false false (i + length a) Q.

(** Inside a string the scan runs to the closing quote. *)
Definition in_string (k : bracket) (b : str) : Prop :=
  forall (bal : Z) (i : nat) (Q : str), (1 <= bal)%Z ->
  scan (opener k) (closer k) bal true false i (b ++ dq :: Q)
  = scan (opener k) (closer k) bal false false (i + length b + 1) Q.

(** What a parser has read of [s] when [r] is left. *)
Definition read (s r : str) : nat := length s - length r.

End ScanDoc.

(** ** Texts wrapped in prose and fences *)

Module Wrapped.
Import Json ScanDoc.

(** A character that is not an opening brace or bracket. *)
Definition open_ch (c : ascii) : bool :=
  negb (ch_eqb c "{"%char) && negb (ch_eqb c "["%char).

(** The text holds no opening brace or bracket. *)
Definition open_free (s : str) : bool := forallb open_ch s.

(** The last character of the text is a closing brace or bracket. *)
Definition ends_closed (J : str) : bool :=
  match rev J with c :: _ => is_closer c | [] => false end.

(** The text holds no backquote, and no comma that white space and a
    closing brace or bracket follow. *)
Definition untouched_by_cleanup (J : str) : Prop :=
  forallb (not_ch "`"%char) J = true /\ matchAll trailing_comma_re J = [].

End Wrapped.

(** ** Pages and texts of the examples *)

Module Examples.
Import Links.

(** What [new URL(id)] with the three UTM parameters set prints for an
    absolute [http] or [https] URL that has a path and neither query nor
    fragment, as the [id]s of the pages below.  For another [id] the
    constructor normalises the URL, extends its query, or throws. *)
Definition append_utm (id : str) : option str :=
  Some (id ++ txt "?utm_source=wp-content-optimizer&utm_medium=internal-link&utm_campaign=content-hub-automation").

Definition home : page :=
  Page (txt "https://example.com/") (txt "Home Page") (txt "home").

Definition seo_guide : page :=
  Page (txt "https://example.com/seo-guide/") (txt "The Ultimate SEO Guide")
       (txt "seo-guide").

Definition token_opener : str := txt "[INTERNAL_LINK".

(** An object cut in the middle of a nested array. *)
Definition truncated : str := jq "{'a':1,'b':[1,2".

End Examples.

Module RetryTrace.
Import Retry.
(** The number of waits of a run. *)
Definition sleeps (tr : list event) : nat :=
  length (List.filter
            (fun ev => match ev with Sleep _ => true | _ => false end) tr).


End RetryTrace.

Module ClosedDoc.
Import Links LinkDoc.

(** The slug and the anchor text of a placeholder hold no closing
    bracket. *)
Definition closed_seg (g : seg) : bool :=
  match g with
  | Plain _ => true
  | Link _ slug _ text => no_ch "]"%char slug && no_ch "]"%char text
  end.

Definition closed_doc (d : list seg) : bool := forallb closed_seg d.

(** Every placeholder of the document names a page of the list. *)
Definition slugs_known (pages : list page) (d : list seg) : Prop :=
  forall w1 slug w2 text, In (Link w1 slug w2 text) d ->
  exists p, In p pages /\ Links.slug p = slug.

End ClosedDoc.

(** ** Documents with malformed tokens *)

Module TokenDoc.
Import Links.

(** A document is a sequence of text, of well-formed placeholders and of
    malformed tokens; a malformed token is given by what stands between
    the token opener and the closing bracket. *)
Inductive piece :=
| Text (s : str)
| Valid (w1 slug w2 text : str)
| Broken (body : str).

Definition render_piece (g : piece) : str :=
  match g with
  | Text s => s
  | Valid w1 slug w2 text => LinkDoc.render_seg (LinkDoc.Link w1 slug w2 text)
  | Broken body => txt "[INTERNAL_LINK" ++ body ++ txt "]"
  end.

Definition render_pieces (d : list piece) : str := flat_map render_piece d.

Definition is_token (g : piece) : bool :=
  match g with Text _ => false | _ => true end.

(** One of the two texts is a beginning of the other. *)
Fixpoint clash (p t : str) : bool :=
  match p, t with
  | a :: p', b :: t' => ch_eqb a b && clash p' t'
  | _, _ => true
  end.

(** The token opener begins nowhere in the text: it does not occur in
    the text, and the text does not end with a beginning of it, which
    what follows the text could complete. *)
Fixpoint calm (s : str) : bool :=
  match s with
  | [] => true
  | c :: s' => negb (clash (txt "[INTERNAL_LINK") (c :: s')) && calm s'
  end.

(** The number of double quotes of a text. *)
Definition quotes (s : str) : nat := length (List.filter (ch_eqb dq) s).

(** The sanitizer does not find both attributes in the token. *)
Definition lacks_attribute (whole : str) : bool :=
  match search (attr_re (txt "slug")) None whole,
        search (attr_re (txt "text")) None whole with
  | Some (_ :: _), Some (_ :: _) => false
  | _, _ => true
  end.

(** Text is calm; a placeholder is well formed; the body of a malformed
    token holds no square bracket, its double quotes are paired, and the
    sanitizer does not find both attributes in the token. *)
Definition good_piece (g : piece) : bool :=
  match g with
  | Text s => calm s
  | Valid w1 slug w2 text => LinkDoc.wf_seg (LinkDoc.Link w1 slug w2 text)
  | Broken body =>
      LinkDoc.no_ch "["%char body && LinkDoc.no_ch "]"%char body
      && Nat.even (quotes body) && lacks_attribute (render_piece g)
  end.

Definition good_doc (d : list piece) : bool := forallb good_piece d.

(** What the repair step makes of one piece. *)
Definition repair_piece (pages : list page) (g : piece) : piece :=
  match g with
  | Valid w1 slug w2 text =>
      match slug_map pages !! slug with
      | Some _ => g
      | None =>
          match best_match text pages with
          | (Some bestMatch, highestScore) =>
              if (50 <? highestScore)%float
              then Valid (txt " ") (Links.slug bestMatch) (txt " ") text
              else Text text
          | (None, _) => Text text
          end
      end
  | _ => g
  end.

(** The same document with adjacent texts joined. *)
Fixpoint merge (d : list piece) : list piece :=
  match d with
  | [] => []
  | Text s :: d' =>
      match merge d' with
      | Text t :: d'' => Text (s ++ t) :: d''
      | m => Text s :: m
      end
  | g :: d' => g :: merge d'
  end.

(** No two texts are adjacent. *)
Fixpoint separated (d : list piece) : bool :=
  match d with
  | [] => true
  | Text _ :: d' =>
      match d' with Text _ :: _ => false | _ => separated d' end
  | _ :: d' => separated d'
  end.

(** The search terms of the candidate pages of the quota step. *)
Definition all_terms (pages : list page) : list str :=
  flat_map snd (candidatePages [] pages).

(** A term without double quote and square bracket. *)
Definition plain_term (term : str) : bool :=
  LinkDoc.no_ch dq term && LinkDoc.no_ch "["%char term
  && LinkDoc.no_ch "]"%char term.

Definition terms_plain (pages : list page) : bool :=
  forallb plain_term (all_terms pages).

(** The search pattern of the term matches somewhere in [s] after its
    first character. *)
Fixpoint found (term s : str) : bool :=
  match s with
  | [] => false
  | c :: b =>
      match search_re term (Some c) b with
      | Some _ => true
      | None => false
      end
      || found term b
  end.

(** The search pattern of a term matches inside an attribute value. *)
Definition found_in_value (term v : str) : bool :=
  found term (dq :: v ++ [dq]).

(** No search term of a candidate page is found inside a token of the
    document, inside the slug of a page, or inside a search term. *)
Definition terms_apart (pages : list page) (d : list piece) : bool :=
  forallb
    (fun term =>
       forallb (fun g => negb (is_token g && found term (render_piece g))) d
       && forallb (fun p => negb (found_in_value term (slug p))) pages
       && forallb (fun t => negb (found_in_value term t)) (all_terms pages))
    (all_terms pages).

(** What the placeholder pattern cuts a document into. *)
Definition piece_tokens (g : piece) : list (token (str * str)) :=
  match g with
  | Valid w1 slug w2 text => [Hit (render_piece g) (slug, text)]
  | _ => map Lit (render_piece g)
  end.

(** A character that no other character is equal to when the case of
    letters is ignored. *)
Definition barrier (k : ascii) : Prop :=
  forall a, ch_eqb (canon_ch a) (canon_ch k) = ch_eqb a k.

(** The search pattern of the term matches at no position of [s], when
    [prev] stands before [s] and [rest] after it. *)
Fixpoint hush (term : str) (prev : option ascii) (s rest : str) : Prop :=
  match s with
  | [] => True
  | c :: s' =>
      search_re term prev (c :: s' ++ rest) = None
      /\ hush term (Some c) s' rest
  end.

(** The character that stands before what follows [s]. *)
Definition last_seen (prev : option ascii) (s : str) : option ascii :=
  fold_left (fun _ c => Some c) s prev.

(** The search pattern of the term matches nowhere in the token,
    wherever the token stands. *)
Definition quiet (term tok : str) : Prop :=
  forall prev rest, hush term prev tok rest.

(** A text that is a document in whose tokens no term of the list is
    found. *)
Definition settled (terms : list str) (content : str) : Prop :=
  exists d,
    content = render_pieces d /\ good_doc d = true
    /\ forall t g, In t terms -> In g d -> is_token g = true ->
       quiet t (render_piece g).

(** A document without placeholders: text and malformed tokens. *)
Definition rested (d : list piece) : bool :=
  forallb (fun g => match g with
                    | Valid _ _ _ _ => false
                    | _ => good_piece g
                    end) d.

End TokenDoc.

Module PoolInvariant.
Import Concurrent.

(** The workers that a rejection has ended. *)
Definition failed {T} (st : @pool T) : nat :=
  length (List.filter (fun w => match w with Failed => true | _ => false end)
            (workers st)).

(** [shouldStop] is missing or never returns true. *)
Definition never_stops (shouldStop : option (nat -> bool)) : Prop :=
  forall f, shouldStop = Some f -> forall n, f n = false.

(** What holds of the pool between two stretches, for every schedule:
    the processor has been called on the truthy ones of the first [k]
    items, in their order; the queue holds the other items or has been
    emptied; each call is awaited, completed or rejected. *)
Definition invariant {T} (truthy : T -> bool) (items : list T)
    (st : @pool T) : Prop :=
  (exists k,
     k <= length items
     /\ processed st = List.filter truthy (firstn k items)
     /\ (queue st = skipn k items \/ queue st = []))
  /\ processorCalls st = length (processed st)
  /\ completed st + waiting st + failed st = processorCalls st.

(** What holds besides when nothing stops the pool and no call is
    rejected: the queue holds exactly the items that were not taken, no
    worker has failed, and a worker has ended only if the queue is
    empty. *)
Definition undisturbed {T} (truthy : T -> bool) (items : list T)
    (st : @pool T) : Prop :=
  (exists k,
     k <= length items
     /\ processed st = List.filter truthy (firstn k items)
     /\ queue st = skipn k items)
  /\ failed st = 0
  /\ (In Finished (workers st) -> queue st = []).

End PoolInvariant.

(** * Properties *)

Import Patterns.

(** Decide the comparisons of concrete characters in the goal. *)
Ltac eval_chars :=
  repeat match goal with
    | |- context [ch_eqb ?x ?y] =>
        let b := eval vm_compute in (ch_eqb x y) in
        match b with
        | true => change (ch_eqb x y) with true
        | false => change (ch_eqb x y) with false
        end
    end; cbn match; cbn [negb andb orb].

(** Put both sides of an equation between texts in right-nested form. *)
Ltac texts_equal :=
  subst; repeat (rewrite <- ?app_assoc; cbn [app]); reflexivity.

(** ** Facts about strings and matchers *)

Section StringFacts.

Lemma ch_eqb_true (a b : ascii) : ch_eqb a b = true <-> a = b.
Proof. apply Ascii.eqb_eq. Qed.

Lemma ch_eqb_same (a : ascii) : ch_eqb a a = true.
Proof. apply Ascii.eqb_refl. Qed.

Lemma ch_eqb_false (a b : ascii) : ch_eqb a b = false <-> a <> b.
Proof. apply Ascii.eqb_neq. Qed.

Lemma strip_prefix_app (p s : str) : strip_prefix p (p ++ s) = Some s.
Proof.
  induction p as [|a p IH]; [reflexivity|].
  cbn. rewrite ch_eqb_same. exact IH.
Qed.

Lemma strip_prefix_split (p s r : str) :
  strip_prefix p s = Some r -> s = p ++ r.
Proof.
  revert s. induction p as [|a p IH]; intros s H.
  - cbn in *. congruence.
  - destruct s as [|b s]; [discriminate|]. cbn in H.
    destruct (ch_eqb a b) eqn:E; [|discriminate].
    apply ch_eqb_true in E. subst b. cbn. f_equal. apply IH, H.
Qed.

Lemma span_app (p : ascii -> bool) (a b : str) :
  forallb p a = true -> stops p b -> span p (a ++ b) = (a, b).
Proof.
  induction a as [|c a IH]; cbn; intros Ha Hb.
  - destruct b as [|x b]; [reflexivity|]. cbn in Hb |- *. rewrite Hb. reflexivity.
  - apply andb_true_iff in Ha as [Hc Ha]. rewrite Hc, (IH Ha Hb). reflexivity.
Qed.

Lemma span_split (p : ascii -> bool) (s : str) :
  s = fst (span p s) ++ snd (span p s)
  /\ forallb p (fst (span p s)) = true
  /\ stops p (snd (span p s)).
Proof.
  induction s as [|c s IH]; cbn; [auto|].
  destruct (p c) eqn:E.
  - destruct (span p s) as [a b]. cbn in *. destruct IH as [-> [Ha Hb]].
    rewrite E. auto.
  - cbn. auto.
Qed.

Lemma span_rest_length (p : ascii -> bool) (s : str) :
  length (snd (span p s)) <= length s.
Proof.
  destruct (span_split p s) as [E _]. rewrite E at 2. rewrite length_app. lia.
Qed.

Lemma consumed_app (w rest : str) : consumed (w ++ rest) rest = length w.
Proof. unfold consumed. rewrite length_app. lia. Qed.

Lemma no_ch_app (c : ascii) (a b : str) :
  forallb (not_ch c) (a ++ b) = forallb (not_ch c) a && forallb (not_ch c) b.
Proof. apply forallb_app. Qed.

Lemma tokens_from_blind {R} (m : matcher R) :
  blind m -> forall s k p q, tokens_from m k p s = tokens_from m k q s.
Proof.
  intros Hb. induction s as [|c s IH]; intros k p q; [reflexivity|].
  cbn. destruct k as [|k]; [|reflexivity].
  rewrite (Hb p q). reflexivity.
Qed.

Lemma tokens_from_skip {R} (m : matcher R) (a s : str) p q :
  blind m ->
  tokens_from m (length a) p (a ++ s) = tokens_from m 0 q s.
Proof.
  intros Hb. revert p. induction a as [|c a IH]; intros p.
  - cbn. apply tokens_from_blind, Hb.
  - cbn. apply IH.
Qed.

Lemma tokens_from_lits {R} (m : matcher R) (c0 : ascii) (a s : str) p q :
  blind m -> starts_at m c0 -> forallb (not_ch c0) a = true ->
  tokens_from m 0 p (a ++ s) = map Lit a ++ tokens_from m 0 q s.
Proof.
  intros Hb Hs. revert p. induction a as [|c a IH]; intros p Ha.
  - cbn. apply tokens_from_blind, Hb.
  - cbn in Ha. apply andb_true_iff in Ha as [Hc Ha].
    cbn. rewrite Hs.
    + f_equal. apply IH, Ha.
    + unfold not_ch in Hc. apply negb_true_iff, ch_eqb_false in Hc. exact Hc.
Qed.

Lemma tokens_from_hit {R} (m : matcher R) (w s : str) (r : R) p q :
  blind m -> w <> [] -> m p (w ++ s) = Some (r, length w) ->
  tokens_from m 0 p (w ++ s) = Hit w r :: tokens_from m 0 q s.
Proof.
  intros Hb Hw Hm. destruct w as [|c w]; [congruence|].
  cbn [app tokens_from]. cbn [app] in Hm. rewrite Hm.
  f_equal.
  - f_equal. change (c :: w ++ s) with ((c :: w) ++ s).
    rewrite firstn_app, firstn_all, Nat.sub_diag, firstn_O, app_nil_r.
    reflexivity.
  - cbn [length pred]. apply tokens_from_skip, Hb.
Qed.

Lemma count_occ_str_none (p s : str) (c : ascii) :
  hd_error p = Some c -> forallb (not_ch c) s = true -> count_occ_str p s = 0.
Proof.
  intros Hp. destruct p as [|x p]; [discriminate|]. cbn in Hp.
  injection Hp as ->.
  induction s as [|y s IH]; intros Hs.
  - reflexivity.
  - cbn in Hs. apply andb_true_iff in Hs as [Hy Hs].
    cbn. unfold starts_with. cbn.
    unfold not_ch in Hy. apply negb_true_iff in Hy.
    rewrite Ascii.eqb_sym in Hy. fold (ch_eqb c y). 
    assert (ch_eqb c y = false) as ->.
    { unfold ch_eqb. exact Hy. }
    cbn. apply IH, Hs.
Qed.

End StringFacts.

(** ** Global replacement on a text cut in two *)

Section ReplaceFacts.
Context {R : Type}.
Variable m : matcher R.

Lemma local_before_tail (c : ascii) (A T : str) :
  local_before m (c :: A) T -> local_before m A T.
Proof.
  intros H A1 A2 p E. apply (H (c :: A1) A2 p). rewrite E. reflexivity.
Qed.

Lemma tokens_from_app (A T : str) :
  blind m -> bounded m -> local_before m A T ->
  forall k p, k <= length A ->
  tokens_from m k p (A ++ T) = tokens_from m k p A ++ tokens_from m 0 p T.
Proof.
  intros Hb Hn. induction A as [|c A IH]; intros Hl k p Hk.
  - cbn in Hk. replace k with 0 by lia. reflexivity.
  - specialize (IH (local_before_tail c A T Hl)).
    cbn [app tokens_from]. destruct k as [|k].
    + change (c :: A ++ T) with ((c :: A) ++ T).
      rewrite (Hl [] (c :: A) p eq_refl) by discriminate.
      destruct (m p (c :: A)) as [[r n]|] eqn:Hm.
      * pose proof (Hn _ _ _ _ Hm) as Hle. cbn [length] in Hle.
        rewrite firstn_app.
        replace (n - length (c :: A)) with 0 by (cbn [length]; lia).
        rewrite firstn_O, app_nil_r. cbn [app]. f_equal.
        rewrite (IH (pred n) (Some c)) by lia.
        f_equal. apply tokens_from_blind, Hb.
      * cbn [app]. f_equal. rewrite (IH 0 (Some c)) by lia.
        f_equal. apply tokens_from_blind, Hb.
    + cbn [length] in Hk. rewrite (IH k (Some c)) by lia.
      f_equal. apply tokens_from_blind, Hb.
Qed.

Lemma replace_all_app (f : str -> R -> str) (A T : str) :
  blind m -> bounded m -> local_before m A T ->
  replace_all m f (A ++ T) = replace_all m f A ++ replace_all m f T.
Proof.
  intros Hb Hn Hl. unfold replace_all, tokens.
  rewrite (tokens_from_app A T Hb Hn Hl 0 None) by lia.
  apply flat_map_app.
Qed.

(** Where the pattern matches nowhere, nothing is replaced. *)
Lemma replace_no_hit (f : str -> R -> str) (s : str) k p :
  hits (tokens_from m k p s) = [] ->
  flat_map (fun t => match t with Lit c => [c] | Hit w r => f w r end)
    (tokens_from m k p s) = skipn k s.
Proof.
  revert k p. induction s as [|c s IH]; intros k p H.
  - destruct k; reflexivity.
  - cbn [tokens_from] in *. destruct k as [|k].
    + destruct (m p (c :: s)) as [[r n]|]; [discriminate H|].
      cbn [hits] in H. cbn [flat_map app skipn]. f_equal.
      rewrite (IH 0 (Some c) H). reflexivity.
    + cbn [skipn]. apply IH, H.
Qed.

Lemma replace_all_no_hit (f : str -> R -> str) (s : str) :
  matchAll m s = [] -> replace_all m f s = s.
Proof. intros H. apply (replace_no_hit f s 0 None H). Qed.

Lemma no_hit_at (s s1 s2 : str) k p :
  hits (tokens_from m k p s) = [] -> blind m ->
  s = s1 ++ s2 -> k <= length s1 -> s2 <> [] -> m p s2 = None.
Proof.
  intros H Hb. revert s k p H. induction s1 as [|c s1 IH]; intros s k p H E Hk Hne.
  - cbn in E, Hk. subst s. replace k with 0 in H by lia.
    destruct s2 as [|c s2]; [congruence|]. cbn [tokens_from] in H.
    destruct (m p (c :: s2)) as [[r n]|]; [discriminate H | reflexivity].
  - subst s. cbn [app tokens_from] in H. destruct k as [|k].
    + destruct (m p (c :: s1 ++ s2)) as [[r n]|]; [discriminate H|].
      cbn [hits] in H.
      rewrite (Hb p (Some c)). apply (IH _ 0 (Some c) H eq_refl); [lia | exact Hne].
    + rewrite (Hb p (Some c)).
      apply (IH _ k (Some c) H eq_refl); [cbn [length] in Hk; lia | exact Hne].
Qed.

(** A replacement that writes characters of a class keeps a text of the
    class in the class. *)
Lemma replace_all_keeps (phi : ascii -> bool) (f : str -> R -> str) :
  (forall p s r n, m p s = Some (r, n) -> forallb phi (f (firstn n s) r) = true) ->
  forall s, forallb phi s = true -> forallb phi (replace_all m f s) = true.
Proof.
  intros Hf s. unfold replace_all, tokens. generalize 0 (@None ascii).
  induction s as [|c s IH]; intros k p Hs; [reflexivity|].
  cbn in Hs. apply andb_true_iff in Hs as [Hc Hs].
  cbn [tokens_from]. destruct k as [|k]; [|apply IH, Hs].
  destruct (m p (c :: s)) as [[r n]|] eqn:Hm; cbn [flat_map].
  - rewrite forallb_app, (Hf _ _ _ _ Hm), (IH _ _ Hs). reflexivity.
  - rewrite forallb_app. cbn. rewrite Hc, (IH _ _ Hs). reflexivity.
Qed.

End ReplaceFacts.

(** ** Response cache *)

Section CacheFacts.
Import ContentCache.
Context {A : Type}.
Implicit Types (cache : gmap string (@entry A)) (key : string).

Lemma get_keeps_store now key cache : snd (get now key cache) = cache.
Proof.
  unfold get. destruct (cache !! key) as [item|]; [|reflexivity].
  destruct (now - timestamp item <? TTL)%Z; reflexivity.
Qed.

Lemma get_after_set now now' key (v : A) cache :
  fst (get now' key (set now key v cache))
  = if (now' - now <? TTL)%Z then Some v else None.
Proof.
  unfold get, set. rewrite lookup_insert_eq. simpl.
  destruct (now' - now <? TTL)%Z; reflexivity.
Qed.

(** C6: a value set at time [T] is returned by [get] while less than
    3600000 ms have passed, and is reported absent from then on, the
    entry staying in the store. *)
Theorem cache_ttl_lazy_expiry (T T' : Z) key (v : A) cache :
  let stored := set T key v cache in
  ((T' - T < 3600000)%Z -> fst (get T' key stored) = Some v)
  /\ ((T' - T >= TTL)%Z ->
      fst (get T' key stored) = None
      /\ snd (get T' key stored) = stored
      /\ stored !! key = Some (Entry v T)).
Proof.
  intros stored. subst stored. split.
  - intros Hlt. rewrite get_after_set.
    destruct (Z.ltb_spec (T' - T) TTL) as [_|Hge]; [reflexivity|].
    unfold TTL in Hge. lia.
  - intros Hge. rewrite get_after_set, get_keeps_store.
    split; [|split; [reflexivity|]].
    + destruct (Z.ltb_spec (T' - T) TTL) as [Hlt|_]; [lia|reflexivity].
    + unfold set. apply lookup_insert_eq.
Qed.
End CacheFacts.

Lemma cache_ttl_lazy_expiry_witness :
  fst (ContentCache.get 1000 "k" (ContentCache.set 0 "k" 7 ∅)) = Some 7
  /\ fst (ContentCache.get 3601000 "k" (ContentCache.set 0 "k" 7 ∅)) = None.
Proof.
  split.
  - apply (proj1 (cache_ttl_lazy_expiry 0 1000 "k" 7 ∅)). lia.
  - apply (proj2 (cache_ttl_lazy_expiry 0 3601000 "k" 7 ∅)).
    unfold ContentCache.TTL. lia.
Defined.

(** ** Word-count gate *)

Section WordCountFacts.
Import WordCount.

Lemma count_words_empty : count_words [] = 0.
Proof. reflexivity. Qed.

Lemma enforce_on_text (c : ascii) (s : str) (minWords maxWords : nat) :
  snd (enforceWordCount (JString (c :: s)) minWords maxWords)
  = inr (count_words (c :: s)).
Proof.
  unfold enforceWordCount. cbn [truthy is_string negb orb].
  destruct (maxWords <? count_words (c :: s)); reflexivity.
Qed.

(** C10, as the code has it: the empty string passes [content.replace]
    and reaches the guard, which throws its error. *)
Lemma guard_reached_by_empty_string :
  enforceWordCount (JString []) 2500 3000
  = ([LogWordCount 0 2500 3000], inl guard_error).
Proof. reflexivity. Qed.

(** C10, amended: a [null], [undefined], boolean or number argument
    makes [enforceWordCount] throw a [TypeError] at [content.replace],
    with nothing logged; the guard is reached by exactly one argument,
    the empty string. *)
Theorem guard_only_for_empty_string (content : js_value)
    (minWords maxWords : nat) :
  (is_string content = false ->
   enforceWordCount content minWords maxWords = ([], inl TypeError))
  /\ (snd (enforceWordCount content minWords maxWords) = inl guard_error
      <-> content = JString []).
Proof.
  split.
  - destruct content; cbn; intros H; try reflexivity; discriminate H.
  - split.
    + destruct content as [| | b | n | s]; try (cbn; discriminate).
      destruct s as [|c s]; [reflexivity|].
      intros H. rewrite enforce_on_text in H. discriminate H.
    + intros ->. reflexivity.
Qed.

Variable normalizedContent : str -> str.
Variable schemaMarkup : str -> str.

(** C8: below the minimum of the stage (2200, or 3500 for a pillar) the
    finalize stage throws [ContentTooShortError] with the measured word
    count and the content of the payload (the empty content for an
    empty article); from the minimum on it returns the payload, and
    above the maximum it also writes a warning. *)
Theorem finalize_word_count_gate (isPillar : bool) (content : str) :
  let minWords := if isPillar then 3500 else 2200 in
  let maxWords := if isPillar then 4500 else 2800 in
  let payload := normalizedContent content ++ schemaMarkup content in
  let wordCount := count_words content in
  let r := finalize_gate normalizedContent schemaMarkup isPillar content in
  (wordCount < minWords ->
   exists message,
     snd r = inl (ContentTooShortError message
                    (match content with [] => [] | _ => payload end)
                    wordCount))
  /\ (minWords <= wordCount -> snd r = inr payload)
  /\ (maxWords < wordCount ->
      fst r = [LogWordCount wordCount minWords maxWords;
               WarnOverTarget (wordCount - maxWords)]
      /\ snd r = inr payload).
Proof.
  intros minWords maxWords payload wordCount r.
  assert (Hmin : minWords
                 = if isPillar then TARGET_MIN_WORDS_PILLAR
                   else TARGET_MIN_WORDS) by (destruct isPillar; reflexivity).
  assert (Hmax : maxWords
                 = if isPillar then TARGET_MAX_WORDS_PILLAR
                   else TARGET_MAX_WORDS) by (destruct isPillar; reflexivity).
  assert (Hlt : minWords < maxWords)
    by (subst minWords maxWords; destruct isPillar; lia).
  subst r. unfold finalize_gate. rewrite <- Hmin, <- Hmax.
  destruct content as [|c s].
  - subst wordCount. rewrite count_words_empty. cbn.
    repeat split.
    + intros _. eexists. reflexivity.
    + intros H. subst minWords. destruct isPillar; lia.
    + subst maxWords. destruct isPillar; lia.
    + subst maxWords. destruct isPillar; lia.
  - unfold enforceWordCount. cbn [truthy is_string negb orb].
    fold wordCount. fold payload.
    destruct (Nat.ltb_spec maxWords wordCount) as [Hover|Hunder];
      destruct (Nat.ltb_spec wordCount minWords) as [Hshort|Hok];
      cbn [fst snd]; repeat split; intros; try lia;
      try reflexivity; eexists; reflexivity.
Qed.
End WordCountFacts.

Lemma finalize_word_count_gate_witness :
  exists message,
    snd (WordCount.finalize_gate (fun c => c) (fun _ => []) false
           (txt "<p>far too short</p>"))
    = inl (WordCount.ContentTooShortError message
             (txt "<p>far too short</p>") 3).
Proof.
  destruct (proj1 (finalize_word_count_gate (fun c => c) (fun _ => []) false
                     (txt "<p>far too short</p>"))) as [message H].
  - vm_compute. lia.
  - exists message. rewrite H. vm_compute. reflexivity.
Defined.

(** ** Retrying invoker *)

Section RetryFacts.
Import Retry.
Context {V : Type}.
Variable apiCall : nat -> ai_error + V.
Variable is_http_date : str -> bool.
Variable maxRetries : nat.

Lemma fails_fast_test e :
  fails_fast e ->
  isNonRetriableClientError e || isContextLengthError e
  || isInvalidApiKeyError e = true.
Proof.
  intros [[s [Hs [Hrange Hne]]] | [H | H]].
  - unfold isNonRetriableClientError. rewrite Hs.
    destruct s as [|n]; [lia|].
    destruct (Nat.leb_spec 400 (S n)); [|lia].
    destruct (Nat.ltb_spec (S n) 500); [|lia].
    destruct (Nat.eqb_spec (S n) 429); [lia|]. reflexivity.
  - rewrite H. apply orb_true_iff. left. apply orb_true_r.
  - rewrite H. apply orb_true_r.
Qed.

(** At whatever attempt such an error comes, the loop ends there: the
    call is made once more and nothing follows. *)
Lemma attempts_fail_fast remaining attempt e :
  apiCall attempt = inl e -> fails_fast e ->
  attempts apiCall is_http_date maxRetries (S remaining) attempt
  = ([Call attempt], Threw e).
Proof.
  intros Hcall Hfast. cbn [attempts]. rewrite Hcall.
  rewrite (fails_fast_test e Hfast). reflexivity.
Qed.

(** After any number of failures that were retried, such an error ends
    the loop: the call has been made once per attempt and is not made
    again. *)
Lemma fail_fast_at_any_attempt (d a k : nat) e :
  a + d = k -> k < maxRetries ->
  (forall j, a <= j < k -> exists ej, apiCall j = inl ej /\ retriable ej = true) ->
  apiCall k = inl e -> fails_fast e ->
  exists trace,
    attempts apiCall is_http_date maxRetries (maxRetries - a) a
    = (trace, Threw e)
    /\ calls trace = S d.
Proof.
  revert a. induction d as [|d IH]; intros a Hk Hlt Hearlier Hcall Hfast.
  - rewrite Nat.add_0_r in Hk. subst a.
    destruct (maxRetries - k) as [|r] eqn:Hr; [lia|].
    exists [Call k]. split; [|reflexivity].
    apply attempts_fail_fast; assumption.
  - destruct (Hearlier a ltac:(lia)) as [ej [Hej Hretry]].
    destruct (IH (S a) ltac:(lia) Hlt) as [trace [Htrace Hcalls]]; try assumption.
    { intros j Hj. apply Hearlier. lia. }
    destruct (maxRetries - a) as [|r] eqn:Hr; [lia|].
    replace (maxRetries - S a) with r in Htrace by lia.
    cbn [attempts]. rewrite Hej.
    unfold retriable in Hretry. apply negb_true_iff in Hretry. rewrite Hretry.
    destruct (Nat.eqb_spec a (maxRetries - 1)) as [Hlast|_]; [lia|].
    rewrite Htrace.
    exists (Call a :: Sleep (next_delay is_http_date ej a) :: trace).
    split; [reflexivity|].
    unfold calls in *. cbn [List.filter length]. rewrite Hcalls. reflexivity.
Qed.

(** C4: with at least one attempt allowed, a first failure with a
    status in [400,500) other than 429, or with a context-length,
    token-limit or invalid-API-key message, is thrown as it is after
    exactly one invocation and no wait. *)
Theorem fail_fast_no_second_call e :
  1 <= maxRetries -> apiCall 0 = inl e -> fails_fast e ->
  let '(trace, result) := callAiWithRetry apiCall is_http_date maxRetries in
  trace = [Call 0] /\ result = Threw e /\ calls trace = 1.
Proof.
  intros Hmax Hcall Hfast. unfold callAiWithRetry.
  destruct maxRetries as [|k] eqn:Hk; [lia|].
  rewrite <- Hk.
  pose proof (attempts_fail_fast k 0 e Hcall Hfast) as H.
  rewrite Hk in H |- *. rewrite H. repeat split.
Qed.
End RetryFacts.

Lemma fail_fast_no_second_call_witness :
  let e := Retry.AiError (Some 401) (txt "Unauthorized") None in
  Retry.callAiWithRetry (V := unit) (fun _ => inl e) (fun _ => false) 5
  = ([Retry.Call 0], Retry.Threw e).
Proof.
  intros e.
  pose proof (fail_fast_no_second_call (V := unit) (fun _ => inl e)
                (fun _ => false) 5 e) as H.
  destruct (Retry.callAiWithRetry _ _ _) as [trace result].
  destruct H as [Ht [Hr _]].
  - lia.
  - reflexivity.
  - left. exists 401. repeat split; [lia | lia | lia].
  - rewrite Ht, Hr. reflexivity.
Defined.

(** ** Link integrity: the guards, and the functions on concrete pages *)

Section LinkGuards.
Import Links.
Variable utm_url : str -> option str.

(** C9: with an empty page list both functions return the content as
    it is. *)
Theorem empty_page_list_is_identity (content : str) :
  validateAndRepairInternalLinks content [] = content
  /\ processInternalLinks utm_url content [] = Some content.
Proof.
  unfold validateAndRepairInternalLinks, processInternalLinks.
  cbn [length Nat.eqb]. rewrite !orb_true_r. split; reflexivity.
Qed.
End LinkGuards.

Section LinkCounterexamples.
Import Links Examples.

(** The pattern of the quota function has no capture group, so the set
    of linked slugs never holds a slug. *)
Lemma linked_slugs_undefined_from (content : str) k prev :
  Forall (fun v => v = None)
    (map (fun m => match_index m 1)
       (hits (tokens_from quota_placeholder_re k prev content))).
Proof.
  revert k prev. induction content as [|c s IH]; intros k prev.
  - constructor.
  - cbn [tokens_from]. destruct k as [|k]; [|apply IH].
    unfold quota_placeholder_re at 1.
    destruct (placeholder_re prev (c :: s)) as [[g n]|]; cbn [hits map].
    + constructor; [reflexivity | apply IH].
    + apply IH.
Qed.

Lemma linked_slugs_undefined (content : str) :
  Forall (fun v => v = None)
    (map (fun m => match_index m 1) (matchAll quota_placeholder_re content)).
Proof. apply linked_slugs_undefined_from. Qed.

(** So the pool of candidate pages is the same whatever the content
    links already. *)
Lemma candidate_pool_ignores_links (content : str) (pages : list page) :
  candidatePages
    (map (fun m => match_index m 1) (matchAll quota_placeholder_re content))
    pages
  = candidatePages [] pages.
Proof.
  unfold candidatePages. f_equal. f_equal. apply List.filter_ext. intros p.
  f_equal. f_equal. f_equal.
  pose proof (linked_slugs_undefined content) as H.
  induction H as [|v l Hv _ IH]; [reflexivity|].
  cbn [existsb]. rewrite Hv, IH. reflexivity.
Qed.

(** C3, on the code: the content links the page [seo-guide] already,
    and the quota function adds a second placeholder for it. *)
Theorem quota_links_linked_page_again :
  let content :=
    jq "<p>[INTERNAL_LINK slug='seo-guide' text='read this'] and The Ultimate SEO Guide here.</p>" in
  map snd (matchAll placeholder_re content)
  = [(txt "seo-guide", txt "read this")]
  /\ enforceInternalLinkQuota content [seo_guide] (txt "seo")
       MIN_INTERNAL_LINKS
     = jq "<p>[INTERNAL_LINK slug='seo-guide' text='read this'] and [INTERNAL_LINK slug='seo-guide' text='The Ultimate SEO Guide'] here.</p>".
Proof. vm_compute. split; reflexivity. Qed.

(** C1, as the code has it: a valid placeholder survives the four
    steps when the page list is empty, and with a known page a token
    whose attributes are in the other order survives them too. *)
Lemma placeholder_survives_pipeline :
  (let content := jq "<p>[INTERNAL_LINK slug='home' text='Home']</p>" in
   link_pipeline append_utm content [] (txt "home") MIN_INTERNAL_LINKS
   = Some content
   /\ count_occ_str token_opener content = 1)
  /\ (let content := jq "<p>[INTERNAL_LINK text='Home' slug='home']</p>" in
      link_pipeline append_utm content [home] (txt "home") MIN_INTERNAL_LINKS
      = Some content
      /\ count_occ_str token_opener content = 1).
Proof. vm_compute. repeat split. Qed.

(** With valid input too a token can survive: the quota function finds
    the title of a page inside the anchor text of a placeholder and puts
    a placeholder there; resolution then turns the inner one into a link,
    and the sanitizer keeps the outer one. *)
Lemma quota_injects_inside_anchor_text :
  let content :=
    jq "<p>see [INTERNAL_LINK slug='home' text='our The Ultimate SEO Guide now'] ok</p>" in
  enforceInternalLinkQuota content [home; seo_guide] (txt "seo")
    MIN_INTERNAL_LINKS
  = jq "<p>see [INTERNAL_LINK slug='home' text='our [INTERNAL_LINK slug='seo-guide' text='The Ultimate SEO Guide'] now'] ok</p>"
  /\ option_map (count_occ_str token_opener)
       (link_pipeline append_utm content [home; seo_guide] (txt "seo")
          MIN_INTERNAL_LINKS)
     = Some 1.
Proof. vm_compute. split; reflexivity. Qed.

(** C7, as the code has it: the anchor text released by the first pass
    completes a placeholder that the second pass then removes, whether
    the opening bracket comes from the anchor text or from the text
    before it. *)
Lemma repair_twice_differs :
  (let content :=
     jq "[INTERNAL_LINK slug='x' text='[INTERNAL_LINK'] slug='bad' text='zzz']" in
   validateAndRepairInternalLinks content [home]
   = jq "[INTERNAL_LINK slug='bad' text='zzz']"
   /\ validateAndRepairInternalLinks
        (validateAndRepairInternalLinks content [home]) [home]
      = txt "zzz"
   /\ validateAndRepairInternalLinks
        (validateAndRepairInternalLinks content [home]) [home]
      <> validateAndRepairInternalLinks content [home])
  /\ (let content :=
        jq "[INTERNAL_LINK slug='[INTERNAL_LINK slug='x' text='foo']' text='t']" in
      validateAndRepairInternalLinks content [home]
      = jq "[INTERNAL_LINK slug='foo' text='t']"
      /\ validateAndRepairInternalLinks
           (validateAndRepairInternalLinks content [home]) [home]
         = txt "t").
Proof. vm_compute. repeat split. discriminate. Qed.
End LinkCounterexamples.

(** ** Well-formed link documents *)

Section LinkDocFacts.
Import Links LinkDoc.

Lemma nonempty_neq (s : str) : nonempty s = true -> s <> [].
Proof. destruct s; [discriminate | congruence]. Qed.

Lemma many1_app (p : ascii -> bool) (a b : str) :
  nonempty a = true -> forallb p a = true -> stops p b ->
  many1 p (a ++ b) = Some (a, b).
Proof.
  intros Hne Ha Hb. unfold many1. rewrite (span_app p a b Ha Hb).
  destruct a; [discriminate | reflexivity].
Qed.

Lemma placeholder_re_blind : blind placeholder_re.
Proof. intros p q s. reflexivity. Qed.

Lemma placeholder_re_starts : starts_at placeholder_re "["%char.
Proof.
  intros prev c s Hc. unfold placeholder_re. cbn.
  destruct (ch_eqb "["%char c) eqn:E; [|reflexivity].
  apply ch_eqb_true in E. congruence.
Qed.

Lemma placeholder_re_link (w1 slug w2 text rest : str) prev :
  wf_seg (Link w1 slug w2 text) = true ->
  placeholder_re prev (render_seg (Link w1 slug w2 text) ++ rest)
  = Some ((slug, text), length (render_seg (Link w1 slug w2 text))).
Proof.
  cbn [wf_seg]. rewrite !andb_true_iff.
  intros [[[[[[[[Hw1 Hs1] Hslug] Hq1] Hw2] Hs2] Htext] Hq2] _].
  unfold placeholder_re, render_seg.
  rewrite <- !app_assoc.
  rewrite strip_prefix_app.
  rewrite (many1_app is_space w1 _ Hw1 Hs1) by reflexivity.
  rewrite strip_prefix_app.
  rewrite (many1_app (not_ch dq) slug _ Hslug Hq1) by reflexivity.
  change ([dq] ++ w2 ++ jq "text='" ++ text ++ jq "']" ++ rest)
    with ([dq] ++ (w2 ++ jq "text='" ++ text ++ jq "']" ++ rest)).
  rewrite strip_prefix_app.
  rewrite (many1_app is_space w2 _ Hw2 Hs2) by reflexivity.
  rewrite strip_prefix_app.
  rewrite (many1_app (not_ch dq) text _ Htext Hq2) by reflexivity.
  rewrite strip_prefix_app.
  f_equal. f_equal.
  rewrite !app_assoc. rewrite consumed_app. rewrite <- !app_assoc. reflexivity.
Qed.

Lemma render_link_nonempty w1 slug w2 text :
  render_seg (Link w1 slug w2 text) <> [].
Proof. discriminate. Qed.

Lemma tokens_render (d : list seg) (rest : str) p :
  wf_doc d = true ->
  tokens_from placeholder_re 0 p (render d ++ rest)
  = flat_map seg_tokens d ++ tokens_from placeholder_re 0 p rest.
Proof.
  induction d as [|g d IH]; intros Hwf; [reflexivity|].
  cbn [wf_doc forallb] in Hwf. apply andb_true_iff in Hwf as [Hg Hd].
  cbn [render flat_map]. fold (render d). rewrite <- !app_assoc.
  destruct g as [s | w1 slug w2 text].
  - cbn [render_seg seg_tokens].
    rewrite (tokens_from_lits placeholder_re "["%char s _ p p
               placeholder_re_blind placeholder_re_starts Hg).
    rewrite (IH Hd). reflexivity.
  - rewrite (tokens_from_hit placeholder_re _ _ (slug, text) p p
               placeholder_re_blind (render_link_nonempty _ _ _ _)
               (placeholder_re_link _ _ _ _ _ p Hg)).
    rewrite (IH Hd). reflexivity.
Qed.

Lemma replace_all_render (f : str -> str * str -> str) (d : list seg) :
  wf_doc d = true ->
  replace_all placeholder_re f (render d) = flat_map (seg_replace f) d.
Proof.
  intros Hwf. unfold replace_all, tokens.
  rewrite <- (app_nil_r (render d)), (tokens_render d [] None Hwf).
  cbn [tokens_from]. rewrite app_nil_r.
  clear Hwf. induction d as [|g d IH]; [reflexivity|].
  cbn [flat_map]. rewrite flat_map_app, IH. f_equal.
  destruct g as [s|w1 slug w2 text].
  - cbn [seg_tokens seg_replace]. induction s as [|c s IHs]; [reflexivity|].
    cbn. f_equal. exact IHs.
  - cbn [seg_tokens seg_replace flat_map]. apply app_nil_r.
Qed.

End LinkDocFacts.

(** ** Repair on well-formed documents *)

Section RepairFacts.
Import Links LinkDoc RepairDoc.

Lemma slug_map_from (pages : list page) (m : gmap str page) (k : str) :
  is_Some (m !! k) \/ (exists p, In p pages /\ slug p = k) ->
  is_Some (foldl (fun m p => <[ slug p := p ]> m) m pages !! k).
Proof.
  revert m. induction pages as [|q pages IH]; intros m H.
  - cbn. destruct H as [H | [p [[] _]]]. exact H.
  - cbn [foldl]. apply IH.
    destruct H as [H | [p [[-> | Hin] Hk]]].
    + left. destruct (decide (slug q = k)) as [E | Hne].
      * subst k. rewrite lookup_insert_eq. eauto.
      * rewrite lookup_insert_ne by exact Hne. exact H.
    + left. subst k. rewrite lookup_insert_eq. eauto.
    + right. eauto.
Qed.

Lemma slug_map_known (pages : list page) (p : page) :
  In p pages -> is_Some (slug_map pages !! slug p).
Proof. intros H. apply slug_map_from. right. eauto. Qed.

Lemma slug_map_from_in (pages : list page) (m : gmap str page) (k : str) p :
  foldl (fun m p => <[ slug p := p ]> m) m pages !! k = Some p ->
  m !! k = Some p \/ In p pages.
Proof.
  revert m. induction pages as [|q pages IH]; intros m H.
  - left. exact H.
  - cbn [foldl] in H. apply IH in H as [H | H].
    + destruct (decide (slug q = k)) as [E | Hne].
      * subst k. rewrite lookup_insert_eq in H. injection H as ->.
        right. left. reflexivity.
      * rewrite lookup_insert_ne in H by exact Hne. left. exact H.
    + right. right. exact H.
Qed.

Lemma resolve_map_in (pages : list page) (k : str) (p : page) :
  resolve_map pages !! k = Some p -> In p pages.
Proof.
  unfold resolve_map, slug_map. intros H.
  apply slug_map_from_in in H as [H | H].
  - rewrite lookup_empty in H. discriminate.
  - apply List.filter_In in H. tauto.
Qed.

Lemma best_match_from (aL : str) (aS : list str) (l : list page) acc p sc :
  fold_left
    (fun '(bestMatch, highestScore) p =>
       match score aL aS p with
       | Some currentScore =>
           if (highestScore <? currentScore)%float
           then (Some p, currentScore)
           else (bestMatch, highestScore)
       | None => (bestMatch, highestScore)
       end) l acc = (Some p, sc) ->
  fst acc = Some p \/ (In p l /\ truthy (slug p) = true).
Proof.
  revert acc. induction l as [|q l IH]; intros [b h] H.
  - cbn in H. left. cbn. congruence.
  - cbn [fold_left] in H. apply IH in H.
    destruct (score aL aS q) as [cs|] eqn:Hs.
    + destruct (h <? cs)%float.
      * destruct H as [H | [H1 H2]].
        -- cbn in H. injection H as <-. right. split; [left; reflexivity|].
           unfold score in Hs. destruct (truthy (slug q)); [reflexivity|].
           cbn in Hs. discriminate.
        -- right. split; [right; exact H1 | exact H2].
      * destruct H as [H | [H1 H2]]; [left; exact H|].
        right. split; [right; exact H1 | exact H2].
    + destruct H as [H | [H1 H2]]; [left; exact H|].
      right. split; [right; exact H1 | exact H2].
Qed.

Lemma best_match_in (text : str) (pages : list page) p sc :
  best_match text pages = (Some p, sc) ->
  In p pages /\ truthy (slug p) = true.
Proof.
  unfold best_match. intros H. apply best_match_from in H as [H | H].
  - discriminate.
  - exact H.
Qed.

Lemma escape_quotes_id (text : str) :
  no_ch dq text = true -> escape_quotes text = text.
Proof.
  induction text as [|c s IH]; [reflexivity|].
  cbn. intros H. apply andb_true_iff in H as [Hc Hs].
  unfold not_ch in Hc. apply negb_true_iff in Hc. rewrite Hc.
  cbn. f_equal. apply IH, Hs.
Qed.

Lemma truthy_nonempty (s : str) : truthy s = nonempty s.
Proof. destruct s; reflexivity. Qed.

Lemma slugs_quote_free_in (pages : list page) (p : page) :
  slugs_quote_free pages = true -> In p pages -> no_ch dq (slug p) = true.
Proof.
  unfold slugs_quote_free. rewrite forallb_forall. intros H Hin.
  apply H, Hin.
Qed.

Lemma wf_link_parts w1 slug w2 text :
  wf_seg (Link w1 slug w2 text) = true ->
  nonempty text = true /\ no_ch dq text = true /\ no_ch "["%char text = true.
Proof.
  cbn [wf_seg]. rewrite !andb_true_iff. tauto.
Qed.

Lemma wf_link_space (s t : str) :
  nonempty s = true -> no_ch dq s = true ->
  nonempty t = true -> no_ch dq t = true -> no_ch "["%char t = true ->
  wf_seg (Link (txt " ") s (txt " ") t) = true.
Proof.
  intros H1 H2 H3 H4 H5. cbn [wf_seg]. rewrite H1, H2, H3, H4, H5. reflexivity.
Qed.

Lemma wf_repair_seg (pages : list page) (g : seg) :
  slugs_quote_free pages = true -> wf_seg g = true ->
  wf_seg (repair_seg pages g) = true.
Proof.
  intros Hq Hg. destruct g as [s | w1 slug w2 text]; [exact Hg|].
  cbn [repair_seg]. destruct (slug_map pages !! slug); [exact Hg|].
  destruct (wf_link_parts _ _ _ _ Hg) as [Hne [Hdq Hbr]].
  destruct (best_match text pages) as [[b|] sc] eqn:Hb; [|exact Hbr].
  destruct (50 <? sc)%float; [|exact Hbr].
  apply best_match_in in Hb as [Hin Ht].
  apply wf_link_space.
  - rewrite <- truthy_nonempty. exact Ht.
  - apply (slugs_quote_free_in pages b Hq Hin).
  - exact Hne.
  - exact Hdq.
  - exact Hbr.
Qed.

Lemma wf_repair_doc (pages : list page) (d : list seg) :
  slugs_quote_free pages = true -> wf_doc d = true ->
  wf_doc (map (repair_seg pages) d) = true.
Proof.
  intros Hq. unfold wf_doc. rewrite !forallb_forall.
  intros H g Hg. apply in_map_iff in Hg as [g0 [<- Hin]].
  apply wf_repair_seg; auto.
Qed.

Lemma repair_seg_again (pages : list page) (g : seg) :
  repair_seg pages (repair_seg pages g) = repair_seg pages g.
Proof.
  destruct g as [s | w1 slug w2 text]; [reflexivity|].
  cbn [repair_seg]. destruct (slug_map pages !! slug) eqn:Hk.
  - cbn [repair_seg]. rewrite Hk. reflexivity.
  - destruct (best_match text pages) as [[b|] sc] eqn:Hb; [|reflexivity].
    destruct (50 <? sc)%float; [|reflexivity].
    apply best_match_in in Hb as [Hin _].
    cbn [repair_seg]. destruct (slug_map_known pages b Hin) as [x ->].
    reflexivity.
Qed.

Lemma repair_render_seg (pages : list page) (g : seg) :
  wf_seg g = true ->
  seg_replace (repair pages) g = render_seg (repair_seg pages g).
Proof.
  destruct g as [s | w1 slug w2 text]; [reflexivity|]. intros Hg.
  cbn [seg_replace repair_seg]. unfold repair.
  destruct (slug_map pages !! slug); [reflexivity|].
  destruct (wf_link_parts _ _ _ _ Hg) as [_ [Hdq _]].
  destruct (best_match text pages) as [[b|] sc]; [|reflexivity].
  destruct (50 <? sc)%float; [|reflexivity].
  rewrite (escape_quotes_id text Hdq). reflexivity.
Qed.

Lemma repair_render (pages : list page) (d : list seg) :
  wf_doc d = true ->
  replace_all placeholder_re (repair pages) (render d)
  = render (map (repair_seg pages) d).
Proof.
  intros Hwf. rewrite (replace_all_render _ d Hwf).
  unfold render. induction d as [|g d IH]; [reflexivity|].
  cbn [wf_doc forallb] in Hwf. apply andb_true_iff in Hwf as [Hg Hd].
  cbn [flat_map map]. rewrite (repair_render_seg pages g Hg), (IH Hd).
  reflexivity.
Qed.

Lemma validate_render (pages : list page) (d : list seg) :
  wf_doc d = true ->
  validateAndRepairInternalLinks (render d) pages
  = if negb (truthy (render d)) || (length pages =? 0)
    then render d else render (map (repair_seg pages) d).
Proof.
  intros Hwf. unfold validateAndRepairInternalLinks.
  destruct (negb (truthy (render d)) || (length pages =? 0)); [reflexivity|].
  apply repair_render, Hwf.
Qed.

(** C7, amended: on a document made of text without opening brackets and
    of well-formed placeholders whose anchor text holds no opening
    bracket, and with page slugs free of double quotes, a second pass of
    [validateAndRepairInternalLinks] changes nothing. *)
Theorem repair_idempotent_on_documents (d : list seg) (pages : list page) :
  wf_doc d = true -> slugs_quote_free pages = true ->
  validateAndRepairInternalLinks
    (validateAndRepairInternalLinks (render d) pages) pages
  = validateAndRepairInternalLinks (render d) pages.
Proof.
  intros Hwf Hq. rewrite (validate_render pages d Hwf).
  destruct (negb (truthy (render d)) || (length pages =? 0)) eqn:Hguard.
  - unfold validateAndRepairInternalLinks. rewrite Hguard. reflexivity.
  - rewrite (validate_render pages _ (wf_repair_doc pages d Hq Hwf)).
    rewrite map_map.
    rewrite (map_ext _ _ (repair_seg_again pages)).
    destruct (negb (truthy (render (map (repair_seg pages) d)))
              || (length pages =? 0)); reflexivity.
Qed.

End RepairFacts.

Lemma repair_idempotent_on_documents_witness :
  let d :=
    [LinkDoc.Plain (txt "<p>See ");
     LinkDoc.Link (txt " ") (txt "made-up") (txt " ") (txt "ultimate seo guide");
     LinkDoc.Plain (txt " or ");
     LinkDoc.Link (txt " ") (txt "nowhere") (txt "  ") (txt "something else");
     LinkDoc.Plain (txt ".</p>")] in
  let pages := [Examples.home; Examples.seo_guide] in
  Links.validateAndRepairInternalLinks
    (Links.validateAndRepairInternalLinks (LinkDoc.render d) pages) pages
  = Links.validateAndRepairInternalLinks (LinkDoc.render d) pages.
Proof.
  intros d pages. apply (repair_idempotent_on_documents d pages); reflexivity.
Defined.

(** ** Resolution and sanitization on well-formed documents *)

Section ResolveFacts.
Import Links LinkDoc RepairDoc.
Variable utm_url : str -> option str.

Lemma concat_try_lits {R} (f : str -> R -> option str) (s : str)
    (l : list (token R)) :
  concat_try f (map Lit s ++ l) = option_map (app s) (concat_try f l).
Proof.
  induction s as [|c s IH]; cbn.
  - destruct (concat_try f l); reflexivity.
  - rewrite IH. destruct (concat_try f l); reflexivity.
Qed.

Lemma resolve_link (pages : list page) (w1 slug w2 text : str) :
  urls_resolve utm_url pages -> wf_seg (Link w1 slug w2 text) = true ->
  exists x,
    resolve utm_url pages (render_seg (Link w1 slug w2 text)) (slug, text)
    = Some x
    /\ no_ch "["%char x = true.
Proof.
  intros Hu Hg. destruct (wf_link_parts _ _ _ _ Hg) as [_ [Hdq Hbr]].
  unfold resolve.
  destruct (resolve_map pages !! slug) as [p|] eqn:Hp; [|eauto].
  destruct (truthy (id p)) eqn:Hid; [|eauto].
  apply resolve_map_in in Hp.
  destruct (Hu p Hp Hid) as [u [-> Hfree]].
  eexists. split; [reflexivity|].
  rewrite (escape_quotes_id text Hdq).
  unfold no_ch in *. rewrite !forallb_app, Hfree, Hbr. reflexivity.
Qed.

Lemma resolve_doc (pages : list page) (d : list seg) :
  urls_resolve utm_url pages -> wf_doc d = true ->
  exists out,
    concat_try (resolve utm_url pages) (flat_map seg_tokens d) = Some out
    /\ no_ch "["%char out = true.
Proof.
  intros Hu. induction d as [|g d IH]; intros Hwf.
  - exists []. split; reflexivity.
  - cbn [wf_doc forallb] in Hwf. apply andb_true_iff in Hwf as [Hg Hd].
    destruct (IH Hd) as [out [Hout Hfree]].
    cbn [flat_map]. destruct g as [s | w1 slug w2 text].
    + cbn [seg_tokens]. rewrite concat_try_lits, Hout.
      exists (s ++ out). split; [reflexivity|].
      unfold no_ch in *. rewrite forallb_app, Hfree.
      cbn [wf_seg] in Hg. unfold no_ch in Hg. rewrite Hg. reflexivity.
    + destruct (resolve_link pages w1 slug w2 text Hu Hg) as [x [Hx Hxf]].
      cbn [seg_tokens app concat_try]. rewrite Hx, Hout.
      exists (x ++ out). split; [reflexivity|].
      unfold no_ch in *. rewrite forallb_app, Hxf, Hfree. reflexivity.
Qed.

Lemma process_render (pages : list page) (d : list seg) :
  urls_resolve utm_url pages -> wf_doc d = true -> pages <> [] ->
  exists out,
    processInternalLinks utm_url (render d) pages = Some out
    /\ no_ch "["%char out = true.
Proof.
  intros Hu Hwf Hne. unfold processInternalLinks.
  destruct pages as [|p0 pages0] eqn:Hpages; [congruence|].
  rewrite <- Hpages in *.
  destruct (truthy (render d)) eqn:Ht.
  - assert ((length pages =? 0) = false) as -> by (rewrite Hpages; reflexivity).
    cbn [negb orb]. unfold replace_all_try, tokens.
    rewrite <- (app_nil_r (render d)), (tokens_render d [] None Hwf).
    cbn [tokens_from]. rewrite app_nil_r.
    apply resolve_doc; assumption.
  - cbn [negb orb]. exists (render d). split; [reflexivity|].
    destruct (render d); [reflexivity | discriminate].
Qed.

Lemma token_re_blind : blind token_re.
Proof. intros p q s. reflexivity. Qed.

Lemma token_re_starts : starts_at token_re "["%char.
Proof.
  intros prev c s Hc. unfold token_re.
  change (txt "[INTERNAL_LINK") with ("["%char :: txt "INTERNAL_LINK").
  cbn [strip_prefix].
  destruct (ch_eqb "["%char c) eqn:E; [|reflexivity].
  apply ch_eqb_true in E. congruence.
Qed.

Lemma sanitize_bracket_free (s : str) :
  no_ch "["%char s = true -> sanitizeBrokenPlaceholders s = s.
Proof.
  intros H. unfold sanitizeBrokenPlaceholders, replace_all, tokens.
  rewrite <- (app_nil_r s).
  rewrite (tokens_from_lits token_re "["%char s [] None None
             token_re_blind token_re_starts H).
  cbn [tokens_from]. rewrite !app_nil_r.
  clear H. induction s as [|c s IH]; [reflexivity|].
  cbn. f_equal. exact IH.
Qed.

(** The quota function returns the content when it holds enough
    placeholders. *)
Lemma quota_met (content : str) (pages : list page) (primaryKeyword : str)
    (minLinks : nat) :
  minLinks <= length (matchAll quota_placeholder_re content) ->
  enforceInternalLinkQuota content pages primaryKeyword minLinks = content.
Proof.
  intros H. unfold enforceInternalLinkQuota.
  destruct (length pages =? 0); [reflexivity|].
  destruct (Z.leb_spec
              (Z.of_nat minLinks
               - Z.of_nat (length (matchAll quota_placeholder_re content))) 0);
    [reflexivity | lia].
Qed.

(** On a well-formed document whose repaired form meets the quota, the
    four steps leave no token opener. *)
Lemma pipeline_clean_when_quota_met (d : list seg) (pages : list page)
    (primaryKeyword : str) (minLinks : nat) :
  wf_doc d = true -> slugs_quote_free pages = true ->
  pages <> [] -> urls_resolve utm_url pages ->
  minLinks
  <= length (matchAll quota_placeholder_re
               (validateAndRepairInternalLinks (render d) pages)) ->
  exists out,
    link_pipeline utm_url (render d) pages primaryKeyword minLinks = Some out
    /\ count_occ_str (txt "[INTERNAL_LINK") out = 0.
Proof.
  intros Hwf Hq Hne Hu Hmet. unfold link_pipeline.
  rewrite (quota_met _ pages primaryKeyword minLinks Hmet).
  rewrite (validate_render pages d Hwf).
  assert (Hout : exists out,
             processInternalLinks utm_url
               (if negb (truthy (render d)) || (length pages =? 0)
                then render d else render (map (repair_seg pages) d)) pages
             = Some out /\ no_ch "["%char out = true).
  { destruct (negb (truthy (render d)) || (length pages =? 0)).
    - apply process_render; assumption.
    - apply process_render; try assumption.
      apply wf_repair_doc; assumption. }
  destruct Hout as [out [-> Hfree]].
  exists out. rewrite (sanitize_bracket_free out Hfree).
  split; [reflexivity|].
  apply (count_occ_str_none _ out "["%char); [reflexivity | exact Hfree].
Qed.

(** In the order of the finalize stage, where resolution comes last, the
    same holds of the text that reaches the resolution step. *)
Lemma finalize_links_leaves_no_placeholder (content : str)
    (pages : list page) (primaryKeyword : str) (d : list seg) :
  pages <> [] -> urls_resolve utm_url pages ->
  enforceInternalLinkQuota
    (validateAndRepairInternalLinks (sanitizeBrokenPlaceholders content) pages)
    pages primaryKeyword MIN_INTERNAL_LINKS = render d ->
  wf_doc d = true ->
  exists out,
    finalize_links utm_url content pages primaryKeyword = Some out
    /\ count_occ_str (txt "[INTERNAL_LINK") out = 0.
Proof.
  intros Hne Hu Hq Hwf. unfold finalize_links. rewrite Hq.
  destruct (process_render pages d Hu Hwf Hne) as [out [-> Hfree]].
  exists out. split; [reflexivity|].
  apply (count_occ_str_none _ out "["%char); [reflexivity | exact Hfree].
Qed.

End ResolveFacts.

(** ** [extractJson] *)

Section JsonFacts.
Import Json Examples.

(** Only the outer kind of bracket is counted, so one closing brace is
    appended and the array stays open. *)
Lemma truncated_candidate :
  candidate "{"%char (tl truncated) = jq "{'a':1,'b':[1,2}".
Proof. vm_compute. reflexivity. Qed.

(** C2, on the code: [extractJson] throws on the truncated object; the
    candidate it builds closes the brace and not the bracket, and
    neither parse attempt accepts it, although the text with both
    brackets closed is valid JSON. *)
Theorem extractJson_truncated_throws :
  extractJson truncated = inl UnableToParse
  /\ JSON_parse (jq "{'a':1,'b':[1,2}") = None
  /\ JSON_parse (jq "{'a':1,'b':[1,2]}")
     = Some (JObject [(txt "a", JNumber (txt "1"));
                      (txt "b", JArray [JNumber (txt "1"); JNumber (txt "2")])]).
Proof. vm_compute. repeat split. Qed.
End JsonFacts.

Section JsonCounterexamples.
Import Json.

(** C5, as the code has it: (1) a fenced object whose string holds a
    comma before a bracket comes back with another string; (2) prose
    with a bracket before the fenced object makes the function throw;
    (3) a fence inside a string of the object is removed with the
    others; (4) a number in prose is not found; (5) an array quoted in a
    text that is itself a JSON string comes back as that string. *)
Lemma extractJson_wrapped_differs :
  (let J := jq "{'k':'a,]'}" in
   JSON_parse J = Some (JObject [(txt "k", JString (txt "a,]"))])
   /\ extractJson (txt "```json" ++ J ++ txt "```") = inr (jq "{'k':'a]'}")
   /\ JSON_parse (jq "{'k':'a]'}")
      = Some (JObject [(txt "k", JString (txt "a]"))])
   /\ JSON_parse (jq "{'k':'a]'}") <> JSON_parse J)
  /\ (let J := jq "{'a':1}" in
      JSON_parse J = Some (JObject [(txt "a", JNumber (txt "1"))])
      /\ extractJson (txt "Result [draft]: ```json " ++ J ++ txt " ``` Done.")
         = inl UnableToParse)
  /\ (let J := jq "{'c':'```x'}" in
      JSON_parse J = Some (JObject [(txt "c", JString (txt "```x"))])
      /\ extractJson (txt "```json " ++ J ++ txt " ```") = inr (jq "{'c':'x'}"))
  /\ (let J := txt "42" in
      JSON_parse J = Some (JNumber (txt "42"))
      /\ extractJson (txt "The answer is " ++ J ++ txt " ok") = inl NoJsonFound)
  /\ (let J := txt "[1]" in
      JSON_parse J = Some (JArray [JNumber (txt "1")])
      /\ extractJson (jq "'abc " ++ J ++ jq " def'") = inr (jq "'abc [1] def'")
      /\ JSON_parse (jq "'abc [1] def'") = Some (JString (txt "abc [1] def"))).
Proof. vm_compute. repeat split. discriminate. Qed.
End JsonCounterexamples.

(** ** The bracket scan on JSON text *)

Section ScanFacts.
Import Json ScanDoc.

Lemma passes_nil k : passes k [].
Proof. intros bal i Q _. cbn. rewrite Nat.add_0_r. reflexivity. Qed.

Lemma passes_app k (a b : str) : passes k a -> passes k b -> passes k (a ++ b).
Proof.
  intros Ha Hb bal i Q Hbal. rewrite <- app_assoc, (Ha bal i _ Hbal).
  rewrite (Hb bal _ Q Hbal), length_app, Nat.add_assoc. reflexivity.
Qed.

Lemma neutral_not (c x : ascii) :
  neutral c = true -> neutral x = false -> ch_eqb c x = false.
Proof.
  intros Hc Hx. destruct (ch_eqb c x) eqn:E; [|reflexivity].
  apply ch_eqb_true in E. subst x. congruence.
Qed.

Lemma positive_not_zero (bal : Z) : (1 <= bal)%Z -> (bal =? 0)%Z = false.
Proof. intros H. apply Z.eqb_neq. lia. Qed.

Lemma passes_one k (c : ascii) : neutral c = true -> passes k [c].
Proof.
  intros Hc bal i Q Hbal. cbn [app scan].
  rewrite (neutral_not c "\"%char Hc eq_refl).
  rewrite (neutral_not c dq Hc eq_refl).
  rewrite (neutral_not c (opener k) Hc) by (destruct k; reflexivity).
  rewrite (neutral_not c (closer k) Hc) by (destruct k; reflexivity).
  rewrite (positive_not_zero bal Hbal).
  cbn [length]. rewrite Nat.add_1_r. reflexivity.
Qed.

Lemma passes_neutral k (a : str) : forallb neutral a = true -> passes k a.
Proof.
  induction a as [|c a IH]; intros H; [apply passes_nil|].
  cbn in H. apply andb_true_iff in H as [Hc Ha].
  change (c :: a) with ([c] ++ a).
  apply passes_app; [apply passes_one, Hc | apply IH, Ha].
Qed.

(** A bracketed group whose inside is passed over is passed over. *)
Lemma passes_group k g (a : str) :
  passes k a -> passes k (opener g :: a ++ [closer g]).
Proof.
  intros Ha bal i Q Hbal. cbn [app scan]. rewrite <- app_assoc.
  destruct k, g; cbn [opener closer] in *; eval_chars.
  1, 4: rewrite (positive_not_zero (bal + 1)) by lia;
        rewrite (Ha (bal + 1)%Z (S i) _) by lia; cbn [app scan]; eval_chars;
        replace (bal + 1 - 1)%Z with bal by lia.
  all: rewrite ?(positive_not_zero bal Hbal);
       rewrite ?(Ha bal (S i) _ Hbal); cbn [app scan]; eval_chars;
       rewrite ?(positive_not_zero bal Hbal);
       f_equal; cbn [length]; rewrite length_app; cbn [length]; lia.
Qed.

End ScanFacts.

Section ParserScan.
Import Json ScanDoc.

Lemma hex_plain (h : ascii) :
  is_hex h = true -> ch_eqb h "\"%char = false /\ ch_eqb h dq = false.
Proof.
  intros H. split.
  - destruct (ch_eqb h "\"%char) eqn:E; [|reflexivity].
    apply ch_eqb_true in E. subst h. discriminate H.
  - destruct (ch_eqb h dq) eqn:E; [|reflexivity].
    apply ch_eqb_true in E. subst h. discriminate H.
Qed.

Lemma string_body_scan k (n : nat) (s b r : str) :
  length s <= n -> string_body s = Some (b, r) ->
  s = b ++ dq :: r /\ in_string k b.
Proof.
  revert s b r. induction n as [|n IH]; intros s b r Hlen H.
  - destruct s; [discriminate H | cbn in Hlen; lia].
  - destruct s as [|c s]; [discriminate H|].
    cbn [string_body] in H. cbn [length] in Hlen.
    destruct (ch_eqb c dq) eqn:Hq.
    { injection H as <- <-. apply ch_eqb_true in Hq. subst c.
      split; [reflexivity|].
      intros bal i Q Hbal. cbn [app scan].
      destruct k; cbn [opener closer]; eval_chars;
        rewrite (positive_not_zero bal Hbal); cbn [length]; f_equal; lia. }
    destruct (ch_eqb c "\"%char) eqn:Hesc.
    { destruct s as [|e s]; [discriminate H|].
      destruct (is_simple_escape e) eqn:He.
      - destruct (string_body s) as [[b' t]|] eqn:Hb; [|discriminate H].
        injection H as <- <-.
        destruct (IH s b' t ltac:(cbn [length] in Hlen; lia) Hb) as [-> Hin].
        split; [reflexivity|].
        intros bal i Q Hbal. cbn [app scan]. rewrite Hesc.
        rewrite (Hin bal (S (S i)) Q Hbal). cbn [length]. f_equal. lia.
      - destruct (ch_eqb e "u"%char) eqn:Hu; [|discriminate H].
        destruct s as [|h1 [|h2 [|h3 [|h4 s]]]]; try discriminate H.
        destruct (is_hex h1) eqn:H1; [|discriminate H].
        destruct (is_hex h2) eqn:H2; [|discriminate H].
        destruct (is_hex h3) eqn:H3; [|discriminate H].
        destruct (is_hex h4) eqn:H4; [|discriminate H].
        cbn [andb] in H.
        destruct (string_body s) as [[b' t]|] eqn:Hb; [|discriminate H].
        injection H as <- <-.
        destruct (IH s b' t ltac:(cbn [length] in Hlen; lia) Hb) as [-> Hin].
        split; [reflexivity|].
        intros bal i Q Hbal. cbn [app scan]. rewrite Hesc.
        destruct (hex_plain h1 H1) as [-> ->].
        destruct (hex_plain h2 H2) as [-> ->].
        destruct (hex_plain h3 H3) as [-> ->].
        destruct (hex_plain h4 H4) as [-> ->].
        rewrite (Hin bal _ Q Hbal). cbn [length]. f_equal. lia. }
    destruct (code c <? 32); [discriminate H|].
    destruct (string_body s) as [[b' t]|] eqn:Hb; [|discriminate H].
    injection H as <- <-.
    destruct (IH s b' t ltac:(lia) Hb) as [-> Hin].
    split; [reflexivity|].
    intros bal i Q Hbal. cbn [app scan]. rewrite Hesc, Hq.
    rewrite (Hin bal (S i) Q Hbal). cbn [length]. f_equal. lia.
Qed.

Lemma passes_string k (b : str) : in_string k b -> passes k (dq :: b ++ [dq]).
Proof.
  intros Hin bal i Q Hbal. cbn [app scan]. eval_chars.
  rewrite <- app_assoc. cbn [app]. rewrite (Hin bal (S i) Q Hbal).
  f_equal. cbn [length]. rewrite length_app. cbn [length]. lia.
Qed.

Lemma string_passes k (s b r : str) :
  string_body s = Some (b, r) ->
  s = b ++ dq :: r /\ passes k (dq :: b ++ [dq]).
Proof.
  intros H. destruct (string_body_scan k (length s) s b r (le_n _) H) as [E Hin].
  split; [exact E | apply passes_string, Hin].
Qed.

(** White space, digits and the characters of numbers are neutral. *)
Lemma forallb_weaken (p q : ascii -> bool) (s : str) :
  (forall c, p c = true -> q c = true) ->
  forallb p s = true -> forallb q s = true.
Proof.
  intros Hpq. rewrite !forallb_forall. intros H c Hc. apply Hpq, H, Hc.
Qed.

Lemma class_neutral (p : ascii -> bool) :
  p "\"%char = false -> p dq = false -> p "{"%char = false ->
  p "}"%char = false -> p "["%char = false -> p "]"%char = false ->
  forall c, p c = true -> neutral c = true.
Proof.
  intros H1 H2 H3 H4 H5 H6 c Hc. unfold neutral.
  repeat match goal with
    | |- context [ch_eqb c ?x] =>
        let E := fresh "E" in
        destruct (ch_eqb c x) eqn:E;
        [apply ch_eqb_true in E; subst c; congruence |]
    end.
  reflexivity.
Qed.

Lemma ws_neutral c : is_json_ws c = true -> neutral c = true.
Proof. apply class_neutral; reflexivity. Qed.

Lemma digit_neutral c : is_digit c = true -> neutral c = true.
Proof. apply class_neutral; reflexivity. Qed.

Lemma is_ch_neutral (x : ascii) :
  neutral x = true -> forall c, ch_eqb c x = true -> neutral c = true.
Proof. intros Hx c Hc. apply ch_eqb_true in Hc. subst c. exact Hx. Qed.

Lemma skip_ws_split k (s : str) :
  exists w, s = w ++ skip_ws s /\ passes k w.
Proof.
  unfold skip_ws. destruct (span_split is_json_ws s) as [E [Hw _]].
  exists (fst (span is_json_ws s)). split; [exact E|].
  apply passes_neutral. apply (forallb_weaken _ _ _ ws_neutral Hw).
Qed.

Lemma digits1_split (s d r : str) :
  digits1 s = Some (d, r) -> s = d ++ r /\ forallb neutral d = true.
Proof.
  unfold digits1. destruct (span_split is_digit s) as [E [Hd _]].
  destruct (span is_digit s) as [a b]. cbn [fst snd] in *.
  destruct a; [discriminate|]. intros H. injection H as <- <-.
  split; [exact E|]. apply (forallb_weaken _ _ _ digit_neutral Hd).
Qed.

Lemma number_split (s n r : str) :
  number s = Some (n, r) -> s = n ++ r /\ forallb neutral n = true.
Proof.
  unfold number.
  (* the sign *)
  assert (Hsign : exists sg s1,
             (match s with
              | c :: r => if ch_eqb c "-"%char then ([c], r) else ([], s)
              | [] => ([], s)
              end) = (sg, s1)
             /\ s = sg ++ s1 /\ forallb neutral sg = true).
  { destruct s as [|c s']; [exists [], []; auto|].
    destruct (ch_eqb c "-"%char) eqn:E.
    - exists [c], s'. repeat split. cbn.
      rewrite (is_ch_neutral "-"%char eq_refl c E). reflexivity.
    - exists [], (c :: s'). auto. }
  destruct Hsign as [sg [s1 [-> [Es Hsg]]]].
  (* the integer part *)
  destruct s1 as [|c r1]; [discriminate|].
  assert (Hint : forall i s2,
             (if ch_eqb c "0"%char then Some ([c], r1)
              else if is_digit c then digits1 (c :: r1) else None)
             = Some (i, s2) ->
             c :: r1 = i ++ s2 /\ forallb neutral i = true).
  { intros i s2. destruct (ch_eqb c "0"%char) eqn:E0.
    - intros H. injection H as <- <-. split; [reflexivity|]. cbn.
      rewrite (is_ch_neutral "0"%char eq_refl c E0). reflexivity.
    - destruct (is_digit c); [|discriminate]. apply digits1_split. }
  destruct (if ch_eqb c "0"%char then Some ([c], r1)
            else if is_digit c then digits1 (c :: r1) else None)
    as [[i s2]|]; [|discriminate].
  destruct (Hint i s2 eq_refl) as [Ei Hi]. clear Hint.
  (* the fraction *)
  assert (Hfrac : forall f s3,
             (match s2 with
              | c :: r =>
                  if ch_eqb c "."%char then
                    match digits1 r with
                    | Some (d, t) => Some (c :: d, t)
                    | None => None
                    end
                  else Some ([], s2)
              | [] => Some ([], s2)
              end) = Some (f, s3) ->
             s2 = f ++ s3 /\ forallb neutral f = true).
  { intros f s3. destruct s2 as [|x r2].
    - intros H. injection H as <- <-. auto.
    - destruct (ch_eqb x "."%char) eqn:Ed.
      + destruct (digits1 r2) as [[d t]|] eqn:Hd; [|discriminate].
        intros H. injection H as <- <-.
        destruct (digits1_split _ _ _ Hd) as [-> Hn].
        split; [reflexivity|]. cbn.
        rewrite (is_ch_neutral "."%char eq_refl x Ed), Hn. reflexivity.
      + intros H. injection H as <- <-. auto. }
  match goal with
  | |- context [match ?F with Some _ => _ | None => None end = _] =>
      destruct F as [[f s3]|] eqn:HF; [|discriminate]
  end.
  destruct (Hfrac f s3 eq_refl) as [Ef Hf]. clear Hfrac.
  (* the exponent *)
  assert (Hexp : forall e s4,
             (match s3 with
              | c :: r =>
                  if ch_eqb c "e"%char || ch_eqb c "E"%char then
                    let '(sg, r1) :=
                      match r with
                      | x :: r' =>
                          if ch_eqb x "+"%char || ch_eqb x "-"%char
                          then ([x], r') else ([], r)
                      | [] => ([], r)
                      end in
                    match digits1 r1 with
                    | Some (d, t) => Some (c :: sg ++ d, t)
                    | None => None
                    end
                  else Some ([], s3)
              | [] => Some ([], s3)
              end) = Some (e, s4) ->
             s3 = e ++ s4 /\ forallb neutral e = true).
  { intros e s4. destruct s3 as [|x r3].
    - intros H. injection H as <- <-. auto.
    - destruct (ch_eqb x "e"%char || ch_eqb x "E"%char) eqn:Ee.
      + assert (Hx : neutral x = true).
        { apply orb_true_iff in Ee as [Ee | Ee];
            [apply (is_ch_neutral "e"%char eq_refl x Ee)
            | apply (is_ch_neutral "E"%char eq_refl x Ee)]. }
        assert (Hsg2 : exists sg r1,
                   (match r3 with
                    | x :: r' =>
                        if ch_eqb x "+"%char || ch_eqb x "-"%char
                        then ([x], r') else ([], r3)
                    | [] => ([], r3)
                    end) = (sg, r1)
                   /\ r3 = sg ++ r1 /\ forallb neutral sg = true).
        { destruct r3 as [|y r3']; [exists [], []; auto|].
          destruct (ch_eqb y "+"%char || ch_eqb y "-"%char) eqn:Ey.
          - exists [y], r3'. repeat split. cbn.
            apply orb_true_iff in Ey as [Ey | Ey];
              [rewrite (is_ch_neutral "+"%char eq_refl y Ey)
              | rewrite (is_ch_neutral "-"%char eq_refl y Ey)]; reflexivity.
          - exists [], (y :: r3'). auto. }
        destruct Hsg2 as [sg' [r1' [-> [Er Hs']]]].
        destruct (digits1 r1') as [[d t]|] eqn:Hd; [|discriminate].
        intros H. injection H as <- <-.
        destruct (digits1_split _ _ _ Hd) as [-> Hn].
        split.
        * rewrite Er. cbn. rewrite <- app_assoc. reflexivity.
        * cbn. rewrite Hx, forallb_app, Hs', Hn. reflexivity.
      + intros H. injection H as <- <-. auto. }
  match goal with
  | |- context [match ?F with Some _ => _ | None => None end = _] =>
      destruct F as [[e s4]|] eqn:HE; [|discriminate]
  end.
  destruct (Hexp e s4 eq_refl) as [Ee He]. clear Hexp.
  intros H. injection H as <- <-.
  split.
  - rewrite Es, Ei, Ef, Ee. rewrite <- !app_assoc. reflexivity.
  - rewrite !forallb_app, Hsg, Hi, Hf, He. reflexivity.
Qed.

End ParserScan.

Section ParserPasses.
Import Json ScanDoc.

Lemma literal_passes k (p s t : str) :
  forallb neutral p = true -> strip_prefix p s = Some t ->
  exists a, s = a ++ t /\ passes k a.
Proof.
  intros Hp H. exists p. split; [apply strip_prefix_split, H|].
  apply passes_neutral, Hp.
Qed.

(** The scan passes over every value that the parser reads, whatever the
    kind of bracket it counts; after the opening bracket of an array or
    object it passes over the text up to the matching closing bracket. *)
Lemma parser_passes k (fuel : nat) :
  (forall s v r, value fuel s = Some (v, r) ->
     exists t, s = t ++ r /\ passes k t)
  /\ (forall s vs r, elements fuel s = Some (vs, r) ->
        exists t, s = t ++ "]"%char :: r /\ passes k t)
  /\ (forall s ms r, members fuel s = Some (ms, r) ->
        exists t, s = t ++ "}"%char :: r /\ passes k t).
Proof.
  induction fuel as [|n [IHV [IHE IHM]]].
  { repeat split; intros; discriminate. }
  repeat split.
  - (* a value *)
    intros s v r H. cbn [value] in H.
    destruct (skip_ws_split k s) as [w [Es Hw]].
    destruct (skip_ws s) as [|c r0]; [discriminate|].
    destruct (ch_eqb c "{"%char) eqn:Hbrace.
    { apply ch_eqb_true in Hbrace. subst c.
      destruct (skip_ws_split k r0) as [w2 [E2 Hw2]].
      destruct (skip_ws r0) as [|x r']; [discriminate|].
      destruct (ch_eqb x "}"%char) eqn:Hx.
      - injection H as <- <-. apply ch_eqb_true in Hx. subst x.
        exists (w ++ "{"%char :: w2 ++ ["}"%char]). split; [texts_equal|].
        apply passes_app; [exact Hw | apply (passes_group k Brace), Hw2].
      - destruct (members n r0) as [[ms t]|] eqn:Hm; [|discriminate].
        injection H as <- <-. destruct (IHM r0 ms t Hm) as [a [Ea Ha]].
        exists (w ++ "{"%char :: a ++ ["}"%char]). split.
        + rewrite Es, Ea. texts_equal.
        + apply passes_app; [exact Hw | apply (passes_group k Brace), Ha]. }
    destruct (ch_eqb c "["%char) eqn:Hsquare.
    { apply ch_eqb_true in Hsquare. subst c.
      destruct (skip_ws_split k r0) as [w2 [E2 Hw2]].
      destruct (skip_ws r0) as [|x r']; [discriminate|].
      destruct (ch_eqb x "]"%char) eqn:Hx.
      - injection H as <- <-. apply ch_eqb_true in Hx. subst x.
        exists (w ++ "["%char :: w2 ++ ["]"%char]). split; [texts_equal|].
        apply passes_app; [exact Hw | apply (passes_group k Square), Hw2].
      - destruct (elements n r0) as [[vs t]|] eqn:He; [|discriminate].
        injection H as <- <-. destruct (IHE r0 vs t He) as [a [Ea Ha]].
        exists (w ++ "["%char :: a ++ ["]"%char]). split.
        + rewrite Es, Ea. texts_equal.
        + apply passes_app; [exact Hw | apply (passes_group k Square), Ha]. }
    destruct (ch_eqb c dq) eqn:Hquote.
    { apply ch_eqb_true in Hquote. subst c.
      destruct (string_body r0) as [[b t]|] eqn:Hb; [|discriminate].
      injection H as <- <-. destruct (string_passes k r0 b t Hb) as [Eb Hp].
      exists (w ++ dq :: b ++ [dq]). split.
      - rewrite Es, Eb. texts_equal.
      - apply passes_app; [exact Hw | exact Hp]. }
    assert (Hlit : exists a, c :: r0 = a ++ r /\ passes k a).
    { destruct (strip_prefix (txt "true") (c :: r0)) as [t|] eqn:Ht.
      { injection H as <- <-.
        apply (literal_passes k (txt "true")); [reflexivity | exact Ht]. }
      destruct (strip_prefix (txt "false") (c :: r0)) as [t|] eqn:Hf.
      { injection H as <- <-.
        apply (literal_passes k (txt "false")); [reflexivity | exact Hf]. }
      destruct (strip_prefix (txt "null") (c :: r0)) as [t|] eqn:Hn.
      { injection H as <- <-.
        apply (literal_passes k (txt "null")); [reflexivity | exact Hn]. }
      destruct (number (c :: r0)) as [[m t]|] eqn:Hnum; [|discriminate].
      injection H as <- <-. destruct (number_split _ _ _ Hnum) as [E Hm].
      exists m. split; [exact E | apply passes_neutral, Hm]. }
    destruct Hlit as [a [Ea Ha]].
    exists (w ++ a). split.
    + rewrite Es, Ea. texts_equal.
    + apply passes_app; assumption.
  - (* the elements of an array *)
    intros s vs r H. cbn [elements] in H.
    destruct (value n s) as [[v r1]|] eqn:Hv; [|discriminate].
    destruct (IHV s v r1 Hv) as [a [Ea Ha]].
    destruct (skip_ws_split k r1) as [w [Ew Hw]].
    destruct (skip_ws r1) as [|c r']; [discriminate|].
    destruct (ch_eqb c ","%char) eqn:Hcomma.
    + apply ch_eqb_true in Hcomma. subst c.
      destruct (elements n r') as [[vs' t]|] eqn:He; [|discriminate].
      injection H as <- <-. destruct (IHE r' vs' t He) as [b [Eb Hb]].
      exists (a ++ w ++ ","%char :: b). split.
      * rewrite Ea, Ew, Eb. texts_equal.
      * apply passes_app; [exact Ha|]. apply passes_app; [exact Hw|].
        change (","%char :: b) with ([","%char] ++ b).
        apply passes_app; [apply passes_one; reflexivity | exact Hb].
    + destruct (ch_eqb c "]"%char) eqn:Hclose; [|discriminate].
      apply ch_eqb_true in Hclose. subst c. injection H as <- <-.
      exists (a ++ w). split.
      * rewrite Ea, Ew. texts_equal.
      * apply passes_app; assumption.
  - (* the members of an object *)
    intros s ms r H. cbn [members] in H.
    destruct (skip_ws_split k s) as [w0 [E0 Hw0]].
    destruct (skip_ws s) as [|q r0]; [discriminate|].
    destruct (ch_eqb q dq) eqn:Hq; [|discriminate].
    apply ch_eqb_true in Hq. subst q.
    destruct (string_body r0) as [[key r1]|] eqn:Hkey; [|discriminate].
    destruct (string_passes k r0 key r1 Hkey) as [Ekey Hpkey].
    destruct (skip_ws_split k r1) as [w1 [E1 Hw1]].
    destruct (skip_ws r1) as [|c r2]; [discriminate|].
    destruct (ch_eqb c ":"%char) eqn:Hcolon; [|discriminate].
    apply ch_eqb_true in Hcolon. subst c.
    destruct (value n r2) as [[v r3]|] eqn:Hv; [|discriminate].
    destruct (IHV r2 v r3 Hv) as [a [Ea Ha]].
    destruct (skip_ws_split k r3) as [w3 [E3 Hw3]].
    destruct (skip_ws r3) as [|d r4]; [discriminate|].
    assert (Hhead : passes k (w0 ++ (dq :: key ++ [dq]) ++ w1 ++ [":"%char]
                              ++ a ++ w3)).
    { repeat (apply passes_app; try assumption).
      apply passes_one. reflexivity. }
    destruct (ch_eqb d ","%char) eqn:Hcomma.
    + apply ch_eqb_true in Hcomma. subst d.
      destruct (members n r4) as [[ms' t]|] eqn:Hm; [|discriminate].
      injection H as <- <-. destruct (IHM r4 ms' t Hm) as [b [Eb Hb]].
      exists ((w0 ++ (dq :: key ++ [dq]) ++ w1 ++ [":"%char] ++ a ++ w3)
              ++ [","%char] ++ b). split.
      * rewrite E0, Ekey, E1, Ea, E3, Eb. texts_equal.
      * apply passes_app; [exact Hhead|].
        apply passes_app; [apply passes_one; reflexivity | exact Hb].
    + destruct (ch_eqb d "}"%char) eqn:Hclose; [|discriminate].
      apply ch_eqb_true in Hclose. subst d. injection H as <- <-.
      exists (w0 ++ (dq :: key ++ [dq]) ++ w1 ++ [":"%char] ++ a ++ w3). split.
      * rewrite E0, Ekey, E1, Ea, E3. texts_equal.
      * exact Hhead.
Qed.

End ParserPasses.

(** ** The fuel of the parser *)

Section FuelFacts.
Import Json ScanDoc.

Lemma skip_ws_length (s : str) : length (skip_ws s) <= length s.
Proof. apply span_rest_length. Qed.

Lemma string_body_length (s b r : str) :
  string_body s = Some (b, r) -> length r < length s.
Proof.
  intros H. destruct (string_passes Brace s b r H) as [-> _].
  rewrite length_app. cbn [length]. lia.
Qed.

(** The parser reads a prefix of its input. *)
Lemma parser_length (fuel : nat) :
  (forall s v r, value fuel s = Some (v, r) -> length r <= length s)
  /\ (forall s vs r, elements fuel s = Some (vs, r) -> length r < length s)
  /\ (forall s ms r, members fuel s = Some (ms, r) -> length r < length s).
Proof.
  destruct (parser_passes Brace fuel) as [HV [HE HM]].
  repeat split; intros s x r H.
  - destruct (HV s x r H) as [t [-> _]]. rewrite length_app. lia.
  - destruct (HE s x r H) as [t [-> _]]. rewrite length_app. cbn [length]. lia.
  - destruct (HM s x r H) as [t [-> _]]. rewrite length_app. cbn [length]. lia.
Qed.

(** A result found with some fuel is found with any fuel above twice
    what was read. *)
Lemma fuel_enough (n : nat) :
  (forall s v r, value n s = Some (v, r) ->
     forall m, 2 * read s r + 1 <= m -> value m s = Some (v, r))
  /\ (forall s vs r, elements n s = Some (vs, r) ->
        forall m, 2 * read s r + 2 <= m -> elements m s = Some (vs, r))
  /\ (forall s ms r, members n s = Some (ms, r) ->
        forall m, 2 * read s r + 2 <= m -> members m s = Some (ms, r)).
Proof.
  induction n as [|n [IHV [IHE IHM]]].
  { repeat split; intros; discriminate. }
  destruct (parser_length n) as [LV [LE LM]].
  unfold read in *. repeat split.
  - intros s v r H m Hm. destruct m as [|m]; [lia|].
    cbn [value] in H |- *.
    pose proof (skip_ws_length s) as Hs.
    destruct (skip_ws s) as [|c r0]; [discriminate|]. cbn [length] in Hs.
    destruct (ch_eqb c "{"%char).
    { pose proof (skip_ws_length r0) as Hs2.
      destruct (skip_ws r0) as [|x r']; [discriminate|].
      destruct (ch_eqb x "}"%char); [exact H|].
      destruct (members n r0) as [[ms t]|] eqn:Hm'; [|discriminate].
      injection H as <- <-. pose proof (LM _ _ _ Hm').
      rewrite (IHM r0 ms t Hm' m) by lia. reflexivity. }
    destruct (ch_eqb c "["%char).
    { pose proof (skip_ws_length r0) as Hs2.
      destruct (skip_ws r0) as [|x r']; [discriminate|].
      destruct (ch_eqb x "]"%char); [exact H|].
      destruct (elements n r0) as [[vs t]|] eqn:He; [|discriminate].
      injection H as <- <-. pose proof (LE _ _ _ He).
      rewrite (IHE r0 vs t He m) by lia. reflexivity. }
    exact H.
  - intros s vs r H m Hm. destruct m as [|m]; [lia|].
    cbn [elements] in H |- *.
    destruct (value n s) as [[v r1]|] eqn:Hv; [|discriminate].
    pose proof (LV _ _ _ Hv) as L1.
    pose proof (skip_ws_length r1) as Hs.
    assert (Hr : length r < length r1).
    { destruct (skip_ws r1) as [|c r']; [discriminate|]. cbn [length] in Hs.
      destruct (ch_eqb c ","%char).
      - destruct (elements n r') as [[vs' t]|] eqn:He; [|discriminate].
        injection H as <- <-. pose proof (LE _ _ _ He). lia.
      - destruct (ch_eqb c "]"%char); [|discriminate].
        injection H as <- <-. lia. }
    rewrite (IHV s v r1 Hv m) by lia.
    destruct (skip_ws r1) as [|c r']; [discriminate|]. cbn [length] in Hs.
    destruct (ch_eqb c ","%char); [|exact H].
    destruct (elements n r') as [[vs' t]|] eqn:He; [|discriminate].
    injection H as <- <-.
    rewrite (IHE r' vs' t He m) by lia. reflexivity.
  - intros s ms r H m Hm. destruct m as [|m]; [lia|].
    cbn [members] in H |- *.
    pose proof (skip_ws_length s) as Hs0.
    destruct (skip_ws s) as [|q r0]; [discriminate|]. cbn [length] in Hs0.
    destruct (ch_eqb q dq); [|discriminate].
    destruct (string_body r0) as [[key r1]|] eqn:Hkey; [|discriminate].
    pose proof (string_body_length _ _ _ Hkey) as Lk.
    pose proof (skip_ws_length r1) as Hs1.
    destruct (skip_ws r1) as [|c r2]; [discriminate|]. cbn [length] in Hs1.
    destruct (ch_eqb c ":"%char); [|discriminate].
    destruct (value n r2) as [[v r3]|] eqn:Hv; [|discriminate].
    pose proof (LV _ _ _ Hv) as L3.
    pose proof (skip_ws_length r3) as Hs3.
    assert (Hr : length r < length r3).
    { destruct (skip_ws r3) as [|d r4]; [discriminate|]. cbn [length] in Hs3.
      destruct (ch_eqb d ","%char).
      - destruct (members n r4) as [[ms' t]|] eqn:Hm'; [|discriminate].
        injection H as <- <-. pose proof (LM _ _ _ Hm'). lia.
      - destruct (ch_eqb d "}"%char); [|discriminate].
        injection H as <- <-. lia. }
    rewrite (IHV r2 v r3 Hv m) by lia.
    destruct (skip_ws r3) as [|d r4]; [discriminate|]. cbn [length] in Hs3.
    destruct (ch_eqb d ","%char); [|exact H].
    destruct (members n r4) as [[ms' t]|] eqn:Hm'; [|discriminate].
    injection H as <- <-.
    rewrite (IHM r4 ms' t Hm' m) by lia. reflexivity.
Qed.

(** The fuel of [JSON_parse] is never the reason for a rejection: a
    text that the grammar accepts with some fuel is accepted. *)
Lemma JSON_parse_any_fuel (n : nat) (text : str) (v : json) (r : str) :
  value n text = Some (v, r) -> skip_ws r = [] -> JSON_parse text = Some v.
Proof.
  intros H Hr. unfold JSON_parse.
  destruct (fuel_enough n) as [HV _].
  rewrite (HV text v r H) by (unfold read; lia).
  rewrite Hr. reflexivity.
Qed.

Lemma rejected_with_any_fuel (n : nat) (text : str) (v : json) (r : str) :
  JSON_parse text = None -> value n text = Some (v, r) -> skip_ws r <> [].
Proof.
  intros Hnone H Hr. rewrite (JSON_parse_any_fuel n text v r H Hr) in Hnone.
  discriminate Hnone.
Qed.

End FuelFacts.

(** ** The clean-up of [extractJson] around a bracketed text *)

Section CleanFacts.
Import Json ScanDoc.

Lemma str_eqb_true (a b : str) : str_eqb a b = true -> a = b.
Proof.
  revert b. induction a as [|x a IH]; intros [|y b] H; try discriminate H.
  - reflexivity.
  - cbn in H. apply andb_true_iff in H as [Hxy Hab].
    apply ch_eqb_true in Hxy. subst y. f_equal. apply IH, Hab.
Qed.

Lemma span_before (p : ascii -> bool) (r T : str) (x : ascii) :
  p x = false ->
  span p (r ++ x :: T) = (fst (span p r), snd (span p r) ++ x :: T).
Proof.
  intros Hx. induction r as [|c r IH]; cbn.
  - rewrite Hx. reflexivity.
  - destruct (p c); [|reflexivity].
    rewrite IH. destruct (span p r). reflexivity.
Qed.

Lemma trim_start_before (A T : str) (x : ascii) :
  is_space x = false -> trim_start (A ++ x :: T) = trim_start A ++ x :: T.
Proof.
  intros Hx. induction A as [|c A IH]; cbn.
  - rewrite Hx. reflexivity.
  - destruct (is_space c); [exact IH | reflexivity].
Qed.

Lemma trim_end_after (S B : str) (y : ascii) :
  is_space y = false -> trim_end (S ++ y :: B) = S ++ y :: trim_end B.
Proof.
  intros Hy. unfold trim_end. rewrite rev_app_distr. cbn [rev].
  rewrite <- app_assoc. cbn [app].
  rewrite (trim_start_before (rev B) (rev S) y Hy).
  rewrite rev_app_distr. cbn [rev]. rewrite rev_involutive, <- app_assoc.
  reflexivity.
Qed.

Lemma trim_start_keeps (phi : ascii -> bool) (s : str) :
  forallb phi s = true -> forallb phi (trim_start s) = true.
Proof.
  induction s as [|c s IH]; [reflexivity|]. cbn [trim_start].
  destruct (is_space c); [|tauto].
  cbn. intros H. apply andb_true_iff in H as [_ H]. apply IH, H.
Qed.

Lemma strip_prefix_before (p A T : str) (x : ascii) :
  forallb (not_ch x) p = true ->
  strip_prefix p (A ++ x :: T)
  = option_map (fun r => r ++ x :: T) (strip_prefix p A).
Proof.
  revert A. induction p as [|a p IH]; intros A Hp; [reflexivity|].
  cbn in Hp. apply andb_true_iff in Hp as [Ha Hp].
  destruct A as [|b A]; cbn.
  - unfold not_ch in Ha. apply negb_true_iff in Ha. rewrite Ha. reflexivity.
  - destruct (ch_eqb a b); [apply IH, Hp | reflexivity].
Qed.

Lemma strip_prefix_keeps (phi : ascii -> bool) (p s r : str) :
  strip_prefix p s = Some r -> forallb phi s = true -> forallb phi r = true.
Proof.
  intros H. apply strip_prefix_split in H. subst s.
  rewrite forallb_app. intros H. apply andb_true_iff in H. tauto.
Qed.

(** The facts about an opening and a closing bracket that the patterns
    of the clean-up depend on. *)
Lemma opener_facts g :
  is_space (opener g) = false
  /\ forallb (not_ch (opener g)) fence = true
  /\ forallb (not_ch (opener g)) (txt "json") = true
  /\ is_closer (opener g) = false.
Proof. destruct g; repeat split. Qed.

Lemma closer_facts g :
  is_space (closer g) = false
  /\ ch_eqb (closer g) "`"%char = false
  /\ ch_eqb (closer g) ","%char = false
  /\ is_json_ws (closer g) = false.
Proof. destruct g; repeat split. Qed.

(** *** The opening fence *)

Lemma strip_open_fence_before g (A T : str) :
  strip_open_fence (A ++ opener g :: T)
  = strip_open_fence A ++ opener g :: T.
Proof.
  destruct (opener_facts g) as [Hsp [Hf [Hj _]]].
  unfold strip_open_fence.
  rewrite (strip_prefix_before fence A T _ Hf).
  destruct (strip_prefix fence A) as [r|]; [|reflexivity].
  cbn [option_map].
  rewrite (strip_prefix_before (txt "json") r T _ Hj).
  destruct (strip_prefix (txt "json") r) as [r'|]; cbn [option_map];
    apply trim_start_before, Hsp.
Qed.

Lemma strip_open_fence_keeps (phi : ascii -> bool) (s : str) :
  forallb phi s = true -> forallb phi (strip_open_fence s) = true.
Proof.
  intros H. unfold strip_open_fence.
  destruct (strip_prefix fence s) as [r|] eqn:Hr; [|exact H].
  pose proof (strip_prefix_keeps phi _ _ _ Hr H) as H1.
  apply trim_start_keeps.
  destruct (strip_prefix (txt "json") r) as [r'|] eqn:Hr'; [|exact H1].
  apply (strip_prefix_keeps phi _ _ _ Hr' H1).
Qed.

(** *** The closing fence *)

Lemma close_fence_re_blind : blind close_fence_re.
Proof. intros p q s. reflexivity. Qed.

Lemma close_fence_not_before g (S B : str) p :
  close_fence_re p (S ++ closer g :: B) = None.
Proof.
  destruct (closer_facts g) as [Hsp [Hbq _]].
  unfold close_fence_re. rewrite (span_before is_space S B _ Hsp).
  destruct (span is_space S) as [w r]. cbn [fst snd].
  destruct (str_eqb (r ++ closer g :: B) fence) eqn:E; [|reflexivity].
  apply str_eqb_true in E.
  assert (Hin : In (closer g) fence) by (rewrite <- E; apply in_elt).
  cbn in Hin. destruct Hin as [H | [H | [H | []]]];
    rewrite <- H in Hbq; discriminate Hbq.
Qed.

Lemma replace_first_from_blind {R} (m : matcher R) (f : str -> R -> str) :
  blind m -> forall s p q,
  replace_first_from m f p s = replace_first_from m f q s.
Proof.
  intros Hb. induction s as [|c s IH]; intros p q; cbn; rewrite (Hb p q).
  - reflexivity.
  - reflexivity.
Qed.

Lemma close_fence_after_from g (f : str -> unit -> str) (S B : str) p :
  replace_first_from close_fence_re f p (S ++ closer g :: B)
  = option_map (app (S ++ [closer g]))
      (replace_first_from close_fence_re f p B).
Proof.
  revert p. induction S as [|c S IH]; intros p.
  - cbn [app replace_first_from].
    pose proof (close_fence_not_before g [] B p) as Hnone.
    cbn [app] in Hnone. rewrite Hnone.
    rewrite (replace_first_from_blind _ f close_fence_re_blind B (Some (closer g)) p).
    destruct (replace_first_from close_fence_re f p B); reflexivity.
  - cbn [app replace_first_from].
    change (c :: S ++ closer g :: B) with ((c :: S) ++ closer g :: B).
    rewrite (close_fence_not_before g (c :: S) B p).
    rewrite (IH (Some c)).
    rewrite (replace_first_from_blind _ f close_fence_re_blind B (Some c) p).
    destruct (replace_first_from close_fence_re f p B); reflexivity.
Qed.

Lemma close_fence_after g (f : str -> unit -> str) (S B : str) :
  replace_first close_fence_re f (S ++ closer g :: B)
  = S ++ closer g :: replace_first close_fence_re f B.
Proof.
  unfold replace_first. rewrite close_fence_after_from.
  destruct (replace_first_from close_fence_re f None B); cbn [option_map].
  - rewrite <- app_assoc. reflexivity.
  - reflexivity.
Qed.

End CleanFacts.

Section CleanPatterns.
Import Json ScanDoc.

Lemma consumed_before (s r T : str) :
  length r <= length s -> consumed (s ++ T) (r ++ T) = consumed s r.
Proof. unfold consumed. rewrite !length_app. lia. Qed.

Lemma strip_prefix_length (p s r : str) :
  strip_prefix p s = Some r -> length r <= length s.
Proof.
  intros H. apply strip_prefix_split in H. subst s. rewrite length_app. lia.
Qed.

Lemma consumed_le (s r : str) : consumed s r <= length s.
Proof. unfold consumed. lia. Qed.

(** *** The fence patterns *)

Lemma fence_re_blind : blind fence_re.
Proof. intros p q s. reflexivity. Qed.

Lemma fence_json_re_blind : blind fence_json_re.
Proof. intros p q s. reflexivity. Qed.

Lemma fence_re_bounded : bounded fence_re.
Proof.
  intros p s r n H. unfold fence_re in H.
  destruct (strip_prefix fence s); [|discriminate].
  injection H as _ <-. apply consumed_le.
Qed.

Lemma fence_json_re_bounded : bounded fence_json_re.
Proof.
  intros p s r n H. unfold fence_json_re in H.
  destruct (strip_prefix fence s); [|discriminate].
  destruct (str_eqb _ _); [|discriminate].
  injection H as _ <-. apply consumed_le.
Qed.

Lemma fence_re_starts : starts_at fence_re "`"%char.
Proof.
  intros prev c s Hc. unfold fence_re, fence.
  change (txt "```") with ("`"%char :: txt "``"). cbn [strip_prefix].
  destruct (ch_eqb "`"%char c) eqn:E; [|reflexivity].
  apply ch_eqb_true in E. congruence.
Qed.

Lemma fence_json_re_starts : starts_at fence_json_re "`"%char.
Proof.
  intros prev c s Hc. unfold fence_json_re, fence.
  change (txt "```") with ("`"%char :: txt "``"). cbn [strip_prefix].
  destruct (ch_eqb "`"%char c) eqn:E; [|reflexivity].
  apply ch_eqb_true in E. congruence.
Qed.

Lemma fence_re_local g (A2 T : str) p :
  fence_re p (A2 ++ opener g :: T) = fence_re p A2.
Proof.
  destruct (opener_facts g) as [Hsp [Hf _]].
  unfold fence_re. rewrite (strip_prefix_before fence A2 T _ Hf).
  destruct (strip_prefix fence A2) as [r|] eqn:Hr; [|reflexivity].
  cbn [option_map]. rewrite (span_before is_space r T _ Hsp). cbn [snd].
  f_equal. f_equal.
  change (opener g :: T) with ([] ++ opener g :: T) at 1.
  apply consumed_before.
  pose proof (span_rest_length is_space r).
  pose proof (strip_prefix_length _ _ _ Hr). lia.
Qed.

Lemma fence_json_re_local g (A2 T : str) p :
  fence_json_re p (A2 ++ opener g :: T) = fence_json_re p A2.
Proof.
  destruct (opener_facts g) as [Hsp [Hf _]].
  unfold fence_json_re. rewrite (strip_prefix_before fence A2 T _ Hf).
  destruct (strip_prefix fence A2) as [r|] eqn:Hr; [|reflexivity].
  cbn [option_map].
  pose proof (strip_prefix_length _ _ _ Hr) as Hlen.
  destruct r as [|a [|b [|c [|d r]]]];
    cbn [app firstn skipn toLowerCase map str_eqb].
  1-4: destruct g; cbn [opener]; unfold txt; cbn [list_ascii_of_string str_eqb];
       eval_chars; rewrite ?andb_false_r; reflexivity.
  unfold txt. cbn [list_ascii_of_string str_eqb].
  rewrite !firstn_O, !skipn_O.
  match goal with
  | |- (if ?b then _ else _) = _ => destruct b; [|reflexivity]
  end.
  rewrite (span_before is_space r T _ Hsp). cbn [snd].
  f_equal. f_equal. apply consumed_before.
  pose proof (span_rest_length is_space r). cbn [length] in *. lia.
Qed.

(** *** The trailing-comma pattern *)

Lemma trailing_comma_re_blind : blind trailing_comma_re.
Proof. intros p q s. reflexivity. Qed.

Lemma trailing_comma_re_bounded : bounded trailing_comma_re.
Proof.
  intros p s r n H. unfold trailing_comma_re in H.
  destruct s as [|c s]; [discriminate|].
  destruct (ch_eqb c ","%char); [|discriminate].
  destruct (span_split is_space s) as [E _].
  destruct (span is_space s) as [w t]. cbn [fst snd] in E.
  destruct t as [|x t]; [discriminate|].
  destruct (is_closer x); [|discriminate].
  injection H as _ <-. rewrite E. cbn [length]. rewrite length_app.
  cbn [length]. lia.
Qed.

Lemma trailing_comma_re_local g (A2 T : str) p :
  trailing_comma_re p (A2 ++ opener g :: T) = trailing_comma_re p A2.
Proof.
  destruct (opener_facts g) as [Hsp [_ [_ Hcl]]].
  unfold trailing_comma_re. destruct A2 as [|c r]; cbn [app].
  - destruct g; cbn [opener]; eval_chars; reflexivity.
  - destruct (ch_eqb c ","%char); [|reflexivity].
    rewrite (span_before is_space r T _ Hsp).
    destruct (span is_space r) as [w t]. cbn [fst snd].
    destruct t as [|x t]; cbn [app]; [|reflexivity].
    rewrite Hcl. reflexivity.
Qed.

Lemma trailing_comma_re_closed g (J3 B : str) p :
  trailing_comma_re p ((J3 ++ [closer g]) ++ B)
  = trailing_comma_re p (J3 ++ [closer g]).
Proof.
  destruct (closer_facts g) as [Hsp [_ [Hcm _]]].
  unfold trailing_comma_re. destruct J3 as [|c r]; cbn [app].
  - rewrite Hcm. reflexivity.
  - destruct (ch_eqb c ","%char); [|reflexivity].
    rewrite <- app_assoc. cbn [app].
    rewrite (span_before is_space r B _ Hsp).
    rewrite (span_before is_space r [] _ Hsp).
    destruct (span is_space r) as [w t]. cbn [fst snd].
    destruct t as [|x t]; reflexivity.
Qed.

(** *** A bracketed text between two others *)

Lemma suffix_closed (y : ascii) (Jb J1 J2 : str) :
  Jb ++ [y] = J1 ++ J2 -> J2 <> [] -> exists J3, J2 = J3 ++ [y].
Proof.
  intros E Hne. destruct (exists_last Hne) as [J3 [z ->]].
  rewrite app_assoc in E. apply app_inj_tail in E as [_ ->]. eauto.
Qed.

Lemma hits_lits {R} (s : str) : hits (map (@Lit R) s) = [].
Proof. induction s; [reflexivity | exact IHs]. Qed.

Lemma no_backquote_no_hit {R} (m : matcher R) (J : str) :
  blind m -> starts_at m "`"%char -> forallb (not_ch "`"%char) J = true ->
  matchAll m J = [].
Proof.
  intros Hb Hs HJ. unfold matchAll, tokens.
  rewrite <- (app_nil_r J).
  rewrite (tokens_from_lits m "`"%char J [] None None Hb Hs HJ).
  cbn [tokens_from]. rewrite app_nil_r. apply hits_lits.
Qed.

Lemma no_backquote_local {R} (m : matcher R) (J B : str) :
  starts_at m "`"%char -> forallb (not_ch "`"%char) J = true ->
  local_before m J B.
Proof.
  intros Hs HJ J1 J2 p E Hne. subst J.
  rewrite forallb_app in HJ. apply andb_true_iff in HJ as [_ HJ].
  destruct J2 as [|c J2]; [congruence|].
  cbn in HJ. apply andb_true_iff in HJ as [Hc _].
  unfold not_ch in Hc. apply negb_true_iff, ch_eqb_false in Hc.
  cbn [app]. rewrite !(Hs _ c) by exact Hc. reflexivity.
Qed.

Lemma replace_all_frame {R} (m : matcher R) (f : str -> R -> str)
    (A J B : str) :
  blind m -> bounded m -> local_before m A (J ++ B) -> local_before m J B ->
  matchAll m J = [] ->
  replace_all m f (A ++ J ++ B)
  = replace_all m f A ++ J ++ replace_all m f B.
Proof.
  intros Hb Hn HA HJ Hno.
  rewrite (replace_all_app m f A (J ++ B) Hb Hn HA).
  rewrite (replace_all_app m f J B Hb Hn HJ).
  rewrite (replace_all_no_hit m f J Hno). reflexivity.
Qed.

Lemma local_before_opener {R} (m : matcher R) g (A T : str) :
  (forall A2 T' p, m p (A2 ++ opener g :: T') = m p A2) ->
  local_before m A (opener g :: T).
Proof. intros H A1 A2 p _ _. apply H. Qed.

End CleanPatterns.

(** ** [extractJson] on a JSON text inside prose and fences *)

Section WrappedFacts.
Import Json ScanDoc Wrapped.

Lemma skip_ws_opener g (s : str) : skip_ws (opener g :: s) = opener g :: s.
Proof. destruct g; reflexivity. Qed.

(** After the opening bracket of a value that the parser reads, the scan
    passes over the text up to the matching closing bracket. *)
Lemma container_passes k g (fuel : nat) (s : str) v r :
  value fuel (opener g :: s) = Some (v, r) ->
  exists t, s = t ++ closer g :: r /\ passes k t.
Proof.
  destruct fuel as [|n]; [discriminate|]. cbn [value].
  rewrite skip_ws_opener.
  destruct (parser_passes k n) as [_ [IHE IHM]].
  destruct (skip_ws_split k s) as [w [Ew Hw]].
  destruct g; cbn [opener closer]; eval_chars.
  - destruct (skip_ws s) as [|x r']; [discriminate|].
    destruct (ch_eqb x "}"%char) eqn:Hx.
    + intros H. injection H as <- <-. apply ch_eqb_true in Hx. subst x.
      exists w. split; [exact Ew | exact Hw].
    + destruct (members n s) as [[ms t]|] eqn:Hm; [|discriminate].
      intros H. injection H as <- <-. apply (IHM s ms t Hm).
  - destruct (skip_ws s) as [|x r']; [discriminate|].
    destruct (ch_eqb x "]"%char) eqn:Hx.
    + intros H. injection H as <- <-. apply ch_eqb_true in Hx. subst x.
      exists w. split; [exact Ew | exact Hw].
    + destruct (elements n s) as [[vs t]|] eqn:He; [|discriminate].
      intros H. injection H as <- <-. apply (IHE s vs t He).
Qed.

Lemma ws_not_closer (c : ascii) : is_json_ws c = true -> is_closer c = false.
Proof.
  intros H. unfold is_closer.
  destruct (ch_eqb c "}"%char) eqn:E1;
    [apply ch_eqb_true in E1; subst c; discriminate H|].
  destruct (ch_eqb c "]"%char) eqn:E2;
    [apply ch_eqb_true in E2; subst c; discriminate H|].
  reflexivity.
Qed.

Lemma ends_closed_last (s : str) (c : ascii) :
  ends_closed (s ++ [c]) = is_closer c.
Proof. unfold ends_closed. rewrite rev_app_distr. reflexivity. Qed.

(** A valid JSON text that opens with a bracket and ends with a closing
    one is the bracket, a text that the scan passes over, and the
    matching closing bracket. *)
Lemma json_container_shape g (J : str) (v : json) :
  JSON_parse J = Some v -> hd_error J = Some (opener g) ->
  ends_closed J = true ->
  exists t, J = opener g :: t ++ [closer g] /\ passes g t.
Proof.
  intros Hparse Hhd Hend. destruct J as [|x J0]; [discriminate|].
  cbn in Hhd. injection Hhd as ->.
  unfold JSON_parse in Hparse.
  destruct (value _ (opener g :: J0)) as [[v' r]|] eqn:Hv; [|discriminate].
  destruct (container_passes g g _ _ _ _ Hv) as [t [E Ht]].
  exists t. split; [|exact Ht]. subst J0.
  destruct (span_split is_json_ws r) as [Er [Hws _]].
  unfold skip_ws in Hparse.
  destruct (snd (span is_json_ws r)); [|discriminate].
  rewrite app_nil_r in Er. rewrite <- Er in Hws. clear Er.
  destruct r as [|c r] using rev_ind; [reflexivity|]. exfalso. clear IHr.
  replace (opener g :: t ++ closer g :: r ++ [c])
    with ((opener g :: t ++ closer g :: r) ++ [c]) in Hend
    by (cbn [app]; rewrite <- app_assoc; reflexivity).
  rewrite ends_closed_last in Hend.
  rewrite forallb_app in Hws. apply andb_true_iff in Hws as [_ Hc].
  cbn in Hc. rewrite andb_true_r in Hc.
  rewrite (ws_not_closer c Hc) in Hend. discriminate.
Qed.

(** The candidate found from the opening bracket is the bracketed text,
    whatever follows it. *)
Lemma candidate_bracketed g (t Q : str) :
  passes g t ->
  candidate (opener g) (t ++ closer g :: Q) = opener g :: t ++ [closer g].
Proof.
  intros Ht. unfold candidate.
  assert (Hend : (if ch_eqb (opener g) "{"%char then "}"%char else "]"%char)
                 = closer g) by (destruct g; reflexivity).
  rewrite Hend. rewrite (Ht 1%Z 1 _ ltac:(lia)).
  cbn [scan].
  assert (Hc : ch_eqb (closer g) "\"%char = false
               /\ ch_eqb (closer g) dq = false
               /\ ch_eqb (closer g) (opener g) = false
               /\ ch_eqb (closer g) (closer g) = true)
    by (destruct g; repeat split).
  destruct Hc as [-> [-> [-> ->]]]. cbn match.
  change (1 - 1 =? 0)%Z with true. cbn match.
  replace (1 + length t + 1) with (S (length (t ++ [closer g])))
    by (rewrite length_app; cbn [length]; lia).
  cbn [firstn]. f_equal.
  change (closer g :: Q) with ([closer g] ++ Q). rewrite app_assoc.
  rewrite firstn_app, firstn_all, Nat.sub_diag, firstn_O, app_nil_r.
  reflexivity.
Qed.

(** *** Where the first bracket is *)

Lemma indexOf_one_head (c d : ascii) (s : str) :
  indexOf [c] (d :: s)
  = if ch_eqb c d then Some 0 else option_map S (indexOf [c] s).
Proof.
  cbn [indexOf]. unfold starts_with. cbn [strip_prefix].
  destruct (ch_eqb c d); reflexivity.
Qed.

Lemma indexOf_skip (c : ascii) (P s : str) :
  forallb (not_ch c) P = true ->
  indexOf [c] (P ++ s) = option_map (Nat.add (length P)) (indexOf [c] s).
Proof.
  induction P as [|d P IH]; intros H.
  - cbn. destruct (indexOf [c] s); reflexivity.
  - cbn in H. apply andb_true_iff in H as [Hd HP].
    cbn [app]. rewrite indexOf_one_head.
    unfold not_ch in Hd. apply negb_true_iff in Hd.
    assert (ch_eqb c d = false) as ->.
    { destruct (ch_eqb c d) eqn:E; [|reflexivity].
      apply ch_eqb_true in E. subst d. rewrite ch_eqb_same in Hd.
      discriminate Hd. }
    rewrite (IH HP). destruct (indexOf [c] s); reflexivity.
Qed.

Lemma open_free_parts (P : str) :
  open_free P = true ->
  forallb (not_ch "{"%char) P = true /\ forallb (not_ch "["%char) P = true.
Proof.
  intros H. split; apply (forallb_weaken open_ch _ P); try exact H;
    intros c Hc; unfold open_ch in Hc; apply andb_true_iff in Hc; tauto.
Qed.

(** With no opening bracket before it, the opening bracket of the text
    is where the search starts. *)
Lemma start_index g (P T : str) :
  open_free P = true ->
  exists i,
    match indexOf (txt "{") (P ++ opener g :: T),
          indexOf (txt "[") (P ++ opener g :: T) with
    | None, None => None
    | None, Some q => Some q
    | Some b, None => Some b
    | Some b, Some q => Some (Nat.min b q)
    end = Some i
    /\ skipn i (P ++ opener g :: T) = opener g :: T.
Proof.
  intros HP. destruct (open_free_parts P HP) as [H1 H2].
  exists (length P). split.
  - change (txt "{") with ["{"%char]. change (txt "[") with ["["%char].
    rewrite (indexOf_skip _ P _ H1), (indexOf_skip _ P _ H2).
    rewrite !indexOf_one_head.
    destruct g; cbn [opener]; eval_chars.
    + destruct (indexOf ["["%char] T); cbn [option_map];
        f_equal; lia.
    + destruct (indexOf ["{"%char] T); cbn [option_map];
        f_equal; lia.
  - rewrite skipn_app, skipn_all, Nat.sub_diag. reflexivity.
Qed.

End WrappedFacts.

Section WrappedTheorem.
Import Json ScanDoc Wrapped.

Lemma space_open_ch (c : ascii) : is_space c = true -> open_ch c = true.
Proof.
  intros H. unfold open_ch.
  destruct (ch_eqb c "{"%char) eqn:E1;
    [apply ch_eqb_true in E1; subst c; discriminate H|].
  destruct (ch_eqb c "["%char) eqn:E2;
    [apply ch_eqb_true in E2; subst c; discriminate H|].
  reflexivity.
Qed.

Lemma closer_open_ch (c : ascii) : is_closer c = true -> open_ch c = true.
Proof.
  intros H. unfold open_ch.
  destruct (ch_eqb c "{"%char) eqn:E1;
    [apply ch_eqb_true in E1; subst c; discriminate H|].
  destruct (ch_eqb c "["%char) eqn:E2;
    [apply ch_eqb_true in E2; subst c; discriminate H|].
  reflexivity.
Qed.

Lemma trailing_comma_writes_open_free p s r n :
  trailing_comma_re p s = Some (r, n) -> forallb open_ch r = true.
Proof.
  unfold trailing_comma_re. destruct s as [|c s]; [discriminate|].
  destruct (ch_eqb c ","%char); [|discriminate].
  destruct (span_split is_space s) as [_ [Hw _]].
  destruct (span is_space s) as [w t]. cbn [fst] in Hw.
  destruct t as [|x t]; [discriminate|].
  destruct (is_closer x) eqn:Hx; [|discriminate].
  intros H. injection H as <- _. rewrite forallb_app. cbn.
  rewrite (forallb_weaken _ _ _ space_open_ch Hw), (closer_open_ch x Hx).
  reflexivity.
Qed.

(** The three global replacements of the clean-up leave a bracketed
    text in place and write no opening bracket before it. *)
Lemma replace_around {R} (m : matcher R) (f : str -> R -> str) g
    (A t B : str) :
  blind m -> bounded m ->
  (forall A2 T p, m p (A2 ++ opener g :: T) = m p A2) ->
  local_before m (opener g :: t ++ [closer g]) B ->
  matchAll m (opener g :: t ++ [closer g]) = [] ->
  (forall p s r n, m p s = Some (r, n) ->
     forallb open_ch (f (firstn n s) r) = true) ->
  open_free A = true ->
  exists P Q,
    replace_all m f (A ++ (opener g :: t ++ [closer g]) ++ B)
    = P ++ (opener g :: t ++ [closer g]) ++ Q
    /\ open_free P = true.
Proof.
  intros Hb Hn Hopen Hclosed Hno Hf HA.
  exists (replace_all m f A), (replace_all m f B). split.
  - apply (replace_all_frame m f A _ B Hb Hn); [|exact Hclosed | exact Hno].
    apply (local_before_opener m g A), Hopen.
  - apply (replace_all_keeps m open_ch f Hf A HA).
Qed.

Lemma trailing_comma_closed_local g (t B : str) :
  local_before trailing_comma_re (opener g :: t ++ [closer g]) B.
Proof.
  intros J1 J2 p E Hne.
  change (opener g :: t ++ [closer g]) with ((opener g :: t) ++ [closer g]) in E.
  destruct (suffix_closed _ _ _ _ E Hne) as [J3 ->].
  apply trailing_comma_re_closed.
Qed.

Lemma clean_frame g (A t B : str) :
  untouched_by_cleanup (opener g :: t ++ [closer g]) ->
  open_free A = true ->
  exists P Q,
    clean (A ++ (opener g :: t ++ [closer g]) ++ B)
    = P ++ (opener g :: t ++ [closer g]) ++ Q
    /\ open_free P = true.
Proof.
  intros [Hbq Hcomma] HA. unfold clean.
  destruct (opener_facts g) as [Hsp _].
  destruct (closer_facts g) as [Hsp' _].
  set (J := opener g :: t ++ [closer g]) in *.
  (* the opening fence *)
  assert (E1 : strip_open_fence (A ++ J ++ B)
               = strip_open_fence A ++ J ++ B)
    by (apply (strip_open_fence_before g A)).
  rewrite E1.
  pose proof (strip_open_fence_keeps open_ch A HA) as HA1.
  set (A1 := strip_open_fence A) in *.
  (* the closing fence *)
  assert (E2 : replace_first close_fence_re (fun _ _ => []) (A1 ++ J ++ B)
               = A1 ++ J ++ replace_first close_fence_re (fun _ _ => []) B).
  { replace (A1 ++ J ++ B) with ((A1 ++ opener g :: t) ++ closer g :: B)
      by (subst J; repeat (rewrite <- ?app_assoc; cbn [app]); reflexivity).
    rewrite close_fence_after.
    subst J. repeat (rewrite <- ?app_assoc; cbn [app]). reflexivity. }
  rewrite E2. set (B2 := replace_first close_fence_re _ B).
  (* trim *)
  assert (E3 : trim (A1 ++ J ++ B2) = trim_start A1 ++ J ++ trim_end B2).
  { unfold trim.
    replace (A1 ++ J ++ B2) with (A1 ++ opener g :: (t ++ [closer g]) ++ B2)
      by reflexivity.
    rewrite (trim_start_before A1 _ _ Hsp).
    replace (trim_start A1 ++ opener g :: (t ++ [closer g]) ++ B2)
      with ((trim_start A1 ++ opener g :: t) ++ closer g :: B2)
      by (repeat (rewrite <- ?app_assoc; cbn [app]); reflexivity).
    rewrite (trim_end_after _ B2 _ Hsp').
    subst J. repeat (rewrite <- ?app_assoc; cbn [app]). reflexivity. }
  rewrite E3.
  pose proof (trim_start_keeps open_ch A1 HA1) as HA3.
  set (A3 := trim_start A1) in *. set (B3 := trim_end B2).
  (* the fences with json *)
  destruct (replace_around fence_json_re (fun _ _ => []) g A3 t B3
              fence_json_re_blind fence_json_re_bounded
              (fence_json_re_local g)
              (no_backquote_local _ _ B3 fence_json_re_starts Hbq)
              (no_backquote_no_hit _ _ fence_json_re_blind
                 fence_json_re_starts Hbq)
              (fun _ _ _ _ _ => eq_refl) HA3)
    as [A4 [B4 [E4 HA4]]].
  fold J in E4. rewrite E4.
  (* the other fences *)
  destruct (replace_around fence_re (fun _ _ => []) g A4 t B4
              fence_re_blind fence_re_bounded (fence_re_local g)
              (no_backquote_local _ _ B4 fence_re_starts Hbq)
              (no_backquote_no_hit _ _ fence_re_blind fence_re_starts Hbq)
              (fun _ _ _ _ _ => eq_refl) HA4)
    as [A5 [B5 [E5 HA5]]].
  fold J in E5. rewrite E5.
  (* the trailing commas *)
  apply (replace_around trailing_comma_re (fun _ g1 => g1) g A5 t B5
           trailing_comma_re_blind trailing_comma_re_bounded
           (trailing_comma_re_local g)
           (trailing_comma_closed_local g t B5) Hcomma
           trailing_comma_writes_open_free HA5).
Qed.

(** C5, amended: let [J] be a JSON text that [JSON.parse] accepts, that
    opens with a brace or bracket and ends with a closing one, and that
    holds no backquote and no comma directly (but for white space)
    before a closing brace or bracket.  With any text before it that
    holds no opening brace or bracket, and any text after it, if the
    whole is not itself valid JSON then [extractJson] returns [J], which
    parses to the value of [J]. *)
Theorem extractJson_returns_wrapped_json g (pre J post : str) (v : json) :
  JSON_parse (pre ++ J ++ post) = None ->
  open_free pre = true ->
  JSON_parse J = Some v ->
  hd_error J = Some (opener g) -> ends_closed J = true ->
  untouched_by_cleanup J ->
  extractJson (pre ++ J ++ post) = inr J
  /\ JSON_parse J = Some v.
Proof.
  intros Hnot Hpre HJ Hhd Hend Hclean. split; [|exact HJ].
  destruct (json_container_shape g J v HJ Hhd Hend) as [t [EJ Ht]].
  subst J. set (J := opener g :: t ++ [closer g]) in *.
  destruct (clean_frame g pre t post Hclean Hpre) as [P [Q [Ec HP]]].
  fold J in Ec.
  unfold extractJson.
  (* the text is not blank *)
  destruct (trim (pre ++ J ++ post)) as [|c0 s0] eqn:Htrim.
  { exfalso. destruct (opener_facts g) as [Hsp _].
    unfold trim in Htrim.
    replace (pre ++ J ++ post)
      with (pre ++ opener g :: (t ++ [closer g]) ++ post) in Htrim
      by reflexivity.
    rewrite (trim_start_before pre _ _ Hsp) in Htrim.
    destruct (closer_facts g) as [Hsp' _].
    replace (trim_start pre ++ opener g :: (t ++ [closer g]) ++ post)
      with ((trim_start pre ++ opener g :: t) ++ closer g :: post) in Htrim
      by (repeat (rewrite <- ?app_assoc; cbn [app]); reflexivity).
    rewrite (trim_end_after _ post _ Hsp') in Htrim.
    apply app_eq_nil in Htrim as [_ Htrim]. discriminate Htrim. }
  rewrite Hnot, Ec.
  destruct (start_index g P ((t ++ [closer g]) ++ Q) HP) as [i [Ei Es]].
  change (P ++ J ++ Q) with (P ++ opener g :: (t ++ [closer g]) ++ Q).
  rewrite Ei, Es.
  rewrite <- app_assoc. cbn [app].
  rewrite (candidate_bracketed g t Q Ht). fold J. rewrite HJ. reflexivity.
Qed.

End WrappedTheorem.

Lemma extractJson_returns_wrapped_json_witness :
  let pre := txt "Sure! Here is the JSON you asked for: ```json " in
  let J := jq "{'a':1,'b':[1,2],'c':{'d':'x } y'}}" in
  let post := txt " ``` Let me know if you need more, e.g. [this]." in
  Json.extractJson (pre ++ J ++ post) = inr J
  /\ Json.JSON_parse J
     = Some (Json.JObject
               [(txt "a", Json.JNumber (txt "1"));
                (txt "b", Json.JArray [Json.JNumber (txt "1");
                                       Json.JNumber (txt "2")]);
                (txt "c", Json.JObject [(txt "d", Json.JString (txt "x } y"))])]).
Proof.
  intros pre J post.
  apply (extractJson_returns_wrapped_json ScanDoc.Brace pre J post).
  - vm_compute. reflexivity.
  - vm_compute. reflexivity.
  - vm_compute. reflexivity.
  - reflexivity.
  - reflexivity.
  - split; vm_compute; reflexivity.
Defined.

(** * Further properties of the code *)

(** ** The retry loop as a whole *)

Section RetryLoop.
Import Retry RetryTrace.
Context {V : Type}.
Variable apiCall : nat -> ai_error + V.
Variable is_http_date : str -> bool.
Variable maxRetries : nat.

Lemma attempts_step (k attempt : nat) :
  attempts apiCall is_http_date maxRetries (S k) attempt
  = match apiCall attempt with
    | inr v => ([Call attempt], Returned v)
    | inl error =>
        if retriable error
        then if attempt =? maxRetries - 1
             then ([Call attempt], Threw error)
             else let '(tr, r) :=
                    attempts apiCall is_http_date maxRetries k (S attempt) in
                  (Call attempt :: Sleep (next_delay is_http_date error attempt) :: tr, r)
        else ([Call attempt], Threw error)
    end.
Proof.
  cbn [attempts]. destruct (apiCall attempt) as [e|v]; [|reflexivity].
  unfold retriable. destruct (_ || _ || _); reflexivity.
Qed.

Lemma attempts_not_exhausted (remaining attempt : nat) :
  attempt + S remaining = maxRetries ->
  snd (attempts apiCall is_http_date maxRetries (S remaining) attempt)
  <> ThrewExhausted.
Proof.
  revert attempt. induction remaining as [|r IH]; intros a Ha;
    rewrite attempts_step.
  - destruct (apiCall a) as [e|v]; [|discriminate].
    destruct (retriable e); [|discriminate].
    destruct (Nat.eqb_spec a (maxRetries - 1)); [discriminate|lia].
  - destruct (apiCall a) as [e|v]; [|discriminate].
    destruct (retriable e); [|discriminate].
    destruct (Nat.eqb_spec a (maxRetries - 1)); [discriminate|].
    specialize (IH (S a) ltac:(lia)).
    destruct (attempts apiCall is_http_date maxRetries (S r) (S a)) as [tr res].
    exact IH.
Qed.

(** X1: The final error 'AI call failed after all retries.' is thrown
    exactly when maxRetries is 0: with at least one attempt allowed the
    loop always ends inside its body, by returning the value or by
    rethrowing the error of the call. *)
Theorem exhausted_only_without_attempts :
  snd (callAiWithRetry apiCall is_http_date maxRetries) = ThrewExhausted
  <-> maxRetries = 0.
Proof.
  unfold callAiWithRetry. split.
  - intros H. destruct (Nat.eq_dec maxRetries 0) as [|Hne]; [assumption|].
    exfalso. revert H.
    replace (attempts apiCall is_http_date maxRetries maxRetries 0)
      with (attempts apiCall is_http_date maxRetries (S (maxRetries - 1)) 0)
      by (f_equal; lia).
    apply attempts_not_exhausted. lia.
  - intros H. rewrite H at 2. reflexivity.
Qed.




Lemma attempts_retry_until (d a k : nat) :
  a + d = k -> k < maxRetries ->
  (forall j, a <= j < k -> exists ej, apiCall j = inl ej /\ retriable ej = true) ->
  exists trace,
    attempts apiCall is_http_date maxRetries (maxRetries - a) a
    = (trace ++ fst (attempts apiCall is_http_date maxRetries (maxRetries - k) k),
       snd (attempts apiCall is_http_date maxRetries (maxRetries - k) k))
    /\ calls trace = d /\ sleeps trace = d.
Proof.
  revert a. induction d as [|d IH]; intros a Hk Hlt Hearlier.
  - rewrite Nat.add_0_r in Hk. subst a. exists []. cbn [app].
    split; [|split; reflexivity]. apply surjective_pairing.
  - destruct (Hearlier a ltac:(lia)) as [ej [Hej Hretry]].
    destruct (IH (S a) ltac:(lia) Hlt) as [trace [Htrace [Hc Hs]]].
    { intros j Hj. apply Hearlier. lia. }
    destruct (maxRetries - a) as [|r] eqn:Hr; [lia|].
    replace (maxRetries - S a) with r in Htrace by lia.
    rewrite attempts_step, Hej, Hretry.
    destruct (Nat.eqb_spec a (maxRetries - 1)) as [Hlast|_]; [lia|].
    rewrite Htrace.
    exists (Call a :: Sleep (next_delay is_http_date ej a) :: trace).
    split; [reflexivity|].
    unfold calls, sleeps in *. cbn [List.filter length]. lia.
Qed.

(** X3: If attempt k (k < maxRetries) succeeds and every earlier attempt
    failed with an error that is retried, the invoker returns the value of
    attempt k after exactly k+1 invocations and k waits. *)
Theorem first_success_is_returned (k : nat) (v : V) :
  k < maxRetries ->
  (forall j, j < k -> exists ej, apiCall j = inl ej /\ retriable ej = true) ->
  apiCall k = inr v ->
  let '(trace, result) := callAiWithRetry apiCall is_http_date maxRetries in
  result = Returned v /\ calls trace = S k /\ sleeps trace = k.
Proof.
  intros Hlt Hearlier Hcall. unfold callAiWithRetry.
  destruct (attempts_retry_until k 0 k eq_refl Hlt) as [trace [Htrace [Hc Hs]]].
  { intros j Hj. apply Hearlier. lia. }
  rewrite Nat.sub_0_r in Htrace. rewrite Htrace.
  destruct (maxRetries - k) as [|r] eqn:Hr; [lia|].
  rewrite attempts_step, Hcall. cbn [fst snd].
  split; [reflexivity|]. unfold calls, sleeps in *.
  rewrite !List.filter_app, !length_app, Hc, Hs. cbn. lia.
Qed.

(** X4: If every attempt before the last fails with an error that is
    retried, the error of the last attempt (number maxRetries-1) is
    rethrown as it is, whatever its kind, after exactly maxRetries
    invocations and maxRetries-1 waits. *)
Theorem gives_up_after_max_attempts (e : ai_error) :
  1 <= maxRetries ->
  (forall j, j < maxRetries - 1 ->
             exists ej, apiCall j = inl ej /\ retriable ej = true) ->
  apiCall (maxRetries - 1) = inl e ->
  let '(trace, result) := callAiWithRetry apiCall is_http_date maxRetries in
  result = Threw e /\ calls trace = maxRetries
  /\ sleeps trace = maxRetries - 1.
Proof.
  intros Hmax Hearlier Hcall. unfold callAiWithRetry.
  destruct (attempts_retry_until (maxRetries - 1) 0 (maxRetries - 1) eq_refl
              ltac:(lia)) as [trace [Htrace [Hc Hs]]].
  { intros j Hj. apply Hearlier. lia. }
  rewrite Nat.sub_0_r in Htrace. rewrite Htrace.
  destruct (maxRetries - (maxRetries - 1)) as [|r] eqn:Hr; [lia|].
  rewrite attempts_step, Hcall.
  assert (Hthrow : (if retriable e
                    then if maxRetries - 1 =? maxRetries - 1
                         then ([Call (maxRetries - 1)], Threw e)
                         else let '(tr, r0) :=
                                attempts apiCall is_http_date maxRetries r
                                  (S (maxRetries - 1)) in
                              (Call (maxRetries - 1)
                               :: Sleep (next_delay is_http_date e (maxRetries - 1))
                               :: tr, r0)
                    else ([Call (maxRetries - 1)], Threw e))
                   = ([Call (maxRetries - 1)], @Threw V e)).
  { rewrite Nat.eqb_refl. destruct (retriable e); reflexivity. }
  rewrite Hthrow. cbn [fst snd].
  split; [reflexivity|]. unfold calls, sleeps in *.
  rewrite !List.filter_app, !length_app, Hc, Hs. cbn. lia.
Qed.
End RetryLoop.

Lemma first_success_is_returned_witness :
  let flaky := Retry.AiError (Some 503) (txt "Service Unavailable") None in
  let apiCall := fun n => if n <? 2 then inl flaky else inr 7 in
  snd (Retry.callAiWithRetry apiCall (fun _ => false) 5) = Retry.Returned 7
  /\ Retry.calls (fst (Retry.callAiWithRetry apiCall (fun _ => false) 5)) = 3.
Proof.
  intros flaky apiCall.
  pose proof (first_success_is_returned apiCall (fun _ => false) 5 2 7) as H.
  destruct (Retry.callAiWithRetry apiCall (fun _ => false) 5) as [trace result].
  destruct H as [Hr [Hc _]].
  - lia.
  - intros j Hj. exists flaky. split; [|reflexivity].
    unfold apiCall. destruct (Nat.ltb_spec j 2); [reflexivity|lia].
  - reflexivity.
  - split; assumption.
Defined.

Lemma gives_up_after_max_attempts_witness :
  let flaky := Retry.AiError (Some 503) (txt "Service Unavailable") None in
  snd (Retry.callAiWithRetry (V := unit) (fun _ => inl flaky) (fun _ => false) 3)
  = Retry.Threw flaky
  /\ Retry.calls
       (fst (Retry.callAiWithRetry (V := unit) (fun _ => inl flaky)
               (fun _ => false) 3)) = 3.
Proof.
  intros flaky.
  pose proof (gives_up_after_max_attempts (V := unit) (fun _ => inl flaky)
                (fun _ => false) 3 flaky) as H.
  destruct (Retry.callAiWithRetry _ _ _) as [trace result].
  destruct H as [Hr [Hc _]].
  - lia.
  - intros j Hj. exists flaky. split; reflexivity.
  - reflexivity.
  - split; assumption.
Defined.

(** ** The cache as a map *)

Section CacheMap.
Import ContentCache.
Context {A : Type}.
Implicit Types (cache : gmap string (@entry A)) (key : string).

(** X5: The cache behaves as a map with one entry per key: storing a value
    under one key does not change what get returns for any other key, and
    a second set on the same key replaces the entry, value and time stamp,
    so that the entry lives for one hour from the second set. *)
Theorem set_replaces_one_entry now t1 t2 key key' (v1 v2 : A) cache :
  key <> key' ->
  fst (get now key' (set t2 key v2 cache)) = fst (get now key' cache)
  /\ set t2 key v2 (set t1 key v1 cache) = set t2 key v2 cache
  /\ fst (get now key (set t2 key v2 (set t1 key v1 cache)))
     = if (now - t2 <? TTL)%Z then Some v2 else None.
Proof.
  intros Hne. split; [|split].
  - unfold get, set. rewrite lookup_insert_ne by assumption.
    destruct (cache !! key') as [item|]; [|reflexivity].
    destruct (_ <? _)%Z; reflexivity.
  - unfold set. apply insert_insert_eq.
  - unfold get, set. rewrite lookup_insert_eq. cbn.
    destruct (_ <? _)%Z; reflexivity.
Qed.
End CacheMap.

Lemma set_replaces_one_entry_witness :
  fst (ContentCache.get 10 "b" (ContentCache.set 5 "a" 1 (ContentCache.set 0 "b" 2 ∅)))
  = Some 2.
Proof.
  destruct (set_replaces_one_entry 10 0 5 "a" "b" 1 1
              (ContentCache.set 0 "b" 2 ∅)) as [H _].
  - discriminate.
  - rewrite H. reflexivity.
Defined.

(** ** The word count does not depend on the bounds *)

Section WordCountBounds.
Import WordCount.

(** X6: enforceWordCount never compares the count with minWords: its
    result (the exception or the returned count) is the same for every
    pair of bounds, and for every non-empty string it returns the word
    count, however small. *)
Theorem enforceWordCount_never_checks_minimum (content : js_value)
    (minWords maxWords minWords' maxWords' : nat) (c : ascii) (s : str) :
  snd (enforceWordCount content minWords maxWords)
  = snd (enforceWordCount content minWords' maxWords')
  /\ snd (enforceWordCount (JString (c :: s)) minWords maxWords)
     = inr (count_words (c :: s)).
Proof.
  split.
  - destruct content as [| |b|n|t]; try reflexivity.
    destruct t as [|x t]; [reflexivity|].
    unfold enforceWordCount. cbn [truthy is_string negb orb].
    destruct (maxWords <? _), (maxWords' <? _); reflexivity.
  - unfold enforceWordCount. cbn [truthy is_string negb orb].
    destruct (maxWords <? _); reflexivity.
Qed.
End WordCountBounds.

(** ** Blank texts *)

Section TrimFacts.

Lemma trim_start_split (s : str) :
  exists w, s = w ++ trim_start s /\ forallb is_space w = true
            /\ stops is_space (trim_start s).
Proof.
  induction s as [|c s [w [Hs [Hw Hst]]]].
  - exists []. repeat split.
  - cbn [trim_start]. destruct (is_space c) eqn:Hc.
    + exists (c :: w). cbn. rewrite Hc, Hw. rewrite <- Hs. repeat split.
      exact Hst.
    + exists []. repeat split. cbn. exact Hc.
Qed.

Lemma trim_start_blank (s : str) :
  trim_start s = [] <-> forallb is_space s = true.
Proof.
  split.
  - intros H. destruct (trim_start_split s) as [w [Hs [Hw _]]].
    rewrite H, app_nil_r in Hs. subst w. exact Hw.
  - induction s as [|c s IH]; [reflexivity|]. cbn.
    intros H. apply andb_true_iff in H as [Hc Hs]. rewrite Hc. apply IH, Hs.
Qed.

Lemma forallb_rev (p : ascii -> bool) (s : str) :
  forallb p (rev s) = forallb p s.
Proof.
  induction s as [|c s IH]; [reflexivity|].
  cbn. rewrite forallb_app, IH. cbn. rewrite andb_true_r. apply andb_comm.
Qed.

Lemma trim_end_blank (s : str) :
  trim_end s = [] <-> forallb is_space s = true.
Proof.
  unfold trim_end. rewrite <- (forallb_rev is_space s), <- trim_start_blank.
  split; intros H.
  - apply (f_equal (@rev ascii)) in H. rewrite rev_involutive in H. exact H.
  - rewrite H. reflexivity.
Qed.

Lemma trim_blank (s : str) : trim s = [] <-> forallb is_space s = true.
Proof.
  unfold trim. rewrite trim_end_blank. split.
  - intros H. destruct (trim_start_split s) as [w [Hs [Hw Hst]]].
    destruct (trim_start s) as [|c r] eqn:E.
    + apply trim_start_blank, E.
    + cbn in Hst, H. rewrite Hst in H. discriminate H.
  - apply trim_start_keeps.
Qed.

Lemma trim_end_keeps (phi : ascii -> bool) (s : str) :
  forallb phi s = true -> forallb phi (trim_end s) = true.
Proof.
  intros H. unfold trim_end. rewrite forallb_rev. apply trim_start_keeps.
  rewrite forallb_rev. exact H.
Qed.

Lemma trim_keeps (phi : ascii -> bool) (s : str) :
  forallb phi s = true -> forallb phi (trim s) = true.
Proof. intros H. apply trim_end_keeps, trim_start_keeps, H. Qed.

End TrimFacts.

(** ** What [extractJson] returns and throws *)

Section ExtractJsonFacts.
Import Json ScanDoc Wrapped.

Lemma json_ws_space (c : ascii) : is_json_ws c = true -> is_space c = true.
Proof.
  destruct c as [[] [] [] [] [] [] [] []]; intros H;
    try discriminate H; reflexivity.
Qed.

Lemma span_suffix_keeps (p phi : ascii -> bool) (s : str) :
  forallb phi s = true -> forallb phi (snd (span p s)) = true.
Proof.
  induction s as [|c s IH]; [reflexivity|]. cbn [span].
  destruct (p c).
  - intros H. cbn in H. apply andb_true_iff in H as [_ H].
    destruct (span p s). apply IH, H.
  - tauto.
Qed.

(** A white-space character cannot start a JSON value. *)
Lemma value_at_space (k : nat) (c : ascii) (r : str) :
  is_space c = true -> is_json_ws c = false -> value (S k) (c :: r) = None.
Proof.
  intros Hs Hj. cbn [value]. unfold skip_ws. cbn [span]. rewrite Hj. cbn [snd].
  destruct c as [[] [] [] [] [] [] [] []];
    try discriminate Hs; try discriminate Hj; reflexivity.
Qed.

Lemma value_blank (k : nat) (s : str) :
  forallb is_space s = true -> value k s = None.
Proof.
  intros H. destruct k as [|k]; [reflexivity|].
  pose proof (span_suffix_keeps is_json_ws is_space s H) as Hr.
  pose proof (span_split is_json_ws s) as [Hs [_ Hst]].
  cbn [value]. unfold skip_ws.
  destruct (snd (span is_json_ws s)) as [|c r] eqn:E; [reflexivity|].
  cbn in Hr, Hst. apply andb_true_iff in Hr as [Hc _].
  pose proof (value_at_space k c r Hc Hst) as Hv.
  cbn [value] in Hv. unfold skip_ws in Hv. cbn [span] in Hv.
  rewrite Hst in Hv. cbn [snd] in Hv. exact Hv.
Qed.

Lemma JSON_parse_not_blank (text : str) (v : json) :
  JSON_parse text = Some v -> trim text <> [].
Proof.
  intros H Hb. apply trim_blank in Hb. unfold JSON_parse in H.
  rewrite (value_blank _ text Hb) in H. discriminate H.
Qed.

(** X7: A text that JSON.parse accepts is returned by extractJson
    unchanged, surrounding white space included. *)
Theorem valid_json_returned_as_is (text : str) (v : json) :
  JSON_parse text = Some v -> extractJson text = inr text.
Proof.
  intros H. unfold extractJson.
  pose proof (JSON_parse_not_blank text v H) as Hb.
  destruct (trim text) as [|c r]; [congruence|].
  rewrite H. reflexivity.
Qed.

(** X8: Whatever extractJson returns is accepted by JSON.parse. *)
Theorem extractJson_output_parses (text out : str) :
  extractJson text = inr out -> exists v, JSON_parse out = Some v.
Proof.
  unfold extractJson. destruct (trim text) as [|c r]; [discriminate|].
  destruct (JSON_parse text) as [v|] eqn:Hp.
  { intros H. inversion H. subst out. exists v. exact Hp. }
  destruct (match indexOf (txt "{") (clean text), indexOf (txt "[") (clean text) with
            | None, None => None
            | None, Some q => Some q
            | Some b, None => Some b
            | Some b, Some q => Some (Nat.min b q)
            end) as [i|]; [|discriminate].
  destruct (skipn i (clean text)) as [|startChar rest]; [discriminate|].
  destruct (JSON_parse (candidate startChar rest)) as [v|] eqn:Hc.
  { intros H. inversion H. subst out. exists v. exact Hc. }
  destruct (JSON_parse (replace_all comma_before_closer_re (fun _ _ => [])
                          (candidate startChar rest))) as [v|] eqn:Hr;
    [|discriminate].
  intros H. inversion H. subst out. exists v. exact Hr.
Qed.

(** X9: For a string, extractJson throws 'Input text is invalid, empty, or
    not a string.' exactly when the text is empty or consists of white
    space only. *)
Theorem invalid_input_iff_blank (text : str) :
  extractJson text = inl InvalidInput <-> forallb is_space text = true.
Proof.
  rewrite <- trim_blank. unfold extractJson. split.
  - destruct (trim text) as [|c r]; [reflexivity|].
    destruct (JSON_parse text); [discriminate|].
    destruct (match indexOf (txt "{") (clean text), indexOf (txt "[") (clean text) with
              | None, None => None
              | None, Some q => Some q
              | Some b, None => Some b
              | Some b, Some q => Some (Nat.min b q)
              end) as [i|]; [|discriminate].
    destruct (skipn i (clean text)) as [|startChar rest]; [discriminate|].
    destruct (JSON_parse (candidate startChar rest)); [discriminate|].
    destruct (JSON_parse _); discriminate.
  - intros ->. reflexivity.
Qed.

Lemma replace_first_from_keeps {R} (m : matcher R) (phi : ascii -> bool)
    (f : str -> R -> str) :
  (forall w r, forallb phi (f w r) = true) ->
  forall s p out, forallb phi s = true ->
  replace_first_from m f p s = Some out -> forallb phi out = true.
Proof.
  intros Hf. induction s as [|c s IH]; intros p out Hs; cbn [replace_first_from].
  - destruct (m p []) as [[r n]|]; [|discriminate].
    intros H. inversion H. rewrite forallb_app, Hf. destruct n; reflexivity.
  - destruct (m p (c :: s)) as [[r n]|].
    + intros H. inversion H. rewrite forallb_app, Hf. cbn [andb].
      rewrite <- (firstn_skipn n (c :: s)) in Hs. rewrite forallb_app in Hs.
      apply andb_true_iff in Hs. tauto.
    + cbn in Hs. apply andb_true_iff in Hs as [Hc Hs].
      destruct (replace_first_from m f (Some c) s) as [o|] eqn:E; [|discriminate].
      intros H. inversion H. cbn. rewrite Hc. apply (IH (Some c) o Hs E).
Qed.

Lemma replace_first_keeps {R} (m : matcher R) (phi : ascii -> bool)
    (f : str -> R -> str) (s : str) :
  (forall w r, forallb phi (f w r) = true) ->
  forallb phi s = true -> forallb phi (replace_first m f s) = true.
Proof.
  intros Hf Hs. unfold replace_first.
  destruct (replace_first_from m f None s) as [o|] eqn:E; [|exact Hs].
  apply (replace_first_from_keeps m phi f Hf s None o Hs E).
Qed.

Lemma clean_keeps_open_free (text : str) :
  open_free text = true -> open_free (clean text) = true.
Proof.
  intros H. unfold clean, open_free in *.
  apply replace_all_keeps.
  { intros p s r n Hm. apply (trailing_comma_writes_open_free p s r n Hm). }
  apply replace_all_keeps; [reflexivity|].
  apply replace_all_keeps; [reflexivity|].
  apply trim_keeps. apply replace_first_keeps; [reflexivity|].
  apply strip_open_fence_keeps, H.
Qed.

Lemma indexOf_absent (c : ascii) (s : str) :
  forallb (not_ch c) s = true -> indexOf [c] s = None.
Proof.
  induction s as [|d s IH].
  - reflexivity.
  - intros H. cbn in H. apply andb_true_iff in H as [Hd Hs].
    rewrite indexOf_one_head, (IH Hs).
    unfold not_ch in Hd. apply negb_true_iff in Hd.
    assert (Hcd : ch_eqb c d = false).
    { unfold ch_eqb in *. rewrite Ascii.eqb_sym. exact Hd. }
    rewrite Hcd. reflexivity.
Qed.

(** X10: For a text without an opening brace or bracket, extractJson
    either returns the text itself (it is a JSON scalar), or throws the
    invalid-input error or the no-JSON-found error; it never reaches the
    candidate parsing and never throws 'Unable to parse'. *)
Theorem bracket_free_text_is_never_repaired (text : str) :
  open_free text = true ->
  extractJson text = inr text
  \/ extractJson text = inl InvalidInput
  \/ extractJson text = inl NoJsonFound.
Proof.
  intros H. unfold extractJson.
  destruct (trim text) as [|c r]; [right; left; reflexivity|].
  destruct (JSON_parse text); [left; reflexivity|].
  right; right.
  pose proof (clean_keeps_open_free text H) as Hc.
  apply open_free_parts in Hc as [Hb Hq].
  change (txt "{") with ["{"%char]. change (txt "[") with ["["%char].
  rewrite (indexOf_absent _ _ Hb), (indexOf_absent _ _ Hq). reflexivity.
Qed.

End ExtractJsonFacts.

Lemma valid_json_returned_as_is_witness :
  Json.extractJson (jq " {'a': [1, 2]} ") = inr (jq " {'a': [1, 2]} ").
Proof.
  apply (valid_json_returned_as_is (jq " {'a': [1, 2]} ")
           (Json.JObject [(txt "a", Json.JArray [Json.JNumber (txt "1");
                                                 Json.JNumber (txt "2")])])).
  vm_compute. reflexivity.
Defined.

Lemma extractJson_output_parses_witness :
  exists v, Json.JSON_parse (jq "{'a':1}") = Some v.
Proof.
  apply (extractJson_output_parses (jq "Here you go: {'a':1,} thanks")).
  vm_compute. reflexivity.
Defined.

Lemma bracket_free_text_is_never_repaired_witness :
  Json.extractJson (txt "I cannot answer that.") = inl Json.NoJsonFound.
Proof.
  destruct (bracket_free_text_is_never_repaired (txt "I cannot answer that."))
    as [H | [H | H]].
  - reflexivity.
  - vm_compute in H. discriminate H.
  - vm_compute in H. discriminate H.
  - exact H.
Defined.

(** ** Link functions on texts they have nothing to do with *)

Section LinkFrames.
Import Links LinkDoc RepairDoc ClosedDoc.
Variable utm_url : str -> option str.

Lemma join_split_space (cur s : str) :
  join_space (split_space_from cur s) = rev cur ++ s.
Proof.
  revert cur. induction s as [|c s IH]; intros cur; cbn [split_space_from].
  - cbn. rewrite app_nil_r. reflexivity.
  - destruct (ch_eqb c " "%char) eqn:E.
    + apply ch_eqb_true in E. subst c.
      specialize (IH []).
      destruct (split_space_from [] s) as [|x l] eqn:El.
      { destruct s; cbn in El; [discriminate|].
        destruct (ch_eqb a " "%char); discriminate. }
      change (join_space (rev cur :: x :: l))
        with (rev cur ++ " "%char :: join_space (x :: l)).
      rewrite IH. reflexivity.
    + rewrite IH. cbn [rev]. rewrite <- app_assoc. reflexivity.
Qed.

Lemma join_space_tl (l : list str) :
  length (join_space (tl l)) <= length (join_space l).
Proof.
  destruct l as [|x [|y l]]; cbn [tl join_space]; [lia | cbn; lia |].
  rewrite length_app. cbn [length]. lia.
Qed.

Lemma join_space_removelast (l : list str) :
  length (join_space (removelast l)) <= length (join_space l).
Proof.
  induction l as [|x l IH]; [reflexivity|].
  destruct l as [|y l]; [cbn; lia|].
  change (removelast (x :: y :: l)) with (x :: removelast (y :: l)).
  destruct (removelast (y :: l)) as [|z l'] eqn:E.
  - cbn [join_space]. rewrite length_app. lia.
  - cbn [join_space] in *. rewrite !length_app. cbn [length] in *. lia.
Qed.

Lemma unique_long_none (seen l : list str) :
  Forall (fun v => length v <= 10) l -> unique_long_from seen l = [].
Proof.
  intros H. revert seen. induction H as [|v l Hv _ IH]; intros seen;
    [reflexivity|].
  cbn [unique_long_from]. rewrite IH.
  destruct (Nat.ltb_spec 10 (length v)); [lia|].
  rewrite andb_false_r. reflexivity.
Qed.

Lemma searchTerms_short (title : str) :
  length title <= 10 -> searchTerms title = [].
Proof.
  intros H. unfold searchTerms. rewrite unique_long_none; [reflexivity|].
  pose proof (join_split_space [] title) as Hj. cbn [rev app] in Hj.
  fold (split_space title) in Hj.
  pose proof (join_space_tl (split_space title)) as Ht.
  pose proof (join_space_removelast (split_space title)) as Hr.
  rewrite Hj in Ht, Hr.
  apply Forall_app. split; [constructor; [exact H | constructor]|].
  apply Forall_app. split.
  - destruct (4 <? _); constructor; [unfold drop_last; lia | constructor].
  - destruct (3 <? _); constructor; [lia | constructor].
Qed.

Lemma candidatePages_short (linked : list (option str)) (pages : list page) :
  Forall (fun p => length (title p) <= 10) pages ->
  candidatePages linked pages = [].
Proof.
  intros H. unfold candidatePages.
  induction H as [|p pages Hp _ IH]; [reflexivity|].
  cbn [List.filter]. destruct (_ && _ && _ && _); [|exact IH].
  cbn [map List.filter snd]. rewrite (searchTerms_short _ Hp). exact IH.
Qed.

(** X11: If every page title has at most ten characters,
    enforceInternalLinkQuota returns the content unchanged, whatever the
    deficit: no search term passes the length filter, so the candidate
    pool is empty. *)
Theorem short_titles_are_never_linked (content : str) (pages : list page)
    (primaryKeyword : str) (minLinks : nat) :
  Forall (fun p => length (title p) <= 10) pages ->
  enforceInternalLinkQuota content pages primaryKeyword minLinks = content.
Proof.
  intros H. unfold enforceInternalLinkQuota.
  destruct (length pages =? 0); [reflexivity|].
  destruct (_ <=? 0)%Z; [reflexivity|].
  rewrite (candidatePages_short _ pages H). reflexivity.
Qed.

(** X12: On a document of plain text and well-formed placeholders whose
    slugs all belong to pages of the list, validateAndRepairInternalLinks
    returns the content unchanged. *)
Theorem known_links_are_untouched (d : list seg) (pages : list page) :
  wf_doc d = true -> slugs_known pages d ->
  validateAndRepairInternalLinks (render d) pages = render d.
Proof.
  intros Hwf Hk. rewrite (validate_render pages d Hwf).
  destruct (_ || _); [reflexivity|]. f_equal.
  clear Hwf. induction d as [|g d IH]; [reflexivity|].
  cbn [map]. f_equal.
  - destruct g as [s|w1 slug w2 text]; [reflexivity|].
    destruct (Hk w1 slug w2 text (or_introl eq_refl)) as [p [Hp Hs]].
    cbn [repair_seg]. subst slug.
    destruct (slug_map_known pages p Hp) as [q ->]. reflexivity.
  - apply IH. intros w1 slug w2 text Hin. apply (Hk w1 slug w2 text).
    right. exact Hin.
Qed.

(** X13: Content without an opening square bracket passes
    validateAndRepairInternalLinks, processInternalLinks and
    sanitizeBrokenPlaceholders unchanged, for every page list. *)
Theorem bracket_free_content_is_unchanged (content : str)
    (pages : list page) :
  no_ch "["%char content = true ->
  validateAndRepairInternalLinks content pages = content
  /\ processInternalLinks utm_url content pages = Some content
  /\ sanitizeBrokenPlaceholders content = content.
Proof.
  intros H.
  assert (Hwf : wf_doc [Plain content] = true).
  { cbn. rewrite H. reflexivity. }
  assert (Hr : render [Plain content] = content) by apply app_nil_r.
  split; [|split].
  - pose proof (validate_render pages [Plain content] Hwf) as Hv.
    rewrite Hr in Hv. rewrite Hv. destruct (_ || _); [reflexivity|].
    cbn. apply app_nil_r.
  - unfold processInternalLinks. destruct (_ || _); [reflexivity|].
    unfold replace_all_try, tokens.
    pose proof (tokens_render [Plain content] [] None Hwf) as Ht.
    rewrite Hr, app_nil_r in Ht. rewrite Ht.
    cbn [flat_map seg_tokens tokens_from]. rewrite app_nil_r.
    rewrite concat_try_lits. cbn. rewrite app_nil_r. reflexivity.
  - apply sanitize_bracket_free, H.
Qed.

(** *** The sanitizer on well-formed placeholders *)

Lemma search_finds {R} (m : matcher R) (a b : str) (r : R) (n : nat) p :
  blind m -> m p b = Some (r, n) ->
  exists r', search m p (a ++ b) = Some r'
             /\ exists q s k, m q s = Some (r', k).
Proof.
  intros Hb Hm. revert p Hm. induction a as [|c a IH]; intros p Hm.
  - cbn [app]. exists r. split.
    + destruct b; cbn [search]; rewrite Hm; reflexivity.
    + exists p, b, n. exact Hm.
  - cbn [app search].
    destruct (m p (c :: a ++ b)) as [[r0 n0]|] eqn:E.
    + exists r0. split; [reflexivity|]. exists p, (c :: a ++ b), n0. exact E.
    + apply (IH (Some c)). rewrite <- Hm. apply Hb.
Qed.

Lemma attr_re_blind name : blind (attr_re name).
Proof. intros p q s. reflexivity. Qed.

Lemma attr_re_value name p s v n :
  attr_re name p s = Some (v, n) -> v <> [].
Proof.
  unfold attr_re. destruct (strip_prefix _ s) as [r0|]; [|discriminate].
  unfold many1. destruct (span (not_ch dq) r0) as [[|c a] r1]; [discriminate|].
  destruct (strip_prefix [dq] r1); [|discriminate].
  intros H. inversion H. discriminate.
Qed.

Lemma attr_re_at (name value rest : str) p :
  nonempty value = true -> no_ch dq value = true ->
  attr_re name p (name ++ jq "='" ++ value ++ dq :: rest)
  = Some (value, length (name ++ jq "='" ++ value ++ [dq])).
Proof.
  intros Hne Hq. unfold attr_re.
  rewrite (app_assoc name). rewrite strip_prefix_app.
  rewrite (many1_app (not_ch dq) value _ Hne Hq) by reflexivity.
  cbn [strip_prefix]. rewrite ch_eqb_same.
  f_equal. f_equal.
  replace ((name ++ jq "='") ++ value ++ dq :: rest)
    with ((name ++ jq "='" ++ value ++ [dq]) ++ rest)
    by (rewrite <- !app_assoc; reflexivity).
  apply consumed_app.
Qed.

Lemma sanitize_token_keeps (w1 slug w2 text : str) :
  wf_seg (Link w1 slug w2 text) = true ->
  sanitize_token (render_seg (Link w1 slug w2 text)) tt
  = render_seg (Link w1 slug w2 text).
Proof.
  cbn [wf_seg]. rewrite !andb_true_iff.
  intros [[[[[[[[Hw1 Hs1] Hslug] Hq1] Hw2] Hs2] Htext] Hq2] _].
  unfold sanitize_token.
  set (whole := render_seg (Link w1 slug w2 text)).
  assert (Hsl : exists v, search (attr_re (txt "slug")) None whole = Some v
                          /\ v <> []).
  { pose proof (attr_re_at (txt "slug") slug
                  (w2 ++ jq "text='" ++ text ++ jq "']") None Hslug Hq1) as Hm.
    destruct (search_finds (attr_re (txt "slug")) (txt "[INTERNAL_LINK" ++ w1)
                _ _ _ None (attr_re_blind _) Hm) as [v [Hv [q [s [k Hk]]]]].
    exists v. split; [|apply (attr_re_value _ _ _ _ _ Hk)].
    rewrite <- Hv. unfold whole, render_seg.
    rewrite <- !app_assoc. reflexivity. }
  assert (Htx : exists v, search (attr_re (txt "text")) None whole = Some v
                          /\ v <> []).
  { pose proof (attr_re_at (txt "text") text (txt "]") None Htext Hq2) as Hm.
    destruct (search_finds (attr_re (txt "text"))
                (txt "[INTERNAL_LINK" ++ w1 ++ jq "slug='" ++ slug ++ [dq] ++ w2)
                _ _ _ None (attr_re_blind _) Hm) as [v [Hv [q [s [k Hk]]]]].
    exists v. split; [|apply (attr_re_value _ _ _ _ _ Hk)].
    rewrite <- Hv. unfold whole, render_seg.
    rewrite <- !app_assoc. reflexivity. }
  destruct Hsl as [v1 [-> Hv1]]. destruct Htx as [v2 [-> Hv2]].
  destruct v1; [congruence|]. destruct v2; [congruence|]. reflexivity.
Qed.

Lemma space_not_bracket (s : str) :
  forallb is_space s = true -> no_ch "]"%char s = true.
Proof.
  apply forallb_weaken. intros c Hc.
  destruct c as [[] [] [] [] [] [] [] []]; try discriminate Hc; reflexivity.
Qed.

Lemma token_re_link (w1 slug w2 text rest : str) prev :
  wf_seg (Link w1 slug w2 text) = true ->
  closed_seg (Link w1 slug w2 text) = true ->
  token_re prev (render_seg (Link w1 slug w2 text) ++ rest)
  = Some (tt, length (render_seg (Link w1 slug w2 text))).
Proof.
  cbn [wf_seg closed_seg]. rewrite !andb_true_iff.
  intros [[[[[[[[Hw1 Hs1] Hslug] Hq1] Hw2] Hs2] Htext] Hq2] _] [Hc1 Hc2].
  unfold token_re, render_seg. rewrite <- !app_assoc.
  rewrite strip_prefix_app.
  set (body := w1 ++ jq "slug='" ++ slug ++ [dq] ++ w2 ++ jq "text='" ++ text ++ [dq]).
  assert (Hbody : forallb (not_ch "]"%char) body = true).
  { unfold body. rewrite !forallb_app.
    pose proof (space_not_bracket w1 Hs1) as Hb1.
    pose proof (space_not_bracket w2 Hs2) as Hb2.
    unfold no_ch in Hc1, Hc2, Hb1, Hb2. rewrite Hb1, Hb2, Hc1, Hc2.
    reflexivity. }
  replace (w1 ++ jq "slug='" ++ slug ++ [dq] ++ w2 ++ jq "text='" ++ text
           ++ jq "']" ++ rest)
    with (body ++ "]"%char :: rest)
    by (unfold body; rewrite <- !app_assoc; reflexivity).
  rewrite (span_app (not_ch "]"%char) body ("]"%char :: rest) Hbody)
    by reflexivity.
  cbn [snd]. f_equal. f_equal.
  replace (txt "[INTERNAL_LINK" ++ body ++ "]"%char :: rest)
    with ((txt "[INTERNAL_LINK" ++ body ++ ["]"%char]) ++ rest)
    by (rewrite <- !app_assoc; reflexivity).
  rewrite consumed_app. f_equal. unfold body.
  rewrite <- !app_assoc. reflexivity.
Qed.

Lemma sanitize_tokens_render (d : list seg) p :
  wf_doc d = true -> closed_doc d = true ->
  flat_map (fun t => match t with Lit c => [c] | Hit w r => sanitize_token w r end)
    (tokens_from token_re 0 p (render d))
  = render d.
Proof.
  induction d as [|g d IH]; intros Hwf Hcl; [reflexivity|].
  cbn [wf_doc forallb] in Hwf. apply andb_true_iff in Hwf as [Hg Hd].
  cbn [closed_doc forallb] in Hcl. apply andb_true_iff in Hcl as [Hcg Hcd].
  cbn [render flat_map]. fold (render d).
  destruct g as [s | w1 slug w2 text].
  - cbn [render_seg].
    rewrite (tokens_from_lits token_re "["%char s _ p p
               token_re_blind token_re_starts Hg).
    rewrite flat_map_app, (IH Hd Hcd). f_equal.
    clear. induction s as [|c s IHs]; [reflexivity|]. cbn. f_equal. exact IHs.
  - rewrite (tokens_from_hit token_re _ _ tt p p
               token_re_blind (render_link_nonempty _ _ _ _)
               (token_re_link _ _ _ _ _ p Hg Hcg)).
    cbn [flat_map]. rewrite (IH Hd Hcd).
    rewrite (sanitize_token_keeps w1 slug w2 text Hg). reflexivity.
Qed.

(** X14: sanitizeBrokenPlaceholders returns unchanged a document of plain
    text and well-formed placeholders whose slugs and anchor texts hold no
    closing square bracket. *)
Theorem sanitizer_keeps_wellformed_placeholders (d : list seg) :
  wf_doc d = true -> closed_doc d = true ->
  sanitizeBrokenPlaceholders (render d) = render d.
Proof.
  intros Hwf Hcl. unfold sanitizeBrokenPlaceholders, replace_all, tokens.
  apply sanitize_tokens_render; assumption.
Qed.

End LinkFrames.

Lemma short_titles_are_never_linked_witness :
  Links.enforceInternalLinkQuota (txt "<p>Back to the Home Page now.</p>")
    [Examples.home] (txt "home") Links.MIN_INTERNAL_LINKS
  = txt "<p>Back to the Home Page now.</p>".
Proof.
  apply (short_titles_are_never_linked
           (txt "<p>Back to the Home Page now.</p>") [Examples.home]).
  repeat constructor.
Defined.

Lemma known_links_are_untouched_witness :
  let d := [LinkDoc.Plain (txt "<p>Go ");
            LinkDoc.Link (txt " ") (txt "home") (txt " ") (txt "back home");
            LinkDoc.Plain (txt ".</p>")] in
  Links.validateAndRepairInternalLinks (LinkDoc.render d)
    [Examples.home; Examples.seo_guide]
  = LinkDoc.render d.
Proof.
  intros d.
  apply (known_links_are_untouched d [Examples.home; Examples.seo_guide]).
  - reflexivity.
  - intros w1 slug w2 text [H | [H | [H | []]]]; inversion H.
    exists Examples.home. split; [left; reflexivity | reflexivity].
Defined.

Lemma bracket_free_content_is_unchanged_witness :
  Links.processInternalLinks Examples.append_utm (txt "<p>No links here.</p>")
    [Examples.home]
  = Some (txt "<p>No links here.</p>").
Proof.
  apply (bracket_free_content_is_unchanged Examples.append_utm
           (txt "<p>No links here.</p>") [Examples.home]).
  reflexivity.
Defined.

Lemma sanitizer_keeps_wellformed_placeholders_witness :
  let d := [LinkDoc.Plain (txt "<p>Go ");
            LinkDoc.Link (txt " ") (txt "home") (txt " ") (txt "back home");
            LinkDoc.Plain (txt ".</p>")] in
  Links.sanitizeBrokenPlaceholders (LinkDoc.render d) = LinkDoc.render d.
Proof.
  intros d. apply (sanitizer_keeps_wellformed_placeholders d); reflexivity.
Defined.

(** ** Fenced HTML *)

Section HtmlFacts.
Import WordCount HtmlResponse.

Lemma trim_start_fixed (s : str) :
  stops is_space s -> trim_start s = s.
Proof. destruct s as [|c s]; [reflexivity|]. cbn. intros ->. reflexivity. Qed.

Lemma trim_start_twice (s : str) : trim_start (trim_start s) = trim_start s.
Proof.
  destruct (trim_start_split s) as [w [_ [_ Hst]]].
  apply trim_start_fixed, Hst.
Qed.

Lemma trim_end_twice (s : str) : trim_end (trim_end s) = trim_end s.
Proof.
  unfold trim_end. rewrite rev_involutive, trim_start_twice. reflexivity.
Qed.

Lemma trim_end_head (x : ascii) (t : str) :
  is_space x = false -> trim_end (x :: t) = x :: trim_end t.
Proof. intros Hx. apply (trim_end_after [] t x Hx). Qed.

(** A trimmed text does not start with white space. *)
Lemma trim_head (s : str) : stops is_space (trim s).
Proof.
  unfold trim. destruct (trim_start_split s) as [w [_ [_ Hst]]].
  destruct (trim_start s) as [|x t]; [exact I|].
  cbn in Hst. rewrite (trim_end_head x t Hst). exact Hst.
Qed.

Lemma trim_twice (s : str) : trim (trim s) = trim s.
Proof.
  unfold trim at 1. rewrite (trim_start_fixed _ (trim_head s)).
  unfold trim. apply trim_end_twice.
Qed.

Lemma trim_fixed (s : str) :
  stops is_space s -> ends_in_text s = true -> trim s = s.
Proof.
  intros Hst He. unfold trim. rewrite (trim_start_fixed s Hst).
  unfold trim_end, ends_in_text in *.
  destruct (rev s) as [|c r] eqn:E; [discriminate|].
  apply negb_true_iff in He. cbn. rewrite He.
  rewrite <- E. apply rev_involutive.
Qed.

Lemma indexOf_one_found (c : ascii) (s : str) (k : nat) :
  indexOf [c] s = Some k ->
  exists a b, s = a ++ c :: b /\ length a = k.
Proof.
  revert k. induction s as [|d s IH]; intros k.
  - cbn. discriminate.
  - rewrite indexOf_one_head. destruct (ch_eqb c d) eqn:E.
    + intros H. inversion H. apply ch_eqb_true in E. subst d.
      exists [], s. split; reflexivity.
    + destruct (indexOf [c] s) as [j|]; [|discriminate].
      intros H. inversion H. destruct (IH j eq_refl) as [a [b [Hs Ha]]].
      exists (d :: a), b. rewrite Hs. cbn. rewrite Ha. split; reflexivity.
Qed.

Lemma indexOf_one_first (c : ascii) (s : str) : indexOf [c] (c :: s) = Some 0.
Proof. rewrite indexOf_one_head, ch_eqb_same. reflexivity. Qed.

Lemma firstn_skipn_at (a b : str) :
  firstn (length a) (a ++ b) = a /\ skipn (length a) (a ++ b) = b.
Proof.
  split.
  - rewrite firstn_app, Nat.sub_diag, firstn_all. cbn. apply app_nil_r.
  - rewrite skipn_app, Nat.sub_diag, skipn_all. reflexivity.
Qed.

(** X15: If the result of sanitizeHtmlResponse has text before its first
    '<', that text has at least 100 characters after trimming: a shorter
    preamble is always cut, and the test 'pretext.length > 0' can never
    fail. *)
Theorem kept_preamble_is_long (rawHtml : js_value) (k : nat) :
  indexOf (txt "<") (sanitizeHtmlResponse rawHtml) = Some (S k) ->
  100 <= length (trim (firstn (S k) (sanitizeHtmlResponse rawHtml))).
Proof.
  change (txt "<") with ["<"%char].
  destruct rawHtml as [| |b|n|s]; try (cbn; discriminate).
  unfold sanitizeHtmlResponse.
  destruct (negb (truthy (JString s)) || negb (is_string (JString s)));
    [cbn; discriminate|].
  change (txt "<") with ["<"%char].
  destruct (indexOf ["<"%char] (unfenced s)) as [[|j]|] eqn:Hi;
    [rewrite Hi; discriminate | | rewrite Hi; discriminate].
  destruct (indexOf_one_found _ _ _ Hi) as [a [b [Hs Ha]]].
  destruct (Nat.ltb_spec 0 (length (trim (firstn (S j) (unfenced s)))))
    as [Hpos|Hzero].
  - destruct (Nat.ltb_spec (length (trim (firstn (S j) (unfenced s)))) 100)
      as [Hshort|Hlong]; cbn [andb].
    + rewrite Hs, <- Ha. rewrite (proj2 (firstn_skipn_at a _)).
      rewrite indexOf_one_first. discriminate.
    + rewrite Hi. intros H. inversion H. subst k. exact Hlong.
  - exfalso. cbn [andb] in *.
    assert (Hb : trim (firstn (S j) (unfenced s)) = []).
    { destruct (trim _); [reflexivity | cbn in Hzero; lia]. }
    apply trim_blank in Hb.
    pose proof (trim_head (replace_first Json.close_fence_re (fun _ _ => [])
                             (strip_open_html_fence s))) as Hh.
    fold (unfenced s) in Hh.
    destruct (unfenced s) as [|x t]; [destruct a; discriminate|].
    cbn in Hh, Hb. rewrite Hh in Hb. discriminate Hb.
Qed.

(** X16: The result of sanitizeHtmlResponse has no white space at either
    end: trimming it changes nothing. *)
Theorem sanitized_html_is_trimmed (rawHtml : js_value) :
  trim (sanitizeHtmlResponse rawHtml) = sanitizeHtmlResponse rawHtml.
Proof.
  destruct rawHtml as [| |b|n|s]; try reflexivity.
  unfold sanitizeHtmlResponse.
  destruct (negb (truthy (JString s)) || negb (is_string (JString s)));
    [reflexivity|].
  change (txt "<") with ["<"%char].
  assert (Hfix : trim (unfenced s) = unfenced s) by apply trim_twice.
  destruct (indexOf ["<"%char] (unfenced s)) as [[|j]|] eqn:Hi;
    [exact Hfix | | exact Hfix].
  destruct (_ && _); [|exact Hfix].
  destruct (indexOf_one_found _ _ _ Hi) as [a [b [Hs Ha]]].
  rewrite Hs in Hfix |- *. rewrite <- Ha, (proj2 (firstn_skipn_at a _)).
  unfold trim in *.
  rewrite (trim_start_fixed ("<"%char :: b)) by reflexivity.
  destruct (trim_start_split (a ++ "<"%char :: b)) as [w [Hw [_ Hst]]].
  rewrite (trim_start_before a b "<"%char eq_refl) in Hfix.
  rewrite (trim_end_after (trim_start a) b "<"%char eq_refl) in Hfix.
  rewrite (trim_end_head "<"%char b eq_refl). f_equal.
  assert (Hlen : length (trim_start a) = length a).
  { apply (f_equal (@length ascii)) in Hfix.
    rewrite !length_app in Hfix. cbn [length] in Hfix.
    destruct (trim_start_split a) as [w' [Ha' _]].
    apply (f_equal (@length ascii)) in Ha'. rewrite length_app in Ha'.
    assert (length (trim_end b) <= length b).
    { unfold trim_end. rewrite length_rev.
      destruct (trim_start_split (rev b)) as [w2 [Hb2 _]].
      apply (f_equal (@length ascii)) in Hb2.
      rewrite length_app, length_rev in Hb2. lia. }
    lia. }
  apply (f_equal (skipn (length (trim_start a)))) in Hfix.
  rewrite (proj2 (firstn_skipn_at (trim_start a) _)) in Hfix.
  rewrite Hlen in Hfix. rewrite (proj2 (firstn_skipn_at a _)) in Hfix.
  inversion Hfix. congruence.
Qed.

End HtmlFacts.

(** ** The fences around an HTML reply *)

Section HtmlFences.
Import WordCount HtmlResponse.

Lemma ends_in_text_split (h : str) :
  ends_in_text h = true -> exists h0 y, h = h0 ++ [y] /\ is_space y = false.
Proof.
  unfold ends_in_text. destruct (rev h) as [|c r] eqn:E; [discriminate|].
  intros H. apply negb_true_iff in H. exists (rev r), c. split; [|exact H].
  rewrite <- (rev_involutive h), E. reflexivity.
Qed.

Lemma strip_prefix_ci_app (t s : str) :
  Links.strip_prefix_ci t (t ++ s) = Some s.
Proof.
  induction t as [|a t IH]; [reflexivity|].
  cbn. rewrite ch_eqb_same. exact IH.
Qed.

Lemma strip_prefix_ci_split (t s r : str) :
  Links.strip_prefix_ci t s = Some r ->
  exists a, s = a ++ r /\ length a = length t.
Proof.
  revert s. induction t as [|x t IH]; intros s.
  - cbn. intros H. inversion H. exists []. split; reflexivity.
  - destruct s as [|y s]; [discriminate|]. cbn.
    destruct (ch_eqb _ _); [|discriminate].
    intros H. destruct (IH s H) as [a [Hs Ha]].
    exists (y :: a). cbn. rewrite Hs, Ha. split; reflexivity.
Qed.

(** The opening fence with its tag and the white space after it is
    removed when a tag follows. *)
Lemma strip_open_html_fence_tagged (lang w1 rest : str) :
  html_tag lang = true -> forallb is_space w1 = true ->
  strip_open_html_fence (Json.fence ++ lang ++ w1 ++ "<"%char :: rest)
  = "<"%char :: rest.
Proof.
  intros Hl Hw. unfold strip_open_html_fence. rewrite strip_prefix_app.
  assert (Hts : trim_start (w1 ++ "<"%char :: rest) = "<"%char :: rest).
  { rewrite (trim_start_before w1 rest "<"%char eq_refl).
    rewrite (proj2 (trim_start_blank w1) Hw). reflexivity. }
  destruct lang as [|c lang].
  - cbn [app].
    destruct (Links.strip_prefix_ci (txt "html") (w1 ++ "<"%char :: rest))
      as [r'|] eqn:E; [|exact Hts].
    exfalso. destruct w1 as [|x w1].
    + cbn in E. discriminate E.
    + cbn in Hw. apply andb_true_iff in Hw as [Hx _].
      change (txt "html") with ("h"%char :: txt "tml") in E. cbn in E.
      destruct (ch_eqb _ _) eqn:Ec in E; [|discriminate E].
      clear E. apply ch_eqb_true in Ec.
      destruct x as [[] [] [] [] [] [] [] []]; try discriminate Hx;
        discriminate Ec.
  - unfold html_tag in Hl.
    destruct (Links.strip_prefix_ci (txt "html") (c :: lang)) as [[|? ?]|] eqn:E;
      try discriminate Hl.
    destruct (strip_prefix_ci_split _ _ _ E) as [a [Ha Hlen]].
    rewrite app_nil_r in Ha. subst a.
    assert (E2 : Links.strip_prefix_ci (txt "html")
                   ((c :: lang) ++ w1 ++ "<"%char :: rest)
                 = Some (w1 ++ "<"%char :: rest)).
    { clear Hl Hts. revert E Hlen. generalize (c :: lang). intros l E Hlen.
      destruct l as [|l1 [|l2 [|l3 [|l4 [|l5 l]]]]]; try discriminate Hlen.
      cbn in E |- *.
      destruct (ch_eqb _ _); [|discriminate E].
      destruct (ch_eqb _ _); [|discriminate E].
      destruct (ch_eqb _ _); [|discriminate E].
      destruct (ch_eqb _ _); [|discriminate E]. reflexivity. }
    rewrite E2. exact Hts.
Qed.

(** Before the last character of a text that does not end in white
    space, the pattern of the closing fence does not match. *)
Lemma close_fence_inside (h2 tail : str) p :
  h2 <> [] -> ends_in_text h2 = true -> 3 <= length tail ->
  Json.close_fence_re p (h2 ++ tail) = None.
Proof.
  intros Hne He Ht. destruct (ends_in_text_split h2 He) as [h0 [y [Hh Hy]]].
  subst h2. unfold Json.close_fence_re.
  rewrite <- app_assoc. cbn [app].
  rewrite (span_before is_space h0 tail y Hy).
  destruct (span is_space h0) as [w r]. cbn [fst snd].
  destruct (str_eqb (r ++ y :: tail) Json.fence) eqn:E; [|reflexivity].
  apply str_eqb_true in E. apply (f_equal (@length ascii)) in E.
  rewrite length_app in E. cbn in E. lia.
Qed.

Lemma ends_in_text_suffix (h1 h2 : str) :
  h2 <> [] -> ends_in_text (h1 ++ h2) = true -> ends_in_text h2 = true.
Proof.
  intros Hne. unfold ends_in_text. rewrite rev_app_distr.
  destruct (rev h2) as [|c r] eqn:E; [|tauto].
  exfalso. apply Hne. rewrite <- (rev_involutive h2), E. reflexivity.
Qed.

Lemma close_fence_removed_from (h1 h2 w2 : str) p :
  ends_in_text (h1 ++ h2) = true -> forallb is_space w2 = true ->
  replace_first_from Json.close_fence_re (fun _ _ => []) p
    (h2 ++ w2 ++ Json.fence)
  = Some h2.
Proof.
  intros He Hw. revert h1 p He. induction h2 as [|c h2 IH]; intros h1 p He.
  - cbn [app].
    assert (Hm : Json.close_fence_re p (w2 ++ Json.fence)
                 = Some (tt, length (w2 ++ Json.fence))).
    { unfold Json.close_fence_re.
      rewrite (span_app is_space w2 Json.fence Hw) by reflexivity.
      reflexivity. }
    destruct (w2 ++ Json.fence) as [|x t] eqn:E.
    { destruct w2; discriminate E. }
    cbn [replace_first_from]. rewrite Hm.
    rewrite skipn_all. reflexivity.
  - cbn [app replace_first_from].
    change (c :: h2 ++ w2 ++ Json.fence) with ((c :: h2) ++ w2 ++ Json.fence).
    rewrite (close_fence_inside (c :: h2) (w2 ++ Json.fence) p);
      [ | discriminate | apply (ends_in_text_suffix h1); [discriminate|exact He]
        | rewrite length_app; cbn; lia ].
    rewrite (IH (h1 ++ [c]) (Some c)).
    + reflexivity.
    + rewrite <- app_assoc. exact He.
Qed.

(** X17: A reply that is an opening fence (three backquotes, with no tag
    or with 'html' in any case), white space, HTML that starts with '<'
    and does not end in white space, white space and a closing fence at
    the very end, is reduced by sanitizeHtmlResponse to exactly that HTML. *)
Theorem fenced_html_is_unwrapped (lang w1 h w2 : str) :
  html_tag lang = true ->
  forallb is_space w1 = true -> forallb is_space w2 = true ->
  hd_error h = Some "<"%char -> ends_in_text h = true ->
  sanitizeHtmlResponse (JString (Json.fence ++ lang ++ w1 ++ h ++ w2 ++ Json.fence))
  = h.
Proof.
  intros Hl Hw1 Hw2 Hhd He.
  destruct h as [|c rest]; [discriminate|]. inversion Hhd. subst c.
  unfold sanitizeHtmlResponse. cbn [truthy is_string app negb orb].
  change ("`"%char :: "`"%char :: "`"%char
            :: lang ++ w1 ++ "<"%char :: rest ++ w2 ++ Json.fence)
    with (Json.fence ++ lang ++ w1 ++ "<"%char :: (rest ++ w2 ++ Json.fence)).
  unfold unfenced.
  rewrite (strip_open_html_fence_tagged lang w1 _ Hl Hw1).
  unfold replace_first.
  change ("<"%char :: rest ++ w2 ++ Json.fence)
    with (("<"%char :: rest) ++ w2 ++ Json.fence).
  rewrite (close_fence_removed_from [] ("<"%char :: rest) w2 None He Hw2).
  rewrite (trim_fixed ("<"%char :: rest)) by (reflexivity || exact He).
  change (txt "<") with ["<"%char]. rewrite indexOf_one_first. reflexivity.
Qed.

Lemma ends_in_text_last (s : str) (y : ascii) :
  ends_in_text (s ++ [y]) = negb (is_space y).
Proof. unfold ends_in_text. rewrite rev_app_distr. reflexivity. Qed.

Lemma ends_in_text_tail (c : ascii) (t : str) :
  ends_in_text (c :: t) = false -> ends_in_text t = false.
Proof.
  destruct t as [|x t]; [reflexivity|].
  destruct (exists_last (l := x :: t) ltac:(discriminate)) as [t' [y Ht]].
  rewrite Ht. change (c :: t' ++ [y]) with ((c :: t') ++ [y]).
  rewrite !ends_in_text_last. tauto.
Qed.

Lemma close_fence_needs_the_end (t : str) q :
  ends_in_text t = false -> Json.close_fence_re q t = None.
Proof.
  intros He. unfold Json.close_fence_re.
  destruct (span is_space t) as [a r] eqn:E.
  destruct (str_eqb r Json.fence) eqn:Er; [|reflexivity].
  exfalso. apply str_eqb_true in Er. subst r.
  pose proof (span_split is_space t) as [Hs _].
  rewrite E in Hs. cbn [fst snd] in Hs.
  change Json.fence with ([ "`"%char; "`"%char ] ++ ["`"%char]) in Hs.
  rewrite app_assoc in Hs. rewrite Hs, ends_in_text_last in He.
  discriminate He.
Qed.

Lemma close_fence_nowhere (t : str) q :
  ends_in_text t = false ->
  replace_first_from Json.close_fence_re (fun _ _ => []) q t = None.
Proof.
  revert q. induction t as [|c t IH]; intros q He; cbn [replace_first_from];
    rewrite (close_fence_needs_the_end _ q He).
  - reflexivity.
  - rewrite (IH (Some c) (ends_in_text_tail c t He)). reflexivity.
Qed.

Lemma trim_end_blank_tail (s w : str) :
  ends_in_text s = true -> forallb is_space w = true ->
  trim_end (s ++ w) = s.
Proof.
  intros He Hw. destruct (ends_in_text_split s He) as [s0 [y [-> Hy]]].
  rewrite <- app_assoc. cbn [app].
  rewrite (trim_end_after s0 w y Hy).
  rewrite (proj2 (trim_end_blank w) Hw). reflexivity.
Qed.

(** X18: If white space (for example a final newline) follows the closing
    fence, sanitizeHtmlResponse does not remove the closing fence: the
    closing pattern is tried before the trim and is anchored at the end of
    the text, so the result is the HTML followed by the fence. *)
Theorem space_after_closing_fence_keeps_it (lang w1 h w2 w3 : str) :
  html_tag lang = true ->
  forallb is_space w1 = true -> forallb is_space w2 = true ->
  forallb is_space w3 = true -> w3 <> [] ->
  hd_error h = Some "<"%char ->
  sanitizeHtmlResponse
    (JString (Json.fence ++ lang ++ w1 ++ h ++ w2 ++ Json.fence ++ w3))
  = h ++ w2 ++ Json.fence.
Proof.
  intros Hl Hw1 Hw2 Hw3 Hne Hhd.
  destruct h as [|c rest]; [discriminate|]. inversion Hhd. subst c.
  unfold sanitizeHtmlResponse. cbn [truthy is_string app negb orb].
  change ("`"%char :: "`"%char :: "`"%char
            :: lang ++ w1 ++ "<"%char :: rest ++ w2 ++ Json.fence ++ w3)
    with (Json.fence ++ lang ++ w1
          ++ "<"%char :: (rest ++ w2 ++ Json.fence ++ w3)).
  unfold unfenced.
  rewrite (strip_open_html_fence_tagged lang w1 _ Hl Hw1).
  destruct (exists_last Hne) as [w3' [y Hw3']]. subst w3.
  unfold replace_first.
  replace ("<"%char :: rest ++ w2 ++ Json.fence ++ w3' ++ [y])
    with (("<"%char :: rest ++ w2 ++ Json.fence) ++ w3' ++ [y])
    by (cbn; rewrite <- !app_assoc; reflexivity).
  rewrite close_fence_nowhere.
  2:{ rewrite app_assoc, ends_in_text_last.
      rewrite forallb_app in Hw3. apply andb_true_iff in Hw3 as [_ Hy].
      cbn in Hy. rewrite andb_true_r in Hy. rewrite Hy. reflexivity. }
  unfold trim. rewrite (trim_start_fixed _) by reflexivity.
  rewrite (trim_end_blank_tail _ (w3' ++ [y])); [| |exact Hw3].
  - change (txt "<") with ["<"%char]. cbn [app].
    rewrite indexOf_one_first. reflexivity.
  - unfold ends_in_text. cbn [app rev]. rewrite !rev_app_distr. reflexivity.
Qed.

End HtmlFences.

Lemma kept_preamble_is_long_witness :
  let reply := txt "Certainly, the section below covers everything that was requested about the topic, written in a friendly tone." ++ txt " <p>Hi</p>" in
  100 <= length (trim (firstn 111
                         (HtmlResponse.sanitizeHtmlResponse (WordCount.JString reply)))).
Proof.
  intros reply.
  apply (kept_preamble_is_long (WordCount.JString reply) 110).
  vm_compute. reflexivity.
Defined.

Lemma fenced_html_is_unwrapped_witness :
  HtmlResponse.sanitizeHtmlResponse
    (WordCount.JString
       (Json.fence ++ txt "HTML" ++ [ "010"%char ] ++ txt "<p>Hello</p>"
        ++ [ "010"%char ] ++ Json.fence))
  = txt "<p>Hello</p>".
Proof.
  apply (fenced_html_is_unwrapped (txt "HTML") [ "010"%char ]
           (txt "<p>Hello</p>") [ "010"%char ]); reflexivity.
Defined.

Lemma space_after_closing_fence_keeps_it_witness :
  HtmlResponse.sanitizeHtmlResponse
    (WordCount.JString
       (Json.fence ++ txt "html" ++ [ "010"%char ] ++ txt "<p>Hello</p>"
        ++ [ "010"%char ] ++ Json.fence ++ [ "010"%char ]))
  = txt "<p>Hello</p>" ++ [ "010"%char ] ++ Json.fence.
Proof.
  apply (space_after_closing_fence_keeps_it (txt "html") [ "010"%char ]
           (txt "<p>Hello</p>") [ "010"%char ] [ "010"%char ]);
    try reflexivity.
  discriminate.
Defined.

(** ** YouTube identifiers *)

Section YouTubeFacts.
Import YouTube.

Lemma around_one_suffix lit1 p lit2 (s r : str) :
  around_one lit1 p lit2 s = Some r -> exists a, s = a ++ r.
Proof.
  unfold around_one.
  destruct (strip_prefix lit1 s) as [[|x r1]|] eqn:E1; try discriminate.
  destruct (p x); [|discriminate]. intros E2.
  apply strip_prefix_split in E1, E2. subst.
  exists (lit1 ++ x :: lit2). rewrite <- app_assoc. reflexivity.
Qed.

Lemma first_of_suffix (alts : list (str -> option str)) (s r : str) :
  Forall (fun alt => forall s r, alt s = Some r -> exists a, s = a ++ r) alts ->
  first_of alts s = Some r -> exists a, s = a ++ r.
Proof.
  induction 1 as [|alt alts Halt _ IH]; cbn [first_of]; [discriminate|].
  destruct (alt s) as [r'|] eqn:E; [|exact IH].
  intros H. inversion H. subst r'. apply (Halt s r E).
Qed.

Lemma marker_suffix (s r : str) :
  marker s = Some r -> exists a, s = a ++ r.
Proof.
  apply first_of_suffix. unfold alternatives.
  repeat constructor;
    try (intros s0 r0 H; eexists; apply (strip_prefix_split _ _ _ H));
    apply around_one_suffix.
Qed.

Lemma last_marker_suffix (s r : str) :
  last_marker s = Some r -> exists a, s = a ++ r.
Proof.
  induction s as [|c s IH]; cbn [last_marker].
  - apply marker_suffix.
  - destruct (if is_line_terminator c then None else last_marker s) as [r'|] eqn:E.
    + intros H. inversion H. subst r'.
      destruct (is_line_terminator c); [discriminate|].
      destruct (IH E) as [a Ha]. exists (c :: a). rewrite Ha. reflexivity.
    + apply marker_suffix.
Qed.

(** X19: An identifier returned by extractYouTubeID has exactly 11
    characters, none of them '#', '&' or '?', and is a contiguous part of
    the URL. *)
Theorem youtube_id_shape (url i : str) :
  extractYouTubeID url = Some i ->
  length i = 11 /\ forallb id_char i = true
  /\ exists a b, url = a ++ i ++ b.
Proof.
  unfold extractYouTubeID.
  destruct (last_marker url) as [rest|] eqn:E; [|discriminate].
  destruct (Nat.eqb_spec (length (fst (span id_char rest))) 11) as [Hl|];
    [|discriminate].
  intros H. inversion H. subst i.
  destruct (span_split id_char rest) as [Hs [Hall _]].
  split; [exact Hl|]. split; [exact Hall|].
  destruct (last_marker_suffix url rest E) as [a Ha].
  exists a, (snd (span id_char rest)). rewrite Ha at 1. rewrite <- Hs.
  reflexivity.
Qed.

Lemma last_marker_none (t : str) :
  marker_free t = true -> last_marker t = None.
Proof.
  induction t as [|c t IH]; cbn [marker_free last_marker].
  - reflexivity.
  - destruct (marker (c :: t)); [discriminate|].
    intros H. rewrite (IH H). destruct (is_line_terminator c); reflexivity.
Qed.

Lemma last_marker_after (pre s r : str) :
  forallb (fun c => negb (is_line_terminator c)) pre = true ->
  last_marker s = Some r -> last_marker (pre ++ s) = Some r.
Proof.
  intros Hpre Hs. induction pre as [|c pre IH]; [exact Hs|].
  cbn in Hpre. apply andb_true_iff in Hpre as [Hc Hpre].
  cbn [app last_marker]. apply negb_true_iff in Hc. rewrite Hc.
  rewrite (IH Hpre). reflexivity.
Qed.

Lemma last_marker_usual (m t : str) :
  usual_marker m = true -> last_marker t = None ->
  last_marker (m ++ t) = Some t.
Proof.
  unfold usual_marker. rewrite !orb_true_iff.
  intros [[H | H] | H] Ht; apply str_eqb_true in H; subst m.
  - cbn [txt list_ascii_of_string app last_marker]. rewrite Ht.
    unfold marker, alternatives, around_one.
    cbn [first_of strip_prefix txt list_ascii_of_string]. eval_chars.
    reflexivity.
  - cbn [txt list_ascii_of_string app last_marker]. rewrite Ht.
    unfold marker, alternatives, around_one.
    cbn [first_of strip_prefix txt list_ascii_of_string]. eval_chars.
    reflexivity.
  - cbn [txt list_ascii_of_string app last_marker]. rewrite Ht.
    unfold marker, alternatives, around_one.
    cbn [first_of strip_prefix txt list_ascii_of_string]. eval_chars.
    reflexivity.
Qed.

(** X20: For a URL made of any text without a line break, one of
    'watch?v=', 'youtu.be/' or 'embed/', an 11-character identifier free
    of '#', '&' and '?', and a rest that is empty or starts with one of
    these three characters, extractYouTubeID returns the identifier,
    provided none of the six markers of the pattern occurs in the
    identifier followed by the rest (the greedy prefix takes the last
    marker). *)
Theorem youtube_id_round_trip (pre m i suf : str) :
  forallb (fun c => negb (is_line_terminator c)) pre = true ->
  usual_marker m = true ->
  length i = 11 -> forallb id_char i = true -> stops id_char suf ->
  marker_free (i ++ suf) = true ->
  extractYouTubeID (pre ++ m ++ i ++ suf) = Some i.
Proof.
  intros Hpre Hm Hlen Hid Hsuf Hfree. unfold extractYouTubeID.
  rewrite (last_marker_after pre (m ++ i ++ suf) (i ++ suf) Hpre
             (last_marker_usual m _ Hm (last_marker_none _ Hfree))).
  rewrite (span_app id_char i suf Hid Hsuf). cbn [fst].
  rewrite Hlen. reflexivity.
Qed.

End YouTubeFacts.

Lemma youtube_id_shape_witness :
  length (txt "dQw4w9WgXcQ") = 11.
Proof.
  apply (youtube_id_shape (txt "https://www.youtube.com/watch?v=dQw4w9WgXcQ&t=42s")
           (txt "dQw4w9WgXcQ")).
  vm_compute. reflexivity.
Defined.

Lemma youtube_id_round_trip_witness :
  YouTube.extractYouTubeID (txt "https://youtu.be/dQw4w9WgXcQ?si=abc")
  = Some (txt "dQw4w9WgXcQ").
Proof.
  apply (youtube_id_round_trip (txt "https://") (txt "youtu.be/")
           (txt "dQw4w9WgXcQ") (txt "?si=abc")); reflexivity.
Defined.

(** ** The selection of videos *)

Section VideoFacts.
Import YouTube.
Context {X : Type}.
Implicit Types (v : video X) (videos uniqueVideos : list (video X)).

Lemma video_id_nonempty v i : video_id v = Some i -> i <> [].
Proof.
  unfold video_id. destruct (videoId v) as [|c r].
  - destruct (group1 embed_re (embedUrl v)) as [[|? ?]|];
      try (intros H; inversion H; discriminate);
      destruct (group1 query_v_re (url v)) as [[|? ?]|];
      try (intros H; inversion H; discriminate);
      destruct (group1 short_re (url v)) as [[|? ?]|];
      try (intros H; inversion H; discriminate); discriminate.
  - intros H. inversion H. discriminate.
Qed.

Lemma select_invariant (count : nat) videos uniqueVideos
    (usedVideoIds : gset str) :
  NoDup (map videoId uniqueVideos) ->
  (forall i, i ∈ usedVideoIds <-> In i (map videoId uniqueVideos)) ->
  Forall selected uniqueVideos ->
  length uniqueVideos <= count ->
  let result := select count videos uniqueVideos usedVideoIds in
  NoDup (map videoId result) /\ Forall selected result
  /\ length result <= count.
Proof.
  revert uniqueVideos usedVideoIds.
  induction videos as [|v videos IH]; intros u used Hnd Hused Hsel Hlen;
    cbn [select].
  - auto.
  - destruct (Nat.leb_spec count (length u)) as [|Hlt]; [auto|].
    destruct (video_id v) as [i|] eqn:Hi; [|apply IH; assumption].
    destruct (bool_decide_reflect (i ∈ used)) as [Hin|Hout];
      [apply IH; assumption|].
    apply IH.
    + rewrite map_app. cbn. apply NoDup_app. split; [exact Hnd|]. split.
      * intros x Hx1 Hx2. apply list_elem_of_In in Hx1.
        apply list_elem_of_In in Hx2. destruct Hx2 as [<-|[]].
        apply Hout, Hused, Hx1.
      * apply NoDup_singleton.
    + intros j. rewrite map_app, in_app_iff. cbn.
      rewrite elem_of_union, elem_of_singleton, Hused. intuition.
    + apply Forall_app. split; [exact Hsel|]. constructor; [|constructor].
      split; [apply (video_id_nonempty v i Hi) | reflexivity].
    + rewrite length_app. cbn. lia.
Qed.

(** X21: A list returned by getUniqueYoutubeVideos is not empty, has at
    most 'count' videos, their identifiers are pairwise different and not
    empty, and each embedUrl is 'https://www.youtube.com/embed/' followed
    by the identifier. *)
Theorem unique_videos_are_distinct (videos : option (list (video X)))
    (count : nat) (l : list (video X)) :
  getUniqueYoutubeVideos videos count = Some l ->
  NoDup (map videoId l) /\ Forall selected l /\ 1 <= length l <= count.
Proof.
  unfold getUniqueYoutubeVideos.
  destruct videos as [[|v vs]|]; try discriminate.
  destruct (select_invariant count (v :: vs) [] ∅) as [Hnd [Hsel Hlen]].
  - constructor.
  - intros i. cbn. rewrite elem_of_empty. tauto.
  - constructor.
  - cbn. lia.
  - destruct (select count (v :: vs) [] ∅) as [|x r] eqn:E; [discriminate|].
    intros H. inversion H. subst l. repeat split; try assumption.
    cbn. lia.
Qed.

Lemma select_takes_in_order (count : nat) videos uniqueVideos
    (usedVideoIds : gset str) :
  NoDup (map videoId videos) ->
  Forall (fun v => videoId v <> []) videos ->
  (forall i, i ∈ usedVideoIds -> ~ In i (map videoId videos)) ->
  select count videos uniqueVideos usedVideoIds
  = uniqueVideos
    ++ map (fun v => with_id v (videoId v))
         (firstn (count - length uniqueVideos) videos).
Proof.
  revert uniqueVideos usedVideoIds.
  induction videos as [|v videos IH]; intros u used Hnd Hne Hused;
    cbn [select].
  - rewrite firstn_nil. cbn. rewrite app_nil_r. reflexivity.
  - destruct (Nat.leb_spec count (length u)) as [Hge|Hlt].
    + replace (count - length u) with 0 by lia. cbn. rewrite app_nil_r.
      reflexivity.
    + inversion Hnd as [|? ? Hv Hnd']. subst.
      inversion Hne as [|? ? Hv1 Hne']. subst.
      assert (Hid : video_id v = Some (videoId v)).
      { unfold video_id. destruct (videoId v); [congruence | reflexivity]. }
      rewrite Hid.
      destruct (bool_decide_reflect (videoId v ∈ used)) as [Hin|Hout].
      { exfalso. apply (Hused _ Hin). left. reflexivity. }
      rewrite IH; try assumption.
      * rewrite length_app. cbn [length].
        replace (count - length u) with (S (count - (length u + 1))) by lia.
        cbn [firstn map]. rewrite <- app_assoc. reflexivity.
      * intros i Hi Hin. apply elem_of_union in Hi as [Hi|Hi].
        -- apply elem_of_singleton in Hi. subst i.
           apply Hv, list_elem_of_In, Hin.
        -- apply (Hused i Hi). right. exact Hin.
Qed.

(** X22: On videos that already carry pairwise different, non-empty
    videoId fields (what the caller's Map of candidates provides),
    getUniqueYoutubeVideos returns the first 'count' videos in their
    order, each with its embedUrl rewritten from its identifier, and null
    when that list is empty. *)
Theorem distinct_candidates_are_taken_in_order (videos : list (video X))
    (count : nat) :
  NoDup (map videoId videos) ->
  Forall (fun v => videoId v <> []) videos ->
  getUniqueYoutubeVideos (Some videos) count
  = match firstn count videos with
    | [] => None
    | first => Some (map (fun v => with_id v (videoId v)) first)
    end.
Proof.
  intros Hnd Hne. unfold getUniqueYoutubeVideos.
  destruct videos as [|v vs]; [rewrite firstn_nil; reflexivity|].
  rewrite (select_takes_in_order count (v :: vs) [] ∅ Hnd Hne).
  - cbn [app length]. rewrite Nat.sub_0_r.
    destruct (firstn count (v :: vs)); reflexivity.
  - intros i Hi. apply elem_of_empty in Hi. contradiction.
Qed.

End VideoFacts.

Lemma unique_videos_are_distinct_witness :
  let a := YouTube.Video [] (Some (txt "https://www.youtube.com/embed/AAAAAAAAAAA?rel=0")) None tt in
  let b := YouTube.Video [] None (Some (txt "https://www.youtube.com/watch?v=AAAAAAAAAAA")) tt in
  let c := YouTube.Video [] None (Some (txt "https://youtu.be/BBBBBBBBBBB")) tt in
  exists l, YouTube.getUniqueYoutubeVideos (Some [a; b; c]) 2 = Some l
            /\ map YouTube.videoId l = [txt "AAAAAAAAAAA"; txt "BBBBBBBBBBB"]
            /\ NoDup (map YouTube.videoId l).
Proof.
  intros a b c.
  destruct (YouTube.getUniqueYoutubeVideos (Some [a; b; c]) 2) as [l|] eqn:E;
    [|vm_compute in E; discriminate E].
  exists l. split; [reflexivity|]. split.
  - vm_compute in E. inversion E. reflexivity.
  - apply (unique_videos_are_distinct (Some [a; b; c]) 2 l E).
Defined.

Lemma distinct_candidates_are_taken_in_order_witness :
  let a := YouTube.Video (txt "AAAAAAAAAAA") None None tt in
  let b := YouTube.Video (txt "BBBBBBBBBBB") None None tt in
  let c := YouTube.Video (txt "CCCCCCCCCCC") None None tt in
  YouTube.getUniqueYoutubeVideos (Some [a; b; c]) 2
  = Some [YouTube.with_id a (txt "AAAAAAAAAAA");
          YouTube.with_id b (txt "BBBBBBBBBBB")].
Proof.
  intros a b c.
  apply (distinct_candidates_are_taken_in_order [a; b; c] 2).
  - apply (bool_decide_unpack _). vm_compute. exact I.
  - repeat constructor; discriminate.
Defined.

(** ** The reducer of the item list *)

Section ReducerFacts.
Import Items.
Context {G A X : Type}.
Implicit Types (state : list (ContentItem G A X)) (action : ItemsAction G A X).

Lemma str_eqb_same (s : str) : str_eqb s s = true.
Proof.
  induction s as [|c s IH]; [reflexivity|]. cbn. rewrite ch_eqb_same. exact IH.
Qed.

Lemma str_eqb_iff (a b : str) : str_eqb a b = true <-> a = b.
Proof.
  split; [apply str_eqb_true|]. intros ->. apply str_eqb_same.
Qed.

(** X23: The reducer never adds, removes or reorders items except by
    SET_ITEMS: after UPDATE_STATUS, SET_CONTENT or SET_CRAWLED_CONTENT the
    list of item ids is the one of the state, and after SET_ITEMS it is
    the one of the payload. *)
Theorem reducer_keeps_item_identities state action :
  map id (itemsReducer state action)
  = match action with
    | SET_ITEMS payload => map id payload
    | _ => map id state
    end.
Proof.
  destruct action as [payload|i st text|i content|i content];
    cbn [itemsReducer]; rewrite map_map; apply map_ext; intros item;
    try reflexivity; destruct (str_eqb (id item) i); reflexivity.
Qed.

(** X24: An UPDATE_STATUS, SET_CONTENT or SET_CRAWLED_CONTENT action whose
    id belongs to no item returns the state unchanged. *)
Theorem unknown_id_changes_nothing state action (i : str) :
  target action = Some i -> ~ In i (map id state) ->
  itemsReducer state action = state.
Proof.
  intros Ht Hno.
  assert (Hall : Forall (fun item => str_eqb (id item) i = false) state).
  { apply List.Forall_forall. intros item Hin.
    destruct (str_eqb (id item) i) eqn:E; [|reflexivity].
    exfalso. apply Hno. apply str_eqb_true in E. subst i.
    apply in_map, Hin. }
  destruct action as [payload|j st text|j content|j content];
    cbn in Ht; inversion Ht; subst j; cbn [itemsReducer];
    induction Hall as [|item state Hi _ IH]; cbn [map];
    try reflexivity; rewrite Hi; f_equal; apply IH;
    intros Hin; apply Hno; right; exact Hin.
Qed.

(** X25: Two actions among UPDATE_STATUS, SET_CONTENT and
    SET_CRAWLED_CONTENT that are about different item ids commute: the
    state after both is the same in either order. *)
Theorem updates_of_other_items_commute state (a b : ItemsAction G A X)
    (i j : str) :
  target a = Some i -> target b = Some j -> i <> j ->
  itemsReducer (itemsReducer state a) b = itemsReducer (itemsReducer state b) a.
Proof.
  intros Ha Hb Hne.
  assert (Hij : forall x : str, str_eqb x i = true -> str_eqb x j = false).
  { intros x Hx. apply str_eqb_true in Hx. subst x.
    destruct (str_eqb i j) eqn:E; [|reflexivity].
    apply str_eqb_true in E. contradiction. }
  destruct a as [pa|ia sa ta|ia ca|ia ca]; cbn in Ha; inversion Ha; subst ia;
    destruct b as [pb|jb sb tb|jb cb|jb cb]; cbn in Hb; inversion Hb; subst jb;
    cbn [itemsReducer]; rewrite !map_map; apply map_ext; intros item;
    destruct (str_eqb (id item) i) eqn:Ei;
    destruct (str_eqb (id item) j) eqn:Ej;
    cbn [id]; rewrite ?Ei, ?Ej; try reflexivity;
    rewrite (Hij _ Ei) in Ej; discriminate Ej.
Qed.

End ReducerFacts.

Lemma unknown_id_changes_nothing_witness :
  let item := Items.Item (G := unit) (A := unit) (txt "a") Items.Idle
                (txt "Not Started") None None None tt in
  Items.itemsReducer [item] (Items.SET_CONTENT (txt "b") tt) = [item].
Proof.
  intros item.
  apply (unknown_id_changes_nothing [item] (Items.SET_CONTENT (txt "b") tt)
           (txt "b")).
  - reflexivity.
  - cbn. intros [H | []]. discriminate H.
Defined.

Lemma updates_of_other_items_commute_witness :
  let one := Items.Item (G := nat) (A := unit) (txt "a") Items.Idle
               (txt "Not Started") None None None tt in
  let two := Items.Item (G := nat) (A := unit) (txt "b") Items.Idle
               (txt "Not Started") None None None tt in
  Items.itemsReducer
    (Items.itemsReducer [one; two] (Items.SET_CONTENT (txt "a") 1))
    (Items.UPDATE_STATUS (txt "b") Items.Error (txt "failed"))
  = Items.itemsReducer
      (Items.itemsReducer [one; two]
         (Items.UPDATE_STATUS (txt "b") Items.Error (txt "failed")))
      (Items.SET_CONTENT (txt "a") 1).
Proof.
  intros one two.
  apply (updates_of_other_items_commute [one; two]
           (Items.SET_CONTENT (txt "a") 1)
           (Items.UPDATE_STATUS (txt "b") Items.Error (txt "failed"))
           (txt "a") (txt "b")).
  - reflexivity.
  - reflexivity.
  - discriminate.
Defined.

(** ** Duplicate video embeds *)

Section EmbedFacts.
Import YouTube VideoEmbeds.
Context {X : Type}.

Lemma longest_first_some {R} (n : nat) (rest : nat -> option R) (r : R) :
  longest_first n rest = Some r ->
  exists k, 1 <= k <= n /\ rest k = Some r.
Proof.
  induction n as [|n IH]; cbn [longest_first]; [discriminate|].
  destruct (rest (S n)) as [r'|] eqn:E.
  - intros H. inversion H. subst r'. exists (S n). split; [lia | exact E].
  - intros H. destruct (IH H) as [k [Hk Hr]]. exists k. split; [lia | exact Hr].
Qed.

Lemma span_fst_length (p : ascii -> bool) (s : str) :
  length (fst (span p s)) + length (snd (span p s)) = length s.
Proof.
  destruct (span_split p s) as [Hs _].
  rewrite Hs at 3. rewrite length_app. reflexivity.
Qed.

(** A match of the pattern is at least as long as its fixed parts and
    lies within the subject. *)
Lemma iframe_re_length p (s d : str) (n : nat) :
  iframe_re p s = Some (d, n) -> 1 <= n <= length s.
Proof.
  unfold iframe_re.
  destruct (strip_prefix (txt "<iframe") s) as [r|] eqn:E0; [|discriminate].
  intros H. apply longest_first_some in H as [k [Hk H]].
  destruct (strip_prefix src_literal (skipn k r)) as [r1|] eqn:E1;
    [|discriminate].
  apply longest_first_some in H as [g [Hg H]].
  destruct (span (not_ch ">"%char) (skipn g r1)) as [attrs r3] eqn:E2.
  destruct (strip_prefix (txt "></iframe>") r3) as [r4|] eqn:E3;
    [|discriminate].
  inversion H. subst d n. clear H.
  apply strip_prefix_split in E0, E1, E3.
  pose proof (span_fst_length (not_ch ">"%char) r) as L0.
  pose proof (span_fst_length embed_id_char r1) as L1.
  pose proof (span_fst_length (not_ch ">"%char) (skipn g r1)) as L2.
  rewrite E2 in L2. cbn [fst snd] in L2.
  apply (f_equal (@length ascii)) in E0, E1, E3.
  rewrite length_app in E0, E1, E3. rewrite length_skipn in E1, L2.
  change (length (txt "<iframe")) with 7 in E0.
  change (length src_literal) with 35 in E1.
  change (length (txt "></iframe>")) with 10 in E3.
  cbn [length txt list_ascii_of_string Nat.add]. lia.
Qed.

(** Every match is found in the subject at its index. *)
Lemma hits_at_found {R} (m : matcher R) :
  (forall p s r n, m p s = Some (r, n) -> 1 <= n <= length s) ->
  forall (s : str) (k : nat) p (b i : nat) (w : str) (r : R),
  k <= length s ->
  In (i, w, r) (hits_at (b + k) (tokens_from m k p s)) ->
  exists x y, s = x ++ w ++ y /\ i = b + length x
              /\ exists q, m q (w ++ y) = Some (r, length w).
Proof.
  intros Hm. induction s as [|c s IH]; intros k p b i w r Hk Hin.
  - cbn in Hin. contradiction.
  - cbn [tokens_from] in Hin. destruct k as [|k].
    + destruct (m p (c :: s)) as [[r0 n]|] eqn:E.
      * destruct (Hm _ _ _ _ E) as [Hn1 Hn2].
        cbn [hits_at] in Hin. destruct Hin as [Hin|Hin].
        -- inversion Hin. subst i w r0. exists [], (skipn n (c :: s)).
           cbn [app length]. rewrite firstn_skipn. split; [reflexivity|].
           split; [lia|]. exists p. rewrite E. f_equal. f_equal.
           rewrite length_firstn. lia.
        -- rewrite length_firstn in Hin.
           replace (b + 0 + Nat.min n (length (c :: s)))
             with (S b + pred n) in Hin by (cbn [length] in *; lia).
           destruct (IH (pred n) (Some c) (S b) i w r) as [x [y [Hs [Hi Hq]]]];
             [cbn [length] in Hn2; lia | exact Hin |].
           exists (c :: x), y. rewrite Hs. cbn [app length].
           split; [reflexivity|]. split; [lia | exact Hq].
      * cbn [hits_at] in Hin.
        replace (S (b + 0)) with (S b + 0) in Hin by lia.
        destruct (IH 0 (Some c) (S b) i w r) as [x [y [Hs [Hi Hq]]]];
          [lia | exact Hin |].
        exists (c :: x), y. rewrite Hs. cbn [app length].
        split; [reflexivity|]. split; [lia | exact Hq].
    + replace (b + S k) with (S b + k) in Hin by lia.
      destruct (IH k (Some c) (S b) i w r) as [x [y [Hs [Hi Hq]]]];
        [cbn [length] in Hk; lia | exact Hin |].
      exists (c :: x), y. rewrite Hs. cbn [app length].
      split; [reflexivity|]. split; [lia | exact Hq].
Qed.

Lemma starts_with_app (w y : str) : starts_with w (w ++ y) = true.
Proof. unfold starts_with. rewrite strip_prefix_app. reflexivity. Qed.

Lemma indexOf_here (w y : str) : indexOf w (w ++ y) = Some 0.
Proof.
  destruct (w ++ y) as [|c s] eqn:E; cbn [indexOf];
    rewrite <- E, starts_with_app; reflexivity.
Qed.

Lemma indexOf_from_found (x w y : str) :
  indexOf_from w (length x) (x ++ w ++ y) = Some (length x).
Proof.
  unfold indexOf_from. rewrite (proj2 (firstn_skipn_at x _)).
  rewrite indexOf_here. cbn. rewrite Nat.add_0_r. reflexivity.
Qed.

(** X26: When the list has a second video whose videoId is non-empty and
    differs from the identifier that every matched embed carries,
    enforceUniqueVideoEmbeds rewrites the second iframe tag that the
    pattern matched and nothing else: String.prototype.replace puts that
    videoId in place of the first occurrence of the duplicated identifier
    in the tag.  The tag is found at its index (indexOf returns the
    index), so the branch for secondMatchIndex === -1 is not taken.  The
    content is changed in no other case. *)
Theorem only_the_second_embed_is_rewritten (content : str)
    (youtubeVideos : option (list (video X))) :
  (forall videos second index tag d,
     youtubeVideos = Some videos ->
     nth_error videos 1 = Some second ->
     videoId second <> [] -> videoId second <> d ->
     nth_error (matchAll_at iframe_re content) 1 = Some (index, tag, d) ->
     Forall (fun m => snd m = d) (matchAll_at iframe_re content) ->
     indexOf_from tag index content = Some index
     /\ exists before after,
          content = before ++ tag ++ after /\ length before = index
          /\ enforceUniqueVideoEmbeds content youtubeVideos
             = before ++ replace_string d (videoId second) tag ++ after)
  /\ (enforceUniqueVideoEmbeds content youtubeVideos <> content ->
      exists videos second index tag d,
        youtubeVideos = Some videos
        /\ nth_error videos 1 = Some second
        /\ videoId second <> [] /\ videoId second <> d
        /\ nth_error (matchAll_at iframe_re content) 1 = Some (index, tag, d)
        /\ Forall (fun m => snd m = d) (matchAll_at iframe_re content)).
Proof.
  split.
  - intros videos second index tag d -> Hsec Hne Hd Hm Hall.
    destruct (hits_at_found iframe_re iframe_re_length content 0 None 0
                index tag d (Nat.le_0_l _) (nth_error_In _ _ Hm))
      as [x [y [Hc [Hi _]]]].
    cbn in Hi. subst index.
    assert (Hfound : indexOf_from tag (length x) content = Some (length x)).
    { rewrite Hc. apply indexOf_from_found. }
    split; [exact Hfound|].
    exists x, y. split; [exact Hc|]. split; [reflexivity|].
    unfold enforceUniqueVideoEmbeds.
    assert (Hv : (length videos <? 2) = false).
    { apply Nat.ltb_ge.
      assert (1 < length videos) by (apply nth_error_Some; congruence). lia. }
    rewrite Hv.
    assert (Hl : (length (matchAll_at iframe_re content) <? 2) = false).
    { apply Nat.ltb_ge.
      assert (1 < length (matchAll_at iframe_re content))
        by (apply nth_error_Some; congruence). lia. }
    rewrite Hl.
    destruct (matchAll_at iframe_re content) as [|m0 ms] eqn:Ems;
      [discriminate Hm|].
    cbn [map].
    assert (H0 : snd m0 = d) by (inversion Hall; assumption).
    rewrite H0.
    assert (Hforall : forallb (fun i => str_eqb i d) (d :: map snd ms) = true).
    { apply forallb_forall. intros i Hin.
      replace (d :: map snd ms) with (map snd (m0 :: ms)) in Hin
        by (cbn [map]; rewrite H0; reflexivity).
      apply in_map_iff in Hin as [m [<- Hin]].
      rewrite List.Forall_forall in Hall. rewrite (Hall m Hin).
      apply str_eqb_same. }
    rewrite Hforall, Hsec, Hm.
    assert (Ht : Links.truthy (videoId second) = true)
      by (destruct (videoId second); [congruence | reflexivity]).
    assert (He : str_eqb (videoId second) d = false).
    { destruct (str_eqb (videoId second) d) eqn:E; [|reflexivity].
      apply str_eqb_true in E. contradiction. }
    rewrite Ht, He. cbn [andb negb]. rewrite Hfound.
    rewrite Hc at 1 2. rewrite (proj1 (firstn_skipn_at x _)).
    replace (skipn (length x + length tag) (x ++ tag ++ y)) with y;
      [reflexivity|].
    rewrite <- length_app, app_assoc.
    symmetry. apply (proj2 (firstn_skipn_at (x ++ tag) y)).
  - unfold enforceUniqueVideoEmbeds. intros Hdiff.
    destruct youtubeVideos as [videos|]; [|congruence].
    destruct (length videos <? 2); [congruence|].
    destruct (length (matchAll_at iframe_re content) <? 2); [congruence|].
    destruct (map snd (matchAll_at iframe_re content)) as [|d ids] eqn:Eids;
      [congruence|].
    destruct (forallb (fun i => str_eqb i d) (d :: ids)) eqn:Eall;
      [|congruence].
    destruct (nth_error videos 1) as [second|] eqn:Esec; [|congruence].
    destruct (nth_error (matchAll_at iframe_re content) 1)
      as [[[index whole] g]|] eqn:Em; [|congruence].
    destruct (Links.truthy (videoId second)) eqn:Et; [|cbn in Hdiff; congruence].
    destruct (str_eqb (videoId second) d) eqn:Ed; [cbn in Hdiff; congruence|].
    assert (Hall : Forall (fun m : nat * str * str => snd m = d)
                     (matchAll_at iframe_re content)).
    { rewrite <- Eids in Eall. rewrite forallb_forall in Eall.
      apply List.Forall_forall. intros m Hm. apply str_eqb_true, Eall.
      apply in_map, Hm. }
    assert (Hg : g = d).
    { apply nth_error_In in Em.
      rewrite List.Forall_forall in Hall. apply (Hall _ Em). }
    subst g.
    exists videos, second, index, whole, d.
    split; [reflexivity|]. split; [first [reflexivity | exact Esec]|].
    split; [destruct (videoId second); [discriminate Et | discriminate]|].
    split; [intros H; rewrite H, str_eqb_same in Ed; discriminate Ed|].
    split; [first [reflexivity | exact Em] | exact Hall].
Qed.

End EmbedFacts.

Lemma only_the_second_embed_is_rewritten_witness :
  let tag := jq "<iframe width='560' src='https://www.youtube.com/embed/AAA' allowfullscreen></iframe>" in
  let content :=
    txt "<p>one</p>" ++ tag ++ txt "<p>two</p>" ++ tag ++ txt "<p>end</p>" in
  let videos := [YouTube.Video (txt "AAA") None None tt;
                 YouTube.Video (txt "BBB") None None tt] in
  VideoEmbeds.indexOf_from tag 105 content = Some 105
  /\ exists before after,
       content = before ++ tag ++ after /\ length before = 105
       /\ VideoEmbeds.enforceUniqueVideoEmbeds content (Some videos)
          = before
            ++ VideoEmbeds.replace_string (txt "AAA") (txt "BBB") tag
            ++ after.
Proof.
  intros tag content videos.
  apply (proj1 (only_the_second_embed_is_rewritten content (Some videos))
           videos (YouTube.Video (txt "BBB") None None tt) 105 tag (txt "AAA")).
  - reflexivity.
  - reflexivity.
  - discriminate.
  - discriminate.
  - vm_compute. reflexivity.
  - vm_compute. repeat constructor.
Defined.

(** ** The worker pool *)

Section PoolFacts.
Import Concurrent PoolInvariant.
Context {T : Type}.
Variable truthy : T -> bool.
Variable shouldStop : option (nat -> bool).
Variable resolves : nat -> bool.
Variable total : nat.

Lemma never_stops_now (st : @pool T) :
  never_stops shouldStop -> stop_now shouldStop st = false.
Proof.
  intros H. unfold stop_now. destruct shouldStop as [f|]; [|reflexivity].
  apply (H f eq_refl).
Qed.

(** One stretch of a worker from the head of its loop. *)
Lemma loop_spec (q : list T) (st st' : pool) (w : worker) :
  queue st = q ->
  loop truthy shouldStop q st = (st', w) ->
  exists j,
    j <= length q
    /\ processed st' = processed st ++ List.filter truthy (firstn j q)
    /\ (queue st' = skipn j q \/ queue st' = [])
    /\ (never_stops shouldStop ->
        queue st' = skipn j q /\ (w = Finished -> queue st' = []))
    /\ completed st' = completed st
    /\ workers st' = workers st
    /\ ((w = Finished /\ processorCalls st' = processorCalls st
         /\ List.filter truthy (firstn j q) = [])
        \/ (w = Awaiting (processorCalls st)
            /\ processorCalls st' = S (processorCalls st)
            /\ length (List.filter truthy (firstn j q)) = 1)).
Proof.
  revert st. induction q as [|item q IH]; intros st Hq; cbn [loop].
  - intros H. inversion H. subst st' w. exists 0. cbn.
    rewrite app_nil_r. rewrite Hq.
    split; [lia|]. split; [reflexivity|]. split; [left; reflexivity|].
    split; [intros _; split; reflexivity|].
    split; [reflexivity|]. split; [reflexivity|].
    left. repeat split.
  - destruct (stop_now shouldStop st) eqn:Estop.
    + intros H. inversion H. subst st' w. exists 0. cbn.
      rewrite app_nil_r.
      split; [lia|]. split; [reflexivity|]. split; [right; reflexivity|].
      split.
      { intros Hnever. rewrite (never_stops_now st Hnever) in Estop.
        discriminate Estop. }
      split; [reflexivity|]. split; [reflexivity|].
      left. repeat split.
    + destruct (truthy item) eqn:Et.
      * intros H. inversion H. subst st' w. exists 1.
        cbn [firstn List.filter]. rewrite Et.
        cbn [length skipn queue completed workers processorCalls].
        split; [lia|]. split.
        { unfold processed. cbn [log]. rewrite flat_map_app. cbn.
          reflexivity. }
        split; [left; reflexivity|].
        split; [intros _; split; [reflexivity | discriminate]|].
        split; [reflexivity|]. split; [reflexivity|].
        right. repeat split.
      * intros H.
        pose proof (fun e => IH _ e H) as IH'.
        destruct (IH' eq_refl) as [j [Hj [Hp [Hq' [Hn [Hc [Hw Hcalls]]]]]]].
        exists (S j). cbn [firstn List.filter length skipn]. rewrite Et.
        cbn [queue completed workers processorCalls log] in *.
        split; [lia|]. split; [exact Hp|]. split; [exact Hq'|].
        split; [exact Hn|].
        split; [exact Hc|]. split; [exact Hw|]. exact Hcalls.
Qed.

Lemma skipn_skipn_add {A} (a b : nat) (l : list A) :
  skipn a (skipn b l) = skipn (b + a) l.
Proof.
  revert l. induction b as [|b IH]; intros l; [reflexivity|].
  destruct l as [|x l]; [rewrite !skipn_nil; reflexivity|].
  cbn [skipn Nat.add]. apply IH.
Qed.

Lemma firstn_add {A} (a b : nat) (l : list A) :
  firstn (b + a) l = firstn b l ++ firstn a (skipn b l).
Proof.
  revert l. induction b as [|b IH]; intros l; [reflexivity|].
  destruct l as [|x l]; [cbn; destruct a; reflexivity|].
  cbn [firstn skipn Nat.add app]. f_equal. apply IH.
Qed.

Lemma count_insert (p : worker -> bool) (ws : list worker) (i : nat)
    (old new : worker) :
  nth_error ws i = Some old ->
  length (List.filter p (<[ i := new ]> ws)) + (if p old then 1 else 0)
  = length (List.filter p ws) + (if p new then 1 else 0).
Proof.
  revert i. induction ws as [|x ws IH]; intros [|i] H; try discriminate H.
  - cbn in H. inversion H. subst x. simpl.
    destruct (p old), (p new); simpl; lia.
  - cbn in H. specialize (IH i H). simpl.
    destruct (p x); simpl; lia.
Qed.

Lemma in_insert (ws : list worker) (i : nat) (new x : worker) :
  In x (<[ i := new ]> ws) -> x = new \/ In x ws.
Proof.
  revert i. induction ws as [|y ws IH]; intros [|i]; simpl.
  - tauto.
  - tauto.
  - intros [H|H]; [left; congruence | right; right; exact H].
  - intros [H|H]; [right; left; exact H|].
    destruct (IH i H) as [H1|H1]; [left; exact H1 | right; right; exact H1].
Qed.

(** The state of the pool that one stretch of a worker leaves, given
    what held before: the worker took the place [slot] that was counted
    as [before] (1 for a worker that waited, 0 for a new one). *)
Lemma run_keeps (items : list T) (st st' : pool) (w : worker) :
  (exists k,
     k <= length items
     /\ processed st = List.filter truthy (firstn k items)
     /\ (queue st = skipn k items \/ queue st = []))
  -> processorCalls st = length (processed st)
  -> run truthy shouldStop st = (st', w)
  -> (exists k,
        k <= length items
        /\ processed st' = List.filter truthy (firstn k items)
        /\ (queue st' = skipn k items \/ queue st' = []))
     /\ processorCalls st' = length (processed st')
     /\ completed st' = completed st
     /\ workers st' = workers st
     /\ processorCalls st'
        = processorCalls st + (match w with Awaiting _ => 1 | _ => 0 end)
     /\ w <> Failed
     /\ (never_stops shouldStop ->
         (exists k, k <= length items
                    /\ processed st = List.filter truthy (firstn k items)
                    /\ queue st = skipn k items) ->
         (exists k, k <= length items
                    /\ processed st' = List.filter truthy (firstn k items)
                    /\ queue st' = skipn k items)
         /\ (w = Finished -> queue st' = [])).
Proof.
  intros [k [Hk [Hp Hq]]] Hcalls Hrun. unfold run in Hrun.
  destruct (loop_spec (queue st) st st' w eq_refl Hrun)
    as [j [Hj [Hp' [Hq' [Hn [Hc [Hw Hcase]]]]]]].
  assert (Hprefix : forall k0, k0 <= length items ->
             processed st = List.filter truthy (firstn k0 items) ->
             queue st = skipn k0 items ->
             k0 + j <= length items
             /\ processed st' = List.filter truthy (firstn (k0 + j) items)
             /\ skipn j (queue st) = skipn (k0 + j) items).
  { intros k0 Hk0 Hp0 Hq0. rewrite Hq0 in Hj, Hp' |- *.
    rewrite length_skipn in Hj. split; [lia|]. split.
    - rewrite Hp', Hp0, firstn_add, List.filter_app. reflexivity.
    - apply skipn_skipn_add. }
  split.
  { destruct Hq as [Hq|Hq].
    - destruct (Hprefix k Hk Hp Hq) as [H1 [H2 H3]].
      exists (k + j). split; [exact H1|]. split; [exact H2|].
      destruct Hq' as [Hq'|Hq']; [left; rewrite Hq'; exact H3 | right; exact Hq'].
    - exists k. split; [exact Hk|]. rewrite Hq in Hj, Hp', Hq'.
      cbn in Hj. replace j with 0 in * by lia. cbn in Hp', Hq'.
      rewrite app_nil_r in Hp'. split; [rewrite Hp'; exact Hp|].
      right. destruct Hq'; assumption. }
  assert (Hlen : length (processed st')
                 = length (processed st)
                   + match w with Awaiting _ => 1 | _ => 0 end).
  { rewrite Hp', length_app.
    destruct Hcase as [[-> [_ ->]] | [-> [_ ->]]]; reflexivity. }
  assert (Hpc : processorCalls st'
                = processorCalls st + match w with Awaiting _ => 1 | _ => 0 end).
  { destruct Hcase as [[-> [-> _]] | [-> [-> _]]]; lia. }
  split; [lia|]. split; [exact Hc|]. split; [exact Hw|]. split; [exact Hpc|].
  split; [destruct Hcase as [[-> _] | [-> _]]; discriminate|].
  intros Hnever [k0 [Hk0 [Hp0 Hq0]]].
  destruct (Hprefix k0 Hk0 Hp0 Hq0) as [H1 [H2 H3]].
  destruct (Hn Hnever) as [Hqe Hfin]. split; [|exact Hfin].
  exists (k0 + j). split; [exact H1|]. split; [exact H2|].
  rewrite Hqe. exact H3.
Qed.

Lemma loop_shrinks (q : list T) (st st' : pool) (w : worker) :
  queue st = q ->
  loop truthy shouldStop q st = (st', w) ->
  length (queue st') + match w with Awaiting _ => 1 | _ => 0 end <= length q.
Proof.
  revert st. induction q as [|item q IH]; intros st Hq; cbn [loop].
  - intros H. inversion H. subst st' w. rewrite Hq. cbn. lia.
  - destruct (stop_now shouldStop st).
    + intros H. inversion H. cbn. lia.
    + destruct (truthy item).
      * intros H. inversion H. cbn. lia.
      * intros H. pose proof (fun e => IH _ e H) as IH'.
        specialize (IH' eq_refl). cbn [length]. lia.
Qed.

Lemma processed_with_workers (st : @pool T) ws :
  processed (with_workers st ws) = processed st.
Proof. reflexivity. Qed.

Lemma waiting_app (st : @pool T) (ws : list worker) (w : worker) :
  waiting (with_workers st (ws ++ [w]))
  = waiting (with_workers st ws) + match w with Awaiting _ => 1 | _ => 0 end.
Proof.
  unfold waiting. cbn [workers with_workers].
  rewrite List.filter_app, length_app. destruct w; reflexivity.
Qed.

Lemma failed_app (st : @pool T) (ws : list worker) (w : worker) :
  failed (with_workers st (ws ++ [w]))
  = failed (with_workers st ws) + match w with Failed => 1 | _ => 0 end.
Proof.
  unfold failed. cbn [workers with_workers].
  rewrite List.filter_app, length_app. destruct w; reflexivity.
Qed.

(** Starting the workers keeps the invariant. *)
Lemma start_keeps (items : list T) (c : nat) (st : pool) :
  invariant truthy items st ->
  invariant truthy items (start truthy shouldStop c st)
  /\ length (workers (start truthy shouldStop c st)) = length (workers st) + c
  /\ length (queue (start truthy shouldStop c st)) <= length (queue st)
  /\ (never_stops shouldStop -> undisturbed truthy items st ->
      undisturbed truthy items (start truthy shouldStop c st)).
Proof.
  revert st. induction c as [|c IH]; intros st Hinv; cbn [start].
  - split; [exact Hinv|]. split; [lia|]. split; [lia|]. tauto.
  - destruct Hinv as [Hpre [Hcalls Hacc]].
    destruct (run truthy shouldStop st) as [st' w] eqn:Erun.
    destruct (run_keeps items st st' w Hpre Hcalls Erun)
      as [Hpre' [Hcalls' [Hc [Hw [Hpc [Hnf Hund]]]]]].
    pose proof (loop_shrinks (queue st) st st' w eq_refl Erun) as Hshrink.
    assert (Hinv' : invariant truthy items
                      (with_workers st' (workers st' ++ [w]))).
    { split; [exact Hpre'|]. split; [exact Hcalls'|].
      rewrite waiting_app, failed_app. cbn [completed with_workers processorCalls].
      unfold waiting, failed in *. cbn [workers with_workers].
      rewrite Hw, Hc, Hpc. destruct w; try congruence; lia. }
    destruct (IH _ Hinv') as [H1 [H2 [H3 H4]]].
    split; [exact H1|]. split.
    { rewrite H2. cbn [workers with_workers]. rewrite length_app, Hw.
      cbn. lia. }
    split; [cbn [queue with_workers] in H3; lia|].
    intros Hnever [Hex [Hfail Hfin]]. apply H4; [exact Hnever|].
    destruct (Hund Hnever Hex) as [Hex' Hend].
    split; [exact Hex'|]. split.
    + rewrite failed_app. unfold failed in *. cbn [workers with_workers].
      rewrite Hw, Hfail. destruct w; try congruence; reflexivity.
    + cbn [workers with_workers queue]. rewrite Hw. intros Hin.
      apply in_app_iff in Hin as [Hin|[Hin|[]]].
      * specialize (Hfin Hin).
        destruct Hex' as [k' [_ [_ Hq']]].
        pose proof Hshrink as Hs. rewrite Hfin in Hs.
        destruct (queue st') as [|x l]; [reflexivity|].
        cbn [length] in Hs. lia.
      * apply Hend. exact Hin.
Qed.

Lemma resume_keeps (items : list T) (w : nat) (st : pool) :
  invariant truthy items st ->
  invariant truthy items (resume truthy shouldStop resolves total w st)
  /\ length (workers (resume truthy shouldStop resolves total w st))
     = length (workers st)
  /\ (never_stops shouldStop -> (forall n, resolves n = true) ->
      undisturbed truthy items st ->
      undisturbed truthy items (resume truthy shouldStop resolves total w st))
  /\ (forall call, nth_error (workers st) w = Some (Awaiting call) ->
      length (queue (resume truthy shouldStop resolves total w st))
      + waiting (resume truthy shouldStop resolves total w st)
      < length (queue st) + waiting st).
Proof.
  intros Hinv. unfold resume.
  destruct (nth_error (workers st) w) as [[call| |]|] eqn:Ew;
    try (split; [exact Hinv|]; split; [reflexivity|]; split; [tauto|];
         intros c Hc; discriminate Hc).
  destruct Hinv as [Hpre [Hcalls Hacc]].
  pose proof (count_insert
                (fun x => match x with Awaiting _ => true | _ => false end)
                (workers st) w (Awaiting call)) as Hwait.
  pose proof (count_insert
                (fun x => match x with Failed => true | _ => false end)
                (workers st) w (Awaiting call)) as Hfail.
  destruct (resolves call) eqn:Eres.
  - set (st1 := Pool (queue st) (S (completed st)) (stopCalls st)
                  (processorCalls st)
                  (log st ++ [Progress (S (completed st)) total])
                  (workers st)).
    assert (Hp1 : processed st1 = processed st).
    { unfold processed, st1. cbn [log]. rewrite flat_map_app. cbn.
      apply app_nil_r. }
    destruct (run truthy shouldStop st1) as [st2 state] eqn:Erun.
    assert (Hpre1 : exists k, k <= length items
                      /\ processed st1 = List.filter truthy (firstn k items)
                      /\ (queue st1 = skipn k items \/ queue st1 = [])).
    { rewrite Hp1. exact Hpre. }
    assert (Hcalls1 : processorCalls st1 = length (processed st1)).
    { rewrite Hp1. exact Hcalls. }
    destruct (run_keeps items st1 st2 state Hpre1 Hcalls1 Erun)
      as [Hpre' [Hcalls' [Hc [Hw [Hpc [Hnf Hund]]]]]].
    pose proof (loop_shrinks (queue st1) st1 st2 state eq_refl Erun) as Hshrink.
    cbn [queue completed workers processorCalls st1] in Hc, Hw, Hpc, Hshrink.
    specialize (Hwait state Ew). specialize (Hfail state Ew). cbn in Hwait, Hfail.
    assert (Hw' : waiting (with_workers st2 (<[ w := state ]> (workers st2)))
                  + 1
                  = waiting st + match state with Awaiting _ => 1 | _ => 0 end).
    { unfold waiting. cbn [workers with_workers]. rewrite Hw.
      destruct state; cbn in Hwait |- *; lia. }
    assert (Hf' : failed (with_workers st2 (<[ w := state ]> (workers st2)))
                  = failed st).
    { unfold failed. cbn [workers with_workers]. rewrite Hw.
      destruct state; try congruence; cbn in Hfail; lia. }
    split.
    { split; [exact Hpre'|]. split; [exact Hcalls'|].
      rewrite Hf'. cbn [completed with_workers processorCalls].
      rewrite Hc, Hpc. lia. }
    split.
    { cbn [workers with_workers]. rewrite Hw. apply length_insert. }
    split.
    { intros Hnever _ [Hex [Hfailed Hfin]].
      assert (Hex1 : exists k, k <= length items
                       /\ processed st1 = List.filter truthy (firstn k items)
                       /\ queue st1 = skipn k items).
      { rewrite Hp1. exact Hex. }
      destruct (Hund Hnever Hex1) as [Hex' Hend].
      split; [exact Hex'|]. split; [rewrite Hf'; exact Hfailed|].
      cbn [workers with_workers queue]. rewrite Hw. intros Hin.
      apply in_insert in Hin as [Hin|Hin].
      - apply Hend. symmetry. exact Hin.
      - specialize (Hfin Hin). rewrite Hfin in Hshrink.
        destruct (queue st2) as [|x l]; [reflexivity|].
        cbn [length] in Hshrink. lia. }
    intros c _. cbn [queue with_workers]. lia.
  - specialize (Hwait Failed Ew). specialize (Hfail Failed Ew).
    cbn in Hwait, Hfail.
    split.
    { split; [exact Hpre|]. split; [exact Hcalls|].
      unfold waiting, failed in *. cbn [completed workers with_workers processorCalls].
      lia. }
    split; [cbn [workers with_workers]; apply length_insert|].
    split.
    { intros _ Hall. rewrite Hall in Eres. discriminate Eres. }
    intros c _. unfold waiting. cbn [queue workers with_workers]. lia.
Qed.

Lemma schedule_keeps (items : list T) (schedule : list nat) (st : pool) :
  invariant truthy items st ->
  let st' := fold_left (fun s w => resume truthy shouldStop resolves total w s)
               schedule st in
  invariant truthy items st'
  /\ length (workers st') = length (workers st)
  /\ (never_stops shouldStop -> (forall n, resolves n = true) ->
      undisturbed truthy items st -> undisturbed truthy items st').
Proof.
  revert st. induction schedule as [|w schedule IH]; intros st Hinv; cbn.
  - split; [exact Hinv|]. split; [reflexivity|]. tauto.
  - destruct (resume_keeps items w st Hinv) as [H1 [H2 [H3 _]]].
    destruct (IH _ H1) as [H4 [H5 H6]].
    split; [exact H4|]. split; [cbn in H5; lia|].
    intros Hn Hr Hu. apply H6; try assumption. apply H3; assumption.
Qed.

End PoolFacts.

(** ** Runs of the worker pool *)

Section PoolTheorems.
Import Concurrent PoolInvariant.
Context {T : Type}.
Variable truthy : T -> bool.

Lemma initial_invariant (items : list T) :
  invariant truthy items (Pool items 0 0 0 [] [])
  /\ undisturbed truthy items (Pool items 0 0 0 [] []).
Proof.
  split.
  - split; [|split; reflexivity].
    exists 0. split; [lia|]. split; [reflexivity | left; reflexivity].
  - split; [|split; [reflexivity | intros []]].
    exists 0. split; [lia|]. split; reflexivity.
Qed.

(** X27: Under every schedule of the workers, every outcome of the
    processor and every answer of shouldStop, the processor has been
    called exactly on the truthy items of some prefix of the list, once
    each and in the order of the list (falsy items are dropped without a
    call); the queue holds the rest of the list or has been emptied by a
    stop; every call is either awaited, completed or rejected; and there
    are exactly 'concurrency' workers, so never more calls in flight. *)
Theorem items_are_processed_once_in_order (items : list T)
    (resolves : nat -> bool) (concurrency : nat)
    (shouldStop : option (nat -> bool)) (schedule : list nat) :
  let st := processConcurrently truthy items resolves concurrency shouldStop
              schedule in
  (exists k, k <= length items
             /\ processed st = List.filter truthy (firstn k items)
             /\ (queue st = skipn k items \/ queue st = []))
  /\ completed st + waiting st + failed st = length (processed st)
  /\ length (workers st) = concurrency.
Proof.
  intros st. unfold processConcurrently in st.
  destruct (initial_invariant items) as [Hinv _].
  destruct (start_keeps truthy shouldStop resolves (length items) items
              concurrency _ Hinv)
    as [Hs [Hlen _]].
  destruct (schedule_keeps truthy shouldStop resolves (length items) items
              schedule _ Hs) as [[Hpre [Hcalls Hacc]] [Hlen' _]].
  fold st in Hpre, Hcalls, Hacc, Hlen'.
  split; [exact Hpre|]. split; [lia|].
  rewrite Hlen', Hlen. reflexivity.
Qed.

Lemma count_none (p : worker -> bool) (ws : list worker) (w : worker) :
  length (List.filter p ws) = 0 -> In w ws -> p w = false.
Proof.
  induction ws as [|x ws IH]; [intros _ []|].
  cbn. destruct (p x) eqn:E; [discriminate|].
  intros H [Hin|Hin]; [subst x; exact E | apply IH; assumption].
Qed.

(** X28: If shouldStop is missing or never returns true, no call of the
    processor is rejected and there is at least one worker, then in every
    run that has come to rest the processor has been called on every
    truthy item of the list, in order, 'completed' is their number, the
    queue is empty and Promise.all is fulfilled. *)
Theorem undisturbed_pool_processes_every_item (items : list T)
    (resolves : nat -> bool) (concurrency : nat)
    (shouldStop : option (nat -> bool)) (schedule : list nat) :
  never_stops shouldStop -> (forall n, resolves n = true) ->
  1 <= concurrency ->
  let st := processConcurrently truthy items resolves concurrency shouldStop
              schedule in
  waiting st = 0 ->
  processed st = List.filter truthy items
  /\ completed st = length (List.filter truthy items)
  /\ queue st = []
  /\ settled st = Some true.
Proof.
  intros Hnever Hres Hconc st Hrest. unfold processConcurrently in st.
  destruct (initial_invariant items) as [Hinv Hund].
  destruct (start_keeps truthy shouldStop resolves (length items) items
              concurrency _ Hinv)
    as [Hs [Hlen [_ Hu]]].
  specialize (Hu Hnever Hund).
  destruct (schedule_keeps truthy shouldStop resolves (length items) items
              schedule _ Hs) as [[Hpre [Hcalls Hacc]] [Hlen' Hu']].
  specialize (Hu' Hnever Hres Hu).
  fold st in Hpre, Hcalls, Hacc, Hlen', Hu'.
  destruct Hu' as [[k [Hk [Hp Hq]]] [Hfail Hfin]].
  assert (Hall : forall w, In w (workers st) -> w = Finished).
  { intros w Hin.
    pose proof (count_none _ _ w Hrest Hin) as H1.
    pose proof (count_none _ _ w Hfail Hin) as H2.
    destruct w; try discriminate; reflexivity. }
  assert (Hempty : queue st = []).
  { apply Hfin. cbn [workers] in Hlen.
    destruct (workers st) as [|w ws] eqn:Ew; [cbn in Hlen'; lia|].
    rewrite (Hall w (or_introl eq_refl)). left. reflexivity. }
  assert (Hk' : firstn k items = items).
  { rewrite Hempty in Hq. apply firstn_all2.
    apply (f_equal (@length T)) in Hq. rewrite length_skipn in Hq.
    cbn in Hq. lia. }
  rewrite Hk' in Hp.
  split; [exact Hp|]. split; [rewrite <- Hp; lia|]. split; [exact Hempty|].
  unfold settled.
  replace (existsb _ (workers st)) with false.
  - replace (forallb _ (workers st)) with true; [reflexivity|].
    symmetry. apply forallb_forall. intros w Hin.
    rewrite (Hall w Hin). reflexivity.
  - symmetry. apply not_true_is_false. intros H.
    apply existsb_exists in H as [w [Hin Hw]].
    rewrite (Hall w Hin) in Hw. discriminate Hw.
Qed.

Lemma first_waiting_found (ws : list worker) (w : nat) :
  first_waiting ws = Some w -> exists call, nth_error ws w = Some (Awaiting call).
Proof.
  revert w. induction ws as [|x ws IH]; intros w; [discriminate|].
  destruct x as [call| |]; cbn [first_waiting].
  - intros H. inversion H. exists call. reflexivity.
  - destruct (first_waiting ws) as [j|]; [|discriminate].
    intros H. inversion H. apply (IH j eq_refl).
  - destruct (first_waiting ws) as [j|]; [|discriminate].
    intros H. inversion H. apply (IH j eq_refl).
Qed.

Lemma first_waiting_none (st : @pool T) :
  first_waiting (workers st) = None -> waiting st = 0.
Proof.
  unfold waiting. induction (workers st) as [|x ws IH]; [reflexivity|].
  destruct x; cbn [first_waiting]; try discriminate;
    destruct (first_waiting ws); try discriminate; intros _; apply IH;
    reflexivity.
Qed.

Lemma rest_schedule_rests (items : list T) (resolves : nat -> bool)
    (shouldStop : option (nat -> bool)) (total fuel : nat) (st : pool) :
  invariant truthy items st ->
  length (queue st) + waiting st <= fuel ->
  waiting (fold_left (fun s w => resume truthy shouldStop resolves total w s)
             (rest_schedule truthy shouldStop resolves total fuel st) st)
  = 0.
Proof.
  revert st. induction fuel as [|fuel IH]; intros st Hinv Hfuel;
    cbn [rest_schedule].
  - cbn. lia.
  - destruct (first_waiting (workers st)) as [w|] eqn:Ew.
    + cbn [fold_left].
      destruct (first_waiting_found _ _ Ew) as [call Hcall].
      destruct (resume_keeps truthy shouldStop resolves total items w st Hinv)
        as [H1 [_ [_ H4]]].
      apply IH; [exact H1|]. specialize (H4 call Hcall). lia.
    + cbn. apply first_waiting_none, Ew.
Qed.

(** X29: processConcurrently terminates when the processor's calls settle:
    for all inputs there is a schedule of at most items.length +
    concurrency resumptions after which no worker waits any more. *)
Theorem pool_comes_to_rest (items : list T) (resolves : nat -> bool)
    (concurrency : nat) (shouldStop : option (nat -> bool)) :
  exists schedule,
    length schedule <= length items + concurrency
    /\ waiting (processConcurrently truthy items resolves concurrency
                  shouldStop schedule) = 0.
Proof.
  destruct (initial_invariant items) as [Hinv _].
  destruct (start_keeps truthy shouldStop resolves (length items) items
              concurrency _ Hinv)
    as [Hs [Hlen [Hq _]]].
  cbn [workers queue length Nat.add] in Hlen, Hq.
  set (st0 := start truthy shouldStop concurrency (Pool items 0 0 0 [] [])) in *.
  exists (rest_schedule truthy shouldStop resolves (length items)
            (length items + concurrency) st0).
  split.
  - generalize (length items + concurrency) as fuel. intros fuel.
    generalize st0. induction fuel as [|fuel IH]; intros st; cbn; [lia|].
    destruct (first_waiting (workers st)); cbn; [|lia].
    specialize (IH (resume truthy shouldStop resolves (length items) n st)).
    lia.
  - unfold processConcurrently. fold st0.
    apply (rest_schedule_rests items); [exact Hs|].
    assert (waiting st0 <= length (workers st0)).
    { unfold waiting. apply List.filter_length_le. }
    lia.
Qed.

End PoolTheorems.

Lemma undisturbed_pool_processes_every_item_witness :
  let st := Concurrent.processConcurrently (fun n => negb (n =? 0))
              [3; 0; 5; 7] (fun _ => true) 2 None [1; 0; 1] in
  Concurrent.processed st = [3; 5; 7] /\ Concurrent.completed st = 3.
Proof.
  intros st.
  destruct (undisturbed_pool_processes_every_item (fun n => negb (n =? 0))
              [3; 0; 5; 7] (fun _ => true) 2 None [1; 0; 1])
    as [Hp [Hc _]].
  - intros f H. discriminate H.
  - reflexivity.
  - lia.
  - reflexivity.
  - split; [exact Hp | exact Hc].
Defined.

(** ** The default slug *)

Section SlugFacts.
Import Slug.

Lemma run_re_miss (p : ascii -> bool) prev (c : ascii) (s : str) :
  run_re p prev (c :: s) = None -> p c = false.
Proof.
  unfold run_re. cbn [span]. destruct (p c); [|reflexivity].
  destruct (span p s). discriminate.
Qed.

(** What the replacement of the runs of a class leaves: the characters
    outside the class, and the replacement text. *)
Lemma replace_runs_keeps (p phi psi : ascii -> bool) (r : str) :
  (forall c, p c = false -> psi c = true -> phi c = true) ->
  forallb phi r = true ->
  forall (s : str) k prev, forallb psi s = true ->
  forallb phi
    (flat_map (fun t => match t with Lit c => [c] | Hit _ _ => r end)
       (tokens_from (run_re p) k prev s)) = true.
Proof.
  intros Hout Hr. induction s as [|c s IH]; intros k prev Hs; [reflexivity|].
  cbn in Hs. apply andb_true_iff in Hs as [Hc Hs].
  cbn [tokens_from]. destruct k as [|k]; [|apply IH, Hs].
  destruct (run_re p prev (c :: s)) as [[u n]|] eqn:E.
  - cbn [flat_map]. rewrite forallb_app, Hr. apply IH, Hs.
  - cbn [flat_map app forallb]. rewrite (Hout c (run_re_miss _ _ _ _ E) Hc).
    apply IH, Hs.
Qed.

Lemma replace_runs_fixed (p : ascii -> bool) (r : str) :
  forall (s : str) prev, forallb (fun c => negb (p c)) s = true ->
  flat_map (fun t => match t with Lit c => [c] | Hit _ _ => r end)
    (tokens_from (run_re p) 0 prev s) = s.
Proof.
  induction s as [|c s IH]; intros prev Hs; [reflexivity|].
  cbn in Hs. apply andb_true_iff in Hs as [Hc Hs].
  apply negb_true_iff in Hc.
  cbn [tokens_from]. unfold run_re at 1. cbn [span]. rewrite Hc.
  cbn [fst flat_map app]. f_equal. apply IH, Hs.
Qed.

Lemma lower_ch_not_upper (c : ascii) :
  let n := code (lower_ch c) in ((65 <=? n) && (n <=? 90)) = false.
Proof.
  destruct c as [[] [] [] [] [] [] [] []]; reflexivity.
Qed.

Lemma slug_char_sorted (c : ascii) :
  not_slug_char c = false ->
  (let n := code c in ((65 <=? n) && (n <=? 90)) = false) ->
  slug_char c = true.
Proof.
  destruct c as [[] [] [] [] [] [] [] []]; intros H1 H2;
    try discriminate H1; try discriminate H2; reflexivity.
Qed.

Lemma slug_char_plain (c : ascii) :
  slug_char c = true ->
  lower_ch c = c /\ is_space c = false /\ not_slug_char c = false.
Proof.
  destruct c as [[] [] [] [] [] [] [] []]; intros H; try discriminate H;
    repeat split.
Qed.

(** X30: The default slug made from a title (lower case, runs of white
    space turned into a hyphen, everything but word characters and hyphens
    removed) holds only lower-case letters a-z, digits, underscores and
    hyphens, and making the slug of a slug changes nothing. *)
Theorem default_slug_is_clean (title : str) :
  forallb slug_char (default_slug title) = true
  /\ default_slug (default_slug title) = default_slug title.
Proof.
  assert (Hclean : forallb slug_char (default_slug title) = true).
  { unfold default_slug, replace_all, tokens.
    apply (replace_runs_keeps not_slug_char slug_char
             (fun c => let n := code c in negb ((65 <=? n) && (n <=? 90))) []).
    - intros c H1 H2. apply slug_char_sorted; [exact H1|].
      apply negb_true_iff in H2. exact H2.
    - reflexivity.
    - apply (replace_runs_keeps is_space _
               (fun c => let n := code c in negb ((65 <=? n) && (n <=? 90)))
               (txt "-")).
      + intros c _ H. exact H.
      + reflexivity.
      + unfold toLowerCase. rewrite forallb_forall. intros c Hin.
        apply in_map_iff in Hin as [x [<- _]].
        apply negb_true_iff, lower_ch_not_upper. }
  split; [exact Hclean|].
  revert Hclean. generalize (default_slug title). intros s Hs.
  assert (H1 : toLowerCase s = s).
  { unfold toLowerCase. rewrite <- (map_id s) at 2. apply map_ext_in.
    intros c Hin. rewrite forallb_forall in Hs.
    apply (slug_char_plain c (Hs c Hin)). }
  assert (H2 : forallb (fun c => negb (is_space c)) s = true).
  { rewrite forallb_forall in Hs |- *. intros c Hin.
    destruct (slug_char_plain c (Hs c Hin)) as [_ [-> _]]. reflexivity. }
  assert (H3 : forallb (fun c => negb (not_slug_char c)) s = true).
  { rewrite forallb_forall in Hs |- *. intros c Hin.
    destruct (slug_char_plain c (Hs c Hin)) as [_ [_ ->]]. reflexivity. }
  unfold default_slug, replace_all, tokens. rewrite H1.
  rewrite (replace_runs_fixed is_space _ s None H2).
  apply (replace_runs_fixed not_slug_char _ s None H3).
Qed.

End SlugFacts.

(** * The four steps on documents with malformed tokens *)

Section CalmFacts.
Import Links LinkDoc TokenDoc.

Lemma clash_miss (p t rest : str) :
  clash p t = false -> strip_prefix p (t ++ rest) = None.
Proof.
  revert t. induction p as [|a p IH]; intros [|b t] H; try discriminate H.
  cbn [clash] in H. cbn [app strip_prefix].
  destruct (ch_eqb a b); [apply IH, H | reflexivity].
Qed.

Lemma clash_app (p t b : str) :
  clash p t = false -> clash p (t ++ b) = false.
Proof.
  revert t. induction p as [|a p IH]; intros [|c t] H; try discriminate H.
  cbn [clash app] in *. destruct (ch_eqb a c); [apply IH, H | reflexivity].
Qed.

(** If a text and what follows it do not begin as [p] does, the text
    alone does not, unless it is a beginning of [p]. *)
Lemma clash_prefix (p t b : str) :
  clash p (t ++ b) = false ->
  clash p t = false \/ exists q, p = t ++ q.
Proof.
  revert t. induction p as [|a p IH]; intros t H.
  - destruct (t ++ b); discriminate H.
  - destruct t as [|c t]; [right; eexists; reflexivity|].
    cbn [clash app] in *. destruct (ch_eqb a c) eqn:E; [|left; reflexivity].
    apply ch_eqb_true in E. subst c.
    destruct (IH t H) as [H1 | [q ->]]; [left; exact H1|].
    right. exists q. reflexivity.
Qed.

Lemma calm_app (a b : str) :
  calm a = true -> calm b = true -> calm (a ++ b) = true.
Proof.
  induction a as [|c a IH]; intros Ha Hb; [exact Hb|].
  cbn [calm app] in *. apply andb_true_iff in Ha as [Hc Ha].
  rewrite (IH Ha Hb), andb_true_r.
  apply negb_true_iff. apply negb_true_iff in Hc.
  apply (clash_app _ (c :: a) b Hc).
Qed.

Lemma calm_free (s : str) : no_ch "["%char s = true -> calm s = true.
Proof.
  induction s as [|c s IH]; [reflexivity|].
  cbn [calm]. intros H. cbn in H. apply andb_true_iff in H as [Hc Hs].
  rewrite (IH Hs), andb_true_r.
  change (txt "[INTERNAL_LINK") with ("["%char :: txt "INTERNAL_LINK").
  cbn [clash]. unfold not_ch in Hc. apply negb_true_iff in Hc.
  assert (ch_eqb "["%char c = false) as ->; [|reflexivity].
  apply ch_eqb_false. apply ch_eqb_false in Hc. congruence.
Qed.

Lemma calm_suffix (a b : str) : calm (a ++ b) = true -> calm b = true.
Proof.
  induction a as [|c a IH]; intros H; [exact H|].
  cbn [calm app] in H. apply andb_true_iff in H as [_ H]. apply IH, H.
Qed.

(** No character of the token opener can stand before a match of a
    search pattern. *)
Lemma opener_not_before (c : ascii) :
  In c (txt "[INTERNAL_LINK") -> before_class c = false.
Proof.
  intros H.
  assert (Hall : forallb (fun x => negb (before_class x))
                   (txt "[INTERNAL_LINK") = true) by reflexivity.
  rewrite forallb_forall in Hall. apply negb_true_iff, Hall, H.
Qed.

(** A prefix of a calm text is calm if its last character can stand
    before a match of a search pattern. *)
Lemma calm_prefix (a b : str) :
  calm (a ++ b) = true ->
  (a = [] \/ exists a' c, a = a' ++ [c] /\ before_class c = true) ->
  calm a = true.
Proof.
  induction a as [|x a IH]; intros H Hlast; [reflexivity|].
  cbn [calm app] in *. apply andb_true_iff in H as [Hx H].
  destruct Hlast as [Hlast | [a' [c [E Hc]]]]; [discriminate Hlast|].
  apply andb_true_iff. split.
  - apply negb_true_iff. apply negb_true_iff in Hx.
    destruct (clash_prefix _ (x :: a) b Hx) as [H1 | [q Hq]]; [exact H1|].
    exfalso. rewrite E in Hq.
    assert (Hin : In c (txt "[INTERNAL_LINK")).
    { rewrite Hq. apply in_or_app. left. apply in_or_app. right. left.
      reflexivity. }
    rewrite (opener_not_before c Hin) in Hc. discriminate Hc.
  - apply IH; [exact H|].
    destruct a' as [|y a'].
    + left. cbn in E. injection E as _ E. exact E.
    + right. exists a', c. cbn in E. injection E as _ E. auto.
Qed.

Lemma opener_miss (s a1 a2 rest : str) :
  calm s = true -> s = a1 ++ a2 -> a2 <> [] ->
  strip_prefix (txt "[INTERNAL_LINK") (a2 ++ rest) = None.
Proof.
  intros Hs E Hne. subst s. apply calm_suffix in Hs.
  destruct a2 as [|c a2]; [congruence|].
  cbn [calm] in Hs. apply andb_true_iff in Hs as [Hc _].
  apply negb_true_iff in Hc. apply (clash_miss _ _ rest Hc).
Qed.

Lemma calm_count (s : str) :
  calm s = true -> count_occ_str (txt "[INTERNAL_LINK") s = 0.
Proof.
  intros H. induction s as [|c s IH]; [reflexivity|].
  cbn [count_occ_str]. unfold starts_with.
  rewrite <- (app_nil_r (c :: s)).
  rewrite (opener_miss (c :: s) [] (c :: s) [] H eq_refl) by discriminate.
  cbn [calm] in H. apply andb_true_iff in H as [_ H].
  rewrite (IH H). reflexivity.
Qed.

End CalmFacts.

(** Where a pattern matches at no position of a text, whatever follows
    the text, the scan passes over the text. *)
Lemma tokens_from_misses {R} (m : matcher R) (a rest : str) p q :
  blind m ->
  (forall a1 a2 x, a = a1 ++ a2 -> a2 <> [] -> m x (a2 ++ rest) = None) ->
  tokens_from m 0 p (a ++ rest) = map Lit a ++ tokens_from m 0 q rest.
Proof.
  intros Hb. revert p. induction a as [|c a IH]; intros p H.
  - cbn. apply tokens_from_blind, Hb.
  - cbn [app tokens_from map].
    change (c :: a ++ rest) with ((c :: a) ++ rest).
    rewrite (H [] (c :: a) p eq_refl) by discriminate.
    f_equal. apply IH. intros a1 a2 x E Hne.
    apply (H (c :: a1) a2 x); [rewrite E; reflexivity | exact Hne].
Qed.

Lemma flat_map_lits {R} (f : str -> R -> str) (s : str) :
  flat_map (fun t => match t with Lit c => [c] | Hit w r => f w r end)
    (map Lit s) = s.
Proof. induction s as [|c s IH]; [reflexivity|]. cbn. f_equal. exact IH. Qed.

Section PieceFacts.
Import Links LinkDoc RepairDoc TokenDoc.

Lemma many1_inv (p : ascii -> bool) (s a r : str) :
  many1 p s = Some (a, r) ->
  s = a ++ r /\ nonempty a = true /\ forallb p a = true.
Proof.
  unfold many1. destruct (span_split p s) as [Hs [Ha _]].
  destruct (span p s) as [[|c a0] r0]; [discriminate|].
  intros H. inversion H. subst a r. cbn [fst snd] in *. auto.
Qed.

(** What the placeholder pattern matches is a placeholder. *)
Lemma placeholder_re_inv p (s slug text : str) (n : nat) :
  placeholder_re p s = Some ((slug, text), n) ->
  exists w1 w2 rest,
    s = render_seg (Link w1 slug w2 text) ++ rest
    /\ nonempty w1 = true /\ forallb is_space w1 = true
    /\ nonempty slug = true /\ no_ch dq slug = true
    /\ nonempty w2 = true /\ forallb is_space w2 = true
    /\ nonempty text = true /\ no_ch dq text = true.
Proof.
  unfold placeholder_re.
  destruct (strip_prefix (txt "[INTERNAL_LINK") s) as [r0|] eqn:E0; [|discriminate].
  destruct (many1 is_space r0) as [[w1 r1]|] eqn:E1; [|discriminate].
  destruct (strip_prefix (jq "slug='") r1) as [r2|] eqn:E2; [|discriminate].
  destruct (many1 (not_ch dq) r2) as [[sl r3]|] eqn:E3; [|discriminate].
  destruct (strip_prefix [dq] r3) as [r4|] eqn:E4; [|discriminate].
  destruct (many1 is_space r4) as [[w2 r5]|] eqn:E5; [|discriminate].
  destruct (strip_prefix (jq "text='") r5) as [r6|] eqn:E6; [|discriminate].
  destruct (many1 (not_ch dq) r6) as [[tx r7]|] eqn:E7; [|discriminate].
  destruct (strip_prefix (jq "']") r7) as [r8|] eqn:E8; [|discriminate].
  intros H. inversion H. subst sl tx. clear H.
  apply strip_prefix_split in E0, E2, E4, E6, E8.
  apply many1_inv in E1 as [E1 [N1 S1]], E3 as [E3 [N3 S3]],
    E5 as [E5 [N5 S5]], E7 as [E7 [N7 S7]].
  exists w1, w2, r8. unfold render_seg. subst.
  rewrite <- !app_assoc. auto 10.
Qed.

Lemma span_app_gen (p : ascii -> bool) (a b : str) :
  span p (a ++ b)
  = match snd (span p a) with
    | [] => (a ++ fst (span p b), snd (span p b))
    | _ :: _ => (fst (span p a), snd (span p a) ++ b)
    end.
Proof.
  induction a as [|c a IH]; cbn [app span].
  - cbn. destruct (span p b); reflexivity.
  - destruct (p c) eqn:E; [|reflexivity].
    rewrite IH. destruct (span p a) as [x y]. cbn [fst snd].
    destruct y; reflexivity.
Qed.

Lemma span_all (p : ascii -> bool) (a : str) :
  forallb p a = true -> span p a = (a, []).
Proof.
  intros H. rewrite <- (app_nil_r a) at 1.
  apply (span_app p a [] H). exact I.
Qed.

Lemma span_pass (p : ascii -> bool) (a b : str) :
  forallb p a = true ->
  span p (a ++ b) = (a ++ fst (span p b), snd (span p b)).
Proof. intros H. rewrite span_app_gen, (span_all p a H). reflexivity. Qed.

Lemma quotes_app (a b : str) : quotes (a ++ b) = quotes a + quotes b.
Proof. unfold quotes. rewrite List.filter_app, length_app. reflexivity. Qed.

Lemma quotes_free (s : str) : no_ch dq s = true -> quotes s = 0.
Proof.
  unfold quotes. induction s as [|c s IH]; [reflexivity|].
  cbn. intros H. apply andb_true_iff in H as [Hc Hs].
  unfold not_ch in Hc. apply negb_true_iff in Hc.
  assert (ch_eqb dq c = false) as ->.
  { apply ch_eqb_false. apply ch_eqb_false in Hc. congruence. }
  apply IH, Hs.
Qed.

Lemma space_not_quote (s : str) :
  forallb is_space s = true -> no_ch dq s = true.
Proof.
  apply forallb_weaken. intros c Hc.
  destruct c as [[] [] [] [] [] [] [] []]; try discriminate Hc; reflexivity.
Qed.

Lemma span_fst_free (p : ascii -> bool) (q : ascii -> bool) (s : str) :
  forallb q s = true -> forallb q (fst (span p s)) = true.
Proof.
  intros H. destruct (span_split p s) as [E _]. rewrite E in H.
  rewrite forallb_app in H. apply andb_true_iff in H. tauto.
Qed.

(** The sanitizer finds both attributes in a placeholder. *)
Lemma valid_has_attributes (w1 slug w2 text : str) :
  nonempty slug = true -> no_ch dq slug = true ->
  nonempty text = true -> no_ch dq text = true ->
  lacks_attribute (render_seg (Link w1 slug w2 text)) = false.
Proof.
  intros Hslug Hq1 Htext Hq2. unfold lacks_attribute.
  set (whole := render_seg (Link w1 slug w2 text)).
  assert (Hsl : exists v, search (attr_re (txt "slug")) None whole = Some v
                          /\ v <> []).
  { pose proof (attr_re_at (txt "slug") slug
                  (w2 ++ jq "text='" ++ text ++ jq "']") None Hslug Hq1) as Hm.
    destruct (search_finds (attr_re (txt "slug")) (txt "[INTERNAL_LINK" ++ w1)
                _ _ _ None (attr_re_blind _) Hm) as [v [Hv [q [s [k Hk]]]]].
    exists v. split; [|apply (attr_re_value _ _ _ _ _ Hk)].
    rewrite <- Hv. unfold whole, render_seg.
    rewrite <- !app_assoc. reflexivity. }
  assert (Htx : exists v, search (attr_re (txt "text")) None whole = Some v
                          /\ v <> []).
  { pose proof (attr_re_at (txt "text") text (txt "]") None Htext Hq2) as Hm.
    destruct (search_finds (attr_re (txt "text"))
                (txt "[INTERNAL_LINK" ++ w1 ++ jq "slug='" ++ slug ++ [dq] ++ w2)
                _ _ _ None (attr_re_blind _) Hm) as [v [Hv [q [s [k Hk]]]]].
    exists v. split; [|apply (attr_re_value _ _ _ _ _ Hk)].
    rewrite <- Hv. unfold whole, render_seg.
    rewrite <- !app_assoc. reflexivity. }
  destruct Hsl as [v1 [-> Hv1]]. destruct Htx as [v2 [-> Hv2]].
  destruct v1; [congruence|]. destruct v2; [congruence|]. reflexivity.
Qed.

(** The placeholder pattern does not match at a malformed token,
    whatever follows the token. *)
Lemma broken_not_placeholder (body rest : str) p :
  good_piece (Broken body) = true ->
  placeholder_re p (render_piece (Broken body) ++ rest) = None.
Proof.
  cbn [good_piece]. rewrite !andb_true_iff. intros [[[Hopen Hclose] Heven] Hlack].
  destruct (placeholder_re p (render_piece (Broken body) ++ rest))
    as [[[slug text] n]|] eqn:E; [exfalso | reflexivity].
  apply placeholder_re_inv in E
    as [w1 [w2 [rest' [Hs [N1 [S1 [N2 [Q2 [N3 [S3 [N4 Q4]]]]]]]]]]].
  cbn [render_piece] in Hs. unfold render_seg in Hs.
  rewrite <- !app_assoc in Hs. apply app_inv_head in Hs.
  apply (f_equal (fun s => fst (span (not_ch "]"%char) s))) in Hs.
  unfold no_ch in Hclose.
  rewrite (span_app (not_ch "]"%char) body (txt "]" ++ rest) Hclose) in Hs
    by reflexivity.
  cbn [fst] in Hs.
  rewrite (span_pass _ w1 _ (space_not_bracket w1 S1)) in Hs.
  cbn [fst] in Hs.
  rewrite (span_pass (not_ch "]"%char) (jq "slug='") _ eq_refl) in Hs.
  cbn [fst] in Hs. rewrite span_app_gen in Hs.
  assert (Hodd : forall x, Nat.even x = true -> x <> 1 /\ x <> 3).
  { intros x Hx. split; intros ->; discriminate Hx. }
  destruct (snd (span (not_ch "]"%char) slug)) as [|c1 y1] eqn:E1.
  - cbn [fst] in Hs.
    change ([dq] ++ w2 ++ jq "text='" ++ text ++ jq "']" ++ rest')
      with ([dq] ++ (w2 ++ jq "text='" ++ text ++ jq "']" ++ rest')) in Hs.
    rewrite (span_pass (not_ch "]"%char) [dq] _ eq_refl) in Hs.
    cbn [fst] in Hs.
    rewrite (span_pass _ w2 _ (space_not_bracket w2 S3)) in Hs.
    cbn [fst] in Hs.
    rewrite (span_pass (not_ch "]"%char) (jq "text='") _ eq_refl) in Hs.
    cbn [fst] in Hs. rewrite span_app_gen in Hs.
    destruct (snd (span (not_ch "]"%char) text)) as [|c2 y2] eqn:E2.
    + cbn [fst] in Hs.
      change (fst (span (not_ch "]"%char) (jq "']" ++ rest'))) with [dq] in Hs.
      assert (Hw : render_piece (Broken body)
                   = render_seg (Link w1 slug w2 text)).
      { cbn [render_piece]. unfold render_seg. rewrite Hs.
        rewrite <- !app_assoc. reflexivity. }
      rewrite Hw, (valid_has_attributes w1 slug w2 text N2 Q2 N4 Q4) in Hlack.
      discriminate Hlack.
    + cbn [fst] in Hs. rewrite Hs in Heven.
      rewrite !quotes_app in Heven.
      rewrite (quotes_free w1 (space_not_quote w1 S1)) in Heven.
      rewrite (quotes_free slug Q2) in Heven.
      rewrite (quotes_free w2 (space_not_quote w2 S3)) in Heven.
      rewrite (quotes_free _ (span_fst_free (not_ch "]"%char) (not_ch dq) text Q4))
        in Heven.
      change (quotes (jq "slug='")) with 1 in Heven.
      change (quotes [dq]) with 1 in Heven.
      change (quotes (jq "text='")) with 1 in Heven.
      apply Hodd in Heven. lia.
  - cbn [fst] in Hs. rewrite Hs in Heven.
    rewrite !quotes_app in Heven.
    rewrite (quotes_free w1 (space_not_quote w1 S1)) in Heven.
    rewrite (quotes_free _ (span_fst_free (not_ch "]"%char) (not_ch dq) slug Q2))
      in Heven.
    change (quotes (jq "slug='")) with 1 in Heven.
    apply Hodd in Heven. lia.
Qed.

Lemma placeholder_re_needs_opener p (s : str) :
  strip_prefix (txt "[INTERNAL_LINK") s = None -> placeholder_re p s = None.
Proof. intros H. unfold placeholder_re. rewrite H. reflexivity. Qed.

Lemma token_re_needs_opener p (s : str) :
  strip_prefix (txt "[INTERNAL_LINK") s = None -> token_re p s = None.
Proof. intros H. unfold token_re. rewrite H. reflexivity. Qed.

(** Inside a token whose body holds no opening bracket, the opener of a
    token is found at the first position only. *)
Lemma no_opener_inside (body rest a1 a2 : str) :
  no_ch "["%char body = true ->
  txt "[INTERNAL_LINK" ++ body ++ txt "]" = a1 ++ a2 -> a1 <> [] -> a2 <> [] ->
  strip_prefix (txt "[INTERNAL_LINK") (a2 ++ rest) = None.
Proof.
  intros Hb E H1 H2. destruct a1 as [|c a1]; [congruence|].
  change (txt "[INTERNAL_LINK") with ("["%char :: txt "INTERNAL_LINK") in E.
  cbn [app] in E. injection E as _ E.
  assert (Hfree : no_ch "["%char (a1 ++ a2) = true).
  { rewrite <- E.
    change (no_ch "["%char (txt "INTERNAL_LINK" ++ body ++ txt "]") = true).
    unfold no_ch in *. rewrite !forallb_app, Hb. reflexivity. }
  unfold no_ch in Hfree. rewrite forallb_app in Hfree.
  apply andb_true_iff in Hfree as [_ Hfree].
  destruct a2 as [|x a2]; [congruence|].
  cbn in Hfree. apply andb_true_iff in Hfree as [Hx _].
  cbn [app]. change (txt "[INTERNAL_LINK") with ("["%char :: txt "INTERNAL_LINK").
  cbn [strip_prefix]. unfold not_ch in Hx. apply negb_true_iff in Hx.
  assert (ch_eqb "["%char x = false) as ->; [|reflexivity].
  apply ch_eqb_false. apply ch_eqb_false in Hx. congruence.
Qed.

Lemma tokens_pieces (d : list piece) (rest : str) p :
  good_doc d = true ->
  tokens_from placeholder_re 0 p (render_pieces d ++ rest)
  = flat_map piece_tokens d ++ tokens_from placeholder_re 0 p rest.
Proof.
  induction d as [|g d IH]; intros Hd; [reflexivity|].
  cbn [good_doc forallb] in Hd. apply andb_true_iff in Hd as [Hg Hd].
  cbn [render_pieces flat_map]. fold (render_pieces d). rewrite <- !app_assoc.
  destruct g as [s | w1 slug w2 text | body].
  - cbn [render_piece piece_tokens].
    rewrite (tokens_from_misses placeholder_re s _ p p placeholder_re_blind).
    + rewrite (IH Hd). reflexivity.
    + intros a1 a2 x E Hne. apply placeholder_re_needs_opener.
      apply (opener_miss s a1 a2 _ Hg E Hne).
  - cbn [piece_tokens render_piece].
    rewrite (tokens_from_hit placeholder_re _ _ (slug, text) p p
               placeholder_re_blind (render_link_nonempty _ _ _ _)
               (placeholder_re_link _ _ _ _ _ p Hg)).
    rewrite (IH Hd). reflexivity.
  - cbn [piece_tokens].
    rewrite (tokens_from_misses placeholder_re _ _ p p placeholder_re_blind).
    + rewrite (IH Hd). reflexivity.
    + intros a1 a2 x E Hne. destruct a1 as [|c a1].
      * cbn [app] in E. subst a2. apply broken_not_placeholder, Hg.
      * apply placeholder_re_needs_opener.
        cbn [good_piece] in Hg. rewrite !andb_true_iff in Hg.
        destruct Hg as [[[Hopen _] _] _].
        apply (no_opener_inside body _ (c :: a1) a2 Hopen E);
          [discriminate | exact Hne].
Qed.

End PieceFacts.

Section SearchFacts.
Import Links LinkDoc TokenDoc.

Lemma barrier_quote : barrier dq.
Proof. intros a. destruct a as [[] [] [] [] [] [] [] []]; reflexivity. Qed.

Lemma barrier_open : barrier "["%char.
Proof. intros a. destruct a as [[] [] [] [] [] [] [] []]; reflexivity. Qed.

Lemma barrier_close : barrier "]"%char.
Proof. intros a. destruct a as [[] [] [] [] [] [] [] []]; reflexivity. Qed.

Lemma before_class_canon (a : ascii) :
  before_class (canon_ch a) = before_class a.
Proof. destruct a as [[] [] [] [] [] [] [] []]; reflexivity. Qed.

Lemma after_class_canon (a : ascii) :
  after_class (canon_ch a) = after_class a.
Proof. destruct a as [[] [] [] [] [] [] [] []]; reflexivity. Qed.

Lemma strip_ci_barrier (k : ascii) (term x y : str) :
  barrier k -> no_ch k term = true ->
  strip_prefix_ci term (x ++ k :: y)
  = option_map (fun r => r ++ k :: y) (strip_prefix_ci term x).
Proof.
  intros Hk. revert x. induction term as [|a t IH]; intros x Ht.
  - reflexivity.
  - cbn in Ht. apply andb_true_iff in Ht as [Ha Ht].
    destruct x as [|b x]; cbn [app strip_prefix_ci].
    + rewrite Hk. unfold not_ch in Ha. apply negb_true_iff in Ha.
      rewrite Ha. reflexivity.
    + destruct (ch_eqb (canon_ch a) (canon_ch b)); [|reflexivity].
      apply IH, Ht.
Qed.

Lemma search_re_barrier (k : ascii) (term x y y' : str) prev :
  barrier k -> no_ch k term = true ->
  search_re term prev (x ++ k :: y) = search_re term prev (x ++ k :: y').
Proof.
  intros Hk Ht. unfold search_re.
  destruct prev as [b|]; [|reflexivity].
  destruct (before_class b); [|reflexivity].
  rewrite !(strip_ci_barrier k term x _ Hk Ht).
  destruct (strip_prefix_ci term x) as [[|a r]|]; reflexivity.
Qed.

Lemma strip_ci_short (term x : str) :
  length x < length term -> strip_prefix_ci term x = None.
Proof.
  revert x. induction term as [|a t IH]; intros x H; [cbn in H; lia|].
  destruct x as [|b x]; [reflexivity|]. cbn [strip_prefix_ci].
  destruct (ch_eqb _ _); [|reflexivity]. apply IH. cbn in H. lia.
Qed.

(** A term longer than what stands before a barrier does not match. *)
Lemma search_re_short (k : ascii) (term x y : str) prev :
  barrier k -> no_ch k term = true -> length x < length term ->
  search_re term prev (x ++ k :: y) = None.
Proof.
  intros Hk Ht Hl. unfold search_re.
  destruct prev as [b|]; [|reflexivity].
  destruct (before_class b); [|reflexivity].
  rewrite (strip_ci_barrier k term x _ Hk Ht), (strip_ci_short term x Hl).
  reflexivity.
Qed.

Lemma search_re_at_barrier (k : ascii) (term y : str) prev :
  barrier k -> no_ch k term = true -> term <> [] ->
  search_re term prev (k :: y) = None.
Proof.
  intros Hk Ht Hne. apply (search_re_short k term [] y prev Hk Ht).
  destruct term; [congruence | cbn; lia].
Qed.

Lemma search_re_end (term : str) prev :
  term <> [] -> search_re term prev [] = None.
Proof.
  intros Hne. unfold search_re. destruct prev as [b|]; [|reflexivity].
  destruct (before_class b); [|reflexivity].
  destruct term; [congruence | reflexivity].
Qed.

Lemma last_seen_app (prev : option ascii) (x y : str) :
  last_seen prev (x ++ y) = last_seen (last_seen prev x) y.
Proof. unfold last_seen. apply fold_left_app. Qed.

Lemma last_seen_last (prev : option ascii) (x : str) (c : ascii) :
  last_seen prev (x ++ [c]) = Some c.
Proof. rewrite last_seen_app. reflexivity. Qed.

Lemma hush_app (term : str) prev (x y rest : str) :
  hush term prev (x ++ y) rest
  <-> hush term prev x (y ++ rest) /\ hush term (last_seen prev x) y rest.
Proof.
  revert prev. induction x as [|c x IH]; intros prev.
  - cbn. tauto.
  - cbn [app hush]. rewrite IH, <- app_assoc.
    change (last_seen prev (c :: x)) with (last_seen (Some c) x). tauto.
Qed.

Lemma replace_first_hush (term : str) (f : str -> unit -> str) prev
    (s rest : str) :
  hush term prev s rest ->
  replace_first_from (search_re term) f prev (s ++ rest)
  = option_map (app s)
      (replace_first_from (search_re term) f (last_seen prev s) rest).
Proof.
  revert prev. induction s as [|c s IH]; intros prev H.
  - cbn. destruct (replace_first_from _ _ _ _); reflexivity.
  - cbn [hush] in H. destruct H as [H0 H].
    cbn [app]. 
    change (replace_first_from (search_re term) f prev (c :: s ++ rest))
      with (match search_re term prev (c :: s ++ rest) with
            | Some (r, n) =>
                Some (f (firstn n (c :: s ++ rest)) r ++ skipn n (c :: s ++ rest))
            | None =>
                option_map (cons c)
                  (replace_first_from (search_re term) f (Some c) (s ++ rest))
            end).
    rewrite H0, (IH (Some c) H).
    change (last_seen prev (c :: s)) with (last_seen (Some c) s).
    destruct (replace_first_from _ _ _ rest); reflexivity.
Qed.

Lemma found_hush (term : str) (c : ascii) (s : str) :
  found term (c :: s) = false <-> hush term (Some c) s [].
Proof.
  revert c. induction s as [|x s IH]; intros c.
  - cbn. unfold search_re.
    split; [tauto|]. intros _.
    destruct (before_class c); [|reflexivity].
    destruct term; reflexivity.
  - change (found term (c :: x :: s))
      with (match search_re term (Some c) (x :: s) with
            | Some _ => true
            | None => false
            end || found term (x :: s)).
    cbn [hush]. rewrite app_nil_r, <- IH, orb_false_iff.
    destruct (search_re term (Some c) (x :: s)); split; intros [H1 H2];
      split; congruence.
Qed.

(** What follows a barrier does not change whether the term is found
    before it. *)
Lemma hush_barrier (k : ascii) (term x rest rest' : str) prev :
  barrier k -> no_ch k term = true ->
  hush term prev (x ++ [k]) rest -> hush term prev (x ++ [k]) rest'.
Proof.
  intros Hk Ht. revert prev. induction x as [|c x IH]; intros prev.
  - cbn. intros [H _]. split; [|exact I].
    rewrite <- H. apply (search_re_barrier k term [] rest' rest prev Hk Ht).
  - cbn [app hush]. intros [H0 H]. split; [|apply IH, H].
    rewrite <- H0. rewrite <- !app_assoc.
    apply (search_re_barrier k term (c :: x) rest' rest prev Hk Ht).
Qed.

(** A term that is not found inside an attribute value is not found
    there whatever follows the closing quote. *)
Lemma value_hush (term v rest : str) :
  no_ch dq term = true -> found_in_value term v = false ->
  hush term (Some dq) (v ++ [dq]) rest.
Proof.
  intros Ht H. apply found_hush in H.
  apply (hush_barrier dq term v [] rest _ barrier_quote Ht H).
Qed.

(** A term that is not found in a token is not found there wherever the
    token stands. *)
Lemma token_quiet (term body : str) :
  plain_term term = true -> term <> [] ->
  found term ("["%char :: body ++ ["]"%char]) = false ->
  quiet term ("["%char :: body ++ ["]"%char]).
Proof.
  unfold plain_term. rewrite !andb_true_iff. intros [[Hq Ho] Hc] Hne H.
  intros prev rest. cbn [hush]. split.
  - apply (search_re_at_barrier "["%char term _ prev barrier_open Ho Hne).
  - apply found_hush in H.
    apply (hush_barrier "]"%char term body [] rest _ barrier_close Hc H).
Qed.

End SearchFacts.

Section WrittenFacts.
Import Links LinkDoc TokenDoc.

(** The search pattern of a term of more than five characters without
    double quote and opening bracket matches nowhere in a placeholder
    that the repair or the quota step writes, if it is found neither in
    the slug nor in the anchor text. *)
Lemma written_quiet (term S W : str) :
  plain_term term = true -> 5 < length term ->
  found_in_value term S = false -> found_in_value term W = false ->
  quiet term (render_piece (Valid (txt " ") S (txt " ") W)).
Proof.
  unfold plain_term. rewrite !andb_true_iff. intros [[Hq Ho] Hc] Hlen HS HW.
  assert (Hne : term <> []) by (destruct term; [cbn in Hlen; lia | discriminate]).
  assert (E : render_piece (Valid (txt " ") S (txt " ") W)
              = jq "[INTERNAL_LINK slug='" ++ (S ++ [dq]) ++ jq " text='"
                ++ (W ++ [dq]) ++ txt "]").
  { cbn [render_piece]. unfold render_seg. rewrite <- !app_assoc. reflexivity. }
  rewrite E. intros prev rest.
  apply hush_app. split; [|apply hush_app; split; [|apply hush_app; split;
    [|apply hush_app; split]]].
  - let v := eval vm_compute in (jq "[INTERNAL_LINK slug='") in
    change (jq "[INTERNAL_LINK slug='") with v.
    cbn [hush app]. repeat split; try reflexivity.
    + apply (search_re_at_barrier "["%char term _ prev barrier_open Ho Hne).
    + apply (search_re_short dq term (txt "slug=") _ _ barrier_quote Hq Hlen).
  - rewrite <- !app_assoc. apply (value_hush term S _ Hq HS).
  - rewrite last_seen_last.
    let v := eval vm_compute in (jq " text='") in
    change (jq " text='") with v.
    cbn [hush app]. repeat split; try reflexivity.
    apply (search_re_short dq term (txt "text=") _ _ barrier_quote Hq).
    cbn. lia.
  - rewrite last_seen_last.
    assert (L : last_seen (Some dq) (jq " text='") = Some dq) by reflexivity.
    rewrite L. apply (value_hush term W _ Hq HW).
  - rewrite last_seen_last. cbn [hush app txt list_ascii_of_string].
    split; [reflexivity | exact I].
Qed.

End WrittenFacts.

Section FoldFacts.
Import Links LinkDoc TokenDoc.

(** What a term matches is the term up to the case of its letters. *)
Lemma strip_ci_split (term s r : str) :
  strip_prefix_ci term s = Some r ->
  exists w, s = w ++ r /\ map canon_ch w = map canon_ch term.
Proof.
  revert s. induction term as [|a t IH]; intros s H.
  - cbn in H. injection H as <-. exists []. split; reflexivity.
  - destruct s as [|b s]; [discriminate H|]. cbn [strip_prefix_ci] in H.
    destruct (ch_eqb (canon_ch a) (canon_ch b)) eqn:E; [|discriminate H].
    apply ch_eqb_true in E. destruct (IH s H) as [w [-> Hw]].
    exists (b :: w). split; [reflexivity|]. cbn [map]. rewrite Hw, E.
    reflexivity.
Qed.

Lemma strip_ci_canon (term s s' : str) :
  map canon_ch s = map canon_ch s' ->
  match strip_prefix_ci term s, strip_prefix_ci term s' with
  | Some r, Some r' => map canon_ch r = map canon_ch r'
  | None, None => True
  | _, _ => False
  end.
Proof.
  revert s s'. induction term as [|a t IH]; intros s s' H.
  - exact H.
  - destruct s as [|b s], s' as [|b' s']; try discriminate H; [exact I|].
    cbn [map] in H. injection H as Hb H. cbn [strip_prefix_ci].
    rewrite Hb. destruct (ch_eqb (canon_ch a) (canon_ch b')); [|exact I].
    apply IH, H.
Qed.

Lemma search_re_canon (term s s' : str) (c c' : ascii) :
  canon_ch c = canon_ch c' -> map canon_ch s = map canon_ch s' ->
  search_re term (Some c) s = search_re term (Some c') s'.
Proof.
  intros Hc Hs. unfold search_re.
  rewrite <- (before_class_canon c), Hc, before_class_canon.
  destruct (before_class c'); [|reflexivity].
  pose proof (strip_ci_canon term s s' Hs) as H.
  destruct (strip_prefix_ci term s) as [r|], (strip_prefix_ci term s') as [r'|];
    try contradiction; [|reflexivity].
  destruct r as [|a r], r' as [|a' r']; try discriminate H; [reflexivity|].
  cbn [map] in H. injection H as Ha _.
  rewrite <- (after_class_canon a), Ha, after_class_canon. reflexivity.
Qed.

Lemma found_canon (term s s' : str) :
  map canon_ch s = map canon_ch s' -> found term s = found term s'.
Proof.
  revert s'. induction s as [|c s IH]; intros [|c' s'] H; try discriminate H;
    [reflexivity|].
  cbn [map] in H. injection H as Hc H. cbn [found].
  rewrite (search_re_canon term s s' c c' Hc H), (IH s' H). reflexivity.
Qed.

Lemma found_in_value_canon (term v v' : str) :
  map canon_ch v = map canon_ch v' ->
  found_in_value term v = found_in_value term v'.
Proof.
  intros H. unfold found_in_value. apply found_canon.
  cbn [map]. rewrite !map_app, H. reflexivity.
Qed.

Lemma no_ch_canon (k : ascii) (s s' : str) :
  barrier k -> map canon_ch s = map canon_ch s' ->
  no_ch k s = no_ch k s'.
Proof.
  intros Hk. unfold no_ch. revert s'.
  induction s as [|c s IH]; intros [|c' s'] H;
    try discriminate H; [reflexivity|].
  cbn [map] in H. injection H as Hc H. cbn [forallb].
  rewrite (IH s' H). unfold not_ch.
  rewrite <- (Hk c), <- (Hk c'), Hc. reflexivity.
Qed.

(** A term that is not found in a placeholder is not found in its anchor
    text. *)
Lemma anchor_apart (term w1 slug w2 text : str) :
  no_ch dq term = true ->
  found term (render_piece (Valid w1 slug w2 text)) = false ->
  found_in_value term text = false.
Proof.
  intros Hq H.
  assert (E : render_piece (Valid w1 slug w2 text)
              = "["%char
                :: (txt "INTERNAL_LINK" ++ w1 ++ jq "slug='" ++ slug ++ [dq]
                    ++ w2 ++ txt "text=" ++ [dq])
                   ++ (text ++ [dq]) ++ txt "]").
  { cbn [render_piece]. unfold render_seg. rewrite <- !app_assoc. reflexivity. }
  rewrite E in H. apply found_hush in H.
  apply hush_app in H as [_ H]. apply hush_app in H as [H _].
  rewrite !app_assoc, last_seen_last in H. apply found_hush.
  apply (hush_barrier dq term text _ [] _ barrier_quote Hq H).
Qed.

Lemma insert_by_length_in (x y : str) (l : list str) :
  In x (insert_by_length y l) -> x = y \/ In x l.
Proof.
  induction l as [|z l IH]; cbn [insert_by_length].
  - intros [H | []]. left. congruence.
  - destruct (length z <=? length y).
    + intros [H | H]; [left; congruence | right; exact H].
    + intros [H | H]; [right; left; exact H|].
      destruct (IH H) as [H1 | H1]; [left; exact H1 | right; right; exact H1].
Qed.

Lemma sort_longest_first_in (x : str) (l : list str) :
  In x (sort_longest_first l) -> In x l.
Proof.
  induction l as [|y l IH]; [intros []|].
  cbn [sort_longest_first fold_right]. intros H.
  apply insert_by_length_in in H as [H | H]; [left; congruence|].
  right. apply IH, H.
Qed.

Lemma unique_long_in (x : str) (seen l : list str) :
  In x (unique_long_from seen l) -> 10 < length x.
Proof.
  revert seen. induction l as [|v l IH]; intros seen; [intros []|].
  cbn [unique_long_from]. intros H. apply in_app_or in H as [H | H].
  - destruct (negb (set_has seen v)); [|destruct H].
    destruct (Nat.ltb_spec 10 (length v)); [|destruct H].
    destruct H as [<- | []]. assumption.
  - apply (IH _ H).
Qed.

(** Every search term has more than ten characters. *)
Lemma searchTerms_long (title term : str) :
  In term (searchTerms title) -> 10 < length term.
Proof.
  unfold searchTerms. intros H. apply sort_longest_first_in in H.
  apply (unique_long_in _ _ _ H).
Qed.

Lemma candidatePages_in (linked : list (option str)) (pages : list page)
    (p : page) (terms : list str) :
  In (p, terms) (candidatePages linked pages) ->
  In p pages /\ terms = searchTerms (title p) /\ truthy (slug p) = true.
Proof.
  unfold candidatePages. intros H. apply List.filter_In in H as [H _].
  apply in_map_iff in H as [q [E H]]. injection E as -> <-.
  apply List.filter_In in H as [H1 H2].
  rewrite !andb_true_iff in H2. tauto.
Qed.

End FoldFacts.

Section InjectFacts.
Import Links LinkDoc RepairDoc TokenDoc.

Lemma replace_first_step {R} (m : matcher R) (f : str -> R -> str) prev
    (c : ascii) (s : str) :
  replace_first_from m f prev (c :: s)
  = match m prev (c :: s) with
    | Some (r, n) => Some (f (firstn n (c :: s)) r ++ skipn n (c :: s))
    | None => option_map (cons c) (replace_first_from m f (Some c) s)
    end.
Proof. reflexivity. Qed.

(** What the search pattern matches. *)
Lemma search_re_inv (term s : str) prev (n : nat) :
  search_re term prev s = Some (tt, n) ->
  n = length term
  /\ (exists b, prev = Some b /\ before_class b = true)
  /\ exists r, strip_prefix_ci term s = Some r.
Proof.
  unfold search_re. destruct prev as [b|]; [|discriminate].
  destruct (before_class b) eqn:Eb; [|discriminate].
  destruct (strip_prefix_ci term s) as [[|a r]|]; try discriminate.
  destruct (after_class a); [|discriminate].
  intros H. injection H as <-. eauto 6.
Qed.

(** The leftmost match of a term in a text that a token or nothing
    follows lies in the text. *)
Lemma search_in_text (term : str) (f : str -> unit -> str) (s rest : str) :
  no_ch "["%char term = true ->
  (rest = [] \/ exists r, rest = "["%char :: r) ->
  forall prev,
  (exists s1 whole s2,
     s = s1 ++ whole ++ s2
     /\ map canon_ch whole = map canon_ch term
     /\ replace_first_from (search_re term) f prev (s ++ rest)
        = Some (s1 ++ f whole tt ++ s2 ++ rest)
     /\ (s1 = [] -> exists b, prev = Some b /\ before_class b = true)
     /\ (s1 = [] \/ exists a c, s1 = a ++ [c] /\ before_class c = true))
  \/ replace_first_from (search_re term) f prev (s ++ rest)
     = option_map (app s)
         (replace_first_from (search_re term) f (last_seen prev s) rest).
Proof.
  intros Ho Hrest. induction s as [|c s IH]; intros prev.
  - right. cbn. destruct (replace_first_from _ _ _ _); reflexivity.
  - cbn [app]. rewrite replace_first_step.
    destruct (search_re term prev (c :: s ++ rest)) as [[[] n]|] eqn:E.
    + left. apply search_re_inv in E as [-> [Hprev [r Hr]]].
      assert (Hin : exists x, strip_prefix_ci term (c :: s) = Some x
                              /\ r = x ++ rest).
      { destruct Hrest as [-> | [r0 ->]].
        - rewrite app_nil_r in Hr. exists r. rewrite app_nil_r. auto.
        - change (c :: s ++ "["%char :: r0) with ((c :: s) ++ "["%char :: r0)
            in Hr.
          rewrite (strip_ci_barrier "["%char term (c :: s) r0 barrier_open Ho)
            in Hr.
          destruct (strip_prefix_ci term (c :: s)) as [x|]; [|discriminate Hr].
          cbn in Hr. injection Hr as <-. eauto. }
      destruct Hin as [x [Hx ->]].
      apply strip_ci_split in Hx as [w [Hs Hw]].
      exists [], w, x. split; [exact Hs|]. split; [exact Hw|].
      split; [|split; [intros _; exact Hprev | left; reflexivity]].
      f_equal. cbn [app].
      assert (Hl : length term = length w).
      { rewrite <- (length_map canon_ch w), Hw, length_map. reflexivity. }
      change (c :: s ++ rest) with ((c :: s) ++ rest).
      rewrite Hs, <- app_assoc, Hl.
      rewrite (proj1 (firstn_skipn_at w _)), (proj2 (firstn_skipn_at w _)).
      reflexivity.
    + destruct (IH (Some c)) as [[s1 [whole [s2 [Hs [Hw [Hr [Hp Hl]]]]]]] | Hr].
      * left. exists (c :: s1), whole, s2.
        split; [rewrite Hs; reflexivity|]. split; [exact Hw|].
        split; [rewrite Hr; reflexivity|].
        split; [discriminate|]. right.
        destruct Hl as [-> | [a [x [-> Hx]]]].
        -- destruct (Hp eq_refl) as [b [Hb Hc]]. injection Hb as <-.
           exists [], c. auto.
        -- exists (c :: a), x. auto.
      * right. rewrite Hr.
        change (last_seen prev (c :: s)) with (last_seen (Some c) s).
        destruct (replace_first_from _ _ _ rest); reflexivity.
Qed.

Lemma placeholder_piece (S W : str) :
  placeholder S W = render_piece (Valid (txt " ") S (txt " ") W).
Proof.
  unfold placeholder. cbn [render_piece]. unfold render_seg.
  change (jq "[INTERNAL_LINK slug='")
    with (txt "[INTERNAL_LINK" ++ txt " " ++ jq "slug='").
  change (jq "' text='") with ([dq] ++ txt " " ++ jq "text='").
  rewrite <- !app_assoc. reflexivity.
Qed.

Lemma canon_length (a b : str) :
  map canon_ch a = map canon_ch b -> length a = length b.
Proof.
  intros H. rewrite <- (length_map canon_ch a), H, length_map. reflexivity.
Qed.

Lemma separated_tail (g : piece) (d : list piece) :
  separated (g :: d) = true -> separated d = true.
Proof.
  destruct g; cbn [separated]; try tauto.
  destruct d as [|[] d]; [reflexivity | discriminate | tauto | tauto].
Qed.

Lemma token_starts (g : piece) :
  is_token g = true -> exists r, render_piece g = "["%char :: r.
Proof.
  destruct g as [s | w1 slug w2 text | body]; [discriminate | |];
    intros _; eexists; reflexivity.
Qed.

(** What follows a text in a document without adjacent texts is a token
    or nothing. *)
Lemma after_text (s : str) (d : list piece) :
  separated (Text s :: d) = true ->
  render_pieces d = [] \/ exists r, render_pieces d = "["%char :: r.
Proof.
  destruct d as [|g d]; [left; reflexivity|].
  destruct g as [t | w1 slug w2 text | body]; cbn [separated];
    [discriminate | |]; intros _; right; eexists; reflexivity.
Qed.

(** One injection: in a document without adjacent texts whose tokens are
    quiet for the term, the leftmost match of the term lies in a text,
    and the result is the document with a placeholder in that text. *)
Lemma inject_term (term S : str) (d : list piece) :
  no_ch "["%char term = true -> term <> [] ->
  good_doc d = true -> separated d = true ->
  (forall g, In g d -> is_token g = true -> quiet term (render_piece g)) ->
  forall prev out,
  replace_first_from (search_re term)
    (fun whole _ => placeholder S whole) prev (render_pieces d) = Some out ->
  exists d1 s1 whole s2 d2,
    d = d1 ++ Text (s1 ++ whole ++ s2) :: d2
    /\ out = render_pieces
               (d1 ++ Text s1 :: Valid (txt " ") S (txt " ") whole
                   :: Text s2 :: d2)
    /\ map canon_ch whole = map canon_ch term
    /\ calm s1 = true /\ calm s2 = true.
Proof.
  intros Ho Hne. induction d as [|g d IH]; intros Hgood Hsep Hq prev out H.
  - cbn in H. rewrite (search_re_end term prev Hne) in H. discriminate H.
  - cbn [good_doc forallb] in Hgood. apply andb_true_iff in Hgood as [Hg Hd].
    pose proof (separated_tail g d Hsep) as Hsep'.
    assert (Hq' : forall g0, In g0 d -> is_token g0 = true ->
                             quiet term (render_piece g0)).
    { intros g0 Hin. apply Hq. right. exact Hin. }
    cbn [render_pieces flat_map] in H. fold (render_pieces d) in H.
    assert (Hnext : forall prev' out',
               replace_first_from (search_re term)
                 (fun whole _ => placeholder S whole) prev' (render_pieces d)
               = Some out' ->
               exists d1 s1 whole s2 d2,
                 g :: d = d1 ++ Text (s1 ++ whole ++ s2) :: d2
                 /\ render_piece g ++ out'
                    = render_pieces
                        (d1 ++ Text s1 :: Valid (txt " ") S (txt " ") whole
                            :: Text s2 :: d2)
                 /\ map canon_ch whole = map canon_ch term
                 /\ calm s1 = true /\ calm s2 = true).
    { intros prev' out' H'.
      destruct (IH Hd Hsep' Hq' prev' out' H')
        as [d1 [s1 [whole [s2 [d2 [E [Eo [Hw [K1 K2]]]]]]]]].
      exists (g :: d1), s1, whole, s2, d2.
      split; [rewrite E; reflexivity|].
      split; [rewrite Eo; reflexivity | auto]. }
    destruct (is_token g) eqn:Etok.
    + rewrite (replace_first_hush term _ prev _ _
                 (Hq g (or_introl eq_refl) Etok prev (render_pieces d))) in H.
      destruct (replace_first_from _ _ _ (render_pieces d)) as [out'|] eqn:E';
        [|discriminate H].
      cbn in H. injection H as <-. apply (Hnext _ _ E').
    + destruct g as [s | |]; try discriminate Etok.
      cbn [render_piece] in H |- *. cbn [good_piece] in Hg.
      destruct (search_in_text term (fun whole _ => placeholder S whole) s
                  (render_pieces d) Ho (after_text s d Hsep) prev)
        as [[s1 [whole [s2 [Hs [Hw [Hr [_ Hl]]]]]]] | Hr].
      * rewrite Hr in H.
        assert (Eo : out = s1 ++ placeholder S whole ++ s2 ++ render_pieces d)
          by congruence.
        clear H. subst out.
        exists [], s1, whole, s2, d. cbn [app].
        split; [rewrite Hs; reflexivity|].
        split.
        { rewrite placeholder_piece. unfold render_pieces.
          cbn [flat_map render_piece]. rewrite <- ?app_assoc. reflexivity. }
        split; [exact Hw|]. rewrite Hs in Hg. split.
        -- apply (calm_prefix s1 _ Hg Hl).
        -- apply (calm_suffix whole), (calm_suffix s1), Hg.
      * rewrite Hr in H.
        destruct (replace_first_from _ _ _ (render_pieces d)) as [out'|] eqn:E';
          [|discriminate H].
        cbn in H. injection H as <-. apply (Hnext _ _ E').
Qed.

End InjectFacts.

Section MergeFacts.
Import Links LinkDoc TokenDoc.

Lemma render_merge (d : list piece) :
  render_pieces (merge d) = render_pieces d.
Proof.
  induction d as [|g d IH]; [reflexivity|].
  destruct g as [s | w1 slug w2 text | body]; cbn [merge].
  - destruct (merge d) as [|[t | |] m]; unfold render_pieces in *;
      cbn [flat_map render_piece] in *; rewrite <- IH; try reflexivity.
    rewrite app_assoc. reflexivity.
  - unfold render_pieces in *. cbn [flat_map]. rewrite IH. reflexivity.
  - unfold render_pieces in *. cbn [flat_map]. rewrite IH. reflexivity.
Qed.

Lemma good_merge (d : list piece) :
  good_doc d = true -> good_doc (merge d) = true.
Proof.
  induction d as [|g d IH]; [reflexivity|].
  cbn [good_doc forallb]. intros H. apply andb_true_iff in H as [Hg Hd].
  specialize (IH Hd).
  destruct g as [s | w1 slug w2 text | body]; cbn [merge].
  - destruct (merge d) as [|[t | |] m]; cbn [good_doc forallb] in *;
      try (rewrite Hg; exact IH).
    apply andb_true_iff in IH as [Ht Hm]. cbn [good_piece] in *.
    rewrite (calm_app s t Hg Ht). exact Hm.
  - cbn [good_doc forallb]. rewrite Hg. exact IH.
  - cbn [good_doc forallb]. rewrite Hg. exact IH.
Qed.

Lemma separated_merge (d : list piece) : separated (merge d) = true.
Proof.
  induction d as [|g d IH]; [reflexivity|].
  destruct g as [s | w1 slug w2 text | body]; cbn [merge]; [|exact IH..].
  destruct (merge d) as [|[t | |] m]; cbn [separated] in *; exact IH.
Qed.

Lemma merge_tokens (d : list piece) (g : piece) :
  In g (merge d) -> is_token g = true -> In g d.
Proof.
  induction d as [|x d IH]; [intros []|].
  destruct x as [s | w1 slug w2 text | body]; cbn [merge].
  - destruct (merge d) as [|[t | |] m].
    + intros [<- | []]. discriminate.
    + intros [<- | H] Hg; [discriminate|]. right. apply IH; [right; exact H | exact Hg].
    + intros [<- | H] Hg; [discriminate|]. right. apply IH; assumption.
    + intros [<- | H] Hg; [discriminate|]. right. apply IH; assumption.
  - intros [<- | H] Hg; [left; reflexivity|]. right. apply IH; assumption.
  - intros [<- | H] Hg; [left; reflexivity|]. right. apply IH; assumption.
Qed.

(** A token begins with an opening bracket and ends with a closing
    one. *)
Lemma token_shape (g : piece) :
  is_token g = true ->
  exists body, render_piece g = "["%char :: body ++ ["]"%char].
Proof.
  destruct g as [s | w1 slug w2 text | body]; [discriminate | |]; intros _.
  - exists (txt "INTERNAL_LINK" ++ w1 ++ jq "slug='" ++ slug ++ [dq] ++ w2
            ++ jq "text='" ++ text ++ [dq]).
    cbn [render_piece]. unfold render_seg. rewrite <- !app_assoc. reflexivity.
  - exists (txt "INTERNAL_LINK" ++ body).
    cbn [render_piece]. rewrite <- !app_assoc. reflexivity.
Qed.

Lemma all_terms_in (pages : list page) (t : str) :
  In t (all_terms pages) <->
  exists p terms, In (p, terms) (candidatePages [] pages) /\ In t terms.
Proof.
  unfold all_terms. rewrite in_flat_map. split.
  - intros [[p terms] [H1 H2]]. eauto.
  - intros [p [terms [H1 H2]]]. exists (p, terms). auto.
Qed.

Lemma all_terms_long (pages : list page) (t : str) :
  In t (all_terms pages) -> 10 < length t.
Proof.
  intros H. apply all_terms_in in H as [p [terms [Hc H]]].
  apply candidatePages_in in Hc as [_ [-> _]].
  apply (searchTerms_long _ _ H).
Qed.

(** The candidates are among those of a content without links. *)
Lemma candidatePages_any (linked : list (option str)) (pages : list page)
    (c : page * list str) :
  In c (candidatePages linked pages) -> In c (candidatePages [] pages).
Proof.
  unfold candidatePages. intros H. apply List.filter_In in H as [H Hc].
  apply List.filter_In. split; [|exact Hc].
  apply in_map_iff in H as [p [E H]]. apply in_map_iff. exists p.
  split; [exact E|]. apply List.filter_In in H as [H1 H2].
  apply List.filter_In. split; [exact H1|].
  rewrite !andb_true_iff in H2. destruct H2 as [[[Hs Ht] _] Hw].
  cbn [existsb negb]. rewrite Hs, Ht, Hw. reflexivity.
Qed.

End MergeFacts.

Section QuotaFacts.
Import Links LinkDoc RepairDoc TokenDoc.
Variable pages : list page.
Hypothesis slugs_free : slugs_quote_free pages = true.
Hypothesis plain : forall t, In t (all_terms pages) -> plain_term t = true.
Hypothesis slugs_apart :
  forall t p, In t (all_terms pages) -> In p pages ->
  found_in_value t (slug p) = false.
Hypothesis terms_away :
  forall t t', In t (all_terms pages) -> In t' (all_terms pages) ->
  found_in_value t t' = false.

Lemma plain_parts (t : str) :
  In t (all_terms pages) ->
  no_ch dq t = true /\ no_ch "["%char t = true /\ no_ch "]"%char t = true
  /\ t <> [] /\ 5 < length t.
Proof.
  intros H. pose proof (plain t H) as Hp. pose proof (all_terms_long _ _ H) as Hl.
  unfold plain_term in Hp. rewrite !andb_true_iff in Hp.
  destruct Hp as [[H1 H2] H3]. repeat split; try assumption; [|lia].
  destruct t; [cbn in Hl; lia | discriminate].
Qed.

(** One injection keeps the content settled. *)
Lemma settled_inject_one (content out term : str) (p : page) prev :
  settled (all_terms pages) content ->
  In p pages -> truthy (slug p) = true -> In term (all_terms pages) ->
  replace_first_from (search_re term)
    (fun whole _ => placeholder (slug p) whole) prev content = Some out ->
  settled (all_terms pages) out.
Proof.
  intros [d [-> [Hgood Hquiet]]] Hp Hslug Hterm H.
  destruct (plain_parts term Hterm) as [Tq [To [Tc [Tne Tl]]]].
  rewrite <- render_merge in H.
  destruct (inject_term term (slug p) (merge d) To Tne (good_merge d Hgood)
              (separated_merge d)) with (prev := prev) (out := out)
    as [d1 [s1 [whole [s2 [d2 [E [-> [Hw [K1 K2]]]]]]]]].
  { intros g Hin Hg. apply (Hquiet term g Hterm (merge_tokens d g Hin Hg) Hg). }
  { exact H. }
  pose proof (good_merge d Hgood) as Hm. rewrite E in Hm.
  unfold good_doc in Hm. rewrite forallb_app in Hm.
  apply andb_true_iff in Hm as [Hd1 Hd2]. cbn [forallb] in Hd2.
  apply andb_true_iff in Hd2 as [_ Hd2].
  exists (d1 ++ Text s1 :: Valid (txt " ") (slug p) (txt " ") whole
             :: Text s2 :: d2).
  split; [reflexivity|]. split.
  - unfold good_doc. rewrite forallb_app, Hd1. cbn [forallb good_piece andb].
    rewrite K1, K2, Hd2, !andb_true_r.
    apply wf_link_space.
    + rewrite <- truthy_nonempty. exact Hslug.
    + apply (slugs_quote_free_in pages p slugs_free Hp).
    + pose proof (canon_length _ _ Hw) as Hl.
      destruct whole; [cbn in Hl; lia | reflexivity].
    + rewrite (no_ch_canon dq whole term barrier_quote Hw). exact Tq.
    + rewrite (no_ch_canon "["%char whole term barrier_open Hw). exact To.
  - intros t g Ht Hin Hg.
    assert (Hold : In g (merge d) -> quiet t (render_piece g)).
    { intros Hi. apply (Hquiet t g Ht (merge_tokens d g Hi Hg) Hg). }
    apply in_app_or in Hin as [Hin | [<- | [<- | [<- | Hin]]]];
      try discriminate Hg.
    + apply Hold. rewrite E. apply in_or_app. left. exact Hin.
    + destruct (plain_parts t Ht) as [_ [_ [_ [_ Hl]]]].
      apply (written_quiet t (slug p) whole (plain t Ht) Hl).
      * apply (slugs_apart t p Ht Hp).
      * rewrite (found_in_value_canon t whole term Hw).
        apply (terms_away t term Ht Hterm).
    + apply Hold. rewrite E. apply in_or_app. right. right. exact Hin.
Qed.

Lemma settled_place_link (p : page) (terms : list str) (content out : str) :
  settled (all_terms pages) content ->
  In p pages -> truthy (slug p) = true ->
  (forall t, In t terms -> In t (all_terms pages)) ->
  place_link p terms content = Some out ->
  settled (all_terms pages) out.
Proof.
  intros Hs Hp Hslug. induction terms as [|term terms IH]; intros Hin H.
  - discriminate H.
  - cbn [place_link] in H.
    destruct (replace_first_from (search_re term) _ None content)
      as [tempContent|] eqn:E.
    + injection H as <-.
      apply (settled_inject_one content tempContent term p None Hs Hp Hslug
               (Hin term (or_introl eq_refl)) E).
    + apply IH; [|exact H]. intros t Ht. apply Hin. right. exact Ht.
Qed.

Lemma settled_inject (candidates : list (page * list str)) :
  (forall c, In c candidates -> In c (candidatePages [] pages)) ->
  forall (content : str) (linked : list str) (deficit : Z),
  settled (all_terms pages) content ->
  settled (all_terms pages) (inject candidates content linked deficit).
Proof.
  induction candidates as [|[p terms] rest IH]; intros Hc content linked deficit Hs.
  - exact Hs.
  - cbn [inject].
    assert (Hrest : forall c, In c rest -> In c (candidatePages [] pages)).
    { intros c Hin. apply Hc. right. exact Hin. }
    destruct (deficit <=? 0)%Z; [exact Hs|].
    destruct (set_has linked (slug p)); [apply (IH Hrest), Hs|].
    pose proof (Hc (p, terms) (or_introl eq_refl)) as Hcand.
    destruct (candidatePages_in _ _ _ _ Hcand) as [Hp [Ht Hslug]].
    destruct (place_link p terms content) as [tempContent|] eqn:E.
    + apply (IH Hrest).
      apply (settled_place_link p terms content tempContent Hs Hp Hslug);
        [|exact E].
      intros t Hin. apply all_terms_in. exists p, terms. auto.
    + apply (IH Hrest), Hs.
Qed.

(** The quota step keeps the content settled. *)
Lemma settled_quota (content primaryKeyword : str) (minLinks : nat) :
  settled (all_terms pages) content ->
  settled (all_terms pages)
    (enforceInternalLinkQuota content pages primaryKeyword minLinks).
Proof.
  intros Hs. unfold enforceInternalLinkQuota.
  destruct (length pages =? 0); [exact Hs|].
  destruct (_ <=? 0)%Z; [exact Hs|].
  apply settled_inject; [|exact Hs].
  intros c. apply candidatePages_any.
Qed.

Lemma good_repair_piece (g : piece) :
  good_piece g = true -> good_piece (repair_piece pages g) = true.
Proof.
  intros Hg. destruct g as [s | w1 slug w2 text | body]; try exact Hg.
  cbn [repair_piece]. destruct (slug_map pages !! slug); [exact Hg|].
  cbn [good_piece] in Hg.
  destruct (wf_link_parts _ _ _ _ Hg) as [Hne [Hdq Hbr]].
  destruct (best_match text pages) as [[b|] sc] eqn:Hb;
    [|cbn [good_piece]; apply calm_free, Hbr].
  destruct (50 <? sc)%float; [|cbn [good_piece]; apply calm_free, Hbr].
  apply best_match_in in Hb as [Hin Ht].
  cbn [good_piece]. apply wf_link_space.
  - rewrite <- truthy_nonempty. exact Ht.
  - apply (slugs_quote_free_in pages b slugs_free Hin).
  - exact Hne.
  - exact Hdq.
  - exact Hbr.
Qed.

Lemma repair_piece_render (g : piece) :
  good_piece g = true ->
  flat_map (fun t => match t with
                     | Lit c => [c]
                     | Hit w r => repair pages w r
                     end) (piece_tokens g)
  = render_piece (repair_piece pages g).
Proof.
  intros Hg. destruct g as [s | w1 slug w2 text | body].
  - apply flat_map_lits.
  - cbn [piece_tokens flat_map repair_piece]. rewrite app_nil_r. unfold repair.
    destruct (slug_map pages !! slug); [reflexivity|].
    cbn [good_piece] in Hg.
    destruct (wf_link_parts _ _ _ _ Hg) as [_ [Hdq _]].
    destruct (best_match text pages) as [[b|] sc]; [|reflexivity].
    destruct (50 <? sc)%float; [|reflexivity].
    rewrite (escape_quotes_id text Hdq). apply placeholder_piece.
  - apply flat_map_lits.
Qed.

Lemma repair_pieces (d : list piece) :
  good_doc d = true ->
  replace_all placeholder_re (repair pages) (render_pieces d)
  = render_pieces (map (repair_piece pages) d).
Proof.
  intros Hd. unfold replace_all, tokens.
  rewrite <- (app_nil_r (render_pieces d)), (tokens_pieces d [] None Hd).
  cbn [tokens_from]. rewrite app_nil_r.
  induction d as [|g d IH]; [reflexivity|].
  cbn [good_doc forallb] in Hd. apply andb_true_iff in Hd as [Hg Hd].
  cbn [flat_map map]. rewrite flat_map_app, (IH Hd).
  rewrite (repair_piece_render g Hg). reflexivity.
Qed.

(** The repair step settles a good document in whose tokens no term is
    found. *)
Lemma settled_repair (d : list piece) :
  good_doc d = true ->
  (forall t g, In t (all_terms pages) -> In g d -> is_token g = true ->
     found t (render_piece g) = false) ->
  settled (all_terms pages)
    (validateAndRepairInternalLinks (render_pieces d) pages).
Proof.
  intros Hd Hf.
  assert (Hin : forall t g, In t (all_terms pages) -> In g d ->
                  is_token g = true -> quiet t (render_piece g)).
  { intros t g Ht Hg Htok.
    destruct (token_shape g Htok) as [body E].
    destruct (plain_parts t Ht) as [_ [_ [_ [Tne _]]]].
    rewrite E. apply (token_quiet t body (plain t Ht) Tne).
    rewrite <- E. apply (Hf t g Ht Hg Htok). }
  unfold validateAndRepairInternalLinks.
  destruct (negb (truthy (render_pieces d)) || (length pages =? 0)).
  - exists d. auto.
  - rewrite (repair_pieces d Hd).
    exists (map (repair_piece pages) d). split; [reflexivity|]. split.
    + unfold good_doc in *. rewrite forallb_forall in Hd.
      apply forallb_forall. intros g' Hg'.
      apply in_map_iff in Hg' as [g [<- Hg]].
      apply good_repair_piece, Hd, Hg.
    + intros t g' Ht Hg' Htok.
      apply in_map_iff in Hg' as [g [<- Hg]].
      destruct g as [s | w1 slug w2 text | body].
      * discriminate Htok.
      * cbn [repair_piece] in Htok |- *.
        destruct (slug_map pages !! slug);
          [apply (Hin t _ Ht Hg eq_refl)|].
        destruct (best_match text pages) as [[b|] sc] eqn:Hb;
          [|discriminate Htok].
        destruct (50 <? sc)%float; [|discriminate Htok].
        apply best_match_in in Hb as [Hb _].
        destruct (plain_parts t Ht) as [Tq [_ [_ [_ Tl]]]].
        apply (written_quiet t (Links.slug b) text (plain t Ht) Tl).
        -- apply (slugs_apart t b Ht Hb).
        -- apply (anchor_apart t w1 slug w2 text Tq).
           apply (Hf t _ Ht Hg eq_refl).
      * apply (Hin t _ Ht Hg eq_refl).
Qed.

End QuotaFacts.

Section PipelineFacts.
Import Links LinkDoc RepairDoc TokenDoc.
Variable utm_url : str -> option str.

(** Resolution leaves text and malformed tokens. *)
Lemma resolve_pieces (pages : list page) (d : list piece) :
  urls_resolve utm_url pages -> good_doc d = true ->
  exists d3,
    concat_try (resolve utm_url pages) (flat_map piece_tokens d)
    = Some (render_pieces d3)
    /\ rested d3 = true.
Proof.
  intros Hu. induction d as [|g d IH]; intros Hd.
  - exists []. split; reflexivity.
  - cbn [good_doc forallb] in Hd. apply andb_true_iff in Hd as [Hg Hd].
    destruct (IH Hd) as [d3 [Hout Hr]].
    cbn [flat_map]. destruct g as [s | w1 slug w2 text | body].
    + cbn [piece_tokens render_piece]. rewrite concat_try_lits, Hout.
      exists (Text s :: d3). split; [reflexivity|].
      cbn [rested forallb]. fold (rested d3). rewrite Hr.
      cbn [good_piece] in *. rewrite Hg. reflexivity.
    + destruct (resolve_link utm_url pages w1 slug w2 text Hu Hg) as [x [Hx Hxf]].
      cbn [piece_tokens app concat_try render_piece]. rewrite Hx, Hout.
      exists (Text x :: d3). split; [reflexivity|].
      cbn [rested forallb]. fold (rested d3). rewrite Hr.
      cbn [good_piece]. rewrite (calm_free x Hxf). reflexivity.
    + cbn [piece_tokens]. rewrite concat_try_lits, Hout.
      exists (Broken body :: d3). split; [reflexivity|].
      cbn [rested forallb]. fold (rested d3). rewrite Hr, Hg. reflexivity.
Qed.

Lemma process_pieces (pages : list page) (d : list piece) :
  urls_resolve utm_url pages -> good_doc d = true -> pages <> [] ->
  exists d3,
    processInternalLinks utm_url (render_pieces d) pages
    = Some (render_pieces d3)
    /\ rested d3 = true.
Proof.
  intros Hu Hd Hne. unfold processInternalLinks.
  destruct (render_pieces d) as [|c s] eqn:E.
  - exists []. cbn [truthy negb orb]. split; reflexivity.
  - destruct pages as [|p0 pages0] eqn:Hpages; [congruence|].
    rewrite <- Hpages in *.
    assert ((length pages =? 0) = false) as -> by (rewrite Hpages; reflexivity).
    cbn [truthy negb orb].
    rewrite <- E. unfold replace_all_try, tokens.
    rewrite <- (app_nil_r (render_pieces d)), (tokens_pieces d [] None Hd).
    cbn [tokens_from]. rewrite app_nil_r.
    apply resolve_pieces; assumption.
Qed.

(** The sanitizer's pattern matches a malformed token as a whole. *)
Lemma token_re_broken (body rest : str) p :
  no_ch "]"%char body = true ->
  token_re p (render_piece (Broken body) ++ rest)
  = Some (tt, length (render_piece (Broken body))).
Proof.
  intros Hb. unfold token_re. cbn [render_piece]. rewrite <- !app_assoc.
  rewrite strip_prefix_app.
  unfold no_ch in Hb.
  change (txt "]" ++ rest) with ("]"%char :: rest).
  rewrite (span_app (not_ch "]"%char) body ("]"%char :: rest) Hb) by reflexivity.
  cbn [snd]. f_equal. f_equal.
  replace (txt "[INTERNAL_LINK" ++ body ++ "]"%char :: rest)
    with ((txt "[INTERNAL_LINK" ++ body ++ txt "]") ++ rest)
    by (rewrite <- !app_assoc; reflexivity).
  apply consumed_app.
Qed.

Lemma search_inv {R} (m : matcher R) (s : str) (r : R) p :
  search m p s = Some r ->
  exists a b q n, s = a ++ b /\ m q b = Some (r, n).
Proof.
  revert p. induction s as [|c s IH]; intros p H.
  - cbn in H. destruct (m p []) as [[r0 n]|] eqn:E; [|discriminate H].
    injection H as ->. exists [], [], p, n. auto.
  - cbn [search] in H. destruct (m p (c :: s)) as [[r0 n]|] eqn:E.
    + injection H as ->. exists [], (c :: s), p, n. auto.
    + destruct (IH _ H) as [a [b [q [n [-> Hm]]]]].
      exists (c :: a), b, q, n. auto.
Qed.

Lemma attr_re_inv (name b v : str) q (n : nat) :
  attr_re name q b = Some (v, n) ->
  exists rest, b = name ++ jq "='" ++ v ++ dq :: rest.
Proof.
  unfold attr_re.
  destruct (strip_prefix (name ++ jq "='") b) as [r0|] eqn:E0; [|discriminate].
  destruct (many1 (not_ch dq) r0) as [[v0 r1]|] eqn:E1; [|discriminate].
  destruct (strip_prefix [dq] r1) as [r2|] eqn:E2; [|discriminate].
  intros H. injection H as -> _.
  apply strip_prefix_split in E0, E2. apply many1_inv in E1 as [E1 _].
  exists r2. subst. rewrite <- !app_assoc. reflexivity.
Qed.

(** What the sanitizer puts in place of a malformed token holds no
    opening bracket. *)
Lemma broken_sanitized (body : str) :
  good_piece (Broken body) = true ->
  no_ch "["%char (sanitize_token (render_piece (Broken body)) tt) = true.
Proof.
  cbn [good_piece]. rewrite !andb_true_iff. intros [[[Hopen _] _] Hlack].
  unfold lacks_attribute in Hlack. unfold sanitize_token.
  set (whole := render_piece (Broken body)) in *.
  assert (Htext : forall v, search (attr_re (txt "text")) None whole = Some v ->
                            no_ch "["%char v = true).
  { intros v Hv. apply search_inv in Hv as [a [b [q [n [Hs Hm]]]]].
    apply attr_re_inv in Hm as [rest ->].
    destruct a as [|c a]; [discriminate Hs|].
    unfold whole in Hs. cbn [render_piece] in Hs.
    change (txt "[INTERNAL_LINK") with ("["%char :: txt "INTERNAL_LINK") in Hs.
    apply (f_equal (@tl ascii)) in Hs. cbn [app tl] in Hs.
    assert (Hfree : no_ch "["%char (txt "INTERNAL_LINK" ++ body ++ txt "]") = true).
    { unfold no_ch in *. rewrite !forallb_app, Hopen. reflexivity. }
    rewrite Hs in Hfree. unfold no_ch in *.
    rewrite !forallb_app in Hfree. rewrite !andb_true_iff in Hfree. tauto. }
  destruct (search (attr_re (txt "slug")) None whole) as [[|c1 v1]|];
    destruct (search (attr_re (txt "text")) None whole) as [[|c2 v2]|];
    try reflexivity; try discriminate Hlack; apply Htext; reflexivity.
Qed.

Lemma broken_nonempty (body : str) : render_piece (Broken body) <> [].
Proof.
  cbn [render_piece].
  change (txt "[INTERNAL_LINK") with ("["%char :: txt "INTERNAL_LINK").
  discriminate.
Qed.

(** The sanitizer leaves a calm text of a document without
    placeholders. *)
Lemma sanitize_rested (d : list piece) p :
  rested d = true ->
  calm (flat_map (fun t => match t with
                           | Lit c => [c]
                           | Hit w r => sanitize_token w r
                           end)
          (tokens_from token_re 0 p (render_pieces d))) = true.
Proof.
  induction d as [|g d IH]; intros Hd; [reflexivity|].
  cbn [rested forallb] in Hd. fold (rested d) in Hd.
  apply andb_true_iff in Hd as [Hg Hd].
  cbn [render_pieces flat_map]. fold (render_pieces d).
  destruct g as [s | w1 slug w2 text | body]; [| discriminate Hg |].
  - cbn [render_piece good_piece] in *.
    rewrite (tokens_from_misses token_re s _ p p token_re_blind).
    + rewrite flat_map_app, flat_map_lits. apply calm_app; [exact Hg | apply IH, Hd].
    + intros a1 a2 x E Hne. apply token_re_needs_opener.
      apply (opener_miss s a1 a2 _ Hg E Hne).
  - pose proof Hg as Hg'. cbn [good_piece] in Hg'.
    rewrite !andb_true_iff in Hg'. destruct Hg' as [[[_ Hclose] _] _].
    rewrite (tokens_from_hit token_re _ _ tt p p token_re_blind
               (broken_nonempty body) (token_re_broken body _ p Hclose)).
    cbn [flat_map]. apply calm_app; [|apply IH, Hd].
    apply calm_free, broken_sanitized, Hg.
Qed.

(** C1, amended: with an empty page list the four steps return the
    content as the sanitizer alone leaves it.  With a page list that is
    not empty, whose URLs resolve and whose slugs hold no double quote,
    the four steps leave no token opener in a document made of text in
    which no token opener begins, of well-formed placeholders and of
    malformed tokens, provided that no search term of a candidate page
    holds a double quote or a square bracket, and that no such term is
    found inside a token of the document, inside the slug of a page or
    inside a search term. *)
Theorem pipeline_leaves_no_placeholder (content : str) (pages : list page)
    (primaryKeyword : str) (minLinks : nat) (d : list piece) :
  link_pipeline utm_url content [] primaryKeyword minLinks
  = Some (sanitizeBrokenPlaceholders content)
  /\ (pages <> [] -> urls_resolve utm_url pages ->
      slugs_quote_free pages = true -> good_doc d = true ->
      terms_plain pages = true -> terms_apart pages d = true ->
      exists out,
        link_pipeline utm_url (render_pieces d) pages primaryKeyword minLinks
        = Some out
        /\ count_occ_str (txt "[INTERNAL_LINK") out = 0).
Proof.
  split.
  - unfold link_pipeline, validateAndRepairInternalLinks,
      enforceInternalLinkQuota, processInternalLinks.
    cbn [length Nat.eqb]. rewrite !orb_true_r. reflexivity.
  - intros Hne Hu Hq Hd Hplain Hapart. unfold link_pipeline.
    unfold terms_plain in Hplain. rewrite forallb_forall in Hplain.
    unfold terms_apart in Hapart. rewrite forallb_forall in Hapart.
    assert (H1 : forall t g, In t (all_terms pages) -> In g d ->
                   is_token g = true -> found t (render_piece g) = false).
    { intros t g Ht Hg Htok. specialize (Hapart t Ht).
      rewrite !andb_true_iff in Hapart. destruct Hapart as [[H _] _].
      rewrite forallb_forall in H. specialize (H g Hg).
      rewrite Htok in H. cbn [andb] in H. apply negb_true_iff, H. }
    assert (H2 : forall t p, In t (all_terms pages) -> In p pages ->
                   found_in_value t (slug p) = false).
    { intros t p Ht Hp. specialize (Hapart t Ht).
      rewrite !andb_true_iff in Hapart. destruct Hapart as [[_ H] _].
      rewrite forallb_forall in H. apply negb_true_iff, H, Hp. }
    assert (H3 : forall t t', In t (all_terms pages) ->
                   In t' (all_terms pages) -> found_in_value t t' = false).
    { intros t t' Ht Ht'. specialize (Hapart t Ht).
      rewrite !andb_true_iff in Hapart. destruct Hapart as [_ H].
      rewrite forallb_forall in H. apply negb_true_iff, H, Ht'. }
    pose proof (settled_repair pages Hq Hplain H2 d Hd H1) as Hs.
    apply (settled_quota pages Hq Hplain H2 H3 _ primaryKeyword minLinks) in Hs.
    destruct Hs as [d2 [-> [Hd2 _]]].
    destruct (process_pieces pages d2 Hu Hd2 Hne) as [d3 [-> Hd3]].
    eexists. split; [reflexivity|].
    apply calm_count. unfold sanitizeBrokenPlaceholders, replace_all, tokens.
    apply sanitize_rested, Hd3.
Qed.

End PipelineFacts.

Lemma pipeline_leaves_no_placeholder_witness :
  exists out,
    Links.link_pipeline Examples.append_utm
      (jq "<p>See [1] and [INTERNAL_LINK slug='home'] first, read [INTERNAL_LINK slug='made-up' text='ultimate seo guide'] and learn from The Ultimate SEO Guide today.</p>")
      [Examples.home; Examples.seo_guide] (txt "seo")
      Links.MIN_INTERNAL_LINKS = Some out
    /\ count_occ_str (txt "[INTERNAL_LINK") out = 0.
Proof.
  apply (proj2
           (pipeline_leaves_no_placeholder Examples.append_utm []
              [Examples.home; Examples.seo_guide] (txt "seo")
              Links.MIN_INTERNAL_LINKS
              [TokenDoc.Text (txt "<p>See [1] and ");
               TokenDoc.Broken (jq " slug='home'");
               TokenDoc.Text (txt " first, read ");
               TokenDoc.Valid (txt " ") (txt "made-up") (txt " ")
                 (txt "ultimate seo guide");
               TokenDoc.Text (txt " and learn from The Ultimate SEO Guide today.</p>")])).
  - discriminate.
  - intros p [<- | [<- | []]] _; eexists; split; reflexivity.
  - reflexivity.
  - reflexivity.
  - reflexivity.
  - vm_compute. reflexivity.
Defined.
